(** * redux-logic core: a shallow embedding of the lifecycle engine

    Sources embedded here:
    - [logicWrapper.js]        : [logicWrapper], [matchesType]
    - [createLogicAction$.js]  : the per-action lifecycle closure
    - [createLogicMiddleware.js] : the pending counter, [mw], [applyLogic],
      [naming], [findDuplicates], [addLogic], [mergeNewLogic],
      [replaceLogic], [addDeps], [whenComplete]
    - [createLogic.js]         : [createLogic], [configureLogic]

    The RxJS 5 operators the code is glued from ([Subject], [share],
    [filter], [mergeMap], [merge], [mergeAll], [take], [takeUntil], [do],
    [debounceTime], [throttleTime]) are external to the repository; their
    synchronous delivery semantics is written out as explicit state
    passing over a [World]. *)

From Stdlib Require Import ZArith Ascii String List Bool Lia DecimalString DecimalNat.
From stdpp Require Import base list.
Import ListNotations.
Set Warnings "-register-all".
Local Open Scope string_scope.
Local Open Scope Z_scope.
Local Open Scope list_scope.

(* ===================================================================== *)
(** ** JavaScript values *)
(* ===================================================================== *)

(** How a dispatched observable ends: it completes, it fails with an error
    value, or it stays subscribed and goes on emitting later. *)
Inductive Fate (A : Type) : Type :=
| FComplete
| FError (e : A)
| FOpen.
Arguments FComplete {A}.
Arguments FError {A} e.
Arguments FOpen {A}.

(** The values that flow through the engine.  [VObs items fate] is an
    observable that emits [items] synchronously when subscribed and then
    follows [fate]; [VPromise] is a promise (it never settles
    synchronously).  [VErr] is an object for which [instanceof Error]
    holds. *)
Inductive JsVal : Type :=
| VUndef
| VNull
| VBool (b : bool)
| VNum (n : Z)
| VStr (s : string)
| VObj (props : list (string * JsVal))
| VErr (props : list (string * JsVal))
| VFun (id : nat)
| VObs (items : list JsVal) (fate : Fate JsVal)
| VPromise (id : nat).

(** ToBoolean. *)
Definition truthy (v : JsVal) : bool :=
  match v with
  | VUndef | VNull => false
  | VBool b => b
  | VNum n => negb (n =? 0)
  | VStr s => negb (String.eqb s "")
  | _ => true
  end.

Fixpoint assoc (k : string) (ps : list (string * JsVal)) : JsVal :=
  match ps with
  | [] => VUndef
  | (k', v) :: ps' => if String.eqb k k' then v else assoc k ps'
  end.

(** Property read [v.k]; a missing property reads as [undefined]. *)
Definition get (v : JsVal) (k : string) : JsVal :=
  match v with
  | VObj ps | VErr ps => assoc k ps
  | _ => VUndef
  end.

(** [a === b].  Primitives compare by value; a reference value is
    identified with its contents. *)
Fixpoint strict_eq (a b : JsVal) {struct a} : bool :=
  let props_eq :=
    fix props_eq (p q : list (string * JsVal)) {struct p} : bool :=
      match p, q with
      | [], [] => true
      | (k, v) :: p', (k', v') :: q' =>
          String.eqb k k' && strict_eq v v' && props_eq p' q'
      | _, _ => false
      end in
  let items_eq :=
    fix items_eq (p q : list JsVal) {struct p} : bool :=
      match p, q with
      | [], [] => true
      | v :: p', v' :: q' => strict_eq v v' && items_eq p' q'
      | _, _ => false
      end in
  match a, b with
  | VUndef, VUndef => true
  | VNull, VNull => true
  | VBool x, VBool y => Bool.eqb x y
  | VNum x, VNum y => (x =? y)
  | VStr x, VStr y => String.eqb x y
  | VObj p, VObj q => props_eq p q
  | VErr p, VErr q => props_eq p q
  | VFun x, VFun y => Nat.eqb x y
  | VObs p f, VObs q g =>
      items_eq p q &&
      match f, g with
      | FComplete, FComplete => true
      | FError e, FError e' => strict_eq e e'
      | FOpen, FOpen => true
      | _, _ => false
      end
  | VPromise x, VPromise y => Nat.eqb x y
  | _, _ => false
  end.

Definition isObservable (v : JsVal) : bool :=
  match v with VObs _ _ => true | _ => false end.

Definition isPromise (v : JsVal) : bool :=
  match v with VPromise _ => true | _ => false end.

Definition instanceofError (v : JsVal) : bool :=
  match v with VErr _ => true | _ => false end.

(** [typeof v === 'object' || typeof v === 'function'] *)
Definition typeof_object_or_function (v : JsVal) : bool :=
  match v with
  | VNull | VObj _ | VErr _ | VFun _ | VObs _ _ | VPromise _ => true
  | _ => false
  end.

(* ===================================================================== *)
(** ** logicWrapper.js: [matchesType] *)
(* ===================================================================== *)

(** What a unit may declare as [type] / [cancelType] after [createLogic]:
    nothing, a string, an array of patterns, or a value with a [test]
    method (a regular expression).  [PTest test] is a regular expression
    without the [g] and the [y] flag: its [test] is then a function of
    its argument alone.  With one of these flags [test] starts at the
    [lastIndex] of the expression and moves it; [Stateful.matchesType]
    below has that state, and is [matchesType] on the patterns that carry
    no such flag. *)
Inductive Pattern : Type :=
| PAbsent
| PStr (s : string)
| PArr (members : list Pattern)
| PTest (test : JsVal -> bool).

(** ToBoolean of a pattern: only [undefined] and the empty string are
    falsy; an array (even empty) and a regular expression are truthy. *)
Definition pattern_truthy (p : Pattern) : bool :=
  match p with
  | PAbsent => false
  | PStr s => negb (String.eqb s "")
  | _ => true
  end.

Fixpoint matchesType (tStrArrRe : Pattern) (type : JsVal) : bool :=
  if negb (pattern_truthy tStrArrRe) then false else
  match tStrArrRe with
  | PAbsent => false
  | PStr s => strict_eq (VStr s) type || String.eqb s "*"
  | PArr members => existsb (fun x => matchesType x type) members
  | PTest test => test type
  end.

(** The rules of the matcher as the specification words them. *)
Inductive Matches (t : string) : Pattern -> Prop :=
| Matches_wildcard : Matches t (PStr "*")
| Matches_exact s : s <> "" -> s = t -> Matches t (PStr s)
| Matches_test test : test (VStr t) = true -> Matches t (PTest test)
| Matches_member members x :
    In x members -> Matches t x -> Matches t (PArr members).

(* ===================================================================== *)
(** ** logicWrapper.js: [matchesType] with the state of [RegExp.test] *)
(* ===================================================================== *)

Module Stateful.

(** A regular expression object as [test] uses it.  [re_flagged]: the
    [g] or the [y] flag is set.  [re_search i type]: the search of
    [RegExpBuiltinExec] for a match in [ToString(type)] from index [i]
    on (at [i] only, for a sticky expression); it gives the index at
    which the match ends. *)
Record RegExp := {
  re_flagged : bool;
  re_search : nat -> JsVal -> option nat
}.

(** [re.test(type)] for an expression whose [lastIndex] is [lastIndex]:
    the answer, and what is assigned to [lastIndex] if anything is.
    Without the two flags the search starts at 0 and [lastIndex] is
    left alone (an engine older than ES2017 assigns 0 to it when the
    search fails, the value it has unless a program assigned another);
    with one of them it starts at [lastIndex], which a match moves to
    its end and a failure sets back to 0. *)
Definition test (re : RegExp) (type : JsVal) (lastIndex : nat) : bool * option nat :=
  if re_flagged re then
    match re_search re lastIndex type with
    | Some e => (true, Some e)
    | None => (false, Some 0%nat)
    end
  else
    match re_search re 0%nat type with
    | Some _ => (true, None)
    | None => (false, None)
    end.

(** A pattern as the source has it: a regular expression is an object,
    given by its identity, and the same object can occur more than
    once. *)
Inductive SPattern : Type :=
| SAbsent
| SStr (s : string)
| SArr (members : list SPattern)
| SRe (id : nat).

(** The [lastIndex] of every regular expression object. *)
Definition Indexes := nat -> nat.

Definition set_lastIndex (id e : nat) (st : Indexes) : Indexes :=
  fun j => if Nat.eqb j id then e else st j.

Section Matching.

(** The regular expression objects. *)
Variable regs : nat -> RegExp.

(** No regular expression of the pattern has the [g] or the [y] flag. *)
Fixpoint flagless (p : SPattern) : bool :=
  match p with
  | SArr members => forallb flagless members
  | SRe id => negb (re_flagged (regs id))
  | _ => true
  end.

(** The pattern with every regular expression taken as the function
    its [test] is when started at index 0. *)
Fixpoint pure (p : SPattern) : Pattern :=
  match p with
  | SAbsent => PAbsent
  | SStr s => PStr s
  | SArr members => PArr (map pure members)
  | SRe id =>
      PTest (fun type => match re_search (regs id) 0%nat type with
                         | Some _ => true
                         | None => false
                         end)
  end.

(** [matchesType(tStrArrRe, type)] with the [lastIndex] of the regular
    expressions before and after; [some] stops at the first member that
    matches. *)
Fixpoint matchesType (tStrArrRe : SPattern) (type : JsVal) (st : Indexes)
  : bool * Indexes :=
  match tStrArrRe with
  | SAbsent => (false, st)
  | SStr s =>
      if String.eqb s "" then (false, st)
      else (strict_eq (VStr s) type || String.eqb s "*", st)
  | SArr members =>
      (fix some (l : list SPattern) (st : Indexes) : bool * Indexes :=
         match l with
         | [] => (false, st)
         | x :: rest =>
             let (b, st') := matchesType x type st in
             if b then (true, st') else some rest st'
         end) members st
  | SRe id =>
      let (b, assigned) := test (regs id) type (st id) in
      (b, match assigned with
          | Some e => set_lastIndex id e st
          | None => st
          end)
  end.

End Matching.

(** [/FOO/g]: the search for the three characters from an index on. *)
Definition foo_g : RegExp :=
  {| re_flagged := true;
     re_search := fun i type =>
       match type with
       | VStr s => option_map (fun k => (k + 3)%nat) (String.index i "FOO" s)
       | _ => None
       end |}.

End Stateful.

(* ===================================================================== *)
(** ** createLogicMiddleware.js: the store guard of [mw] *)
(* ===================================================================== *)

Module Middleware.

(** A store is an object; [!==] compares references. *)
Definition StoreRef := nat.

Record MwState := { savedStore : option StoreRef }.

Definition multiple_stores_msg : string :=
  "cannot assign logicMiddleware instance to multiple stores, create separate instance for each".

(** [mw(store)]: the guard and the assignment [savedStore = store]. *)
Definition mw (store : StoreRef) (st : MwState) : MwState + string :=
  match savedStore st with
  | Some s =>
      if negb (Nat.eqb s store) then inr multiple_stores_msg
      else inl {| savedStore := Some store |}
  | None => inl {| savedStore := Some store |}
  end.

(** Applying [mw] to a list of stores in turn; a throwing call leaves the
    state as it was.  Returns the stores that were accepted. *)
Fixpoint attach_all (stores : list StoreRef) (st : MwState) : list StoreRef :=
  match stores with
  | [] => []
  | s :: rest =>
      match mw s st with
      | inl st' => s :: attach_all rest st'
      | inr _ => attach_all rest st
      end
  end.

End Middleware.

(* ===================================================================== *)
(** ** Monitor events and the pending counter *)
(* ===================================================================== *)

(** What [monitor$] carries.  The [inst] field stands for the identity of
    the lifecycle closure that emitted the event (in the source: the
    [action] object and the unit [name] the event is tagged with). *)
Inductive MonitorEvent : Type :=
| EvTop (action : JsVal)
| EvBegin (inst : nat) (action : JsVal)
| EvNext (inst : nat) (action nextAction : JsVal) (shouldProcess : bool)
| EvNextDisp (inst : nat) (action dispAction : JsVal) (shouldProcess : bool)
| EvFiltered (inst : nat) (action : JsVal) (shouldProcess : bool)
| EvCancelled (inst : nat) (action : JsVal)
| EvDispCancelled (inst : nat) (action : JsVal)
| EvDispatch (inst : nat) (action dispAction : JsVal)
| EvEnd (inst : nat) (action : JsVal)
| EvNextError (action err : JsVal)
| EvBottom (nextAction : JsVal).

Definition op (x : MonitorEvent) : string :=
  match x with
  | EvTop _ => "top"
  | EvBegin _ _ => "begin"
  | EvNext _ _ _ _ => "next"
  | EvNextDisp _ _ _ _ => "nextDisp"
  | EvFiltered _ _ _ => "filtered"
  | EvCancelled _ _ => "cancelled"
  | EvDispCancelled _ _ => "dispCancelled"
  | EvDispatch _ _ _ => "dispatch"
  | EvEnd _ _ => "end"
  | EvNextError _ _ => "nextError"
  | EvBottom _ => "bottom"
  end.

Definition op_in (o : string) (cases : list string) : bool :=
  existsb (String.eqb o) cases.

(** The accumulator of [monitor$.scan]: the [switch (x.op)]. *)
Definition scan_step (pending : Z) (x : MonitorEvent) : Z :=
  if op_in (op x) ["top"; "begin"] then pending + 1
  else if op_in (op x)
            ["end"; "bottom"; "nextDisp"; "filtered"; "dispatchError"; "cancelled"]
       then pending - 1
  else pending.

(** [pending] of the last value [lastPending$] holds after [events]. *)
Definition pendingCount (events : list MonitorEvent) : Z :=
  fold_left scan_step events 0.

(** Every value of [pending] the scan emits, one per event. *)
Fixpoint pending_from (acc : Z) (events : list MonitorEvent) : list Z :=
  match events with
  | [] => []
  | x :: rest => scan_step acc x :: pending_from (scan_step acc x) rest
  end.

Definition pending_trace (events : list MonitorEvent) : list Z :=
  pending_from 0 events.

(* ===================================================================== *)
(** ** Unit definitions *)
(* ===================================================================== *)

(** [successType] / [failType]: a literal type or an action creator. *)
Inductive TypeSpec : Type :=
| TStr (s : string)
| TFn (f : JsVal -> JsVal).

Definition typespec_truthy (t : option TypeSpec) : bool :=
  match t with
  | None => false
  | Some (TStr s) => negb (String.eqb s "")
  | Some (TFn _) => true
  end.

Record ProcessOptions := {
  dispatchReturn : bool;
  dispatchMultiple : bool;
  successType : option TypeSpec;
  failType : option TypeSpec
}.

(** A call the intercept hook makes on the callbacks it was handed; the
    options argument is its [useDispatch] when one is given.  A hook is
    given by the calls it makes on its own callbacks while it runs, after
    which it returns: a hook that throws, and a hook that while it runs
    reaches for the callbacks or the queue of another closure, are not
    among the hooks of this embedding. *)
Inductive InterceptCall : Type :=
| CAllow (act : JsVal) (options : option JsVal)
| CReject (act : JsVal) (options : option JsVal).

(** A call the process hook makes on [dispatch] / [done]; the options
    argument of [dispatch] is its [allowMore] when one is given. *)
Inductive ProcessCall : Type :=
| PDispatch (act : JsVal) (options : option bool)
| PDone.

Inductive ProcessOutcome : Type :=
| PReturn (retValue : JsVal)
| PThrow (err : JsVal).

(** What one synchronous run of the process hook does. *)
Record ProcessScript := {
  p_calls : list ProcessCall;
  p_outcome : ProcessOutcome
}.

(** The unit as [createLogic] hands it over.  A hook is given by what it
    does synchronously for the action in its [depObj]; what it does later
    comes in as an [EnvEvent]. *)
Record Logic := {
  l_type : Pattern;
  l_cancelType : Pattern;
  l_latest : bool;
  l_debounce : nat;
  l_throttle : nat;
  l_intercept : JsVal -> list InterceptCall;
  l_process : JsVal -> ProcessScript;
  l_processOptions : ProcessOptions;
  l_warnTimeout : nat
}.

(* ===================================================================== *)
(** ** The world the streams live in *)
(* ===================================================================== *)

(** The mutable state of one [createLogicAction$] closure together with
    the state of the subscriptions it owns. *)
Record Instance := mkInstance {
  i_stage : nat;             (* position of its unit in the pipeline *)
  i_action : JsVal;          (* the closure's [action] *)
  interceptComplete : bool;
  outStopped : bool;         (* logicAction$ has emitted (take 1), completed or been cut *)
  cancelledStopped : bool;   (* cancelled$ has fired or completed *)
  dispStopped : bool;        (* the Subject behind dispatch$ is stopped *)
  dispActive : nat;          (* inner observables mergeAll is still subscribed to *)
  dispClosed : bool;         (* the subscriber of dispatch$ got error or complete *)
  warnArmed : bool           (* the warnTimeout timer is pending *)
}.

Definition set_interceptComplete (b : bool) (x : Instance) : Instance :=
  mkInstance (i_stage x) (i_action x) b (outStopped x) (cancelledStopped x)
             (dispStopped x) (dispActive x) (dispClosed x) (warnArmed x).
Definition set_outStopped (b : bool) (x : Instance) : Instance :=
  mkInstance (i_stage x) (i_action x) (interceptComplete x) b (cancelledStopped x)
             (dispStopped x) (dispActive x) (dispClosed x) (warnArmed x).
Definition set_cancelledStopped (b : bool) (x : Instance) : Instance :=
  mkInstance (i_stage x) (i_action x) (interceptComplete x) (outStopped x) b
             (dispStopped x) (dispActive x) (dispClosed x) (warnArmed x).
Definition set_dispStopped (b : bool) (x : Instance) : Instance :=
  mkInstance (i_stage x) (i_action x) (interceptComplete x) (outStopped x)
             (cancelledStopped x) b (dispActive x) (dispClosed x) (warnArmed x).
Definition set_dispActive (n : nat) (x : Instance) : Instance :=
  mkInstance (i_stage x) (i_action x) (interceptComplete x) (outStopped x)
             (cancelledStopped x) (dispStopped x) n (dispClosed x) (warnArmed x).
Definition set_dispClosed (b : bool) (x : Instance) : Instance :=
  mkInstance (i_stage x) (i_action x) (interceptComplete x) (outStopped x)
             (cancelledStopped x) (dispStopped x) (dispActive x) b (warnArmed x).
Definition set_warnArmed (b : bool) (x : Instance) : Instance :=
  mkInstance (i_stage x) (i_action x) (interceptComplete x) (outStopped x)
             (cancelledStopped x) (dispStopped x) (dispActive x) (dispClosed x) b.

(** State of [debounceTime] / [throttleTime] in front of one unit. *)
Record Limiter := mkLimiter {
  debounced : option JsVal;   (* the value the debounce timer will emit *)
  throttled : bool            (* the throttle window is open *)
}.

Inductive ConsoleMsg : Type :=
| CWarnTimeout (inst : nat)
| CUnhandledException (inst : nat) (err : JsVal)
| CNextError (err : JsVal).

Record World := mkWorld {
  monitor : list MonitorEvent;        (* all that monitor$ emitted, oldest first *)
  console : list ConsoleMsg;          (* console.error calls *)
  consumer : list JsVal;              (* arguments [next] was called with *)
  processCalls : list (nat * JsVal);  (* process hook runs: closure, depObj.action *)
  insts : list Instance;
  limiters : nat -> Limiter
}.

Definition init_world : World :=
  mkWorld [] [] [] [] [] (fun _ => mkLimiter None false).

(** *** Computations: state, a thrown exception, or out of fuel *)

Inductive Res (A : Type) : Type :=
| Ok (a : A) (w : World)
| Thrown (e : JsVal) (w : World)
| Halted (w : World).
Arguments Ok {A} a w.
Arguments Thrown {A} e w.
Arguments Halted {A} w.

Definition M (A : Type) : Type := World -> Res A.

Definition ret {A} (a : A) : M A := fun w => Ok a w.

Definition bind {A B} (m : M A) (f : A -> M B) : M B :=
  fun w =>
    match m w with
    | Ok a w' => f a w'
    | Thrown e w' => Thrown e w'
    | Halted w' => Halted w'
    end.

Definition throw {A} (e : JsVal) : M A := fun w => Thrown e w.

Definition halt {A} : M A := fun w => Halted w.

(** [try { m } catch (e) { handler e }] *)
Definition try_catch {A} (m : M A) (handler : JsVal -> M A) : M A :=
  fun w =>
    match m w with
    | Thrown e w' => handler e w'
    | r => r
    end.

Declare Scope engine_scope.
Delimit Scope engine_scope with engine.
Notation "x <- m ;; k" := (bind m (fun x => k))
  (at level 100, m at next level, right associativity) : engine_scope.
Notation "m ;; k" := (bind m (fun _ => k))
  (at level 100, right associativity) : engine_scope.
Local Open Scope engine_scope.

Definition world_of {A} (r : Res A) : World :=
  match r with Ok _ w | Thrown _ w | Halted w => w end.

Definition is_halted {A} (r : Res A) : bool :=
  match r with Halted _ => true | _ => false end.

Definition is_thrown {A} (r : Res A) : bool :=
  match r with Thrown _ _ => true | _ => false end.

Definition modify (f : World -> World) : M unit := fun w => Ok tt (f w).

(** [monitor$.next(e)] *)
Definition monitor_next (e : MonitorEvent) : M unit :=
  modify (fun w => mkWorld (monitor w ++ [e]) (console w) (consumer w)
                           (processCalls w) (insts w) (limiters w)).

Definition console_error (m : ConsoleMsg) : M unit :=
  modify (fun w => mkWorld (monitor w) (console w ++ [m]) (consumer w)
                           (processCalls w) (insts w) (limiters w)).

Definition consumer_push (a : JsVal) : M unit :=
  modify (fun w => mkWorld (monitor w) (console w) (consumer w ++ [a])
                           (processCalls w) (insts w) (limiters w)).

Definition process_push (i : nat) (a : JsVal) : M unit :=
  modify (fun w => mkWorld (monitor w) (console w) (consumer w)
                           (processCalls w ++ [(i, a)]) (insts w) (limiters w)).

Definition set_insts (l : list Instance) (w : World) : World :=
  mkWorld (monitor w) (console w) (consumer w) (processCalls w) l (limiters w).

Definition upd_inst (i : nat) (f : Instance -> Instance) : M unit :=
  modify (fun w => set_insts (alter f i (insts w)) w).

Definition push_inst (x : Instance) : M unit :=
  modify (fun w => set_insts (insts w ++ [x]) w).

Definition set_limiter (k : nat) (l : Limiter) : M unit :=
  modify (fun w => mkWorld (monitor w) (console w) (consumer w) (processCalls w)
                           (insts w)
                           (fun j => if Nat.eqb j k then l else limiters w j)).

(** Run [f] on the current state of closure [i]; a closure that was never
    created has no subscriptions, so nothing happens. *)
Definition with_inst (i : nat) (f : Instance -> M unit) : M unit :=
  fun w =>
    match insts w !! i with
    | Some x => f x w
    | None => Ok tt w
    end.

(* ===================================================================== *)
(** ** createLogicAction$.js: the lifecycle closure *)
(* ===================================================================== *)

Definition UNHANDLED_LOGIC_ERROR : string := "UNHANDLED_LOGIC_ERROR".

Definition mapToAction (type : TypeSpec) (payload : JsVal) (err : bool) : JsVal :=
  match type with
  | TFn f => f payload
  | TStr s =>
      VObj ([("type", VStr s); ("payload", payload)]
              ++ (if err then [("error", VBool true)] else []))
  end.

Definition wrapActionForIntercept (act : JsVal) : JsVal :=
  if negb (truthy act) then act
  else VObj [("__interceptAction", act)].

(** [act && act.__interceptAction], as the condition it is used for. *)
Definition isInterceptAction (act : JsVal) : bool :=
  truthy act && truthy (get act "__interceptAction").

Definition unwrapInterceptAction (act : JsVal) : JsVal :=
  get act "__interceptAction".

Definition applyAllowRejectNextDefaults (options : option JsVal) : JsVal :=
  match options with
  | Some useDispatch => useDispatch
  | None => VStr "auto"
  end.

Definition applyDispatchDefaults (options : option bool) : bool :=
  match options with
  | Some allowMore => allowMore
  | None => false
  end.

(** The observable [dispatch] hands to [dispatch$.next]: what it emits on
    subscription and how it ends. *)
Definition as_observable (act : JsVal) : list JsVal * Fate JsVal :=
  match act with
  | VObs items fate => (items, fate)          (* isObservable(act) *)
  | VPromise _ => ([], FOpen)                 (* Observable.fromPromise(act) *)
  | VErr _ => ([], FError act)                (* Observable.throw(act) *)
  | _ => ([act], FComplete)                   (* Observable.of(act) *)
  end.

(** The generic error action of [mapErrorToActionAndDispatch]. *)
Definition unhandled_action (actionOrValue : JsVal) : JsVal :=
  VObj [("type", VStr UNHANDLED_LOGIC_ERROR);
        ("payload", actionOrValue);
        ("error", VBool true)].

(** [if (successType)] / [if (failType)]: the option when it is truthy. *)
Definition configured (t : option TypeSpec) : option TypeSpec :=
  if typespec_truthy t then t else None.

Section Lifecycle.

Variable production : bool.                      (* NODE_ENV === 'production' *)
Variable store_dispatch : JsVal -> M unit.       (* store.dispatch *)

Section Closure.

Variable logic : Logic.
Variable action : JsVal.
Variable self : nat.
(** Where a value emitted by [logicAction$] goes: into the next unit. *)
Variable downstream : JsVal -> M unit.

(** [cancelled$.complete(); cancelled$.unsubscribe()]; the timer's
    [takeUntil(cancelled$.defaultIfEmpty(true))] fires with it. *)
Definition cancelled_complete : M unit :=
  upd_inst self (fun x => set_warnArmed false (set_cancelledStopped true x)).

(** The [error] and [complete] handlers of the subscription to
    [dispatch$]: both emit [end] and release [cancelled$]. *)
Definition dispatch_end : M unit :=
  monitor_next (EvEnd self action);;
  cancelled_complete.

(** The subscriber of [dispatch$] is notified of error or completion
    once; afterwards the chain is unsubscribed. *)
Definition dispatch_terminate : M unit :=
  with_inst self (fun x =>
    if dispClosed x then ret tt
    else upd_inst self (set_dispClosed true);; dispatch_end).

Definition storeDispatch (act : JsVal) : M unit :=
  monitor_next (EvDispatch self action act);;
  store_dispatch act.

Definition mapToActionAndDispatch (actionOrValue : JsVal) : M unit :=
  let act :=
    if isInterceptAction actionOrValue then unwrapInterceptAction actionOrValue
    else match configured (successType (l_processOptions logic)) with
         | Some st => mapToAction st actionOrValue false
         | None => actionOrValue
         end in
  if truthy act then storeDispatch act else ret tt.

Definition mapErrorToActionAndDispatch (actionOrValue : JsVal) : M unit :=
  if isInterceptAction actionOrValue then
    storeDispatch (unwrapInterceptAction actionOrValue)
  else
    match configured (failType (l_processOptions logic)) with
    | Some ft =>
        let act := mapToAction ft actionOrValue true in
        if truthy act then storeDispatch act else ret tt
    | None =>
        if instanceofError actionOrValue then
          storeDispatch (if truthy (get actionOrValue "type")
                         then actionOrValue
                         else unhandled_action actionOrValue)
        else if truthy actionOrValue && typeof_object_or_function actionOrValue then
          storeDispatch actionOrValue
        else
          storeDispatch (unhandled_action actionOrValue)
    end.

(** [.do(mapToActionAndDispatch, mapErrorToActionAndDispatch)]: a
    handler that throws turns the notification into an error of the
    stream, which ends the subscription. *)
Definition tap_next (v : JsVal) : M unit :=
  try_catch (mapToActionAndDispatch v) (fun _ => dispatch_terminate).

Definition tap_error (e : JsVal) : M unit :=
  try_catch (mapErrorToActionAndDispatch e) (fun _ => ret tt);;
  dispatch_terminate.

(** The values an inner observable emits on subscription, as long as
    the chain is still subscribed. *)
Fixpoint inner_items (items : list JsVal) : M unit :=
  match items with
  | [] => ret tt
  | v :: rest =>
      with_inst self (fun x =>
        if dispClosed x then ret tt
        else tap_next v;; inner_items rest)
  end.

(** An inner observable of [mergeAll] completes. *)
Definition inner_complete : M unit :=
  with_inst self (fun x =>
    if dispClosed x then ret tt
    else
      upd_inst self (set_dispActive (pred (dispActive x)));;
      if dispStopped x && Nat.eqb (pred (dispActive x)) 0
      then dispatch_terminate else ret tt).

(** An inner observable of [mergeAll] fails. *)
Definition inner_error (e : JsVal) : M unit :=
  with_inst self (fun x =>
    if dispClosed x then ret tt else tap_error e).

(** [dispatch$.next(obs)]: the Subject hands [obs] to [mergeAll], which
    subscribes to it at once. *)
Definition dispatch_next (obs : list JsVal * Fate JsVal) : M unit :=
  with_inst self (fun x =>
    if dispStopped x || dispClosed x then ret tt
    else
      upd_inst self (set_dispActive (S (dispActive x)));;
      inner_items (fst obs);;
      match snd obs with
      | FComplete => inner_complete
      | FError e => inner_error e
      | FOpen => ret tt
      end).

(** [dispatch$.complete()]: [mergeAll] completes once no inner
    observable is left. *)
Definition dispatch_complete : M unit :=
  with_inst self (fun x =>
    if dispStopped x then ret tt
    else
      upd_inst self (set_dispStopped true);;
      if Nat.eqb (dispActive x) 0 then dispatch_terminate else ret tt).

Definition dispatch (act : JsVal) (options : option bool) : M unit :=
  let allowMore := applyDispatchDefaults options in
  (match act with
   | VUndef => ret tt
   | _ => dispatch_next (as_observable act)
   end);;
  if negb (dispatchMultiple (l_processOptions logic) || allowMore)
  then dispatch_complete
  else ret tt.

Definition done : M unit := dispatch_complete.

Definition shouldDispatch (act useDispatch : JsVal) : JsVal :=
  if negb (truthy act) then VBool false
  else if strict_eq useDispatch (VStr "auto")
  then VBool (negb (strict_eq (get act "type") (get action "type")))
  else useDispatch.

(** [logicActionObs.next(act)] through [takeUntil(cancel$).take(1)]. *)
Definition logicActionObs_next (act : JsVal) : M unit :=
  with_inst self (fun x =>
    if outStopped x then ret tt
    else upd_inst self (set_outStopped true);; downstream act).

Definition logicActionObs_complete : M unit :=
  upd_inst self (set_outStopped true).

Definition postIfDefinedOrComplete (act : JsVal) : M unit :=
  (if truthy act then logicActionObs_next act else ret tt);;
  upd_inst self (set_interceptComplete true);;
  logicActionObs_complete.

(** One synchronous run of [processFn(depObj, dispatch, done)]. *)
Fixpoint run_calls (calls : list ProcessCall) : M unit :=
  match calls with
  | [] => ret tt
  | PDispatch act options :: rest => dispatch act options;; run_calls rest
  | PDone :: rest => done;; run_calls rest
  end.

Definition processFn (depObj_action : JsVal) : M JsVal :=
  process_push self depObj_action;;
  run_calls (p_calls (l_process logic depObj_action));;
  match p_outcome (l_process logic depObj_action) with
  | PReturn retValue => ret retValue
  | PThrow err => throw err
  end.

(** The [if (shouldProcess) { try { ... } catch ... } else { ... }]
    at the end of [handleNextOrDispatch]. *)
Definition process_or_complete (shouldProcess : bool) (act : JsVal) : M unit :=
  if shouldProcess then
    try_catch
      (retValue <- processFn (if truthy act then act else action);;
       if dispatchReturn (l_processOptions logic) then
         match retValue with
         | VUndef => dispatch_complete
         | _ => dispatch retValue None
         end
       else ret tt)
      (fun err =>
         console_error (CUnhandledException self err);;
         dispatch (VObs [] (FError err)) None)
  else dispatch_complete.

Definition handleNextOrDispatch
           (shouldProcess : bool) (act : JsVal) (options : option JsVal) : M unit :=
  let useDispatch := applyAllowRejectNextDefaults options in
  (if truthy (shouldDispatch act useDispatch) then
     monitor_next (EvNextDisp self action act shouldProcess);;
     upd_inst self (set_interceptComplete true);;
     dispatch (wrapActionForIntercept act) (Some true);;
     logicActionObs_complete
   else
     (if truthy act then
        monitor_next (EvNext self action act shouldProcess)
      else
        monitor_next (EvFiltered self action shouldProcess);;
        upd_inst self (set_interceptComplete true));;
     postIfDefinedOrComplete act);;
  process_or_complete shouldProcess act.

Definition allow (act : JsVal) (options : option JsVal) : M unit :=
  handleNextOrDispatch true act options.

Definition reject (act : JsVal) (options : option JsVal) : M unit :=
  handleNextOrDispatch false act options.

(** [start()]: the intercept hook runs and calls back. *)
Fixpoint run_intercept (calls : list InterceptCall) : M unit :=
  match calls with
  | [] => ret tt
  | CAllow act options :: rest => allow act options;; run_intercept rest
  | CReject act options :: rest => reject act options;; run_intercept rest
  end.

(** [cancel$] emits: its three subscribers in this closure, in the
    order they subscribed: the [takeUntil] on [logicAction$], the
    [cancelled$] subject, the [takeUntil] on [dispatch$]. *)
Definition cancel_signal : M unit :=
  upd_inst self (set_outStopped true);;
  with_inst self (fun x =>
    if cancelledStopped x then ret tt
    else
      (if negb (interceptComplete x)
       then monitor_next (EvCancelled self action)
       else monitor_next (EvDispCancelled self action));;
      upd_inst self (fun y => set_warnArmed false (set_cancelledStopped true y)));;
  dispatch_terminate.

(** The [warnTimeout] timer fires. *)
Definition warn_timer : M unit :=
  with_inst self (fun x =>
    if warnArmed x then
      upd_inst self (set_warnArmed false);;
      console_error (CWarnTimeout self)
    else ret tt).

End Closure.

(** [createLogicAction$({ action, logic, ... })] and its subscription by
    [mergeMap]. *)
Definition createLogicAction
           (stage : nat) (logic : Logic) (downstream : JsVal -> M unit)
           (action : JsVal) : M unit :=
  fun w =>
    let self := length (insts w) in
    (monitor_next (EvBegin self action);;
     push_inst (mkInstance stage action false false false false 0 false
                  (negb production && negb (Nat.eqb (l_warnTimeout logic) 0)));;
     run_intercept logic action self downstream (l_intercept logic action)) w.

End Lifecycle.

(* ===================================================================== *)
(** ** logicWrapper.js: one unit wrapped around the action stream *)
(* ===================================================================== *)

(** What [[].concat(x)] appends: the members of an array, or the value. *)
Definition concat_arg (p : Pattern) : list Pattern :=
  match p with
  | PArr members => members
  | _ => [p]
  end.

(** [[].concat((type && latest) ? type : []).concat(cancelType || [])] *)
Definition cancelTypes (logic : Logic) : list Pattern :=
  concat_arg (if pattern_truthy (l_type logic) && l_latest logic
              then l_type logic else PArr [])
  ++ concat_arg (if pattern_truthy (l_cancelType logic)
                 then l_cancelType logic else PArr []).

(** The predicate of [cancel$]; with no cancel types [cancel$] never
    emits. *)
Definition cancels (logic : Logic) (a : JsVal) : bool :=
  negb (Nat.eqb (length (cancelTypes logic)) 0)
  && matchesType (PArr (cancelTypes logic)) (get a "type").

Section Pipeline.

Variable production : bool.
Variable store_dispatch : JsVal -> M unit.
Variable nextThrows : JsVal -> option JsVal.   (* what [next(action)] throws, if it does *)

(** [next(action)], the downstream consumer. *)
Definition call_next (a : JsVal) : M unit :=
  consumer_push a;;
  match nextThrows a with
  | Some err => throw err
  | None => ret tt
  end.

(** [(err && err.message) ? err.message : err] *)
Definition error_message (err : JsVal) : JsVal :=
  if truthy err && truthy (get err "message") then get err "message" else err.

(** The subscriber of [actionOut$] in [applyLogic]. *)
Definition bottom (a : JsVal) : M unit :=
  try_catch (call_next a)
    (fun err =>
       console_error (CNextError err);;
       monitor_next (EvNextError a (error_message err)));;
  monitor_next (EvBottom a).

(** [throttleTime]: the first value of a window passes and opens it. *)
Definition throttling (stage : nat) (logic : Logic)
           (k : JsVal -> M unit) (a : JsVal) : M unit :=
  if Nat.eqb (l_throttle logic) 0 then k a
  else fun w =>
    if throttled (limiters w stage) then Ok tt w
    else (set_limiter stage (mkLimiter (debounced (limiters w stage)) true);; k a) w.

(** [debounceTime]: a value replaces the pending one and restarts the
    timer. *)
Definition debouncing (stage : nat) (logic : Logic)
           (k : JsVal -> M unit) (a : JsVal) : M unit :=
  if Nat.eqb (l_debounce logic) 0 then k a
  else fun w =>
    set_limiter stage (mkLimiter (Some a) (throttled (limiters w stage))) w.

(** [limiting = act => throttling(debouncing(act))] *)
Definition limiting (stage : nat) (logic : Logic)
           (k : JsVal -> M unit) (a : JsVal) : M unit :=
  debouncing stage logic (throttling stage logic k) a.

(** [cancel$] emits to the closures that were subscribed to it when the
    action arrived: those with an index below [n] that belong to this
    unit. *)
Fixpoint cancel_closures (stage : nat) (ids : list nat) : M unit :=
  match ids with
  | [] => ret tt
  | i :: rest =>
      with_inst i (fun x =>
        if Nat.eqb (i_stage x) stage
        then cancel_signal (i_action x) i
        else ret tt);;
      cancel_closures stage rest
  end.

(** [wrappedLogic(actionIn$)] for every unit from [stage] on, ending in
    the subscriber of [applyLogic].  The shared [action$] hands the
    action to its subscribers in the order they subscribed: the
    non-matching filter, the matching filter, then the [cancel$]
    subscriptions of the closures alive at that moment.  The filters
    read [action.type]: the action is a value of which a property can be
    read.  For [null] and [undefined] the first filter throws instead,
    which is not embedded here ([nullish] tells these two apart). *)
Fixpoint deliver (stage : nat) (stages : list Logic) (a : JsVal) : M unit :=
  match stages with
  | [] => bottom a
  | logic :: rest =>
      fun w =>
        let n := length (insts w) in
        ((if negb (matchesType (l_type logic) (get a "type"))
          then deliver (S stage) rest a
          else ret tt);;
         (if matchesType (l_type logic) (get a "type")
          then limiting stage logic
                 (createLogicAction production store_dispatch stage logic
                    (deliver (S stage) rest)) a
          else ret tt);;
         (if cancels logic a
          then cancel_closures stage (seq 0 n)
          else ret tt)) w
  end.

End Pipeline.

(* ===================================================================== *)
(** ** createLogicMiddleware.js: the middleware around the pipeline *)
(* ===================================================================== *)

Record Config := {
  pipeline : list Logic;               (* arrLogic *)
  cfg_production : bool;
  storeThrows : JsVal -> option JsVal; (* what store.dispatch throws before it
                                          reaches this middleware, if it does *)
  cfg_nextThrows : JsVal -> option JsVal
}.

(** The function [mw(store)(next)] returns, which is also where
    [store.dispatch] arrives.  Each nested [store.dispatch] uses one unit of
    [fuel]. *)
Fixpoint entry (cfg : Config) (fuel : nat) (a : JsVal) : M unit :=
  match fuel with
  | O => halt
  | S fuel' =>
      monitor_next (EvTop a);;
      deliver (cfg_production cfg)
        (fun act =>
           match storeThrows cfg act with
           | Some err => throw err
           | None => entry cfg fuel' act
           end)
        (cfg_nextThrows cfg) 0 (pipeline cfg) a
  end.

Definition store_dispatch_of (cfg : Config) (fuel : nat) (act : JsVal) : M unit :=
  match storeThrows cfg act with
  | Some err => throw err
  | None => entry cfg fuel act
  end.

(** [null] and [undefined]: the values of which no property can be
    read. *)
Definition nullish (v : JsVal) : bool :=
  match v with
  | VUndef | VNull => true
  | _ => false
  end.

(** What happens to the middleware from outside. *)
Inductive EnvEvent : Type :=
| EAction (a : JsVal)                                   (* the application dispatches *)
| EAllow (i : nat) (act : JsVal) (options : option JsVal)   (* an intercept hook calls back later *)
| EReject (i : nat) (act : JsVal) (options : option JsVal)
| EDispatch (i : nat) (act : JsVal) (options : option bool) (* a process hook calls back later *)
| EDone (i : nat)
| EInnerNext (i : nat) (v : JsVal)      (* a dispatched promise or observable settles *)
| EInnerError (i : nat) (e : JsVal)
| EInnerComplete (i : nat)
| EDebounceFire (stage : nat)           (* timers *)
| EThrottleClear (stage : nat)
| EWarnTimer (i : nat).

(** The action of the event, when it is one the application dispatches,
    is neither [null] nor [undefined]. *)
Definition carries_action (ev : EnvEvent) : Prop :=
  match ev with
  | EAction a => nullish a = false
  | _ => True
  end.

Definition process_called (w : World) (i : nat) : bool :=
  existsb (fun c => Nat.eqb (fst c) i) (processCalls w).

Section Step.

Variable cfg : Config.
Variable fuel : nat.

Definition downstream_of (stage : nat) : JsVal -> M unit :=
  deliver (cfg_production cfg) (store_dispatch_of cfg fuel) (cfg_nextThrows cfg)
          (S stage) (drop (S stage) (pipeline cfg)).

(** Run [f] in the closure [i] with the unit it was created for. *)
Definition in_closure (i : nat) (f : Logic -> Instance -> M unit) : M unit :=
  with_inst i (fun x =>
    match pipeline cfg !! i_stage x with
    | Some logic => f logic x
    | None => ret tt
    end).

Definition step (ev : EnvEvent) : M unit :=
  match ev with
  | EAction a => entry cfg (S fuel) a
  | EAllow i act options =>
      in_closure i (fun logic x =>
        allow (store_dispatch_of cfg fuel) logic (i_action x) i
              (downstream_of (i_stage x)) act options)
  | EReject i act options =>
      in_closure i (fun logic x =>
        reject (store_dispatch_of cfg fuel) logic (i_action x) i
               (downstream_of (i_stage x)) act options)
  | EDispatch i act options =>
      fun w =>
        if process_called w i
        then in_closure i (fun logic x =>
               dispatch (store_dispatch_of cfg fuel) logic (i_action x) i act options) w
        else Ok tt w
  | EDone i =>
      fun w =>
        if process_called w i
        then in_closure i (fun logic x => done (i_action x) i) w
        else Ok tt w
  | EInnerNext i v =>
      in_closure i (fun logic x =>
        if negb (dispClosed x) && negb (Nat.eqb (dispActive x) 0)
        then tap_next (store_dispatch_of cfg fuel) logic (i_action x) i v
        else ret tt)
  | EInnerError i e =>
      in_closure i (fun logic x =>
        if negb (Nat.eqb (dispActive x) 0)
        then inner_error (store_dispatch_of cfg fuel) logic (i_action x) i e
        else ret tt)
  | EInnerComplete i =>
      in_closure i (fun logic x =>
        if negb (Nat.eqb (dispActive x) 0)
        then inner_complete (i_action x) i
        else ret tt)
  | EDebounceFire stage =>
      match pipeline cfg !! stage with
      | Some logic =>
          fun w =>
            match Nat.eqb (l_debounce logic) 0, debounced (limiters w stage) with
            | false, Some a =>
                (set_limiter stage (mkLimiter None (throttled (limiters w stage)));;
                 throttling stage logic
                   (createLogicAction (cfg_production cfg) (store_dispatch_of cfg fuel)
                      stage logic (downstream_of stage)) a) w
            | _, _ => Ok tt w
            end
      | None => ret tt
      end
  | EThrottleClear stage =>
      fun w => set_limiter stage (mkLimiter (debounced (limiters w stage)) false) w
  | EWarnTimer i => warn_timer i
  end.

(** A run: the events in turn; out of fuel stops it. *)
Fixpoint run (evs : list EnvEvent) : M unit :=
  match evs with
  | [] => ret tt
  | ev :: rest => step ev;; run rest
  end.

End Step.

(* ===================================================================== *)
(** ** Relating the world before and after a computation *)
(* ===================================================================== *)

(** The subscriber of [dispatch$] of closure [j] has been notified of
    error or completion. *)
Definition closed (w : World) (j : nat) : Prop :=
  exists x, insts w !! j = Some x /\ dispClosed x = true.

Definition none : nat -> Prop := fun _ => False.
Definition only (i : nat) : nat -> Prop := fun j => j = i.
Definition anyone : nat -> Prop := fun _ => True.

(** [ext own w w']: [w'] comes after [w].  The monitor stream has only
    grown, and a [dispatch] event in the new part is tagged either with a
    closure in [own] whose queue was not closed in [w], or with a closure
    created since; closures keep their unit and action, and a closed
    queue stays closed, as does a finished intercept step; the console, the calls of [next] and the runs of
    process hooks have only grown. *)
Record ext (own : nat -> Prop) (w w' : World) : Prop := mk_ext {
  ext_monitor :
    exists es, monitor w' = monitor w ++ es /\
      forall j a d, In (EvDispatch j a d) es ->
        (own j /\ ~ closed w j) \/ (length (insts w) <= j)%nat;
  ext_insts :
    forall i x, insts w !! i = Some x ->
      exists x', insts w' !! i = Some x' /\
        i_stage x' = i_stage x /\ i_action x' = i_action x /\
        (dispClosed x = true -> dispClosed x' = true) /\
        (interceptComplete x = true -> interceptComplete x' = true) /\
        (outStopped x = true -> outStopped x' = true);
  ext_console : console w `prefix_of` console w';
  ext_consumer : consumer w `prefix_of` consumer w';
  ext_processCalls : processCalls w `prefix_of` processCalls w'
}.

(** [sat own t m]: running [m] extends the world as [ext own] says, and
    unless [t] is set [m] does not end by throwing. *)
Definition sat {A} (own : nat -> Prop) (t : bool) (m : M A) : Prop :=
  forall w, ext own w (world_of (m w)) /\ (t = false -> is_thrown (m w) = false).

(** A change of a closure's state that keeps what [ext] wants kept. *)
Definition keeps (f : Instance -> Instance) : Prop :=
  forall x, i_stage (f x) = i_stage x /\ i_action (f x) = i_action x /\
            (dispClosed x = true -> dispClosed (f x) = true) /\
            (interceptComplete x = true -> interceptComplete (f x) = true) /\
            (outStopped x = true -> outStopped (f x) = true).

(** A closure has reached a terminal state: its intercept step is over or
    was cut, and the subscriber of its queue has been notified. *)
Definition terminal (x : Instance) : bool :=
  (interceptComplete x || outStopped x) && dispClosed x.

(** The new part of the monitor stream of [w'] over [w] has no [dispatch]
    event of closure [i]. *)
Definition silent_since (i : nat) (w w' : World) : Prop :=
  exists es, monitor w' = monitor w ++ es /\
    forall a d, ~ In (EvDispatch i a d) es.

(* ===================================================================== *)
(** ** The balance of the pending counter *)
(* ===================================================================== *)

(** The intercept step of the closure has neither decided nor been cut:
    the action is waiting in it. *)
Definition parked (x : Instance) : bool :=
  negb (interceptComplete x) && negb (outStopped x).

(** What a closure still owes the counter: one for its [end], one for the
    action waiting in its intercept step. *)
Definition weight (x : Instance) : Z :=
  (if dispClosed x then 0 else 1) + (if parked x then 1 else 0).

(** What all closures together still owe. *)
Fixpoint owed_list (l : list Instance) : Z :=
  match l with
  | [] => 0
  | x :: rest => weight x + owed_list rest
  end.

Definition owed (w : World) : Z := owed_list (insts w).

(** The counter against what the closures owe: what is left is the number
    of actions that are on their way through the pipeline right now. *)
Definition balance (w : World) : Z := pendingCount (monitor w) - owed w.

Definition next_by (i : nat) (e : MonitorEvent) : bool :=
  match e with EvNext j _ _ _ => Nat.eqb j i | _ => false end.

Definition cancelled_by (i : nat) (e : MonitorEvent) : bool :=
  match e with EvCancelled j _ => Nat.eqb j i | _ => false end.

(** Some closure emitted both [next] and [cancelled]: it was cancelled
    while the action it forwarded was still in the rest of the pipeline. *)
Definition cut_while_forwarding (l : list MonitorEvent) : Prop :=
  exists i, existsb (next_by i) l = true /\ existsb (cancelled_by i) l = true.

(** What holds of the closures between two steps of the middleware: a
    closure whose action is waiting has an open queue that nothing was
    handed to and has not been cancelled; a closure that was cut without
    having decided and without [cancelled] is one that forwarded its
    action; and a process hook has only run in a closure that had
    decided. *)
Record WF (w : World) : Prop := mk_WF {
  wf_parked :
    forall i x, insts w !! i = Some x -> parked x = true ->
      dispClosed x = false /\ cancelledStopped x = false /\ dispActive x = 0%nat;
  wf_forwarding :
    forall i x, insts w !! i = Some x ->
      outStopped x = true -> interceptComplete x = false -> cancelledStopped x = false ->
      existsb (next_by i) (monitor w) = true;
  wf_calls :
    forall c, In c (processCalls w) ->
      exists x, insts w !! (fst c) = Some x /\ parked x = false
}.

(** Every value of [pending] emitted between [w] and [w'] is at least [b]. *)
Definition lower (b : Z) (w w' : World) : Prop :=
  exists es, monitor w' = monitor w ++ es /\
    Forall (fun z => b <= z) (pending_from (pendingCount (monitor w)) es).

(** [spends P d b m]: started in a world as [WF] and [P] describe, and as
    long as the stream stays clear of [cut_while_forwarding], [m] keeps
    [WF], never lets [pending] fall below the balance it started with
    minus [b], and unless it runs out of fuel leaves the balance lower by
    exactly [d]. *)
Definition spends {A} (P : World -> Prop) (d b : Z) (m : M A) : Prop :=
  forall w, WF w -> P w -> ~ cut_while_forwarding (monitor (world_of (m w))) ->
    WF (world_of (m w)) /\
    lower (balance w - b) w (world_of (m w)) /\
    (is_halted (m w) = false -> balance (world_of (m w)) = balance w - d).

(** [grows w w']: the monitor stream has only grown, closures are still
    there, and a finished or cut intercept step stays so. *)
Definition grows (w w' : World) : Prop :=
  (exists es, monitor w' = monitor w ++ es) /\
  (forall i x, insts w !! i = Some x ->
     exists x', insts w' !! i = Some x' /\
       (interceptComplete x = true -> interceptComplete x' = true) /\
       (outStopped x = true -> outStopped x' = true)).

Definition mono {A} (m : M A) : Prop := forall w, grows w (world_of (m w)).

Definition stable (P : World -> Prop) : Prop :=
  forall w w', grows w w' -> P w -> P w'.

Definition always : World -> Prop := fun _ => True.

(** Closure [i] exists and its intercept step is over or was cut. *)
Definition unparked (i : nat) (w : World) : Prop :=
  exists x, insts w !! i = Some x /\ parked x = false.

(** Closure [i] exists and the action is waiting in its intercept step. *)
Definition parked_at (i : nat) (w : World) : Prop :=
  exists x, insts w !! i = Some x /\ parked x = true.

(** What one event adds to [pending]. *)
Definition delta (e : MonitorEvent) : Z := scan_step 0 e.

(** The unit neither debounces nor throttles. *)
Definition unlimited (logic : Logic) : Prop :=
  l_debounce logic = 0%nat /\ l_throttle logic = 0%nat.

(** The intercept hook calls [allow] or [reject] at most once while it
    runs. *)
Definition decides_once (logic : Logic) : Prop :=
  forall a, (length (l_intercept logic a) <= 1)%nat.

Definition tame (logic : Logic) : Prop := unlimited logic /\ decides_once logic.

(** A late [allow] or [reject] comes from a closure whose action is still
    waiting in the intercept step. *)
Definition callback_ok (ev : EnvEvent) (w : World) : Prop :=
  match ev with
  | EAllow i _ _ | EReject i _ _ => parked_at i w
  | _ => True
  end.

Fixpoint polite (cfg : Config) (fuel : nat) (evs : list EnvEvent) (w : World) : Prop :=
  match evs with
  | [] => True
  | ev :: rest =>
      callback_ok ev w /\ polite cfg fuel rest (world_of (step cfg fuel ev w))
  end.

(* ===================================================================== *)
(** ** What the error path dispatches, in the words of the specification *)
(* ===================================================================== *)

(** Without [failType]: the error values that reach the store unchanged.
    An [Error] does when it carries a type; any other object or function
    does whether it carries one or not. *)
Definition dispatched_as_is (v : JsVal) : bool :=
  if instanceofError v then truthy (get v "type")
  else truthy v && typeof_object_or_function v.

Definition unmapped_error_action (v : JsVal) : JsVal :=
  if dispatched_as_is v then v else unhandled_action v.

(** The action [mapErrorToActionAndDispatch] hands to [storeDispatch],
    if it hands one. *)
Definition error_action (logic : Logic) (v : JsVal) : option JsVal :=
  if isInterceptAction v then Some (unwrapInterceptAction v)
  else match configured (failType (l_processOptions logic)) with
       | Some ft =>
           if truthy (mapToAction ft v true)
           then Some (mapToAction ft v true) else None
       | None => Some (unmapped_error_action v)
       end.

(** The action [mapToActionAndDispatch] hands to [storeDispatch] when it
    is truthy. *)
Definition success_action (logic : Logic) (v : JsVal) : JsVal :=
  if isInterceptAction v then unwrapInterceptAction v
  else match configured (successType (l_processOptions logic)) with
       | Some st => mapToAction st v false
       | None => v
       end.

(* ===================================================================== *)
(** ** Sample units and runs *)
(* ===================================================================== *)

Definition action_of (t : string) : JsVal := VObj [("type", VStr t)].

(** [identityValidation]: [allow(action)]. *)
Definition identityValidation (action : JsVal) : list InterceptCall :=
  [CAllow action None].

Definition return_mode : ProcessOptions :=
  {| dispatchReturn := true; dispatchMultiple := false;
     successType := None; failType := None |}.

Definition multi_mode : ProcessOptions :=
  {| dispatchReturn := false; dispatchMultiple := true;
     successType := None; failType := None |}.

Definition returns (v : JsVal) : JsVal -> ProcessScript :=
  fun _ => {| p_calls := []; p_outcome := PReturn v |}.

Definition plain_unit (t : string) (intercept : JsVal -> list InterceptCall)
           (process : JsVal -> ProcessScript) (po : ProcessOptions) : Logic :=
  {| l_type := PStr t; l_cancelType := PAbsent; l_latest := false;
     l_debounce := 0; l_throttle := 0;
     l_intercept := intercept; l_process := process;
     l_processOptions := po; l_warnTimeout := 0 |}.

Definition quiet_config (units : list Logic) : Config :=
  {| pipeline := units; cfg_production := false;
     storeThrows := fun _ => None; cfg_nextThrows := fun _ => None |}.

(** A store whose [dispatch] does nothing. *)
Definition null_store : JsVal -> M unit := fun _ => ret tt.

(** A unit that throttles its actions. *)
Definition throttled_unit : Logic :=
  {| l_type := PStr "SCROLL"; l_cancelType := PAbsent; l_latest := false;
     l_debounce := 0; l_throttle := 1000;
     l_intercept := identityValidation; l_process := returns VUndef;
     l_processOptions := return_mode; l_warnTimeout := 0 |}.

(** A unit whose [validate] answers later and that [STOP] cancels. *)
Definition slow_validate_unit : Logic :=
  {| l_type := PStr "FETCH"; l_cancelType := PStr "STOP"; l_latest := false;
     l_debounce := 0; l_throttle := 0;
     l_intercept := fun _ => []; l_process := returns VUndef;
     l_processOptions := return_mode; l_warnTimeout := 0 |}.

Definition boom : JsVal := VErr [("message", VStr "boom")].

(** [process(deps, dispatch, done) { done(); throw boom }] *)
Definition done_then_throw : JsVal -> ProcessScript :=
  fun _ => {| p_calls := [PDone]; p_outcome := PThrow boom |}.

(** [process() { throw boom }] *)
Definition just_throw : JsVal -> ProcessScript :=
  fun _ => {| p_calls := []; p_outcome := PThrow boom |}.

(** A store in front of which something refuses actions of type [B]. *)
Definition picky_store : Config :=
  {| pipeline := [plain_unit "A" identityValidation (returns (action_of "B")) return_mode];
     cfg_production := false;
     storeThrows := fun a => if strict_eq (get a "type") (VStr "B")
                             then Some (VErr [("message", VStr "rejected")]) else None;
     cfg_nextThrows := fun _ => None |}.

(** A consumer that throws on actions of type [B]. *)
Definition picky_consumer : Config :=
  {| pipeline := [];
     cfg_production := false;
     storeThrows := fun _ => None;
     cfg_nextThrows := fun a => if strict_eq (get a "type") (VStr "B")
                                then Some (VErr [("message", VStr "rejected")]) else None |}.

(** The same consumer behind a unit whose process hook dispatches [B],
    then [C], then calls [done]. *)
Definition picky_consumer_after_unit : Config :=
  {| pipeline :=
       [plain_unit "A" identityValidation
          (fun _ => {| p_calls := [PDispatch (action_of "B") None;
                                   PDispatch (action_of "C") None; PDone];
                       p_outcome := PReturn VUndef |})
          multi_mode];
     cfg_production := false;
     storeThrows := fun _ => None;
     cfg_nextThrows := cfg_nextThrows picky_consumer |}.

(** [latest: true], and a process hook that dispatches a promise and
    never calls [done]. *)
Definition latest_unit : Logic :=
  {| l_type := PStr "SEARCH"; l_cancelType := PAbsent; l_latest := true;
     l_debounce := 0; l_throttle := 0;
     l_intercept := identityValidation;
     l_process := fun _ => {| p_calls := [PDispatch (VPromise 0) None];
                              p_outcome := PReturn VUndef |};
     l_processOptions := multi_mode; l_warnTimeout := 0 |}.

(** The world with one closure whose intercept step has just forwarded
    its action. *)
Definition one_closure (action : JsVal) : World :=
  mkWorld [] [] [] [] [mkInstance 0 action true true false false 0 false false]
          (fun _ => mkLimiter None false).

(** A unit whose [validate] answers later, that [STOP] cancels, and
    whose process hook returns [PONG]. *)
Definition slow_ping_unit : Logic :=
  {| l_type := PStr "PING"; l_cancelType := PStr "STOP"; l_latest := false;
     l_debounce := 0; l_throttle := 0;
     l_intercept := fun _ => []; l_process := returns (action_of "PONG");
     l_processOptions := return_mode; l_warnTimeout := 0 |}.

(** A unit of type [A] that [B] cancels. *)
Definition cancellable_unit : Logic :=
  {| l_type := PStr "A"; l_cancelType := PStr "B"; l_latest := false;
     l_debounce := 0; l_throttle := 0;
     l_intercept := identityValidation; l_process := returns VUndef;
     l_processOptions := return_mode; l_warnTimeout := 0 |}.

(* ===================================================================== *)
(** ** createLogicMiddleware.js: duplicates, names and the registry of units *)
(* ===================================================================== *)

(** The elements of an array with their indexes. *)
Definition indexed {A} (l : list A) : list (nat * A) :=
  combine (seq 0 (length l)) l.

(** [findDuplicates(arrLogic)].  Logic items are objects and [===]
    compares references, so an item is given by its reference.
    [has_twin] is the [arrLogic.some(...)] of the reducer. *)
Definition has_twin (arrLogic : list nat) (idx1 x1 : nat) : bool :=
  existsb (fun '(idx2, x2) => negb (Nat.eqb idx1 idx2) && Nat.eqb x1 x2)
          (indexed arrLogic).

Definition findDuplicates (arrLogic : list nat) : list nat :=
  fold_left
    (fun acc '(idx1, x1) => if has_twin arrLogic idx1 x1 then acc ++ [idx1] else acc)
    (indexed arrLogic) [].

(** The digits of [idx] in a template string. *)
Definition decimal (idx : nat) : string :=
  NilEmpty.string_of_uint (Nat.to_uint idx).

Module Registry.

Inductive Error : Type :=
| NotAnArray               (* createLogicMiddleware needs to be called with an array *)
| DuplicateLogic (indexes : list nat)
| StoreNotDefined          (* store is not defined *)
| TypeError                (* a property of undefined was read *)
| MultipleStores
| AddDepsNotObject         (* addDeps should be called with an object *)
| AddDepsOverride (k : string).

(** A logic item as the middleware sees it: a name of its own, if it has
    one, and the unit. *)
Record LogicBody := { name : JsVal; unit : Logic }.

(** The item with its identity as an object. *)
Record LogicObj := { ref : nat; body : LogicBody }.

Section Naming.

(** [RegExp.prototype.toString] of a pattern that is a regular
    expression. *)
Variable test_text : (JsVal -> bool) -> string.

(** [type.toString()] for a type that is defined; an array joins its
    members with commas, and a member that is [undefined] gives the
    empty string. *)
Fixpoint toString (type : Pattern) : string :=
  match type with
  | PAbsent => ""
  | PStr s => s
  | PArr members => String.concat "," (map toString members)
  | PTest test => test_text test
  end.

Definition naming (logic : LogicBody) (idx : nat) : LogicBody + Error :=
  if truthy (name logic) then inl logic
  else
    match l_type (unit logic) with
    | PAbsent => inr TypeError
    | type =>
        inl {| name := VStr ("L(" ++ toString type ++ ")-" ++ decimal idx);
               unit := unit logic |}
    end.

(** [arrLogic.map((logic, idx) => naming(logic, idx + startLogicCount))];
    the first item that throws ends the loop. *)
Fixpoint name_all (arrLogic : list LogicObj) (idx : nat) : list LogicBody + Error :=
  match arrLogic with
  | [] => inl []
  | logic :: rest =>
      match naming (body logic) idx with
      | inr e => inr e
      | inl namedLogic =>
          match name_all rest (S idx) with
          | inr e => inr e
          | inl named => inl (namedLogic :: named)
          end
      end
  end.

(** A subscription is open or has been unsubscribed. *)
Definition unsubscribe (sub : option bool) : option bool :=
  match sub with
  | Some _ => Some false
  | None => None
  end.

(** [applyLogic].  An observable built by wrapping units around
    [actionSrc$] is given by those units in order.  The result is the
    state of the subscription [sub] referred to, or of the new one, with
    what the function returned or threw. *)
Definition applyLogic (arrLogic : list LogicObj)
           (store : option Middleware.StoreRef) (next : option nat)
           (sub : option bool) (actionIn : option (list LogicBody))
           (startLogicCount : nat)
  : option bool * (list LogicBody * nat + Error) :=
  match store, next with
  | Some _, Some _ =>
      match name_all arrLogic startLogicCount with
      | inr e => (unsubscribe sub, inr e)
      | inl wrappedLogic =>
          match actionIn with
          | None => (unsubscribe sub, inr TypeError)
          | Some units =>
              (Some true, inl (units ++ wrappedLogic, (startLogicCount + length arrLogic)%nat))
          end
      end
  | _, _ => (sub, inr StoreNotDefined)
  end.

(** A dependency as the guard of [addDeps] sees it: [typeof] tells
    [undefined] from the rest, and [!==] compares primitives by value
    ([NaN] differs from itself) and objects and functions by
    identity. *)
Inductive Dep : Type :=
| DepUndefined
| DepNull
| DepBool (b : bool)
| DepNum (n : Z)
| DepNaN
| DepStr (s : string)
| DepRef (id : nat).      (* an object or a function *)

(** [a === b] *)
Definition same (a b : Dep) : bool :=
  match a, b with
  | DepUndefined, DepUndefined => true
  | DepNull, DepNull => true
  | DepBool x, DepBool y => Bool.eqb x y
  | DepNum x, DepNum y => (x =? y)
  | DepStr x, DepStr y => String.eqb x y
  | DepRef x, DepRef y => Nat.eqb x y
  | _, _ => false
  end.

(** [typeof v !== 'undefined'] *)
Definition defined (v : Dep) : bool :=
  match v with
  | DepUndefined => false
  | _ => true
  end.

(** The [deps] object: its own properties, and what its prototype chain
    has for a key.  The properties are ordinary ones: data properties
    that can be written, on an object that can be extended. *)
Record DepsObject := {
  own : list (string * Dep);
  inherited : string -> Dep
}.

Fixpoint own_property (k : string) (props : list (string * Dep)) : option Dep :=
  match props with
  | [] => None
  | (k', v) :: rest => if String.eqb k k' then Some v else own_property k rest
  end.

(** [deps[k]]: an own property, or else what the prototype chain has. *)
Definition read (d : DepsObject) (k : string) : Dep :=
  match own_property k (own d) with
  | Some v => v
  | None => inherited d k
  end.

(** The properties every object has from [Object.prototype]. *)
Definition object_prototype_keys : list string :=
  ["constructor"; "__defineGetter__"; "__defineSetter__"; "hasOwnProperty";
   "__lookupGetter__"; "__lookupSetter__"; "isPrototypeOf"; "propertyIsEnumerable";
   "toString"; "valueOf"; "__proto__"; "toLocaleString"].

Fixpoint position (k : string) (l : list string) (i : nat) : option nat :=
  match l with
  | [] => None
  | k' :: rest => if String.eqb k k' then Some i else position k rest (S i)
  end.

(** [Object.prototype[k]]: each of its properties is an object or a
    function of its own. *)
Definition object_prototype (k : string) : Dep :=
  match position k object_prototype_keys 0%nat with
  | Some i => DepRef i
  | None => DepUndefined
  end.

(** [{}], the default of [deps]. *)
Definition empty_deps : DepsObject :=
  {| own := []; inherited := object_prototype |}.

(** The variables of one [createLogicMiddleware] call. *)
Record State := {
  arrLogic : list LogicObj;
  mwState : Middleware.MwState;              (* savedStore *)
  savedNext : option nat;
  actionEnd : option (list LogicBody);       (* actionEnd$ *)
  logicSub : option bool;
  logicCount : nat;
  savedLogicArr : list LogicObj;
  deps : DepsObject
}.

Definition set_mwState (m : Middleware.MwState) (st : State) : State :=
  {| arrLogic := arrLogic st; mwState := m; savedNext := savedNext st;
     actionEnd := actionEnd st; logicSub := logicSub st; logicCount := logicCount st;
     savedLogicArr := savedLogicArr st; deps := deps st |}.

Definition set_savedNext (next : option nat) (st : State) : State :=
  {| arrLogic := arrLogic st; mwState := mwState st; savedNext := next;
     actionEnd := actionEnd st; logicSub := logicSub st; logicCount := logicCount st;
     savedLogicArr := savedLogicArr st; deps := deps st |}.

Definition set_logicSub (sub : option bool) (st : State) : State :=
  {| arrLogic := arrLogic st; mwState := mwState st; savedNext := savedNext st;
     actionEnd := actionEnd st; logicSub := sub; logicCount := logicCount st;
     savedLogicArr := savedLogicArr st; deps := deps st |}.

Definition set_deps (d : DepsObject) (st : State) : State :=
  {| arrLogic := arrLogic st; mwState := mwState st; savedNext := savedNext st;
     actionEnd := actionEnd st; logicSub := logicSub st; logicCount := logicCount st;
     savedLogicArr := savedLogicArr st; deps := d |}.

(** The four assignments after a call of [applyLogic] that returned. *)
Definition applied (units : list LogicBody) (sub : option bool) (cnt : nat)
           (saved : list LogicObj) (st : State) : State :=
  {| arrLogic := arrLogic st; mwState := mwState st; savedNext := savedNext st;
     actionEnd := Some units; logicSub := sub; logicCount := cnt;
     savedLogicArr := saved; deps := deps st |}.

(** [createLogicMiddleware(arrLogic, deps)]; [None] is an argument that
    is not an array, and [deps] is an object ([empty_deps] when the
    argument is left out). *)
Definition createLogicMiddleware (arr : option (list LogicObj))
           (d : DepsObject) : State + Error :=
  match arr with
  | None => inr NotAnArray
  | Some arr =>
      match findDuplicates (map ref arr) with
      | [] =>
          inl {| arrLogic := arr; mwState := {| Middleware.savedStore := None |};
                 savedNext := None; actionEnd := None; logicSub := None;
                 logicCount := 0%nat; savedLogicArr := arr; deps := d |}
      | duplicateLogic => inr (DuplicateLogic duplicateLogic)
      end
  end.

(** [mw(store)]: the guard of the store. *)
Definition mw (store : Middleware.StoreRef) (st : State) : State * option Error :=
  match Middleware.mw store (mwState st) with
  | inl m => (set_mwState m st, None)
  | inr _ => (st, Some MultipleStores)
  end.

(** The function [mw(store)] returns, applied to [next]. *)
Definition mw_next (next : option nat) (st : State) : State * option Error :=
  let st := set_savedNext next st in
  match applyLogic (arrLogic st) (Middleware.savedStore (mwState st)) (savedNext st)
                   (logicSub st) (Some []) (logicCount st) with
  | (sub, inl (units, cnt)) => (applied units sub cnt (savedLogicArr st) st, None)
  | (sub, inr e) => (set_logicSub sub st, Some e)
  end.

Definition addLogic (arrNewLogic : list LogicObj) (st : State)
  : State * (nat + Error) :=
  if Nat.eqb (length arrNewLogic) 0%nat then (st, inl (logicCount st))
  else
    let combinedLogic := savedLogicArr st ++ arrNewLogic in
    match findDuplicates (map ref combinedLogic) with
    | [] =>
        match applyLogic arrNewLogic (Middleware.savedStore (mwState st)) (savedNext st)
                         (logicSub st) (actionEnd st) (logicCount st) with
        | (sub, inl (units, cnt)) => (applied units sub cnt combinedLogic st, inl cnt)
        | (sub, inr e) => (set_logicSub sub st, inr e)
        end
    | duplicateLogic => (st, inr (DuplicateLogic duplicateLogic))
    end.

(** [savedLogicArr.indexOf(x) === -1] *)
Definition not_saved (st : State) (x : LogicObj) : bool :=
  negb (existsb (fun y => Nat.eqb (ref y) (ref x)) (savedLogicArr st)).

Definition mergeNewLogic (arrMergeLogic : list LogicObj) (st : State)
  : State * (nat + Error) :=
  match findDuplicates (map ref arrMergeLogic) with
  | [] => addLogic (filter (not_saved st) arrMergeLogic) st
  | duplicateLogic => (st, inr (DuplicateLogic duplicateLogic))
  end.

Definition replaceLogic (arrRepLogic : list LogicObj) (st : State)
  : State * (nat + Error) :=
  match findDuplicates (map ref arrRepLogic) with
  | [] =>
      match applyLogic arrRepLogic (Middleware.savedStore (mwState st)) (savedNext st)
                       (logicSub st) (Some []) 0%nat with
      | (sub, inl (units, cnt)) => (applied units sub cnt arrRepLogic st, inl cnt)
      | (sub, inr e) => (set_logicSub sub st, inr e)
      end
  | duplicateLogic => (st, inr (DuplicateLogic duplicateLogic))
  end.

(** What [addDeps] may be called with: an object with these own
    enumerable properties, [null], or a value whose [typeof] is not
    ['object']. *)
Inductive DepsArg : Type :=
| DObject (props : list (string * Dep))
| DNull
| DOther.

(** [deps[k] = newValue] *)
Fixpoint assign (k : string) (v : Dep) (props : list (string * Dep))
  : list (string * Dep) :=
  match props with
  | [] => [(k, v)]
  | (k', v') :: rest =>
      if String.eqb k k' then (k, v) :: rest else (k', v') :: assign k v rest
  end.

Definition write (k : string) (v : Dep) (d : DepsObject) : DepsObject :=
  {| own := assign k v (own d); inherited := inherited d |}.

(** The [forEach] over the keys; a throw ends it with the assignments
    made so far in place. *)
Fixpoint addDeps_each (props : list (string * Dep)) (d : DepsObject)
  : DepsObject * option Error :=
  match props with
  | [] => (d, None)
  | (k, newValue) :: rest =>
      let existing := read d k in
      if defined existing && negb (same existing newValue)
      then (d, Some (AddDepsOverride k))
      else addDeps_each rest (write k newValue d)
  end.

Definition addDeps (additionalDeps : DepsArg) (st : State) : State * option Error :=
  match additionalDeps with
  | DOther => (st, Some AddDepsNotObject)
  | DNull => (st, Some TypeError)
  | DObject props =>
      let (d, e) := addDeps_each props (deps st) in (set_deps d st, e)
  end.

End Naming.

(** What a user does with the middleware after creating it. *)
Inductive Call : Type :=
| CallMw (store : Middleware.StoreRef)
| CallNext (next : option nat)
| CallAddLogic (arrNewLogic : list LogicObj)
| CallMergeNewLogic (arrMergeLogic : list LogicObj)
| CallReplaceLogic (arrRepLogic : list LogicObj)
| CallAddDeps (additionalDeps : DepsArg).

Definition call (test_text : (JsVal -> bool) -> string) (c : Call) (st : State) : State :=
  match c with
  | CallMw store => fst (mw store st)
  | CallNext next => fst (mw_next test_text next st)
  | CallAddLogic l => fst (addLogic test_text l st)
  | CallMergeNewLogic l => fst (mergeNewLogic test_text l st)
  | CallReplaceLogic l => fst (replaceLogic test_text l st)
  | CallAddDeps d => fst (addDeps d st)
  end.

(** The units an incoming action runs through: those of [actionEnd$]
    while the subscription to it is open, none at all otherwise. *)
Definition live_units (st : State) : option (list LogicBody) :=
  match logicSub st, actionEnd st with
  | Some true, Some units => Some units
  | _, _ => None
  end.

End Registry.

(* ===================================================================== *)
(** ** createLogicMiddleware.js: [whenComplete] *)
(* ===================================================================== *)

(** The [pending] of the values [lastPending$] has held: the initial
    [{op: 'init'}] has none, then one per monitor event. *)
Definition lastPending (events : list MonitorEvent) : list (option Z) :=
  None :: map Some (pending_trace events).

(** [x => x.pending] as [takeWhile] reads it. *)
Definition pending_truthy (p : option Z) : bool :=
  match p with
  | None => false
  | Some z => negb (z =? 0)
  end.

(** [whenComplete()] called when [k] events had been emitted: the
    BehaviorSubject hands it the current value and then every later one;
    the promise resolves when [takeWhile] meets a value it refuses.
    [true] when that has happened by the end of [events]. *)
Definition whenComplete (k : nat) (events : list MonitorEvent) : bool :=
  existsb (fun p => negb (pending_truthy p)) (drop k (lastPending events)).

(* ===================================================================== *)
(** ** Notions the properties of the registry are stated with *)
(* ===================================================================== *)

(** What follows the last [-] of a string, if it has one. *)
Fixpoint after_last_dash (s : string) : option string :=
  match s with
  | EmptyString => None
  | String c rest =>
      match after_last_dash rest with
      | Some t => Some t
      | None => if Ascii.eqb c "-"%char then Some rest else None
      end
  end.


(** The calls of a program, one after the other; a call that throws is
    caught and the program goes on. *)
Definition calls (test_text : (JsVal -> bool) -> string)
           (cs : list Registry.Call) (st : Registry.State) : Registry.State :=
  fold_left (fun st c => Registry.call test_text c st) cs st.

(** [units] are the items [originals], each named with its index of
    [idxs]. *)
Definition named_from (test_text : (JsVal -> bool) -> string)
           (idxs : list nat) (originals units : list Registry.LogicBody) : Prop :=
  length idxs = length units /\ length originals = length units /\
  forall p i o u,
    idxs !! p = Some i -> originals !! p = Some o -> units !! p = Some u ->
    Registry.naming test_text o i = inl u.

(** What holds of the variables of the middleware whatever is called:
    no item is registered twice, and the units of [actionEnd$] were named
    with indexes that rise and stay below [logicCount]. *)
Definition registry_ok (test_text : (JsVal -> bool) -> string)
           (st : Registry.State) : Prop :=
  NoDup (map Registry.ref (Registry.savedLogicArr st)) /\
  forall units, Registry.actionEnd st = Some units ->
    exists idxs originals,
      named_from test_text idxs originals units /\
      idxs `sublist_of` seq 0 (Registry.logicCount st).

(** No call of the program applies the middleware to a [next]. *)
Definition no_next (cs : list Registry.Call) : Prop :=
  Forall (fun c => match c with Registry.CallNext _ => False | _ => True end) cs.

(** A logic item with no name of its own. *)
Definition unnamed_item (r : nat) (u : Logic) : Registry.LogicObj :=
  {| Registry.ref := r; Registry.body := {| Registry.name := VUndef; Registry.unit := u |} |}.

(** The pipeline is the naming of the registered items from index 0, and
    [logicCount] is their number. *)
Definition follows_registration (test_text : (JsVal -> bool) -> string)
           (st : Registry.State) : Prop :=
  exists units,
    Registry.actionEnd st = Some units /\
    Registry.name_all test_text (Registry.savedLogicArr st) 0 = inl units /\
    Registry.logicCount st = length (Registry.savedLogicArr st).

(* ===================================================================== *)
(** ** createLogic.js: validating a unit definition and applying defaults *)
(* ===================================================================== *)

Module CreateLogic.

Definition allowedOptions : list string :=
  ["name"; "type"; "cancelType"; "latest"; "debounce"; "throttle";
   "validate"; "transform"; "process"; "processOptions"; "warnTimeout"].

Definition allowedProcessOptions : list string :=
  ["dispatchReturn"; "dispatchMultiple"; "successType"; "failType"].

Definition globallyConfigurableOptions : list string := ["warnTimeout"].

(** [getInvalidOptions(options, validOptions)], on [Object.keys(options)]. *)
Definition getInvalidOptions (keys validOptions : list string) : list string :=
  List.filter (fun k => negb (existsb (String.eqb k) validOptions)) keys.

(** What [name], [type] and [cancelType] may be given as: nothing, a
    string, a regular expression, a function (whose [toString()] gives
    [text]), or an array of these. *)
Inductive TypeOption : Type :=
| TyUndefined
| TyString (s : string)
| TyRegExp (test : JsVal -> bool)
| TyFunction (text : string)
| TyArray (members : list TypeOption).

Fixpoint typeToStrFns (type : TypeOption) : TypeOption :=
  match type with
  | TyArray members => TyArray (map typeToStrFns members)
  | TyFunction text => TyString text
  | _ => type
  end.

(** ToBoolean of such a value. *)
Definition type_truthy (type : TypeOption) : bool :=
  match type with
  | TyUndefined => false
  | TyString s => negb (String.eqb s "")
  | _ => true
  end.

(** The pattern [matchesType] is given; a function has no [test], so
    there is none for it. *)
Fixpoint as_pattern (type : TypeOption) : option Pattern :=
  match type with
  | TyUndefined => Some PAbsent
  | TyString s => Some (PStr s)
  | TyRegExp test => Some (PTest test)
  | TyFunction _ => None
  | TyArray members =>
      option_map PArr
        ((fix all (l : list TypeOption) : option (list Pattern) :=
            match l with
            | [] => Some []
            | x :: rest =>
                match as_pattern x, all rest with
                | Some p, Some ps => Some (p :: ps)
                | _, _ => None
                end
            end) members)
  end.

(** An intercept hook, by the calls it makes for the action it is given. *)
Definition Hook : Type := JsVal -> list InterceptCall.

(** A process hook: its [length], the number of its parameters, and what
    it does. *)
Record ProcessFn := { fn_length : nat; fn_body : JsVal -> ProcessScript }.

(** [function emptyProcess(_, dispatch, done) { dispatch(); done(); }] *)
Definition emptyProcess : ProcessFn :=
  {| fn_length := 3;
     fn_body := fun _ => {| p_calls := [PDispatch VUndef None; PDone];
                         p_outcome := PReturn VUndef |} |}.

(** A [processOptions] object: its keys and what it holds under the keys
    the code reads. *)
Record ProcessOptionsObj := {
  po_keys : list string;
  po_dispatchReturn : option bool;
  po_dispatchMultiple : option bool;
  po_successType : option TypeSpec;
  po_failType : option TypeSpec;
  po_warnTimeout : option nat
}.

(** [{}] *)
Definition empty_object : ProcessOptionsObj :=
  {| po_keys := []; po_dispatchReturn := None; po_dispatchMultiple := None;
     po_successType := None; po_failType := None; po_warnTimeout := None |}.

Definition add_key (k : string) (keys : list string) : list string :=
  if existsb (String.eqb k) keys then keys else keys ++ [k].

(** [setIfUndefined(obj, 'dispatchReturn', true)] *)
Definition setIfUndefined_dispatchReturn (obj : ProcessOptionsObj) : ProcessOptionsObj :=
  match po_dispatchReturn obj with
  | Some _ => obj
  | None =>
      {| po_keys := add_key "dispatchReturn" (po_keys obj);
         po_dispatchReturn := Some true;
         po_dispatchMultiple := po_dispatchMultiple obj;
         po_successType := po_successType obj; po_failType := po_failType obj;
         po_warnTimeout := po_warnTimeout obj |}
  end.

(** [setIfUndefined(obj, 'dispatchMultiple', true)] *)
Definition setIfUndefined_dispatchMultiple (obj : ProcessOptionsObj) : ProcessOptionsObj :=
  match po_dispatchMultiple obj with
  | Some _ => obj
  | None =>
      {| po_keys := add_key "dispatchMultiple" (po_keys obj);
         po_dispatchReturn := po_dispatchReturn obj;
         po_dispatchMultiple := Some true;
         po_successType := po_successType obj; po_failType := po_failType obj;
         po_warnTimeout := po_warnTimeout obj |}
  end.

(** The argument of [createLogic]: its keys, and what it holds under the
    keys the code reads ([None]: [undefined]).  [o_processOptions] refers
    to an object of the heap. *)
Record LogicOptions := {
  o_keys : list string;
  o_name : TypeOption;
  o_type : TypeOption;
  o_cancelType : TypeOption;
  o_warnTimeout : option nat;
  o_latest : option bool;
  o_debounce : option nat;
  o_throttle : option nat;
  o_validate : option Hook;
  o_transform : option Hook;
  o_process : option ProcessFn;
  o_processOptions : option nat
}.

(** What [createLogic] returns. *)
Record LogicObject := {
  r_name : TypeOption;
  r_type : TypeOption;
  r_cancelType : TypeOption;
  r_latest : bool;
  r_debounce : nat;
  r_throttle : nat;
  r_validate : option Hook;
  r_transform : option Hook;
  r_process : ProcessFn;
  r_processOptions : nat;
  r_warnTimeout : option nat
}.

Inductive Warning : Type :=
| DispatchMultipleAlwaysTrue     (* dispatchMultiple is always true in next version *)
| SingleDispatchDeprecated.      (* single-dispatch mode is deprecated *)

Inductive Error : Type :=
| UnknownOptions (invalidOptions : list string)
| TypeRequired
| BothHooks
| WarnTimeoutInProcessOptions
| UnknownProcessOptions (invalidProcessOptions : list string)
| NotGloballyConfigurable (invalidOptions : list string).

(** What the module holds and what its calls can change: the
    configurable default, the objects passed as [processOptions], the
    console. *)
Record Env := {
  default_warnTimeout : option nat;      (* defaultOptions.warnTimeout *)
  heap : list ProcessOptionsObj;
  warnings : list Warning
}.

(** The module when it is loaded, with the objects the caller has made. *)
Definition loaded (objects : list ProcessOptionsObj) : Env :=
  {| default_warnTimeout := Some (60 * 1000)%nat; heap := objects; warnings := [] |}.

Definition nonempty {A} (l : list A) : bool :=
  match l with [] => false | _ => true end.

(** [configureLogic(options)]; every key that passes is [warnTimeout]. *)
Definition configureLogic (options : list (string * option nat)) (env : Env)
  : Env * option Error :=
  let invalidOptions := getInvalidOptions (map fst options) globallyConfigurableOptions in
  if nonempty invalidOptions then (env, Some (NotGloballyConfigurable invalidOptions))
  else
    (fold_left
       (fun env '(_, value) =>
          {| default_warnTimeout := value; heap := heap env; warnings := warnings env |})
       options env,
     None).

Definition is_some {A} (o : option A) : bool :=
  match o with Some _ => true | None => false end.

(** [warnTimeout !== 0] *)
Definition not_zero (warnTimeout : option nat) : bool :=
  match warnTimeout with Some O => false | _ => true end.

Definition warn (w : Warning) (env : Env) : Env :=
  {| default_warnTimeout := default_warnTimeout env; heap := heap env;
     warnings := warnings env ++ [w] |}.

Definition set_object (r : nat) (obj : ProcessOptionsObj) (env : Env) : Env :=
  {| default_warnTimeout := default_warnTimeout env;
     heap := <[r := obj]> (heap env);
     warnings := warnings env |}.

Definition alloc (obj : ProcessOptionsObj) (env : Env) : Env :=
  {| default_warnTimeout := default_warnTimeout env;
     heap := heap env ++ [obj];
     warnings := warnings env |}.

(** [createLogic(logicOptions)].  [production] is
    [NODE_ENV === 'production'].  The object a default [processOptions =
    {}] makes is put on the heap when the call returns; a call that
    throws leaves it unreachable. *)
Definition createLogic (production : bool) (logicOptions : LogicOptions) (env : Env)
  : Env * (LogicObject + Error) :=
  let invalidOptions := getInvalidOptions (o_keys logicOptions) allowedOptions in
  if nonempty invalidOptions then (env, inr (UnknownOptions invalidOptions)) else
  let warnTimeout :=
    match o_warnTimeout logicOptions with
    | Some n => Some n
    | None => default_warnTimeout env
    end in
  let latest := default false (o_latest logicOptions) in
  let debounce := default 0%nat (o_debounce logicOptions) in
  let throttle := default 0%nat (o_throttle logicOptions) in
  let process := default emptyProcess (o_process logicOptions) in
  let '(r, env0) :=
    match o_processOptions logicOptions with
    | Some r => (r, env)
    | None => (length (heap env), alloc empty_object env)
    end in
  let processOptions := default empty_object (heap env0 !! r) in
  if negb (type_truthy (o_type logicOptions)) then (env, inr TypeRequired) else
  if is_some (o_validate logicOptions) && is_some (o_transform logicOptions)
  then (env, inr BothHooks) else
  if is_some (po_warnTimeout processOptions)
  then (env, inr WarnTimeoutInProcessOptions) else
  let invalidProcessOptions :=
    getInvalidOptions (po_keys processOptions) allowedProcessOptions in
  if nonempty invalidProcessOptions
  then (env, inr (UnknownProcessOptions invalidProcessOptions)) else
  let validateDefaulted :=
    if negb (is_some (o_validate logicOptions)) && negb (is_some (o_transform logicOptions))
    then Some identityValidation
    else o_validate logicOptions in
  let env1 :=
    if negb production && is_some (po_dispatchMultiple processOptions)
       && not_zero warnTimeout
    then warn DispatchMultipleAlwaysTrue env0 else env0 in
  let env2 :=
    match fn_length process with
    | 0%nat | 1%nat => set_object r (setIfUndefined_dispatchReturn processOptions) env1
    | 2%nat =>
        if negb production
           && negb (default false (po_dispatchMultiple processOptions))
           && not_zero warnTimeout
        then warn SingleDispatchDeprecated env1 else env1
    | _ => set_object r (setIfUndefined_dispatchMultiple processOptions) env1
    end in
  (env2,
   inl {| r_name := typeToStrFns (o_name logicOptions);
          r_type := typeToStrFns (o_type logicOptions);
          r_cancelType := typeToStrFns (o_cancelType logicOptions);
          r_latest := latest; r_debounce := debounce; r_throttle := throttle;
          r_validate := validateDefaulted;
          r_transform := o_transform logicOptions;
          r_process := process;
          r_processOptions := r;
          r_warnTimeout := warnTimeout |}).

(** The unit the engine runs for a logic object: what
    [createLogicAction$] and [logicWrapper] read off it, with the
    [processOptions] as they are in [env] at that moment.  There is none
    when a type is a function or when the object has no intercept
    hook. *)
Definition as_unit (env : Env) (logic : LogicObject) : option Logic :=
  match as_pattern (r_type logic), as_pattern (r_cancelType logic),
        (match r_validate logic with
         | Some h => Some h
         | None => r_transform logic
         end) with
  | Some type, Some cancelType, Some intercept =>
      let processOptions := default empty_object (heap env !! r_processOptions logic) in
      Some {| l_type := type; l_cancelType := cancelType;
              l_latest := r_latest logic;
              l_debounce := r_debounce logic; l_throttle := r_throttle logic;
              l_intercept := intercept;
              l_process := fn_body (r_process logic);
              l_processOptions :=
                {| dispatchReturn := default false (po_dispatchReturn processOptions);
                   dispatchMultiple := default false (po_dispatchMultiple processOptions);
                   successType := po_successType processOptions;
                   failType := po_failType processOptions |};
              l_warnTimeout := default 0%nat (r_warnTimeout logic) |}
  | _, _, _ => None
  end.

(** The [processOptions] a call works on: the object it was given, or a
    new [{}]. *)
Definition given_object (logicOptions : LogicOptions) (env : Env) : ProcessOptionsObj :=
  match o_processOptions logicOptions with
  | Some r => default empty_object (heap env !! r)
  | None => empty_object
  end.

End CreateLogic.

(** What the [switch (process.length)] of [createLogic] leaves in the
    [processOptions] object. *)
Definition defaults_applied (n : nat) (obj : CreateLogic.ProcessOptionsObj)
  : CreateLogic.ProcessOptionsObj :=
  match n with
  | 0%nat | 1%nat => CreateLogic.setIfUndefined_dispatchReturn obj
  | 2%nat => obj
  | _ => CreateLogic.setIfUndefined_dispatchMultiple obj
  end.

(* ===================================================================== *)
(** ** Sample logic items and options *)
(* ===================================================================== *)

(** A regular expression that prints as [/re/]. *)
Definition sample_text : (JsVal -> bool) -> string := fun _ => "/re/".

Definition item_a : Registry.LogicObj :=
  unnamed_item 1 (plain_unit "A" identityValidation (returns VUndef) return_mode).
Definition item_b : Registry.LogicObj :=
  unnamed_item 2 (plain_unit "B" identityValidation (returns VUndef) return_mode).
Definition item_c : Registry.LogicObj :=
  unnamed_item 3 (plain_unit "C" identityValidation (returns VUndef) return_mode).

(** [createLogicMiddleware([item_a])] *)
Definition sample_registry : Registry.State :=
  {| Registry.arrLogic := [item_a];
     Registry.mwState := {| Middleware.savedStore := None |};
     Registry.savedNext := None; Registry.actionEnd := None;
     Registry.logicSub := None; Registry.logicCount := 0%nat;
     Registry.savedLogicArr := [item_a]; Registry.deps := Registry.empty_deps |}.

(** The middleware applied to a store and a [next]. *)
Definition applied_registry : Registry.State :=
  calls sample_text [Registry.CallMw 0%nat; Registry.CallNext (Some 0%nat)] sample_registry.

(** [{ type: t, warnTimeout: 0, process, processOptions }] *)
Definition sample_options (t : string) (process : option CreateLogic.ProcessFn)
           (processOptions : option nat) : CreateLogic.LogicOptions :=
  {| CreateLogic.o_keys := ["type"; "warnTimeout"; "process"; "processOptions"];
     CreateLogic.o_name := CreateLogic.TyUndefined;
     CreateLogic.o_type := CreateLogic.TyString t;
     CreateLogic.o_cancelType := CreateLogic.TyUndefined;
     CreateLogic.o_warnTimeout := Some 0%nat;
     CreateLogic.o_latest := None; CreateLogic.o_debounce := None;
     CreateLogic.o_throttle := None;
     CreateLogic.o_validate := None; CreateLogic.o_transform := None;
     CreateLogic.o_process := process;
     CreateLogic.o_processOptions := processOptions |}.

(** [process({ action }) { return action }] *)
Definition returning_process : CreateLogic.ProcessFn :=
  {| CreateLogic.fn_length := 1;
     CreateLogic.fn_body := fun a => {| p_calls := []; p_outcome := PReturn a |} |}.

(** [process(deps, dispatch, done) { done() }] *)
Definition done_process : CreateLogic.ProcessFn :=
  {| CreateLogic.fn_length := 3;
     CreateLogic.fn_body := fun _ => {| p_calls := [PDone]; p_outcome := PReturn VUndef |} |}.

(* ===================================================================== *)
(** ** The effects of the engine, one at a time *)
(* ===================================================================== *)

(** Closure [i] has been created. *)
Definition has (i : nat) (w : World) : Prop := (i < length (insts w))%nat.

(** The subscriber of the queue of closure [i] has not been notified of
    error or completion. *)
Definition queue_open (i : nat) (w : World) : Prop :=
  exists x, insts w !! i = Some x /\ dispClosed x = false.

(** The closure an event is tagged with. *)
Definition closure_of (e : MonitorEvent) : option nat :=
  match e with
  | EvBegin i _ | EvNext i _ _ _ | EvNextDisp i _ _ _ | EvFiltered i _ _
  | EvCancelled i _ | EvDispCancelled i _ | EvDispatch i _ _ | EvEnd i _ => Some i
  | EvTop _ | EvNextError _ _ | EvBottom _ => None
  end.

Definition is_begin (e : MonitorEvent) : bool :=
  match e with EvBegin _ _ => true | _ => false end.
Definition is_end (e : MonitorEvent) : bool :=
  match e with EvEnd _ _ => true | _ => false end.
Definition is_dispatch (e : MonitorEvent) : bool :=
  match e with EvDispatch _ _ _ => true | _ => false end.

Definition is_warning (m : ConsoleMsg) : bool :=
  match m with CWarnTimeout _ => true | _ => false end.

(** What the closing of a queue does to the closure: the flag of
    [dispatch_terminate], then [cancelled_complete]. *)
Definition ended (x : Instance) : Instance :=
  set_warnArmed false (set_cancelledStopped true (set_dispClosed true x)).

(** One effect of the engine on the world.  [units] are the units of the
    pipeline; a closure is made for one of them, and its timer is armed
    as [createLogicAction] arms it. *)
Inductive Prim (production : bool) (units : list Logic) (w : World) : World -> Prop :=
| prim_event e :
    is_begin e = false -> is_end e = false -> is_dispatch e = false ->
    (forall i, closure_of e = Some i -> has i w) ->
    Prim production units w
         (mkWorld (monitor w ++ [e]) (console w) (consumer w) (processCalls w)
                  (insts w) (limiters w))
| prim_dispatch i a d :
    queue_open i w ->
    Prim production units w
         (mkWorld (monitor w ++ [EvDispatch i a d]) (console w) (consumer w)
                  (processCalls w) (insts w) (limiters w))
| prim_begin stage logic a :
    In logic units ->
    Prim production units w
         (mkWorld (monitor w ++ [EvBegin (length (insts w)) a]) (console w) (consumer w)
                  (processCalls w)
                  (insts w ++ [mkInstance stage a false false false false 0 false
                                 (negb production && negb (Nat.eqb (l_warnTimeout logic) 0))])
                  (limiters w))
| prim_end i a :
    queue_open i w ->
    Prim production units w
         (mkWorld (monitor w ++ [EvEnd i a]) (console w) (consumer w) (processCalls w)
                  (alter ended i (insts w)) (limiters w))
| prim_upd i f :
    (forall x, dispClosed (f x) = dispClosed x /\
               (warnArmed (f x) = true -> warnArmed x = true)) ->
    Prim production units w (set_insts (alter f i (insts w)) w)
| prim_warn i x :
    insts w !! i = Some x -> warnArmed x = true ->
    Prim production units w
         (mkWorld (monitor w) (console w ++ [CWarnTimeout i]) (consumer w) (processCalls w)
                  (alter (set_warnArmed false) i (insts w)) (limiters w))
| prim_console m :
    is_warning m = false ->
    Prim production units w
         (mkWorld (monitor w) (console w ++ [m]) (consumer w) (processCalls w)
                  (insts w) (limiters w))
| prim_consumer a :
    Prim production units w
         (mkWorld (monitor w) (console w) (consumer w ++ [a]) (processCalls w)
                  (insts w) (limiters w))
| prim_process i a :
    Prim production units w
         (mkWorld (monitor w) (console w) (consumer w) (processCalls w ++ [(i, a)])
                  (insts w) (limiters w))
| prim_limiter k l :
    Prim production units w
         (mkWorld (monitor w) (console w) (consumer w) (processCalls w) (insts w)
                  (fun j => if Nat.eqb j k then l else limiters w j)).

(** Effects one after the other. *)
Inductive Steps (production : bool) (units : list Logic) (w : World) : World -> Prop :=
| steps_none : Steps production units w w
| steps_more w1 w2 :
    Steps production units w w1 -> Prim production units w1 w2 ->
    Steps production units w w2.

(** [walks P m]: started in a world where [P] holds, [m] gets to the
    world it ends in by such effects. *)
Definition walks (production : bool) (units : list Logic) {A}
           (P : World -> Prop) (m : M A) : Prop :=
  forall w, P w -> Steps production units w (world_of (m w)).

(** What holds in [w] and after any effects. *)
Definition lasting (production : bool) (units : list Logic) (P Q : World -> Prop) : Prop :=
  forall w w', P w -> Steps production units w w' -> Q w'.

(** The closures that have logged the warning of their timer. *)
Definition warned (l : list ConsoleMsg) : list nat :=
  flat_map (fun m => match m with CWarnTimeout i => [i] | _ => [] end) l.

(** The order of the events of one closure in a monitor stream: whatever
    it emits comes after its [begin]; [begin] and [end] come once; and
    after [end] it emits no [dispatch]. *)
Definition in_order (l : list MonitorEvent) : Prop :=
  forall pre e post i,
    l = pre ++ e :: post -> closure_of e = Some i ->
    (if is_begin e
     then forall e', In e' pre -> closure_of e' <> Some i
     else exists a, In (EvBegin i a) pre) /\
    (is_end e = true ->
     forall e', In e' post -> closure_of e' = Some i ->
                is_end e' = false /\ is_dispatch e' = false).

(** What holds of the monitor stream and the closures between effects:
    the events are in order, every event of a closure is of one that was
    created, every closure has emitted [begin], and a closure that has
    emitted [end] has a closed queue. *)
Definition tidy (w : World) : Prop :=
  in_order (monitor w) /\
  (forall e i, In e (monitor w) -> closure_of e = Some i -> has i w) /\
  (forall i, has i w -> exists a, In (EvBegin i a) (monitor w)) /\
  (forall i a, In (EvEnd i a) (monitor w) -> closed w i).

(** A timer can be armed here: not in production, and some unit has a
    [warnTimeout]. *)
Definition may_warn (production : bool) (units : list Logic) : Prop :=
  production = false /\ exists logic, In logic units /\ l_warnTimeout logic <> 0%nat.

(** What holds of the timers between effects: no closure has warned
    twice, a closure that has warned has a spent timer, a closure whose
    queue is closed has none, and an armed timer or a warning is there
    only where one can be armed. *)
Definition timers_ok (production : bool) (units : list Logic) (w : World) : Prop :=
  NoDup (warned (console w)) /\
  (forall i, In i (warned (console w)) ->
     exists x, insts w !! i = Some x /\ warnArmed x = false) /\
  (forall i x, insts w !! i = Some x -> dispClosed x = true -> warnArmed x = false) /\
  (forall i x, insts w !! i = Some x -> warnArmed x = true -> may_warn production units) /\
  (warned (console w) <> [] -> may_warn production units).

(* ===================================================================== *)
(** * Properties *)
(* ===================================================================== *)

Section ExtFacts.

Lemma ext_refl own w : ext own w w.
Proof.
  split; try reflexivity.
  - exists []. rewrite app_nil_r. split; [reflexivity | intros j a d []].
  - intros i x H. exists x. auto 10.
Qed.

Lemma ext_length own w w' : ext own w w' -> (length (insts w) <= length (insts w'))%nat.
Proof.
  intros [_ Hi _ _ _].
  destruct (Nat.le_gt_cases (length (insts w)) (length (insts w'))) as [|Hlt]; [assumption|].
  destruct (lookup_lt_is_Some_2 (insts w) (length (insts w'))) as [x Hx]; [lia|].
  destruct (Hi _ _ Hx) as (x' & Hx' & _).
  apply lookup_lt_Some in Hx'. lia.
Qed.

Lemma closed_ext own w w' j : ext own w w' -> closed w j -> closed w' j.
Proof.
  intros [_ Hi _ _ _] (x & Hx & Hc).
  destruct (Hi _ _ Hx) as (x' & Hx' & _ & _ & Hc' & _).
  exists x'. auto.
Qed.

Lemma ext_trans own w1 w2 w3 : ext own w1 w2 -> ext own w2 w3 -> ext own w1 w3.
Proof.
  intros H12 H23.
  pose proof (ext_length _ _ _ H12) as Hlen.
  destruct H12 as [(es1 & Hm1 & Hd1) Hi1 Hc1 Hn1 Hp1].
  pose proof H23 as [(es2 & Hm2 & Hd2) Hi2 Hc2 Hn2 Hp2].
  split; try (etrans; eassumption).
  - exists (es1 ++ es2). split.
    + rewrite Hm2, Hm1, app_assoc. reflexivity.
    + intros j a d Hin. apply in_app_or in Hin as [Hin|Hin]; [eauto|].
      destruct (Hd2 _ _ _ Hin) as [[Ho Hnc]|Hge]; [|right; lia].
      destruct (Nat.le_gt_cases (length (insts w1)) j) as [|Hlt]; [right; assumption|].
      left. split; [assumption|].
      intros (x & Hx & Hc). apply Hnc.
      destruct (Hi1 _ _ Hx) as (x' & Hx' & _ & _ & Hc' & _).
      exists x'. auto.
  - intros i x Hx.
    destruct (Hi1 _ _ Hx) as (x' & Hx' & Hs' & Ha' & Hc' & Hic' & Ho').
    destruct (Hi2 _ _ Hx') as (x'' & Hx'' & Hs'' & Ha'' & Hc'' & Hic'' & Ho'').
    exists x''. repeat split; try congruence; auto.
Qed.

Lemma ext_own (own own' : nat -> Prop) w w' :
  (forall j, own j -> own' j) -> ext own w w' -> ext own' w w'.
Proof.
  intros Hsub [(es & Hm & Hd) Hi Hc Hn Hp]. split; try assumption.
  exists es. split; [assumption|].
  intros j a d Hin. destruct (Hd _ _ _ Hin) as [[Ho Hnc]|Hge]; auto.
Qed.

Lemma ext_silent own i w w' :
  ext own w w' -> (i < length (insts w))%nat -> (own i -> closed w i) ->
  silent_since i w w'.
Proof.
  intros [(es & Hm & Hd) _ _ _ _] Hlt Hown.
  exists es. split; [assumption|].
  intros a d Hin. destruct (Hd _ _ _ Hin) as [[Ho Hnc]|Hge]; [auto | lia].
Qed.

Lemma silent_since_trans i w1 w2 w3 :
  silent_since i w1 w2 -> silent_since i w2 w3 -> silent_since i w1 w3.
Proof.
  intros (es1 & H1 & N1) (es2 & H2 & N2).
  exists (es1 ++ es2). split.
  - rewrite H2, H1, app_assoc. reflexivity.
  - intros a d Hin. apply in_app_or in Hin as [Hin|Hin]; [eapply N1 | eapply N2]; eassumption.
Qed.

End ExtFacts.

Section SatRules.

Context {A B : Type}.

Lemma sat_ret own t (a : A) : sat own t (ret a).
Proof. intros w. split; [apply ext_refl | reflexivity]. Qed.

Lemma sat_halt own t : sat own t (@halt A).
Proof. intros w. split; [apply ext_refl | reflexivity]. Qed.

Lemma sat_throw own (e : JsVal) : sat own true (@throw A e).
Proof. intros w. split; [apply ext_refl | discriminate]. Qed.

Lemma sat_bind own t (m : M A) (f : A -> M B) :
  sat own t m -> (forall a, sat own t (f a)) -> sat own t (bind m f).
Proof.
  intros Hm Hf w. unfold bind.
  destruct (Hm w) as [He Ht]. destruct (m w) as [a w1|e w1|w1]; simpl in *.
  - destruct (Hf a w1) as [He' Ht']. split; [eapply ext_trans; eassumption | assumption].
  - split; [assumption|]. intros ->. specialize (Ht eq_refl). discriminate.
  - split; [assumption | reflexivity].
Qed.

Lemma sat_try own t (m : M A) (h : JsVal -> M A) :
  sat own true m -> (forall e, sat own t (h e)) -> sat own t (try_catch m h).
Proof.
  intros Hm Hh w. unfold try_catch.
  destruct (Hm w) as [He _]. destruct (m w) as [a w1|e w1|w1]; simpl in *.
  - split; [assumption | reflexivity].
  - destruct (Hh e w1) as [He' Ht']. split; [eapply ext_trans; eassumption | assumption].
  - split; [assumption | reflexivity].
Qed.

Lemma sat_weaken (own own' : nat -> Prop) t (m : M A) :
  (forall j, own j -> own' j) -> sat own false m -> sat own' t m.
Proof.
  intros Hsub Hm w. destruct (Hm w) as [He Ht].
  split; [eapply ext_own; eassumption | auto].
Qed.

Lemma sat_may_throw own (m : M A) : sat own false m -> sat own true m.
Proof. apply sat_weaken. auto. Qed.

End SatRules.

Lemma sat_with_inst own t i (f : Instance -> M unit) :
  (forall x w, insts w !! i = Some x -> ext own w (world_of (f x w)) /\
               (t = false -> is_thrown (f x w) = false)) ->
  sat own t (with_inst i f).
Proof.
  intros Hf w. unfold with_inst. destruct (insts w !! i) as [x|] eqn:Hx.
  - apply Hf. assumption.
  - split; [apply ext_refl | reflexivity].
Qed.

(** A primitive that leaves the closures alone and emits no [dispatch]
    event. *)
Lemma ext_quiet own w w' es :
  monitor w' = monitor w ++ es ->
  (forall j a d, ~ In (EvDispatch j a d) es) ->
  insts w' = insts w ->
  console w `prefix_of` console w' ->
  consumer w `prefix_of` consumer w' ->
  processCalls w `prefix_of` processCalls w' ->
  ext own w w'.
Proof.
  intros Hm Hd Hi Hc Hn Hp. split; try assumption.
  - exists es. split; [assumption|]. intros j a d Hin. destruct (Hd _ _ _ Hin).
  - intros i x Hx. exists x. rewrite Hi. auto 10.
Qed.

Ltac quiet_goal :=
  first [ symmetry; apply app_nil_r
        | intros ? ? ? []
        | reflexivity
        | eexists; reflexivity ].

Lemma sat_monitor_next own t e :
  (forall j a d, e <> EvDispatch j a d) -> sat own t (monitor_next e).
Proof.
  intros Hne w. split; [|reflexivity]. simpl.
  apply ext_quiet with (es := [e]); simpl; try reflexivity.
  intros j a d [Hin|[]]. eapply Hne. eassumption.
Qed.

Lemma sat_console_error own t m : sat own t (console_error m).
Proof.
  intros w. split; [|reflexivity]. simpl.
  apply ext_quiet with (es := []); simpl; quiet_goal.
Qed.

Lemma sat_consumer_push own t a : sat own t (consumer_push a).
Proof.
  intros w. split; [|reflexivity]. simpl.
  apply ext_quiet with (es := []); simpl; quiet_goal.
Qed.

Lemma sat_process_push own t i a : sat own t (process_push i a).
Proof.
  intros w. split; [|reflexivity]. simpl.
  apply ext_quiet with (es := []); simpl; quiet_goal.
Qed.

Lemma sat_set_limiter own t k l : sat own t (set_limiter k l).
Proof.
  intros w. split; [|reflexivity]. simpl.
  apply ext_quiet with (es := []); simpl; quiet_goal.
Qed.

Lemma sat_upd_inst own t i f : keeps f -> sat own t (upd_inst i f).
Proof.
  intros Hk w. split; [|reflexivity]. simpl. split; simpl; try reflexivity.
  - exists []. rewrite app_nil_r. split; [reflexivity | intros j a' d []].
  - intros k x Hx. destruct (decide (i = k)) as [->|Hne].
    + exists (f x). rewrite list_lookup_alter_eq, Hx. simpl.
      destruct (Hk x) as (? & ? & ? & ? & ?). auto.
    + exists x. rewrite list_lookup_alter_ne by assumption. auto 10.
Qed.

Lemma sat_push_inst own t x : sat own t (push_inst x).
Proof.
  intros w. split; [|reflexivity]. simpl. split; simpl; try reflexivity.
  - exists []. rewrite app_nil_r. split; [reflexivity | intros j a' d []].
  - intros k y Hy. exists y. rewrite (lookup_app_l_Some _ _ _ _ Hy). auto 10.
Qed.

Lemma keeps_set_interceptComplete : keeps (set_interceptComplete true).
Proof. intros x. simpl. auto 10. Qed.
Lemma keeps_set_outStopped : keeps (set_outStopped true).
Proof. intros x. simpl. auto 10. Qed.
Lemma keeps_set_cancelledStopped b : keeps (set_cancelledStopped b).
Proof. intros x. simpl. auto 10. Qed.
Lemma keeps_set_dispStopped b : keeps (set_dispStopped b).
Proof. intros x. simpl. auto 10. Qed.
Lemma keeps_set_dispActive n : keeps (set_dispActive n).
Proof. intros x. simpl. auto 10. Qed.
Lemma keeps_set_dispClosed_true : keeps (set_dispClosed true).
Proof. intros x. simpl. auto 10. Qed.
Lemma keeps_set_warnArmed b : keeps (set_warnArmed b).
Proof. intros x. simpl. auto 10. Qed.
Lemma keeps_release : keeps (fun x => set_warnArmed false (set_cancelledStopped true x)).
Proof. intros x. simpl. auto 10. Qed.

Lemma ext_fresh i w w1 w2 :
  ext none w w1 -> ext (only i) w1 w2 -> (length (insts w) <= i)%nat -> ext none w w2.
Proof.
  intros H1 H2 Hi.
  pose proof (ext_length _ _ _ H1) as Hlen.
  pose proof (ext_trans (only i) w w1 w2 (ext_own none (only i) _ _ ltac:(intros ? []) H1) H2)
    as [(es & Hm & Hd) Hins Hc Hn Hp].
  split; try assumption.
  exists es. split; [assumption|].
  intros j a d Hin. destruct (Hd _ _ _ Hin) as [[Ho _]|Hge]; [|right; assumption].
  right. unfold only in Ho. lia.
Qed.

Lemma not_closed_lookup w i x :
  insts w !! i = Some x -> dispClosed x = false -> ~ closed w i.
Proof. intros Hx Hc (y & Hy & Hcy). congruence. Qed.

Section ClosureExt.

Variable store_dispatch : JsVal -> M unit.
Hypothesis store_sat : forall a, sat none true (store_dispatch a).
Variable logic : Logic.
Variable action : JsVal.
Variable self : nat.
Variable downstream : JsVal -> M unit.
Hypothesis downstream_sat : forall a, sat none false (downstream a).

Lemma cancelled_complete_sat own t : sat own t (cancelled_complete self).
Proof. apply sat_upd_inst, keeps_release. Qed.

Lemma dispatch_end_sat own t : sat own t (dispatch_end action self).
Proof.
  apply sat_bind; [apply sat_monitor_next; discriminate|].
  intros _. apply cancelled_complete_sat.
Qed.

Lemma dispatch_terminate_sat own t : sat own t (dispatch_terminate action self).
Proof.
  apply sat_weaken with (own := own); [auto|].
  apply sat_with_inst. intros x w Hx. destruct (dispClosed x).
  - apply sat_ret.
  - apply sat_bind; [apply sat_upd_inst, keeps_set_dispClosed_true|].
    intros _. apply dispatch_end_sat.
Qed.

Lemma storeDispatch_ext act w :
  ~ closed w self ->
  ext (only self) w (world_of (storeDispatch store_dispatch action self act w)).
Proof.
  intros Hnc. unfold storeDispatch, bind. simpl.
  eapply ext_trans.
  2: { eapply ext_own; [|apply store_sat]. intros ? []. }
  split; simpl; try reflexivity.
  - eexists. split; [reflexivity|].
    intros j a d [Hin|[]]. inversion Hin; subst. left. split; [reflexivity | assumption].
  - intros i x Hx. exists x. auto 10.
Qed.

Lemma mapToActionAndDispatch_ext v w :
  ~ closed w self ->
  ext (only self) w (world_of (mapToActionAndDispatch store_dispatch logic action self v w)).
Proof.
  intros Hnc. unfold mapToActionAndDispatch.
  match goal with |- context [if truthy ?a then _ else _] => destruct (truthy a) end.
  - apply storeDispatch_ext. assumption.
  - apply ext_refl.
Qed.

Lemma mapErrorToActionAndDispatch_ext v w :
  ~ closed w self ->
  ext (only self) w
      (world_of (mapErrorToActionAndDispatch store_dispatch logic action self v w)).
Proof.
  intros Hnc. unfold mapErrorToActionAndDispatch.
  destruct (isInterceptAction v); [apply storeDispatch_ext; assumption|].
  destruct (configured (failType (l_processOptions logic))).
  - match goal with |- context [if truthy ?a then _ else _] => destruct (truthy a) end.
    + apply storeDispatch_ext. assumption.
    + apply ext_refl.
  - destruct (instanceofError v); [apply storeDispatch_ext; assumption|].
    destruct (truthy v && typeof_object_or_function v);
      apply storeDispatch_ext; assumption.
Qed.

Lemma tap_next_ext v w :
  ~ closed w self ->
  ext (only self) w (world_of (tap_next store_dispatch logic action self v w)) /\
  is_thrown (tap_next store_dispatch logic action self v w) = false.
Proof.
  intros Hnc. unfold tap_next, try_catch.
  pose proof (mapToActionAndDispatch_ext v w Hnc) as He.
  destruct (mapToActionAndDispatch store_dispatch logic action self v w)
    as [a w1|e w1|w1]; simpl in *; try (split; [assumption | reflexivity]).
  destruct (dispatch_terminate_sat (only self) false w1) as [He' Ht'].
  split; [eapply ext_trans; eassumption | auto].
Qed.

Lemma tap_error_ext e w :
  ~ closed w self ->
  ext (only self) w (world_of (tap_error store_dispatch logic action self e w)) /\
  is_thrown (tap_error store_dispatch logic action self e w) = false.
Proof.
  intros Hnc. unfold tap_error, bind, try_catch.
  pose proof (mapErrorToActionAndDispatch_ext e w Hnc) as He.
  destruct (mapErrorToActionAndDispatch store_dispatch logic action self e w)
    as [a w1|e1 w1|w1]; simpl in *; try (split; [assumption | reflexivity]);
    destruct (dispatch_terminate_sat (only self) false w1) as [He' Ht'];
    (split; [eapply ext_trans; eassumption | auto]).
Qed.

Lemma inner_items_sat items :
  sat (only self) false (inner_items store_dispatch logic action self items).
Proof.
  induction items as [|v rest IH]; simpl; [apply sat_ret|].
  apply sat_with_inst. intros x w Hx. destruct (dispClosed x) eqn:Hc.
  - apply sat_ret.
  - unfold bind.
    destruct (tap_next_ext v w (not_closed_lookup _ _ _ Hx Hc)) as [He Ht].
    destruct (tap_next store_dispatch logic action self v w) as [a w1|e w1|w1];
      simpl in *; try discriminate; try (split; [assumption | reflexivity]).
    destruct (IH w1) as [He' Ht'].
    split; [eapply ext_trans; eassumption | assumption].
Qed.

Lemma inner_complete_sat own t : sat own t (inner_complete action self).
Proof.
  apply sat_with_inst. intros x w Hx. destruct (dispClosed x); [apply sat_ret|].
  apply sat_bind; [apply sat_upd_inst, keeps_set_dispActive|].
  intros _. destruct (_ && _); [apply dispatch_terminate_sat | apply sat_ret].
Qed.

Lemma inner_error_sat e :
  sat (only self) false (inner_error store_dispatch logic action self e).
Proof.
  apply sat_with_inst. intros x w Hx. destruct (dispClosed x) eqn:Hc.
  - apply sat_ret.
  - destruct (tap_error_ext e w (not_closed_lookup _ _ _ Hx Hc)) as [He Ht].
    split; [assumption | intros _; assumption].
Qed.

Lemma dispatch_next_sat obs :
  sat (only self) false (dispatch_next store_dispatch logic action self obs).
Proof.
  apply sat_with_inst. intros x w Hx. destruct (_ || _); [apply sat_ret|].
  apply sat_bind; [apply sat_upd_inst, keeps_set_dispActive|].
  intros _. apply sat_bind; [apply inner_items_sat|].
  intros _. destruct (snd obs).
  - apply inner_complete_sat.
  - apply inner_error_sat.
  - apply sat_ret.
Qed.

Lemma dispatch_complete_sat own t : sat own t (dispatch_complete action self).
Proof.
  apply sat_with_inst. intros x w Hx. destruct (dispStopped x); [apply sat_ret|].
  apply sat_bind; [apply sat_upd_inst, keeps_set_dispStopped|].
  intros _. destruct (Nat.eqb _ _); [apply dispatch_terminate_sat | apply sat_ret].
Qed.

Lemma dispatch_sat act options :
  sat (only self) false (dispatch store_dispatch logic action self act options).
Proof.
  unfold dispatch. apply sat_bind.
  - destruct act; try apply dispatch_next_sat. apply sat_ret.
  - intros _. destruct (negb _); [apply dispatch_complete_sat | apply sat_ret].
Qed.

Lemma done_sat own t : sat own t (done action self).
Proof. apply dispatch_complete_sat. Qed.

Lemma logicActionObs_next_sat own act :
  sat own false (logicActionObs_next self downstream act).
Proof.
  apply sat_with_inst. intros x w Hx. destruct (outStopped x); [apply sat_ret|].
  apply sat_bind; [apply sat_upd_inst, keeps_set_outStopped|].
  intros _. eapply sat_weaken; [|apply downstream_sat]. intros ? [].
Qed.

Lemma logicActionObs_complete_sat own t : sat own t (logicActionObs_complete self).
Proof. apply sat_upd_inst, keeps_set_outStopped. Qed.

Lemma postIfDefinedOrComplete_sat own act :
  sat own false (postIfDefinedOrComplete self downstream act).
Proof.
  unfold postIfDefinedOrComplete. apply sat_bind.
  - destruct (truthy act); [apply logicActionObs_next_sat | apply sat_ret].
  - intros _. apply sat_bind; [apply sat_upd_inst, keeps_set_interceptComplete|].
    intros _. apply logicActionObs_complete_sat.
Qed.

Lemma run_calls_sat calls :
  sat (only self) false (run_calls store_dispatch logic action self calls).
Proof.
  induction calls as [|[act options|] rest IH]; simpl.
  - apply sat_ret.
  - apply sat_bind; [apply dispatch_sat | intros _; assumption].
  - apply sat_bind; [apply done_sat | intros _; assumption].
Qed.

Lemma processFn_sat a :
  sat (only self) true (processFn store_dispatch logic action self a).
Proof.
  unfold processFn. apply sat_bind; [apply sat_process_push|].
  intros _. apply sat_bind; [apply sat_may_throw, run_calls_sat|].
  intros _. destruct (p_outcome _); [apply sat_ret | apply sat_throw].
Qed.

Lemma process_or_complete_sat shouldProcess act :
  sat (only self) false
      (process_or_complete store_dispatch logic action self shouldProcess act).
Proof.
  unfold process_or_complete. destruct shouldProcess; [|apply dispatch_complete_sat].
  apply sat_try.
  - apply sat_bind; [apply processFn_sat|].
    intros retValue. apply sat_may_throw.
    destruct (dispatchReturn _); [|apply sat_ret].
    destruct retValue; try apply dispatch_sat. apply dispatch_complete_sat.
  - intros err. apply sat_bind; [apply sat_console_error|].
    intros _. apply dispatch_sat.
Qed.

Lemma handleNextOrDispatch_sat shouldProcess act options :
  sat (only self) false
      (handleNextOrDispatch store_dispatch logic action self downstream
                            shouldProcess act options).
Proof.
  unfold handleNextOrDispatch. apply sat_bind.
  - destruct (truthy (shouldDispatch _ _ _)).
    + apply sat_bind; [apply sat_monitor_next; discriminate|].
      intros _. apply sat_bind; [apply sat_upd_inst, keeps_set_interceptComplete|].
      intros _. apply sat_bind; [apply dispatch_sat|].
      intros _. apply logicActionObs_complete_sat.
    + apply sat_bind.
      * destruct (truthy act); [apply sat_monitor_next; discriminate|].
        apply sat_bind; [apply sat_monitor_next; discriminate|].
        intros _. apply sat_upd_inst, keeps_set_interceptComplete.
      * intros _. apply postIfDefinedOrComplete_sat.
  - intros _. apply process_or_complete_sat.
Qed.

Lemma run_intercept_sat calls :
  sat (only self) false
      (run_intercept store_dispatch logic action self downstream calls).
Proof.
  induction calls as [|[act options|act options] rest IH]; simpl.
  - apply sat_ret.
  - apply sat_bind; [apply handleNextOrDispatch_sat | intros _; assumption].
  - apply sat_bind; [apply handleNextOrDispatch_sat | intros _; assumption].
Qed.

Lemma cancel_signal_sat own t : sat own t (cancel_signal action self).
Proof.
  unfold cancel_signal.
  apply sat_bind; [apply sat_upd_inst, keeps_set_outStopped|].
  intros _. apply sat_bind.
  - apply sat_with_inst. intros x w Hx. destruct (cancelledStopped x); [apply sat_ret|].
    apply sat_bind.
    + destruct (negb _); apply sat_monitor_next; discriminate.
    + intros _. apply sat_upd_inst, keeps_release.
  - intros _. apply dispatch_terminate_sat.
Qed.

Lemma warn_timer_sat own t : sat own t (warn_timer self).
Proof.
  apply sat_with_inst. intros x w Hx. destruct (warnArmed x); [|apply sat_ret].
  apply sat_bind; [apply sat_upd_inst, keeps_set_warnArmed|].
  intros _. apply sat_console_error.
Qed.

End ClosureExt.

Section PipelineExt.

Variable production : bool.
Variable store_dispatch : JsVal -> M unit.
Hypothesis store_sat : forall a, sat none true (store_dispatch a).
Variable nextThrows : JsVal -> option JsVal.

Lemma createLogicAction_sat stage logic downstream action :
  (forall a, sat none false (downstream a)) ->
  sat none false (createLogicAction production store_dispatch stage logic downstream action).
Proof.
  intros Hd w. unfold createLogicAction.
  set (self := length (insts w)).
  set (x0 := mkInstance _ _ _ _ _ _ _ _ _).
  unfold bind. simpl.
  set (w1 := set_insts _ _).
  assert (H1 : ext none w w1).
  { eapply ext_trans.
    - apply (sat_monitor_next none false (EvBegin self action)). discriminate.
    - apply (sat_push_inst none false x0). }
  destruct (run_intercept_sat store_dispatch store_sat logic action self downstream Hd
              (l_intercept logic action) w1) as [He Ht].
  split; [|assumption].
  eapply ext_fresh; [exact H1 | exact He | subst self; lia].
Qed.

Lemma call_next_sat a : sat none true (call_next nextThrows a).
Proof.
  unfold call_next. apply sat_bind; [apply sat_consumer_push|].
  intros _. destruct (nextThrows a); [apply sat_throw | apply sat_ret].
Qed.

Lemma bottom_sat a : sat none false (bottom nextThrows a).
Proof.
  unfold bottom. apply sat_bind.
  - apply sat_try; [apply call_next_sat|].
    intros err. apply sat_bind; [apply sat_console_error|].
    intros _. apply sat_monitor_next. discriminate.
  - intros _. apply sat_monitor_next. discriminate.
Qed.

Lemma throttling_sat stage logic k a :
  (forall a, sat none false (k a)) -> sat none false (throttling stage logic k a).
Proof.
  intros Hk. unfold throttling. destruct (Nat.eqb _ _); [apply Hk|].
  intros w. destruct (throttled _); [apply sat_ret|].
  apply sat_bind; [apply sat_set_limiter | intros _; apply Hk].
Qed.

Lemma debouncing_sat stage logic k a :
  (forall a, sat none false (k a)) -> sat none false (debouncing stage logic k a).
Proof.
  intros Hk. unfold debouncing. destruct (Nat.eqb _ _); [apply Hk|].
  intros w. apply sat_set_limiter.
Qed.

Lemma limiting_sat stage logic k a :
  (forall a, sat none false (k a)) -> sat none false (limiting stage logic k a).
Proof.
  intros Hk. apply debouncing_sat. intros a'. apply throttling_sat. assumption.
Qed.

Lemma cancel_closures_sat stage ids : sat none false (cancel_closures stage ids).
Proof.
  induction ids as [|i rest IH]; simpl; [apply sat_ret|].
  apply sat_bind; [|intros _; assumption].
  apply sat_with_inst. intros x w Hx.
  destruct (Nat.eqb _ _); [apply cancel_signal_sat | apply sat_ret].
Qed.

Lemma deliver_sat stages : forall stage a,
  sat none false (deliver production store_dispatch nextThrows stage stages a).
Proof.
  induction stages as [|logic rest IH]; intros stage a; simpl.
  - apply bottom_sat.
  - intros w. apply sat_bind; [|intros _; apply sat_bind].
    + destruct (negb _); [apply IH | apply sat_ret].
    + destruct (matchesType _ _); [|apply sat_ret].
      apply limiting_sat. intros a'. apply createLogicAction_sat. apply IH.
    + intros _. destruct (cancels _ _); [apply cancel_closures_sat | apply sat_ret].
Qed.

End PipelineExt.

Lemma entry_sat cfg fuel : forall a, sat none false (entry cfg fuel a).
Proof.
  induction fuel as [|fuel IH]; intros a; simpl.
  - apply sat_halt.
  - apply sat_bind; [apply sat_monitor_next; discriminate|].
    intros _. apply deliver_sat.
    intros act. destruct (storeThrows cfg act); [apply sat_throw|].
    apply sat_may_throw, IH.
Qed.

Lemma store_dispatch_of_sat cfg fuel a : sat none true (store_dispatch_of cfg fuel a).
Proof.
  unfold store_dispatch_of. destruct (storeThrows cfg a); [apply sat_throw|].
  apply sat_may_throw, entry_sat.
Qed.

Lemma in_closure_sat cfg i f :
  (forall logic x, sat anyone false (f logic x)) -> sat anyone false (in_closure cfg i f).
Proof.
  intros Hf. apply sat_with_inst. intros x w Hx.
  destruct (pipeline cfg !! i_stage x); [apply Hf | apply sat_ret].
Qed.

Lemma step_sat cfg fuel ev : sat anyone false (step cfg fuel ev).
Proof.
  pose proof (store_dispatch_of_sat cfg fuel) as Hs.
  assert (Hd : forall stage a, sat none false (downstream_of cfg fuel stage a)).
  { intros stage a. apply deliver_sat. assumption. }
  assert (Hany : forall i j, only i j -> anyone j) by (intros; exact I).
  destruct ev as [a|i act o|i act o|i act o|i|i v|i e|i|stage|stage|i]; simpl.
  - eapply sat_weaken; [|apply (entry_sat cfg (S fuel))]. intros ? [].
  - apply in_closure_sat. intros logic x.
    eapply sat_weaken; [apply Hany|]. apply handleNextOrDispatch_sat; auto.
  - apply in_closure_sat. intros logic x.
    eapply sat_weaken; [apply Hany|]. apply handleNextOrDispatch_sat; auto.
  - intros w. destruct (process_called w i); [|apply sat_ret].
    apply in_closure_sat. intros logic x.
    eapply sat_weaken; [apply Hany|]. apply dispatch_sat; auto.
  - intros w. destruct (process_called w i); [|apply sat_ret].
    apply in_closure_sat. intros logic x. apply done_sat.
  - apply sat_with_inst. intros x w Hx.
    destruct (pipeline cfg !! i_stage x); [|apply sat_ret].
    destruct (dispClosed x) eqn:Hc; simpl;
      [split; [apply ext_refl | reflexivity]|].
    destruct (negb _); [|split; [apply ext_refl | reflexivity]].
    destruct (tap_next_ext _ Hs l (i_action x) i v w (not_closed_lookup _ _ _ Hx Hc))
      as [He Ht].
    split; [eapply ext_own; [apply Hany | exact He] | intros _; exact Ht].
  - apply in_closure_sat. intros logic x. destruct (negb _); [|apply sat_ret].
    eapply sat_weaken; [apply Hany|]. apply inner_error_sat; auto.
  - apply in_closure_sat. intros logic x. destruct (negb _); [|apply sat_ret].
    apply inner_complete_sat.
  - destruct (pipeline cfg !! stage) as [logic|]; [|apply sat_ret].
    intros w. destruct (Nat.eqb _ _); [apply sat_ret|].
    destruct (debounced _); [|apply sat_ret].
    eapply sat_weaken with (own := none); [intros ? []|].
    apply sat_bind; [apply sat_set_limiter|].
    intros _. apply throttling_sat. intros a'. apply createLogicAction_sat; auto.
  - intros w. apply sat_set_limiter.
  - apply warn_timer_sat.
Qed.

Lemma run_sat cfg fuel evs : sat anyone false (run cfg fuel evs).
Proof.
  induction evs as [|ev rest IH]; simpl; [apply sat_ret|].
  apply sat_bind; [apply step_sat | intros _; assumption].
Qed.

(* ===================================================================== *)
(** ** The matcher *)
(* ===================================================================== *)

Lemma Pattern_nested_ind (P : Pattern -> Prop) :
  P PAbsent ->
  (forall s, P (PStr s)) ->
  (forall members, Forall P members -> P (PArr members)) ->
  (forall test, P (PTest test)) ->
  forall p, P p.
Proof.
  intros Ha Hs Harr Ht. fix IH 1.
  intros [|s|members|test]; [apply Ha | apply Hs | | apply Ht].
  apply Harr. induction members as [|x rest IHrest]; constructor.
  - apply IH.
  - apply IHrest.
Qed.

Lemma matchesType_Matches t p : matchesType p (VStr t) = true -> Matches t p.
Proof.
  induction p as [|s|members IH|test] using Pattern_nested_ind; simpl.
  - discriminate.
  - destruct (String.eqb s "") eqn:He; simpl; [discriminate|].
    intros H. apply orb_true_iff in H as [H|H].
    + apply String.eqb_eq in H. subst. apply Matches_exact; [|reflexivity].
      intros ->. discriminate.
    + apply String.eqb_eq in H. subst. apply Matches_wildcard.
  - intros H. apply existsb_exists in H as (x & Hin & Hx).
    rewrite Forall_forall in IH.
    eapply Matches_member; [eassumption|]. apply IH; [|assumption].
    apply list_elem_of_In. assumption.
  - apply Matches_test.
Qed.

Lemma Matches_matchesType t p : Matches t p -> matchesType p (VStr t) = true.
Proof.
  induction 1 as [|s Hne Heq|test Htest|members x Hin Hm IH]; simpl.
  - apply orb_true_r.
  - subst. destruct (String.eqb t "") eqn:He.
    + apply String.eqb_eq in He. contradiction.
    + simpl. rewrite String.eqb_refl. reflexivity.
  - assumption.
  - apply existsb_exists. exists x. auto.
Qed.

Lemma SPattern_nested_ind (P : Stateful.SPattern -> Prop) :
  P Stateful.SAbsent ->
  (forall s, P (Stateful.SStr s)) ->
  (forall members, Forall P members -> P (Stateful.SArr members)) ->
  (forall id, P (Stateful.SRe id)) ->
  forall p, P p.
Proof.
  intros Ha Hs Harr Hr. fix IH 1.
  intros [|s|members|id]; [apply Ha | apply Hs | | apply Hr].
  apply Harr. induction members as [|x rest IHrest]; constructor.
  - apply IH.
  - apply IHrest.
Qed.

(** On a pattern without the two flags the matcher of the source gives
    what [matchesType] gives and assigns to no [lastIndex]. *)
Lemma stateful_matchesType_flagless regs p type st :
  Stateful.flagless regs p = true ->
  Stateful.matchesType regs p type st = (matchesType (Stateful.pure regs p) type, st).
Proof.
  revert st. induction p as [|s|members IH|id] using SPattern_nested_ind; intros st Hf.
  - reflexivity.
  - cbn. destruct (String.eqb s ""); reflexivity.
  - cbn [Stateful.matchesType Stateful.pure matchesType pattern_truthy negb].
    cbn [Stateful.flagless] in Hf.
    induction members as [|x rest IHrest]; [reflexivity|].
    cbn [forallb] in Hf. apply andb_true_iff in Hf as [Hx Hrest].
    inversion IH as [|? ? IHx IHr]; subst.
    rewrite (IHx st Hx). cbn [map existsb].
    destruct (matchesType (Stateful.pure regs x) type); [reflexivity|].
    cbn [orb]. apply IHrest; assumption.
  - cbn in Hf. apply negb_true_iff in Hf.
    cbn [Stateful.matchesType Stateful.pure matchesType pattern_truthy negb].
    unfold Stateful.test. rewrite Hf.
    destruct (Stateful.re_search (regs id) 0 type); reflexivity.
Qed.

(** C6, amended.  [matchesType pattern type] holds exactly by the four
    rules: the wildcard ['*'] matches every type, a string matches the
    identical type, a pattern with a [test] method matches what its
    [test] accepts, an array matches when a member does; an absent or
    empty pattern matches nothing.  The matcher is a function of its two
    arguments alone, and changes nothing, on the patterns in which no
    regular expression has the [g] or the [y] flag: there the matcher
    of the source, which carries the [lastIndex] of every regular
    expression, answers as [matchesType] does and leaves every
    [lastIndex] as it was. *)
Theorem matchesType_characterised :
  (forall p t, matchesType p (VStr t) = true <-> Matches t p) /\
  (forall t, matchesType (PStr "*") (VStr t) = true) /\
  (forall v, matchesType PAbsent v = false /\ matchesType (PStr "") v = false) /\
  (forall regs p type st,
     Stateful.flagless regs p = true ->
     Stateful.matchesType regs p type st
     = (matchesType (Stateful.pure regs p) type, st)) /\
  (forall regs p t st,
     Stateful.flagless regs p = true ->
     (fst (Stateful.matchesType regs p (VStr t) st) = true
      <-> Matches t (Stateful.pure regs p))) /\
  (forall regs type st,
     Stateful.matchesType regs Stateful.SAbsent type st = (false, st) /\
     Stateful.matchesType regs (Stateful.SStr "") type st = (false, st)).
Proof.
  split; [|split; [|split; [|split; [|split]]]].
  - intros p t. split; [apply matchesType_Matches | apply Matches_matchesType].
  - intros t. apply Matches_matchesType, Matches_wildcard.
  - intros v. split; reflexivity.
  - intros regs p type st. apply stateful_matchesType_flagless.
  - intros regs p t st Hf. rewrite (stateful_matchesType_flagless _ _ _ _ Hf).
    cbn [fst]. split; [apply matchesType_Matches | apply Matches_matchesType].
  - intros regs type st. split; reflexivity.
Qed.

(** C6 as stated fails: the matcher is not pure.  With the pattern
    [/FOO/g] two calls with the same arguments differ: the first
    answers [true] and moves [lastIndex] to 3, the second starts there,
    answers [false] and sets [lastIndex] back to 0.  The pattern taken
    as a function of the type alone accepts the type both times. *)
Lemma matchesType_not_pure :
  let regs := fun _ : nat => Stateful.foo_g in
  let st0 := fun _ : nat => 0%nat in
  let r1 := Stateful.matchesType regs (Stateful.SRe 0) (VStr "FOO") st0 in
  let r2 := Stateful.matchesType regs (Stateful.SRe 0) (VStr "FOO") (snd r1) in
  fst r1 = true /\ snd r1 0%nat = 3%nat /\
  fst r2 = false /\ snd r2 0%nat = 0%nat /\
  matchesType (Stateful.pure regs (Stateful.SRe 0)) (VStr "FOO") = true.
Proof. vm_compute. repeat split. Qed.

(* ===================================================================== *)
(** ** One store per middleware *)
(* ===================================================================== *)

Lemma attach_all_same s st stores :
  Middleware.savedStore st = Some s ->
  Forall (fun s' => s' = s) (Middleware.attach_all stores st).
Proof.
  revert st. induction stores as [|s' rest IH]; intros st Hst; simpl; [constructor|].
  unfold Middleware.mw. rewrite Hst.
  destruct (Nat.eqb s s') eqn:He; simpl.
  - apply Nat.eqb_eq in He. subst. constructor; [reflexivity|]. apply IH. reflexivity.
  - apply IH. assumption.
Qed.

(** C9. Once [mw] has accepted a store, applying it to a different store
    throws the [multiple stores] error, applying it to the same store is
    accepted again, and whatever sequence of stores it is applied to
    afterwards, the ones it accepts are that same store. *)
Theorem mw_single_store st s1 st1 :
  Middleware.mw s1 st = inl st1 ->
  (forall s2, s2 <> s1 ->
     Middleware.mw s2 st1 = inr Middleware.multiple_stores_msg) /\
  Middleware.mw s1 st1 = inl st1 /\
  (forall stores, Forall (fun s => s = s1) (Middleware.attach_all stores st1)).
Proof.
  intros H.
  assert (Hst1 : st1 = {| Middleware.savedStore := Some s1 |}).
  { unfold Middleware.mw in H. destruct (Middleware.savedStore st) as [s|].
    - destruct (negb (Nat.eqb s s1)); congruence.
    - congruence. }
  subst st1. split; [|split].
  - intros s2 Hne. unfold Middleware.mw. simpl.
    destruct (Nat.eqb s1 s2) eqn:He; [|reflexivity].
    apply Nat.eqb_eq in He. congruence.
  - unfold Middleware.mw. simpl. rewrite Nat.eqb_refl. reflexivity.
  - intros stores. apply attach_all_same. reflexivity.
Qed.

Lemma mw_single_store_witness :
  (forall s2, s2 <> 7%nat ->
     Middleware.mw s2 {| Middleware.savedStore := Some 7%nat |}
     = inr Middleware.multiple_stores_msg) /\
  Middleware.mw 7%nat {| Middleware.savedStore := Some 7%nat |}
  = inl {| Middleware.savedStore := Some 7%nat |} /\
  (forall stores, Forall (fun s => s = 7%nat)
     (Middleware.attach_all stores {| Middleware.savedStore := Some 7%nat |})).
Proof.
  apply (mw_single_store {| Middleware.savedStore := None |} 7%nat). reflexivity.
Defined.

(* ===================================================================== *)
(** ** The error path *)
(* ===================================================================== *)

Lemma mapErrorToActionAndDispatch_error_action sd logic action self v :
  mapErrorToActionAndDispatch sd logic action self v =
  match error_action logic v with
  | Some act => storeDispatch sd action self act
  | None => ret tt
  end.
Proof.
  unfold mapErrorToActionAndDispatch, error_action, unmapped_error_action, dispatched_as_is.
  destruct (isInterceptAction v); [reflexivity|].
  destruct (configured (failType (l_processOptions logic))).
  - destruct (truthy (mapToAction t v true)); reflexivity.
  - destruct (instanceofError v); [reflexivity|].
    destruct (truthy v && typeof_object_or_function v); reflexivity.
Qed.

(** C4, amended.  For an error value that is not an action wrapped by the
    intercept step: with [failType] configured the value is mapped through
    it and the result is dispatched when it is truthy; without, one action
    is dispatched: the value itself when it carries a type, and also when
    it is any other object or function that is not an [Error]; the generic
    [UNHANDLED_LOGIC_ERROR] action around it when it is an [Error] without
    a type or a value that is no object or function. *)
Theorem error_value_mapping sd logic action self v :
  isInterceptAction v = false ->
  (forall ft, configured (failType (l_processOptions logic)) = Some ft ->
     mapErrorToActionAndDispatch sd logic action self v =
     if truthy (mapToAction ft v true)
     then storeDispatch sd action self (mapToAction ft v true)
     else ret tt) /\
  (configured (failType (l_processOptions logic)) = None ->
     mapErrorToActionAndDispatch sd logic action self v =
     storeDispatch sd action self (unmapped_error_action v)) /\
  (truthy (get v "type") = true -> unmapped_error_action v = v) /\
  (instanceofError v = false -> truthy v = true ->
   typeof_object_or_function v = true -> unmapped_error_action v = v) /\
  (instanceofError v = true -> truthy (get v "type") = false ->
   unmapped_error_action v = unhandled_action v) /\
  (truthy v && typeof_object_or_function v = false ->
   unmapped_error_action v = unhandled_action v).
Proof.
  intros Hi. rewrite mapErrorToActionAndDispatch_error_action.
  unfold error_action. rewrite Hi.
  repeat split.
  - intros ft ->. destruct (truthy (mapToAction ft v true)); reflexivity.
  - intros ->. reflexivity.
  - unfold unmapped_error_action, dispatched_as_is.
    destruct v; simpl; try discriminate; intros H; try rewrite H; reflexivity.
  - unfold unmapped_error_action, dispatched_as_is. intros -> -> ->. reflexivity.
  - unfold unmapped_error_action, dispatched_as_is. intros -> ->. reflexivity.
  - unfold unmapped_error_action, dispatched_as_is.
    destruct v; simpl; try discriminate; intros H; try rewrite H; reflexivity.
Qed.

Lemma error_value_mapping_witness :
  mapErrorToActionAndDispatch null_store
    (plain_unit "FETCH" identityValidation (returns VUndef) return_mode)
    (action_of "FETCH") 0 (VStr "timeout")
  = storeDispatch null_store (action_of "FETCH") 0 (unhandled_action (VStr "timeout")).
Proof.
  destruct (error_value_mapping null_store
              (plain_unit "FETCH" identityValidation (returns VUndef) return_mode)
              (action_of "FETCH") 0 (VStr "timeout") eq_refl)
    as (_ & H & _).
  apply H. reflexivity.
Defined.

(** C4 as stated fails: without [failType], a plain object that carries
    no [type] is dispatched as it is, not wrapped. *)
Lemma error_value_mapping_counterexample :
  let logic := plain_unit "FETCH" identityValidation (returns VUndef) return_mode in
  let v := VObj [("status", VNum 500)] in
  let w := world_of (mapErrorToActionAndDispatch null_store logic
                       (action_of "FETCH") 0 v init_world) in
  configured (failType (l_processOptions logic)) = None /\
  truthy (get v "type") = false /\
  monitor w = [EvDispatch 0 (action_of "FETCH") v] /\
  monitor w <> [EvDispatch 0 (action_of "FETCH") (unhandled_action v)].
Proof.
  repeat split. discriminate.
Qed.

(* ===================================================================== *)
(** ** Running a closure on a known state *)
(* ===================================================================== *)

Lemma with_inst_lookup i f w x : insts w !! i = Some x -> with_inst i f w = f x w.
Proof. intros H. unfold with_inst. rewrite H. reflexivity. Qed.

Lemma with_inst_missing i f w : insts w !! i = None -> with_inst i f w = Ok tt w.
Proof. intros H. unfold with_inst. rewrite H. reflexivity. Qed.

Ltac wsimpl :=
  cbn [monitor console consumer processCalls insts limiters set_insts
       world_of is_thrown is_halted
       interceptComplete outStopped cancelledStopped dispStopped dispActive
       dispClosed warnArmed i_stage i_action
       set_interceptComplete set_outStopped set_cancelledStopped set_dispStopped
       set_dispActive set_dispClosed set_warnArmed fmap option_fmap option_map].
Ltac wsimpl_all :=
  cbn [monitor console consumer processCalls insts limiters set_insts
       world_of is_thrown is_halted
       interceptComplete outStopped cancelledStopped dispStopped dispActive
       dispClosed warnArmed i_stage i_action
       set_interceptComplete set_outStopped set_cancelledStopped set_dispStopped
       set_dispActive set_dispClosed set_warnArmed fmap option_fmap option_map] in *.
Ltac run_prims :=
  unfold bind, upd_inst, push_inst, monitor_next, console_error, consumer_push,
         process_push, modify, ret; wsimpl.

(** What [dispatch$.complete()] does: it emits at most the [end] event,
    it leaves console, consumer and process hooks alone, it leaves the
    number of subscribed inner observables as it was and the Subject
    stopped; on a queue that is open and idle it does emit [end]. *)
Lemma dispatch_complete_run action self w :
  exists w' tail,
    dispatch_complete action self w = Ok tt w' /\
    monitor w' = monitor w ++ tail /\
    (tail = [] \/ tail = [EvEnd self action]) /\
    console w' = console w /\ consumer w' = consumer w /\
    processCalls w' = processCalls w /\
    (forall x, insts w !! self = Some x ->
       exists x', insts w' !! self = Some x' /\
         dispActive x' = dispActive x /\ dispStopped x' = true /\
         (dispStopped x = false -> dispClosed x = false -> dispActive x = 0%nat ->
          tail = [EvEnd self action] /\ dispClosed x' = true)).
Proof.
  unfold dispatch_complete. destruct (insts w !! self) as [x|] eqn:Hx.
  2: { rewrite with_inst_missing by assumption. exists w, [].
       rewrite app_nil_r. repeat split; auto. intros x0 Hx0. discriminate. }
  rewrite (with_inst_lookup _ _ _ _ Hx).
  destruct (dispStopped x) eqn:Hs.
  { exists w, []. rewrite app_nil_r. repeat split; auto.
    intros x0 Hx0. exists x. replace x0 with x by congruence.
    split; [assumption|]. split; [reflexivity|]. split; [assumption|].
    intros; congruence. }
  run_prims.
  destruct (Nat.eqb (dispActive x) 0) eqn:Ha.
  2: { eexists. exists []. rewrite app_nil_r. wsimpl. repeat split; auto.
       intros x0 Hx0. replace x0 with x by congruence.
       eexists. split; [wsimpl; rewrite list_lookup_alter_eq, Hx; reflexivity|].
       wsimpl. split; [reflexivity|]. split; [reflexivity|].
       intros _ _ H0'. rewrite H0' in Ha. discriminate. }
  unfold dispatch_terminate, with_inst. wsimpl.
  rewrite list_lookup_alter_eq, Hx. wsimpl.
  destruct (dispClosed x) eqn:Hc.
  { eexists. exists []. rewrite app_nil_r. wsimpl. repeat split; auto.
    intros x0 Hx0. replace x0 with x by congruence.
    eexists. split; [wsimpl; rewrite list_lookup_alter_eq, Hx; reflexivity|].
    wsimpl. split; [reflexivity|]. split; [reflexivity|].
    intros; congruence. }
  unfold dispatch_end, cancelled_complete. run_prims.
  eexists. exists [EvEnd self action]. wsimpl. repeat split; auto.
  intros x0 Hx0. replace x0 with x by congruence.
  eexists. split; [wsimpl; rewrite !list_lookup_alter_eq, Hx; reflexivity|].
  wsimpl. repeat split; reflexivity.
Qed.

Lemma dispatch_terminate_closes action self w x :
  insts w !! self = Some x ->
  exists w', dispatch_terminate action self w = Ok tt w' /\ closed w' self.
Proof.
  intros Hx. unfold dispatch_terminate. rewrite (with_inst_lookup _ _ _ _ Hx).
  destruct (dispClosed x) eqn:Hc.
  - exists w. split; [reflexivity|]. exists x. auto.
  - unfold dispatch_end, cancelled_complete. run_prims.
    eexists. split; [reflexivity|].
    eexists. wsimpl. rewrite !list_lookup_alter_eq, Hx. wsimpl. split; reflexivity.
Qed.

Lemma cancel_signal_closes action self w x :
  insts w !! self = Some x ->
  exists w', cancel_signal action self w = Ok tt w' /\ closed w' self.
Proof.
  intros Hx. unfold cancel_signal.
  unfold bind at 1. unfold upd_inst at 1. unfold modify. 
  set (w1 := set_insts _ w).
  assert (H1 : insts w1 !! self = Some (set_outStopped true x)).
  { subst w1. wsimpl. rewrite list_lookup_alter_eq, Hx. reflexivity. }
  unfold bind. rewrite (with_inst_lookup _ _ _ _ H1).
  destruct (cancelledStopped (set_outStopped true x)) eqn:Hcs.
  - unfold ret. eapply dispatch_terminate_closes. eassumption.
  - destruct (negb _); run_prims; eapply dispatch_terminate_closes; wsimpl;
      rewrite list_lookup_alter_eq, H1; reflexivity.
Qed.

(* ===================================================================== *)
(** ** Rejecting and allowing nothing *)
(* ===================================================================== *)

(** C8. When the intercept hook calls [reject(undefined)], with any
    options and whatever the store and the rest of the pipeline are, the
    closure emits [filtered] and then at most [end]; the process hook is
    not run, nothing reaches the consumer, and no [dispatch] event is
    emitted.  On a closure whose queue was untouched the [end] follows at
    once. *)
Theorem reject_undefined_filters sd logic action self downstream options w :
  exists w' tail,
    reject sd logic action self downstream VUndef options w = Ok tt w' /\
    monitor w' = monitor w ++ EvFiltered self action false :: tail /\
    (tail = [] \/ tail = [EvEnd self action]) /\
    processCalls w' = processCalls w /\
    consumer w' = consumer w /\
    console w' = console w /\
    (forall x, insts w !! self = Some x ->
       dispStopped x = false -> dispClosed x = false -> dispActive x = 0%nat ->
       tail = [EvEnd self action]).
Proof.
  unfold reject, handleNextOrDispatch, shouldDispatch.
  cbn [truthy negb].
  unfold postIfDefinedOrComplete, logicActionObs_complete, process_or_complete.
  cbn [truthy]. run_prims.
  match goal with
  | |- context [dispatch_complete action self ?w2] =>
      destruct (dispatch_complete_run action self w2)
        as (w' & tail & Hrun & Hm & Ht & Hc & Hn & Hp & Hx)
  end.
  rewrite Hrun. exists w', tail. wsimpl_all.
  split; [reflexivity|]. split; [rewrite Hm, <- app_assoc; reflexivity|].
  repeat (split; [assumption|]).
  intros x Hlook Hs Hcl Ha.
  destruct (Hx (set_outStopped true (set_interceptComplete true (set_interceptComplete true x))))
    as (x' & _ & _ & _ & Hend).
  { rewrite !list_lookup_alter_eq, Hlook. reflexivity. }
  apply Hend; assumption.
Qed.

(* ===================================================================== *)
(** ** Dispatching nothing *)
(* ===================================================================== *)

(** C10. [dispatch(undefined)] hands nothing to the queue: when
    [dispatchMultiple] or [allowMore] is set the call changes nothing at
    all; otherwise it is [dispatch$.complete()]: the number of subscribed
    inner observables stays as it was, the Subject is stopped, nothing
    reaches the consumer, the only event it can emit is [end], and on a
    queue that is open and idle it emits [end] and closes the queue. *)
Theorem dispatch_undefined_completes sd logic action self w :
  (forall options,
     dispatchMultiple (l_processOptions logic) || applyDispatchDefaults options = true ->
     dispatch sd logic action self VUndef options w = Ok tt w) /\
  (dispatchMultiple (l_processOptions logic) = false ->
   exists w' tail,
     dispatch sd logic action self VUndef None w = Ok tt w' /\
     monitor w' = monitor w ++ tail /\
     (tail = [] \/ tail = [EvEnd self action]) /\
     consumer w' = consumer w /\
     (forall x, insts w !! self = Some x ->
        exists x', insts w' !! self = Some x' /\
          dispActive x' = dispActive x /\ dispStopped x' = true /\
          (dispStopped x = false -> dispClosed x = false -> dispActive x = 0%nat ->
           tail = [EvEnd self action] /\ dispClosed x' = true))).
Proof.
  split.
  - intros options H. unfold dispatch. rewrite H. reflexivity.
  - intros H. unfold dispatch. rewrite H. cbn [applyDispatchDefaults orb negb].
    destruct (dispatch_complete_run action self w)
      as (w' & tail & Hrun & Hm & Ht & _ & Hn & _ & Hx).
    exists w', tail. unfold bind, ret. rewrite Hrun. auto.
Qed.

(* ===================================================================== *)
(** ** Keeping the latest *)
(* ===================================================================== *)

Lemma matchesType_PArr ms t :
  matchesType (PArr ms) t = existsb (fun x => matchesType x t) ms.
Proof. reflexivity. Qed.

Lemma matchesType_truthy p t : matchesType p t = true -> pattern_truthy p = true.
Proof.
  destruct p as [|s|ms|test]; simpl; try reflexivity; try discriminate.
  destruct (String.eqb s ""); [discriminate | reflexivity].
Qed.

Lemma latest_cancels logic a :
  l_latest logic = true ->
  matchesType (l_type logic) (get a "type") = true ->
  cancels logic a = true.
Proof.
  intros Hl Hm. unfold cancels, cancelTypes.
  rewrite Hl, (matchesType_truthy _ _ Hm). cbn [andb].
  rewrite matchesType_PArr, existsb_app.
  destruct (l_type logic) as [|s|ms|t] eqn:Hp; try discriminate.
  - cbn [concat_arg app length Nat.eqb negb andb existsb].
    rewrite Hm. reflexivity.
  - cbn [concat_arg]. rewrite matchesType_PArr in Hm. rewrite Hm. cbn [orb].
    destruct ms; [discriminate|]. reflexivity.
  - cbn [concat_arg app length Nat.eqb negb andb existsb].
    rewrite Hm. reflexivity.
Qed.

Lemma cancel_closures_closes stage ids : forall w,
  exists w', cancel_closures stage ids w = Ok tt w' /\
    forall i x, In i ids -> insts w !! i = Some x -> i_stage x = stage -> closed w' i.
Proof.
  induction ids as [|j rest IH]; intros w; simpl.
  - exists w. split; [reflexivity|]. intros i x [].
  - unfold bind at 1.
    pose proof (sat_with_inst none false j
      (fun x => if Nat.eqb (i_stage x) stage then cancel_signal (i_action x) j else ret tt)) as Hsat.
    destruct (insts w !! j) as [xj|] eqn:Hj.
    + rewrite (with_inst_lookup _ _ _ _ Hj).
      destruct (Nat.eqb (i_stage xj) stage) eqn:Hst.
      * destruct (cancel_signal_closes (i_action xj) j w xj Hj) as (w1 & Hrun & Hcl).
        rewrite Hrun.
        pose proof (cancel_signal_sat (i_action xj) j none false w) as [He _].
        rewrite Hrun in He. cbn [world_of] in He.
        destruct (IH w1) as (w' & Hrun' & Hcl').
        exists w'. split; [assumption|].
        pose proof (cancel_closures_sat stage rest w1) as [He' _].
        rewrite Hrun' in He'. cbn [world_of] in He'.
        intros i x [->|Hin] Hx Hs.
        -- eapply closed_ext; eassumption.
        -- destruct (ext_insts _ _ _ He _ _ Hx) as (x' & Hx' & Hs' & _).
           eapply Hcl'; [eassumption | eassumption | congruence].
      * unfold ret. destruct (IH w) as (w' & Hrun' & Hcl').
        exists w'. split; [assumption|].
        intros i x [->|Hin] Hx Hs.
        -- apply Nat.eqb_neq in Hst. congruence.
        -- eapply Hcl'; eassumption.
    + rewrite with_inst_missing by assumption.
      destruct (IH w) as (w' & Hrun' & Hcl').
      exists w'. split; [assumption|].
      intros i x [->|Hin] Hx Hs; [congruence|]. eapply Hcl'; eassumption.
Qed.

Lemma createLogicAction_begin production sd stage logic downstream a w :
  (forall a, sat none true (sd a)) ->
  (forall a, sat none false (downstream a)) ->
  exists post,
    monitor (world_of (createLogicAction production sd stage logic downstream a w))
    = monitor w ++ EvBegin (length (insts w)) a :: post /\
    forall i, (i < length (insts w))%nat -> forall a' d, ~ In (EvDispatch i a' d) post.
Proof.
  intros Hs Hd. unfold createLogicAction.
  set (self := length (insts w)).
  unfold bind at 1. unfold monitor_next at 1. unfold modify at 1.
  unfold bind at 1. unfold push_inst at 1. unfold modify at 1. wsimpl.
  match goal with
  | |- context [run_intercept _ _ _ _ _ _ ?w1] =>
      destruct (run_intercept_sat sd Hs logic a self downstream Hd
                  (l_intercept logic a) w1) as [[(es & Hm & Hdisp) _ _ _ _] _]
  end.
  exists es. split.
  - rewrite Hm. wsimpl. rewrite <- app_assoc. reflexivity.
  - intros i Hi a' d Hin. destruct (Hdisp _ _ _ Hin) as [[Ho _]|Hge].
    + unfold only in Ho. subst self. lia.
    + wsimpl_all. rewrite length_app in Hge. simpl in Hge. lia.
Qed.




(* ===================================================================== *)
(** ** Allowing nothing *)
(* ===================================================================== *)

(** The run of the process hook records itself first. *)
Lemma process_or_complete_calls sd logic action self act w :
  (forall a, sat none true (sd a)) ->
  exists rest,
    processCalls (world_of (process_or_complete sd logic action self true act w))
    = processCalls w ++ (self, if truthy act then act else action) :: rest.
Proof.
  intros Hs. unfold process_or_complete.
  set (depAct := if truthy act then act else action).
  set (k := fun retValue : JsVal =>
              if dispatchReturn (l_processOptions logic)
              then match retValue with
                   | VUndef => dispatch_complete action self
                   | _ => dispatch sd logic action self retValue None
                   end
              else ret tt).
  set (h := fun err : JsVal =>
              bind (console_error (CUnhandledException self err))
                   (fun _ => dispatch sd logic action self (VObs [] (FError err)) None)).
  set (body := bind (run_calls sd logic action self (p_calls (l_process logic depAct)))
                    (fun _ => match p_outcome (l_process logic depAct) with
                              | PReturn retValue => ret retValue
                              | PThrow err => throw err
                              end)).
  assert (Hsat : sat (only self) false (try_catch (bind body k) h)).
  { apply sat_try.
    - apply sat_bind.
      + apply sat_bind; [apply sat_may_throw, run_calls_sat; assumption|].
        intros _. destruct (p_outcome _); [apply sat_ret | apply sat_throw].
      + intros retValue. apply sat_may_throw. unfold k.
        destruct (dispatchReturn _); [|apply sat_ret].
        destruct retValue; try (apply dispatch_sat; assumption).
        apply dispatch_complete_sat.
    - intros err. unfold h. apply sat_bind; [apply sat_console_error|].
      intros _. apply dispatch_sat. assumption. }
  match goal with
  | |- context [world_of (?m w)] =>
      replace (m w) with
        (try_catch (bind body k) h
           (mkWorld (monitor w) (console w) (consumer w)
                    (processCalls w ++ [(self, depAct)]) (insts w) (limiters w)))
        by reflexivity
  end.
  destruct (Hsat (mkWorld (monitor w) (console w) (consumer w)
                    (processCalls w ++ [(self, depAct)]) (insts w) (limiters w)))
    as [[_ _ _ _ (rest & Hp)] _].
  exists rest. rewrite Hp. wsimpl. rewrite <- app_assoc. reflexivity.
Qed.

Lemma handle_undefined_unfold sd logic action self downstream shouldProcess options w :
  exists w2,
    handleNextOrDispatch sd logic action self downstream shouldProcess VUndef options w
    = process_or_complete sd logic action self shouldProcess VUndef w2 /\
    monitor w2 = monitor w ++ [EvFiltered self action shouldProcess] /\
    processCalls w2 = processCalls w /\ consumer w2 = consumer w /\
    console w2 = console w.
Proof.
  eexists. split; [reflexivity|]. wsimpl. auto.
Qed.

(** What [allow(undefined)] / [reject(undefined)] have done when the
    last block of [handleNextOrDispatch] starts. *)
Lemma handle_undefined_unfold_closure
      sd logic action self downstream shouldProcess options w :
  exists w2,
    handleNextOrDispatch sd logic action self downstream shouldProcess VUndef options w
    = process_or_complete sd logic action self shouldProcess VUndef w2 /\
    monitor w2 = monitor w ++ [EvFiltered self action shouldProcess] /\
    processCalls w2 = processCalls w /\
    consumer w2 = consumer w /\
    (forall x, insts w !! self = Some x ->
       exists x2, insts w2 !! self = Some x2 /\ dispClosed x2 = dispClosed x /\
                  interceptComplete x2 = true /\ outStopped x2 = true).
Proof.
  eexists. split; [reflexivity|]. wsimpl. repeat split.
  intros x Hx. rewrite !list_lookup_alter_eq, Hx. cbn. eauto.
Qed.

(** C5, amended.  When the intercept hook calls [allow(undefined)], the
    closure emits [filtered] and forwards nothing into the rest of the
    pipeline (what comes after it plays no part); its intercept step is
    over.  The process
    hook is then run all the same, with the original action, and nothing
    is thrown out of the call.  What the hook hands to [dispatch]
    reaches the store only through the queue of the closure: when that
    queue was closed before the call (the closure was cancelled while
    the hook was pending), the closure dispatches nothing. *)
Theorem allow_undefined_filters_and_processes
        cfg fuel logic action self downstream options w :
  let sd := store_dispatch_of cfg fuel in
  let r := allow sd logic action self downstream VUndef options w in
  r = allow sd logic action self (fun _ => ret tt) VUndef options w /\
  is_thrown r = false /\
  (exists rest,
     monitor (world_of r) = monitor w ++ EvFiltered self action true :: rest /\
     (closed w self -> forall a d, ~ In (EvDispatch self a d) rest)) /\
  (exists rest, processCalls (world_of r) = processCalls w ++ (self, action) :: rest) /\
  (forall x, insts w !! self = Some x ->
     exists x', insts (world_of r) !! self = Some x' /\
                interceptComplete x' = true /\ outStopped x' = true).
Proof.
  intros sd r. pose proof (store_dispatch_of_sat cfg fuel) as Hs.
  split; [reflexivity|].
  destruct (handle_undefined_unfold_closure sd logic action self downstream true options w)
    as (w2 & Hrun & Hm2 & Hp2 & _ & Hx2).
  subst r. unfold allow. rewrite Hrun.
  destruct (process_or_complete_sat sd Hs logic action self true VUndef w2)
    as [[(es & Hm & Hd) Hi _ _ _] Ht].
  destruct (process_or_complete_calls sd logic action self VUndef w2 Hs) as (rest & Hp).
  split; [auto|]. split; [|split].
  - exists es. split; [rewrite Hm, Hm2, <- app_assoc; reflexivity|].
    intros (x & Hx & Hc) a d Hin.
    destruct (Hx2 x Hx) as (x2 & Hl2 & Hc2 & _).
    destruct (Hd _ _ _ Hin) as [[_ Hopen]|Hge].
    + apply Hopen. exists x2. split; [assumption | congruence].
    + apply lookup_lt_Some in Hl2. lia.
  - exists rest. rewrite Hp, Hp2. reflexivity.
  - intros x Hx. destruct (Hx2 x Hx) as (x2 & Hl2 & _ & Hic & Hos).
    destruct (Hi _ _ Hl2) as (x' & Hl' & _ & _ & _ & Hic' & Hos').
    exists x'. auto.
Qed.

(** C5 as stated fails: after [allow(undefined)] the process hook runs
    and what it returns is dispatched. *)
Lemma allow_undefined_counterexample :
  let unit := plain_unit "PING" (fun _ => [CAllow VUndef None])
                         (returns (action_of "PONG")) return_mode in
  let w := world_of (run (quiet_config [unit]) 3 [EAction (action_of "PING")] init_world) in
  monitor w = [EvTop (action_of "PING");
               EvBegin 0 (action_of "PING");
               EvFiltered 0 (action_of "PING") true;
               EvDispatch 0 (action_of "PING") (action_of "PONG");
               EvTop (action_of "PONG");
               EvBottom (action_of "PONG");
               EvEnd 0 (action_of "PING")] /\
  processCalls w = [(0%nat, action_of "PING")] /\
  consumer w = [action_of "PONG"].
Proof. vm_compute. repeat split. Qed.

(** A closure cancelled while its hook was pending: the late
    [allow(undefined)] still runs the process hook, and what the hook
    returns is not dispatched. *)
Lemma allow_undefined_after_cancel :
  let w := world_of (run (quiet_config [slow_ping_unit]) 3
                         [EAction (action_of "PING"); EAction (action_of "STOP");
                          EAllow 0 VUndef None] init_world) in
  monitor w = [EvTop (action_of "PING");
               EvBegin 0 (action_of "PING");
               EvTop (action_of "STOP");
               EvBottom (action_of "STOP");
               EvCancelled 0 (action_of "PING");
               EvEnd 0 (action_of "PING");
               EvFiltered 0 (action_of "PING") true] /\
  processCalls w = [(0%nat, action_of "PING")] /\
  consumer w = [action_of "STOP"].
Proof. vm_compute. repeat split. Qed.

(* ===================================================================== *)
(** ** Exceptions of the consumer *)
(* ===================================================================== *)

Lemma mapToActionAndDispatch_success_action sd logic action self v :
  mapToActionAndDispatch sd logic action self v =
  if truthy (success_action logic v)
  then storeDispatch sd action self (success_action logic v)
  else ret tt.
Proof. reflexivity. Qed.

(** The world after [next(a)] was called and [bottom] emitted. *)
Lemma bottom_run nextThrows a w :
  bottom nextThrows a w
  = Ok tt (mkWorld
             (monitor w ++ match nextThrows a with
                           | Some err => [EvNextError a (error_message err); EvBottom a]
                           | None => [EvBottom a]
                           end)
             (console w ++ match nextThrows a with
                           | Some err => [CNextError err]
                           | None => []
                           end)
             (consumer w ++ [a]) (processCalls w) (insts w) (limiters w)).
Proof.
  unfold bottom, call_next, try_catch, bind, consumer_push, monitor_next, console_error,
    modify, throw, ret.
  destruct (nextThrows a) as [err|]; cbn.
  - rewrite <- app_assoc. reflexivity.
  - rewrite app_nil_r. reflexivity.
Qed.

Lemma deliver_foreign production sd nextThrows a stages : forall stage w,
  Forall (fun logic => matchesType (l_type logic) (get a "type") = false /\
                       cancels logic a = false) stages ->
  deliver production sd nextThrows stage stages a w = bottom nextThrows a w.
Proof.
  induction stages as [|logic rest IH]; intros stage w H; [reflexivity|].
  inversion H as [|? ? [Hm Hc] Hrest]; subst.
  cbn [deliver]. rewrite Hm, Hc. cbn [negb]. unfold bind.
  rewrite (IH (S stage) w Hrest). rewrite bottom_run. reflexivity.
Qed.

(** An exception of [store.dispatch] that is not the consumer's (it
    comes from what is in front of this middleware) is not thrown on
    either: the [do] operator turns it into an error of the queue, which
    ends the closure, and [end] follows the [dispatch] event. *)
Lemma store_exception_ends_the_closure cfg fuel logic action self v err w x :
  truthy (success_action logic v) = true ->
  storeThrows cfg (success_action logic v) = Some err ->
  insts w !! self = Some x -> dispClosed x = false ->
  exists w',
    tap_next (store_dispatch_of cfg fuel) logic action self v w = Ok tt w' /\
    monitor w' = monitor w ++ [EvDispatch self action (success_action logic v);
                               EvEnd self action] /\
    console w' = console w /\
    closed w' self.
Proof.
  intros Ht Hthrow Hx Hc.
  unfold tap_next, try_catch. rewrite mapToActionAndDispatch_success_action, Ht.
  unfold storeDispatch, bind, monitor_next, modify, store_dispatch_of.
  rewrite Hthrow. unfold throw.
  unfold dispatch_terminate, with_inst. wsimpl. rewrite Hx, Hc.
  unfold dispatch_end, cancelled_complete. run_prims.
  eexists. split; [reflexivity|]. wsimpl.
  split; [rewrite <- app_assoc; reflexivity|]. split; [reflexivity|].
  unfold closed. eexists. wsimpl. rewrite !list_lookup_alter_eq, Hx. wsimpl.
  split; reflexivity.
Qed.

Lemma store_exception_example :
  let r := run picky_store 3 [EAction (action_of "A")] init_world in
  storeThrows picky_store (action_of "B") = Some (VErr [("message", VStr "rejected")]) /\
  is_thrown r = false /\
  monitor (world_of r) = [EvTop (action_of "A");
                          EvBegin 0 (action_of "A");
                          EvNext 0 (action_of "A") (action_of "A") true;
                          EvBottom (action_of "A");
                          EvDispatch 0 (action_of "A") (action_of "B");
                          EvEnd 0 (action_of "A")] /\
  console (world_of r) = [].
Proof. vm_compute. repeat split. Qed.

(** C7.  The consumer is [next], the function the middleware was applied
    to.  At the bottom of the pipeline an exception of [next] is caught:
    it is logged, reported as [nextError] with its message, and [bottom]
    follows; the call returns.  An action drained from a dispatch queue
    (a truthy value: [storeDispatch] is called with no other) goes to
    [store.dispatch], which hands it to the middleware again:
    when it reaches [next] there and [next] throws, the exception is
    caught at the bottom of that pass in the same way, [storeDispatch]
    returns, and the closure that dispatched is as it was, its queue
    open for what it dispatches next.  A [nextError] event leaves
    [pending] as it is. *)
Theorem consumer_exceptions_are_contained cfg fuel :
  (forall a err w,
     cfg_nextThrows cfg a = Some err ->
     exists w',
       bottom (cfg_nextThrows cfg) a w = Ok tt w' /\
       monitor w' = monitor w ++ [EvNextError a (error_message err); EvBottom a] /\
       console w' = console w ++ [CNextError err] /\
       consumer w' = consumer w ++ [a]) /\
  (forall a w,
     cfg_nextThrows cfg a = None ->
     exists w',
       bottom (cfg_nextThrows cfg) a w = Ok tt w' /\
       monitor w' = monitor w ++ [EvBottom a] /\
       console w' = console w /\
       consumer w' = consumer w ++ [a]) /\
  (forall action self act err w,
     truthy act = true ->
     storeThrows cfg act = None ->
     cfg_nextThrows cfg act = Some err ->
     Forall (fun logic => matchesType (l_type logic) (get act "type") = false /\
                          cancels logic act = false) (pipeline cfg) ->
     exists w',
       storeDispatch (store_dispatch_of cfg (S fuel)) action self act w = Ok tt w' /\
       monitor w' = monitor w ++ [EvDispatch self action act; EvTop act;
                                  EvNextError act (error_message err); EvBottom act] /\
       console w' = console w ++ [CNextError err] /\
       consumer w' = consumer w ++ [act] /\
       insts w' = insts w) /\
  (forall pending a err, scan_step pending (EvNextError a err) = pending).
Proof.
  split; [|split; [|split]].
  - intros a err w H. rewrite bottom_run, H.
    eexists. split; [reflexivity|]. wsimpl. auto.
  - intros a w H. rewrite bottom_run, H.
    eexists. split; [reflexivity|]. wsimpl. rewrite app_nil_r. auto.
  - intros action self act err w _ Hs Hn Hp.
    unfold storeDispatch, store_dispatch_of. rewrite Hs.
    unfold bind at 1. unfold monitor_next at 1. unfold modify at 1.
    cbn [entry]. unfold bind at 1. unfold monitor_next at 1. unfold modify at 1.
    rewrite deliver_foreign by assumption. rewrite bottom_run, Hn.
    eexists. split; [reflexivity|]. wsimpl.
    repeat rewrite <- app_assoc. auto.
  - intros pending a err. reflexivity.
Qed.

(** A run in which [next] throws on the first of the two actions a
    closure dispatches: the exception is reported, the second action is
    still dispatched and reaches [next], and the closure ends when its
    hook calls [done]. *)
Lemma consumer_exceptions_are_contained_witness :
  (exists w',
     storeDispatch (store_dispatch_of picky_consumer_after_unit 1)
                   (action_of "A") 0 (action_of "B") init_world = Ok tt w' /\
     monitor w' = [EvDispatch 0 (action_of "A") (action_of "B"); EvTop (action_of "B");
                   EvNextError (action_of "B") (VStr "rejected");
                   EvBottom (action_of "B")] /\
     console w' = [CNextError (VErr [("message", VStr "rejected")])] /\
     consumer w' = [action_of "B"] /\
     insts w' = []) /\
  let r := run picky_consumer_after_unit 3 [EAction (action_of "A")] init_world in
  is_thrown r = false /\
  monitor (world_of r) = [EvTop (action_of "A");
                          EvBegin 0 (action_of "A");
                          EvNext 0 (action_of "A") (action_of "A") true;
                          EvBottom (action_of "A");
                          EvDispatch 0 (action_of "A") (action_of "B");
                          EvTop (action_of "B");
                          EvNextError (action_of "B") (VStr "rejected");
                          EvBottom (action_of "B");
                          EvDispatch 0 (action_of "A") (action_of "C");
                          EvTop (action_of "C");
                          EvBottom (action_of "C");
                          EvEnd 0 (action_of "A")] /\
  console (world_of r) = [CNextError (VErr [("message", VStr "rejected")])] /\
  consumer (world_of r) = [action_of "A"; action_of "B"; action_of "C"].
Proof.
  split.
  - destruct (consumer_exceptions_are_contained picky_consumer_after_unit 0)
      as (_ & _ & H & _).
    apply (H (action_of "A") 0%nat (action_of "B")
             (VErr [("message", VStr "rejected")]) init_world).
    + reflexivity.
    + reflexivity.
    + reflexivity.
    + repeat constructor.
  - vm_compute. repeat split.
Defined.

(* ===================================================================== *)
(** ** Exceptions of the process hook *)
(* ===================================================================== *)

Lemma ext_monitor_prefix own w w' :
  ext own w w' -> exists es, monitor w' = monitor w ++ es.
Proof. intros [(es & Hm & _) _ _ _ _]. exists es. assumption. Qed.

Section ProcessErrors.

Variable cfg : Config.
Variable fuel : nat.
Variable logic : Logic.
Variable action : JsVal.
Variable self : nat.

Let sd := store_dispatch_of cfg fuel.

Lemma tap_error_trace err w x :
  insts w !! self = Some x -> dispClosed x = false ->
  let r := tap_error sd logic action self err w in
  (forall a, error_action logic err = Some a ->
     exists rest, monitor (world_of r) = monitor w ++ EvDispatch self action a :: rest) /\
  (is_halted r = false -> closed (world_of r) self).
Proof.
  intros Hx Hc r. pose proof (store_dispatch_of_sat cfg fuel) as Hs. fold sd in Hs.
  assert (HD : forall w5 es,
            monitor w5 = monitor w ++ es -> ext anyone w w5 ->
            exists w6 tail, dispatch_terminate action self w5 = Ok tt w6 /\
              monitor w6 = monitor w ++ es ++ tail /\ closed w6 self).
  { intros w5 es Hm He.
    destruct (ext_insts _ _ _ He _ _ Hx) as (x5 & Hx5 & _).
    destruct (dispatch_terminate_closes action self w5 x5 Hx5) as (w6 & Hrun & Hcl).
    destruct (dispatch_terminate_sat action self none false w5) as [He6 _].
    rewrite Hrun in He6. cbn [world_of] in He6. destruct (ext_monitor_prefix _ _ _ He6) as (tail & Ht).
    exists w6, tail. split; [assumption|]. split; [|assumption].
    rewrite Ht, Hm, app_assoc. reflexivity. }
  subst r. unfold tap_error. rewrite mapErrorToActionAndDispatch_error_action.
  destruct (error_action logic err) as [a|] eqn:Hea.
  - unfold storeDispatch, try_catch, bind, monitor_next, modify.
    set (w4 := mkWorld (monitor w ++ [EvDispatch self action a]) (console w) (consumer w)
                       (processCalls w) (insts w) (limiters w)).
    assert (He4 : ext anyone w w4).
    { split; try reflexivity.
      - eexists. split; [reflexivity|]. intros j a' d [Hin|[]]. inversion Hin; subst.
        left. split; [exact I|]. eapply not_closed_lookup; eassumption.
      - intros i0 x0 H0. exists x0. auto 10. }
    destruct (Hs a w4) as [He5 _].
    assert (He5' : ext anyone w (world_of (sd a w4))).
    { eapply ext_trans; [exact He4|]. eapply ext_own; [|exact He5]. intros ? []. }
    destruct (ext_monitor_prefix _ _ _ He5) as (es & Hes).
    destruct (sd a w4) as [[] w5|e w5|w5]; cbn [world_of] in *.
    + destruct (HD w5 ([EvDispatch self action a] ++ es)) as (w6 & tail & Hrun & Hm6 & Hcl).
      { rewrite Hes. subst w4. wsimpl. rewrite <- app_assoc. reflexivity. }
      { assumption. }
      rewrite Hrun. cbn [world_of is_halted]. split; [|auto].
      intros a0 Ha0. inversion Ha0; subst a0. eexists. rewrite Hm6.
      rewrite <- app_assoc. reflexivity.
    + unfold ret.
      destruct (HD w5 ([EvDispatch self action a] ++ es)) as (w6 & tail & Hrun & Hm6 & Hcl).
      { rewrite Hes. subst w4. wsimpl. rewrite <- app_assoc. reflexivity. }
      { assumption. }
      rewrite Hrun. cbn [world_of is_halted]. split; [|auto].
      intros a0 Ha0. inversion Ha0; subst a0. eexists. rewrite Hm6.
      rewrite <- app_assoc. reflexivity.
    + cbn [is_halted]. split; [|discriminate].
      intros a0 Ha0. inversion Ha0; subst a0. exists es. rewrite Hes. subst w4. wsimpl.
      rewrite <- app_assoc. reflexivity.
  - unfold try_catch, bind, ret.
    destruct (HD w []) as (w6 & tail & Hrun & Hm6 & Hcl).
    { rewrite app_nil_r. reflexivity. }
    { apply ext_refl. }
    rewrite Hrun. cbn [world_of is_halted]. split; [discriminate | auto].
Qed.

Lemma dispatch_throw_unfold err w x :
  insts w !! self = Some x -> dispStopped x = false -> dispClosed x = false ->
  exists w2,
    dispatch sd logic action self (VObs [] (FError err)) None w
    = bind (tap_error sd logic action self err)
           (fun _ => if negb (dispatchMultiple (l_processOptions logic) || false)
                     then dispatch_complete action self else ret tt) w2 /\
    monitor w2 = monitor w /\ console w2 = console w /\
    insts w2 !! self = Some (set_dispActive (S (dispActive x)) x).
Proof.
  intros Hx Hs Hc. unfold dispatch, dispatch_next.
  cbn [as_observable fst snd applyDispatchDefaults inner_items].
  unfold bind at 1. rewrite (with_inst_lookup _ _ _ _ Hx), Hs, Hc. cbn [orb].
  unfold bind at 1. unfold upd_inst at 1. unfold modify at 1.
  unfold bind at 1. unfold ret at 1.
  set (w2 := set_insts _ w).
  assert (H2 : insts w2 !! self = Some (set_dispActive (S (dispActive x)) x)).
  { subst w2. wsimpl. rewrite list_lookup_alter_eq, Hx. reflexivity. }
  unfold inner_error. rewrite (with_inst_lookup _ _ _ _ H2). wsimpl. rewrite Hc.
  exists w2. split; [reflexivity|]. auto.
Qed.

Lemma process_exception_trace act err w w1 x :
  let depAct := if truthy act then act else action in
  p_outcome (l_process logic depAct) = PThrow err ->
  bind (process_push self depAct)
       (fun _ => run_calls sd logic action self (p_calls (l_process logic depAct))) w
  = Ok tt w1 ->
  insts w1 !! self = Some x -> dispStopped x = false -> dispClosed x = false ->
  let r := process_or_complete sd logic action self true act w in
  is_thrown r = false /\
  In (CUnhandledException self err) (console (world_of r)) /\
  (forall a, error_action logic err = Some a ->
     exists rest, monitor (world_of r) = monitor w1 ++ EvDispatch self action a :: rest) /\
  (is_halted r = false -> closed (world_of r) self).
Proof.
  intros depAct Hout Hcalls Hx Hs Hc r.
  pose proof (store_dispatch_of_sat cfg fuel) as Hsd. fold sd in Hsd.
  split; [apply (process_or_complete_sat sd Hsd logic action self true act w); reflexivity|].
  set (w1c := mkWorld (monitor w1) (console w1 ++ [CUnhandledException self err])
                      (consumer w1) (processCalls w1) (insts w1) (limiters w1)).
  assert (Hr : r = dispatch sd logic action self (VObs [] (FError err)) None w1c).
  { subst r. unfold process_or_complete, try_catch, processFn. fold depAct.
    unfold bind in Hcalls |- *. 
    destruct (process_push self depAct w) as [[] wp|e wp|wp]; try discriminate.
    rewrite Hcalls, Hout. reflexivity. }
  destruct (dispatch_throw_unfold err w1c x Hx Hs Hc) as (w2 & Hrun & Hm2 & Hc2 & Hx2).
  destruct (dispatch_sat sd Hsd logic action self (VObs [] (FError err)) None w1c)
    as [He _].
  rewrite <- Hr in He. split.
  { destruct (ext_console _ _ _ He) as (k & Hk). rewrite Hk. subst w1c. wsimpl.
    apply in_or_app. left. apply in_or_app. right. left. reflexivity. }
  rewrite Hr, Hrun.
  destruct (tap_error_trace err w2 _ Hx2 Hc) as [Htrace Hclosed].
  set (C := fun _ : unit =>
              if negb (dispatchMultiple (l_processOptions logic) || false)
              then dispatch_complete action self else ret tt).
  assert (HC : sat none false (C tt)).
  { unfold C. destruct (negb _); [apply dispatch_complete_sat | apply sat_ret]. }
  unfold bind.
  destruct (tap_error sd logic action self err w2) as [[] wt|e wt|wt];
    cbn [world_of is_halted] in *.
  - destruct (HC wt) as [HeC _]. split.
    + intros a Ha. destruct (Htrace a Ha) as (rest & Hrest).
      destruct (ext_monitor_prefix _ _ _ HeC) as (es & Hes).
      exists (rest ++ es). rewrite Hes, Hrest, Hm2. subst w1c. wsimpl.
      rewrite <- app_assoc. reflexivity.
    + intros _. eapply closed_ext; [exact HeC | auto].
  - split; [|intros _; auto].
    intros a Ha. destruct (Htrace a Ha) as (rest & Hrest).
    exists rest. rewrite Hrest, Hm2. reflexivity.
  - split; [|discriminate].
    intros a Ha. destruct (Htrace a Ha) as (rest & Hrest).
    exists rest. rewrite Hrest, Hm2. reflexivity.
Qed.

(** C3, amended.  Whatever the process hook does, the block that runs it
    does not end by throwing.  When the hook throws while the dispatch
    queue of its closure is still open (not completed by a call the hook
    made before, not cancelled), the exception is logged and goes through
    the error mapping: the action [mapErrorToActionAndDispatch] maps it to
    is dispatched to the store, and the closure ends. *)
Theorem process_exception_reaches_error_path :
  (forall shouldProcess act w,
     is_thrown (process_or_complete sd logic action self shouldProcess act w) = false) /\
  (forall act err w w1 x,
     let depAct := if truthy act then act else action in
     p_outcome (l_process logic depAct) = PThrow err ->
     bind (process_push self depAct)
          (fun _ => run_calls sd logic action self (p_calls (l_process logic depAct))) w
     = Ok tt w1 ->
     insts w1 !! self = Some x -> dispStopped x = false -> dispClosed x = false ->
     let r := process_or_complete sd logic action self true act w in
     In (CUnhandledException self err) (console (world_of r)) /\
     (forall a, error_action logic err = Some a ->
        exists rest,
          monitor (world_of r) = monitor w1 ++ EvDispatch self action a :: rest) /\
     (is_halted r = false -> closed (world_of r) self)).
Proof.
  split.
  - intros shouldProcess act w.
    apply (process_or_complete_sat sd (store_dispatch_of_sat cfg fuel) logic action self
             shouldProcess act w).
    reflexivity.
  - intros act err w w1 x depAct Hout Hcalls Hx Hs Hc r.
    apply (process_exception_trace act err w w1 x Hout Hcalls Hx Hs Hc).
Qed.

End ProcessErrors.

Lemma process_exception_reaches_error_path_witness :
  let unit := plain_unit "SAVE" identityValidation just_throw return_mode in
  let r := process_or_complete (store_dispatch_of (quiet_config [unit]) 3) unit
             (action_of "SAVE") 0 true (action_of "SAVE") (one_closure (action_of "SAVE")) in
  is_thrown r = false /\
  In (CUnhandledException 0 boom) (console (world_of r)) /\
  (exists rest, monitor (world_of r)
                = [] ++ EvDispatch 0 (action_of "SAVE") (unhandled_action boom) :: rest) /\
  closed (world_of r) 0.
Proof.
  intros unit r.
  destruct (process_exception_reaches_error_path (quiet_config [unit]) 3 unit
              (action_of "SAVE") 0) as [Hnothrow Htrace].
  destruct (Htrace (action_of "SAVE") boom
              (one_closure (action_of "SAVE"))
              (mkWorld [] [] [] [(0%nat, action_of "SAVE")]
                 [mkInstance 0 (action_of "SAVE") true true false false 0 false false]
                 (fun _ => mkLimiter None false))
              (mkInstance 0 (action_of "SAVE") true true false false 0 false false)
              eq_refl eq_refl eq_refl eq_refl eq_refl) as (H2 & H3 & H4).
  split; [apply Hnothrow|]. split; [exact H2|]. split.
  - apply H3. reflexivity.
  - apply H4. reflexivity.
Defined.

(** C3 as stated fails: a process hook that calls [done()] and then
    throws has its exception logged, but no error action is dispatched. *)
Lemma process_exception_counterexample :
  let unit := plain_unit "SAVE" identityValidation done_then_throw multi_mode in
  let r := run (quiet_config [unit]) 3 [EAction (action_of "SAVE")] init_world in
  is_halted r = false /\
  console (world_of r) = [CUnhandledException 0 boom] /\
  monitor (world_of r) = [EvTop (action_of "SAVE");
                          EvBegin 0 (action_of "SAVE");
                          EvNext 0 (action_of "SAVE") (action_of "SAVE") true;
                          EvBottom (action_of "SAVE");
                          EvEnd 0 (action_of "SAVE")].
Proof. vm_compute. repeat split. Qed.

(* ===================================================================== *)
(** ** The pending counter *)
(* ===================================================================== *)

(** C1 does not hold of the code.  Two actions of a throttled unit inside
    one window: the second is counted at [top] and dropped by
    [throttleTime]; the only closure has ended, and [pending] stays 1. *)
Theorem pending_stuck_after_throttle :
  let r := run (quiet_config [throttled_unit]) 3
               [EAction (action_of "SCROLL"); EAction (action_of "SCROLL")] init_world in
  is_halted r = false /\
  forallb terminal (insts (world_of r)) = true /\
  pending_trace (monitor (world_of r)) = [1; 2; 2; 1; 0; 1] /\
  pendingCount (monitor (world_of r)) = 1.
Proof. vm_compute. repeat split. Qed.

(** The counter also goes below zero: a closure cancelled while its
    [validate] is still pending emits [cancelled]; when [validate] then
    calls [reject(undefined)], [filtered] decrements a second time. *)
Lemma pending_negative_after_late_reject :
  let r := run (quiet_config [slow_validate_unit]) 3
               [EAction (action_of "FETCH"); EAction (action_of "STOP");
                EReject 0 VUndef None] init_world in
  is_halted r = false /\
  forallb terminal (insts (world_of r)) = true /\
  pending_trace (monitor (world_of r)) = [1; 2; 3; 2; 1; 0; -1] /\
  pendingCount (monitor (world_of r)) = -1.
Proof. vm_compute. repeat split. Qed.

(** And a third way: a closure is cancelled while the action it forwarded
    is still in the units after it.  [next] does not count, [bottom]
    settles the action, and [cancelled] settles it again. *)
Lemma pending_negative_when_cut_while_forwarding :
  let cfg := quiet_config [cancellable_unit;
                           plain_unit "A" identityValidation (returns (action_of "B"))
                                      return_mode] in
  let r := run cfg 3 [EAction (action_of "A")] init_world in
  is_halted r = false /\
  forallb terminal (insts (world_of r)) = true /\
  pending_trace (monitor (world_of r)) = [1; 2; 2; 3; 3; 2; 2; 3; 2; 1; 0; -1] /\
  pendingCount (monitor (world_of r)) = -1.
Proof. vm_compute. repeat split. Qed.

(* ===================================================================== *)
(** ** What the counter does keep *)
(* ===================================================================== *)

(* ---------- arithmetic of the counter ---------- *)

Lemma weight_bounds x : 0 <= weight x <= 2.
Proof. unfold weight. destruct (dispClosed x), (parked x); lia. Qed.

Lemma owed_list_nonneg l : 0 <= owed_list l.
Proof. induction l as [|x l IH]; simpl; [lia|]. pose proof (weight_bounds x). lia. Qed.

Lemma owed_list_app l x : owed_list (l ++ [x]) = owed_list l + weight x.
Proof. induction l as [|y l IH]; simpl; lia. Qed.

Lemma owed_list_alter f i l x :
  l !! i = Some x -> owed_list (alter f i l) = owed_list l - weight x + weight (f x).
Proof.
  revert i. induction l as [|y l IH]; intros [|i] H; try discriminate.
  - inversion H; subst. cbn. lia.
  - change (alter f (S i) (y :: l)) with (y :: alter f i l).
    cbn [owed_list]. rewrite (IH i H). lia.
Qed.

Lemma owed_list_lookup l i x : l !! i = Some x -> weight x <= owed_list l.
Proof.
  revert i. induction l as [|y l IH]; intros [|i] H; simpl in *; try discriminate.
  - inversion H; subst. pose proof (owed_list_nonneg l). lia.
  - specialize (IH i H). pose proof (weight_bounds y). lia.
Qed.

Lemma pendingCount_app l es :
  pendingCount (l ++ es) = fold_left scan_step es (pendingCount l).
Proof. unfold pendingCount. apply fold_left_app. Qed.

Lemma pending_from_app c es1 es2 :
  pending_from c (es1 ++ es2)
  = pending_from c es1 ++ pending_from (fold_left scan_step es1 c) es2.
Proof.
  revert c. induction es1 as [|e es1 IH]; intros c; simpl; [reflexivity|].
  rewrite IH. reflexivity.
Qed.

Lemma lower_refl b w : lower b w w.
Proof. exists []. rewrite app_nil_r. split; [reflexivity | constructor]. Qed.

Lemma lower_weaken b b' w w' : b' <= b -> lower b w w' -> lower b' w w'.
Proof.
  intros Hb (es & Hm & Hf). exists es. split; [assumption|].
  eapply Forall_impl; [exact Hf|]. simpl. intros z Hz. lia.
Qed.

Lemma lower_trans b w w1 w2 : lower b w w1 -> lower b w1 w2 -> lower b w w2.
Proof.
  intros (es1 & Hm1 & Hf1) (es2 & Hm2 & Hf2).
  exists (es1 ++ es2). split.
  - rewrite Hm2, Hm1, app_assoc. reflexivity.
  - rewrite pending_from_app. apply Forall_app. split; [assumption|].
    rewrite Hm1, pendingCount_app in Hf2. assumption.
Qed.

Lemma cut_while_forwarding_app l l' :
  cut_while_forwarding l -> cut_while_forwarding (l ++ l').
Proof.
  intros (i & Hn & Hc). exists i. rewrite !existsb_app, Hn, Hc. split; reflexivity.
Qed.

Lemma scan_step_delta c e : scan_step c e = c + delta e.
Proof. destruct e; cbn; lia. Qed.

(* ---------- grows ---------- *)

Lemma grows_refl w : grows w w.
Proof.
  split; [exists []; symmetry; apply app_nil_r|].
  intros i x Hx. exists x. auto.
Qed.

Lemma grows_trans w1 w2 w3 : grows w1 w2 -> grows w2 w3 -> grows w1 w3.
Proof.
  intros [(es1 & Hm1) Hi1] [(es2 & Hm2) Hi2]. split.
  - exists (es1 ++ es2). rewrite Hm2, Hm1, app_assoc. reflexivity.
  - intros i x Hx. destruct (Hi1 _ _ Hx) as (x' & Hx' & Hc' & Ho').
    destruct (Hi2 _ _ Hx') as (x'' & Hx'' & Hc'' & Ho'').
    exists x''. auto.
Qed.

Lemma ext_grows own w w' : ext own w w' -> grows w w'.
Proof.
  intros [(es & Hm & _) Hi _ _ _]. split; [exists es; assumption|].
  intros i x Hx. destruct (Hi _ _ Hx) as (x' & Hx' & _ & _ & _ & Hc & Ho).
  exists x'. auto.
Qed.

Lemma sat_mono {A} own t (m : M A) : sat own t m -> mono m.
Proof. intros H w. eapply ext_grows. apply H. Qed.

Lemma not_cut_grows w w' :
  grows w w' -> ~ cut_while_forwarding (monitor w') -> ~ cut_while_forwarding (monitor w).
Proof.
  intros [(es & Hm) _] Hn Hc. apply Hn. rewrite Hm.
  apply cut_while_forwarding_app. assumption.
Qed.

Lemma stable_always : stable always.
Proof. intros w w' _ _. exact I. Qed.

Lemma stable_unparked i : stable (unparked i).
Proof.
  intros w w' [_ Hi] (x & Hx & Hp).
  destruct (Hi _ _ Hx) as (x' & Hx' & Hic & Ho).
  exists x'. split; [assumption|].
  unfold parked in *. apply andb_false_iff in Hp as [Hp|Hp];
    apply negb_false_iff in Hp.
  - rewrite (Hic Hp). reflexivity.
  - rewrite (Ho Hp). apply andb_false_r.
Qed.

Section MonoRules.
Context {A B : Type}.

Lemma mono_ret (a : A) : mono (ret a).
Proof. intros w. apply grows_refl. Qed.

Lemma mono_throw e : mono (@throw A e).
Proof. intros w. apply grows_refl. Qed.

Lemma mono_halt : mono (@halt A).
Proof. intros w. apply grows_refl. Qed.

Lemma mono_bind (m : M A) (f : A -> M B) :
  mono m -> (forall a, mono (f a)) -> mono (bind m f).
Proof.
  intros Hm Hf w. unfold bind. specialize (Hm w).
  destruct (m w) as [a w1|e w1|w1]; cbn [world_of] in *; try assumption.
  eapply grows_trans; [exact Hm | apply Hf].
Qed.

Lemma mono_try (m : M A) (h : JsVal -> M A) :
  mono m -> (forall e, mono (h e)) -> mono (try_catch m h).
Proof.
  intros Hm Hh w. unfold try_catch. specialize (Hm w).
  destruct (m w) as [a w1|e w1|w1]; cbn [world_of] in *; try assumption.
  eapply grows_trans; [exact Hm | apply Hh].
Qed.

End MonoRules.

Lemma mono_with_inst i (f : Instance -> M unit) :
  (forall x, mono (f x)) -> mono (with_inst i f).
Proof.
  intros Hf w. unfold with_inst. destruct (insts w !! i) as [x|].
  - apply Hf.
  - apply grows_refl.
Qed.

Lemma mono_monitor_next e : mono (monitor_next e).
Proof.
  intros w. split; [exists [e]; reflexivity|].
  intros i x Hx. exists x. auto.
Qed.

Lemma mono_with_len {A} (F : nat -> M A) :
  (forall n, mono (F n)) -> mono (fun w => F (length (insts w)) w).
Proof. intros H w. apply H. Qed.

(* ---------- rules ---------- *)

Section Rules.
Context {A B : Type}.

Lemma spends_ret P b (a : A) : spends P 0 b (ret a).
Proof.
  intros w Hwf _ _. cbn. split; [assumption|].
  split; [|intros _; lia]. exists []. rewrite app_nil_r. split; [reflexivity | constructor].
Qed.

Lemma spends_throw P b e : spends P 0 b (@throw A e).
Proof.
  intros w Hwf _ _. cbn. split; [assumption|].
  split; [|intros _; lia]. exists []. rewrite app_nil_r. split; [reflexivity | constructor].
Qed.

Lemma spends_halt P d b : spends P d b (@halt A).
Proof.
  intros w Hwf _ _. cbn. split; [assumption|].
  split; [|discriminate]. exists []. rewrite app_nil_r. split; [reflexivity | constructor].
Qed.

Lemma spends_pre (P Q : World -> Prop) d b b' (m : M A) :
  spends P d b m -> (forall w, WF w -> Q w -> P w) -> b <= b' -> spends Q d b' m.
Proof.
  intros H HPQ Hb w Hwf HQ Hn. destruct (H w Hwf (HPQ w Hwf HQ) Hn) as (H1 & H2 & H3).
  split; [assumption|]. split; [|assumption].
  eapply lower_weaken; [|exact H2]. lia.
Qed.

Lemma spends_absurd (P : World -> Prop) d b (m : M A) :
  (forall w, WF w -> P w -> False) -> spends P d b m.
Proof. intros H w Hwf HP. destruct (H w Hwf HP). Qed.

Lemma spends_fact (F : Prop) (P : World -> Prop) d b (m : M A) :
  (forall w, WF w -> P w -> F) -> (F -> spends P d b m) -> spends P d b m.
Proof. intros HF H w Hwf HP. exact (H (HF w Hwf HP) w Hwf HP). Qed.

Lemma spends_ext (P : World -> Prop) d b (m m' : M A) :
  (forall w, WF w -> P w -> m' w = m w) -> spends P d b m -> spends P d b m'.
Proof. intros He H w Hwf HP. rewrite (He w Hwf HP). apply H; assumption. Qed.

Lemma spends_bind (P Q : World -> Prop) d1 b1 d2 b2 d b (m : M A) (f : A -> M B) :
  spends P d1 b1 m ->
  (forall a, spends Q d2 b2 (f a)) ->
  (forall a, mono (f a)) ->
  (forall w a w1, WF w -> P w -> m w = Ok a w1 -> WF w1 -> Q w1) ->
  (d2 = 0 \/ forall w, is_thrown (m w) = false) ->
  d = d1 + d2 -> b1 <= b -> d1 + b2 <= b ->
  spends P d b (bind m f).
Proof.
  intros Hm Hf Hmono HQ Hthrow -> Hb1 Hb2 w Hwf HP Hn. unfold bind in *.
  specialize (Hm w Hwf HP). specialize (HQ w).
  destruct (m w) as [a w1|e w1|w1] eqn:E; cbn [world_of is_halted] in *.
  - destruct (Hm (not_cut_grows _ _ (Hmono a w1) Hn)) as (Hwf1 & Hl1 & Hb).
    specialize (Hb eq_refl).
    destruct (Hf a w1 Hwf1 (HQ a w1 Hwf HP eq_refl Hwf1) Hn) as (Hwf2 & Hl2 & Hb').
    split; [assumption|]. split.
    + eapply lower_trans.
      * eapply lower_weaken; [|exact Hl1]. lia.
      * eapply lower_weaken; [|exact Hl2]. lia.
    + intros Hh. rewrite (Hb' Hh). lia.
  - destruct (Hm Hn) as (Hwf1 & Hl1 & Hb). split; [assumption|]. split.
    + eapply lower_weaken; [|exact Hl1]. lia.
    + intros _. rewrite (Hb eq_refl). destruct Hthrow as [->|Hnt]; [lia|].
      specialize (Hnt w). rewrite E in Hnt. discriminate.
  - destruct (Hm Hn) as (Hwf1 & Hl1 & Hb). split; [assumption|]. split.
    + eapply lower_weaken; [|exact Hl1]. lia.
    + discriminate.
Qed.

(** The same with one precondition that later events cannot undo. *)
Lemma spends_seq (P : World -> Prop) d1 b1 d2 b2 d b (m : M A) (f : A -> M B) :
  stable P -> mono m ->
  spends P d1 b1 m ->
  (forall a, spends P d2 b2 (f a)) ->
  (forall a, mono (f a)) ->
  (d2 = 0 \/ forall w, is_thrown (m w) = false) ->
  d = d1 + d2 -> b1 <= b -> d1 + b2 <= b ->
  spends P d b (bind m f).
Proof.
  intros Hst Hmm Hm Hf Hmono Hthrow Hd Hb1 Hb2.
  eapply spends_bind; try eassumption.
  intros w a w1 Hwf HP E _. apply (Hst w); [|assumption].
  specialize (Hmm w). rewrite E in Hmm. exact Hmm.
Qed.

End Rules.

Lemma spends_assoc {A B C} P d b (m : M A) (f : A -> M B) (g : B -> M C) :
  spends P d b (bind m (fun a => bind (f a) g)) -> spends P d b (bind (bind m f) g).
Proof.
  apply spends_ext. intros w _ _. unfold bind. destruct (m w); reflexivity.
Qed.

Lemma spends_if_bind {A B} P d b (c : bool) (m1 m2 : M A) (f : A -> M B) :
  spends P d b (if c then bind m1 f else bind m2 f) ->
  spends P d b (bind (if c then m1 else m2) f).
Proof. destruct c; auto. Qed.

Lemma spends_try {A} (P Q : World -> Prop) d b1 b2 b (m : M A) (h : JsVal -> M A) :
  spends P d b1 m ->
  (forall e, spends Q 0 b2 (h e)) ->
  (forall e, mono (h e)) ->
  (forall w e w1, WF w -> P w -> m w = Thrown e w1 -> WF w1 -> Q w1) ->
  b1 <= b -> d + b2 <= b ->
  spends P d b (try_catch m h).
Proof.
  intros Hm Hh Hmono HQ Hb1 Hb2 w Hwf HP Hn. unfold try_catch in *.
  specialize (Hm w Hwf HP). specialize (HQ w).
  destruct (m w) as [a w1|e w1|w1] eqn:E; cbn [world_of is_halted] in *.
  - destruct (Hm Hn) as (Hwf1 & Hl1 & Hb). split; [assumption|]. split; [|assumption].
    eapply lower_weaken; [|exact Hl1]. lia.
  - destruct (Hm (not_cut_grows _ _ (Hmono e w1) Hn)) as (Hwf1 & Hl1 & Hb).
    specialize (Hb eq_refl).
    destruct (Hh e w1 Hwf1 (HQ e w1 Hwf HP eq_refl Hwf1) Hn) as (Hwf2 & Hl2 & Hb').
    split; [assumption|]. split.
    + eapply lower_trans.
      * eapply lower_weaken; [|exact Hl1]. lia.
      * eapply lower_weaken; [|exact Hl2]. lia.
    + intros Hh'. rewrite (Hb' Hh'). lia.
  - destruct (Hm Hn) as (Hwf1 & Hl1 & Hb). split; [assumption|]. split; [|assumption].
    eapply lower_weaken; [|exact Hl1]. lia.
Qed.

Lemma spends_try_seq {A} (P : World -> Prop) d b1 b2 b (m : M A) (h : JsVal -> M A) :
  stable P -> mono m ->
  spends P d b1 m ->
  (forall e, spends P 0 b2 (h e)) ->
  (forall e, mono (h e)) ->
  b1 <= b -> d + b2 <= b ->
  spends P d b (try_catch m h).
Proof.
  intros Hst Hmm Hm Hh Hmono Hb1 Hb2.
  eapply spends_try; try eassumption.
  intros w e w1 Hwf HP E _. apply (Hst w); [|assumption].
  specialize (Hmm w). rewrite E in Hmm. exact Hmm.
Qed.

Lemma spends_with_inst (P : World -> Prop) b i (f : Instance -> M unit) :
  (forall x, spends (fun w => P w /\ insts w !! i = Some x) 0 b (f x)) ->
  spends P 0 b (with_inst i f).
Proof.
  intros Hf w Hwf HP Hn. unfold with_inst in *.
  destruct (insts w !! i) as [x|] eqn:Hx.
  - apply (Hf x w Hwf (conj HP Hx) Hn).
  - apply (spends_ret P b tt w Hwf HP Hn).
Qed.

(** A closure reads its own state before a continuation that does not
    depend on what was read. *)
Lemma spends_with_inst_bind {B} (P : World -> Prop) d b i
      (f : Instance -> M unit) (k : unit -> M B) :
  (forall x, spends (fun w => P w /\ insts w !! i = Some x) d b (bind (f x) k)) ->
  spends (fun w => P w /\ insts w !! i = None) d b (k tt) ->
  spends P d b (bind (with_inst i f) k).
Proof.
  intros Hf Hk w Hwf HP. unfold bind, with_inst in *.
  destruct (insts w !! i) as [x|] eqn:Hx.
  - exact (Hf x w Hwf (conj HP Hx)).
  - exact (Hk w Hwf (conj HP Hx)).
Qed.

Lemma spends_lookup {A} (P : World -> Prop) d b i (m : M A) :
  (forall x, spends (fun w => P w /\ insts w !! i = Some x) d b m) ->
  spends (fun w => P w /\ insts w !! i = None) d b m ->
  spends P d b m.
Proof.
  intros Hs Hn w Hwf HP. destruct (insts w !! i) as [x|] eqn:Hx.
  - apply (Hs x); auto.
  - apply Hn; auto.
Qed.

Lemma spends_with_len {A} (P : World -> Prop) d b (F : nat -> M A) :
  (forall n, spends (fun w => P w /\ length (insts w) = n) d b (F n)) ->
  spends P d b (fun w => F (length (insts w)) w).
Proof. intros H w Hwf HP. apply (H (length (insts w)) w Hwf). auto. Qed.

(* ---------- the primitives ---------- *)

Lemma lower_nil b w w' : monitor w' = monitor w -> lower b w w'.
Proof. intros H. exists []. rewrite app_nil_r. split; [assumption | constructor]. Qed.

Lemma WF_same w w' es :
  monitor w' = monitor w ++ es -> insts w' = insts w ->
  processCalls w' = processCalls w -> WF w -> WF w'.
Proof.
  intros Hm Hi Hp [H1 H2 H3]. split.
  - rewrite Hi. exact H1.
  - rewrite Hi, Hm. intros i x Hx Ho Hic Hcs. rewrite existsb_app.
    rewrite (H2 i x Hx Ho Hic Hcs). reflexivity.
  - rewrite Hi, Hp. exact H3.
Qed.

Lemma spends_quiet P b (g : World -> World) :
  (forall w, monitor (g w) = monitor w) ->
  (forall w, insts (g w) = insts w) ->
  (forall w, processCalls (g w) = processCalls w) ->
  spends P 0 b (modify g).
Proof.
  intros Hm Hi Hp w Hwf _ _. cbn. split.
  - apply (WF_same w (g w) []); auto. rewrite app_nil_r. apply Hm.
  - split; [apply lower_nil, Hm|]. intros _. unfold balance, owed. rewrite Hm, Hi. lia.
Qed.

Lemma spends_console_error P b c : spends P 0 b (console_error c).
Proof. apply spends_quiet; reflexivity. Qed.

Lemma spends_consumer_push P b a : spends P 0 b (consumer_push a).
Proof. apply spends_quiet; reflexivity. Qed.

Lemma spends_set_limiter P b k l : spends P 0 b (set_limiter k l).
Proof. apply spends_quiet; reflexivity. Qed.

Lemma spends_monitor_next (P : World -> Prop) e k d b :
  (forall w, WF w -> P w -> k <= owed w) -> d = - delta e -> d - k <= b ->
  spends P d b (monitor_next e).
Proof.
  intros Hk -> Hb w Hwf HP _. cbn. specialize (Hk w Hwf HP). split.
  - apply (WF_same w _ [e]); auto.
  - split.
    + exists [e]. split; [reflexivity|]. cbn. constructor; [|constructor].
      rewrite scan_step_delta. unfold balance. lia.
    + intros _. unfold balance, owed. cbn [monitor insts].
      rewrite pendingCount_app. cbn [fold_left]. rewrite scan_step_delta. lia.
Qed.

(** An event that makes the stream one of those set aside. *)
Lemma spends_monitor_next_cut (P : World -> Prop) e d b :
  (forall w, WF w -> P w -> cut_while_forwarding (monitor w ++ [e])) ->
  spends P d b (monitor_next e).
Proof. intros H w Hwf HP Hn. destruct Hn. cbn. apply H; assumption. Qed.

Lemma spends_process_push (P : World -> Prop) b i a :
  (forall w, WF w -> P w -> unparked i w) -> spends P 0 b (process_push i a).
Proof.
  intros Hu w Hwf HP _. cbn. specialize (Hu w Hwf HP). split.
  - destruct Hwf as [H1 H2 H3]. split; cbn; auto.
    intros c Hc. apply in_app_or in Hc as [Hc|[<-|[]]]; auto.
  - split; [apply lower_nil; reflexivity|]. intros _.
    unfold balance, owed. cbn [monitor insts]. lia.
Qed.

Lemma spends_push_inst (P : World -> Prop) d b x0 :
  dispClosed x0 = false -> cancelledStopped x0 = false -> dispActive x0 = 0%nat ->
  outStopped x0 = false -> d = weight x0 ->
  spends P d b (push_inst x0).
Proof.
  intros Hc Hcs Ha Ho -> w Hwf HP _. cbn. split.
  - destruct Hwf as [H1 H2 H3]. split; cbn.
    + intros i x Hx Hp. apply lookup_app_Some in Hx as [Hx|[_ Hx]]; [eauto|].
      apply list_lookup_singleton_Some in Hx as [_ <-]. auto.
    + intros i x Hx Hout. apply lookup_app_Some in Hx as [Hx|[_ Hx]]; [eauto|].
      apply list_lookup_singleton_Some in Hx as [_ <-]. congruence.
    + intros c Hin. destruct (H3 c Hin) as (x & Hx & Hp).
      exists x. split; [|assumption]. apply lookup_app_l_Some. assumption.
  - split; [apply lower_nil; reflexivity|]. intros _.
    unfold balance, owed. cbn [monitor insts set_insts]. rewrite owed_list_app. lia.
Qed.

Lemma spends_upd_inst (P : World -> Prop) i f d b :
  (forall w x, WF w -> P w -> insts w !! i = Some x ->
     (parked (f x) = true ->
        parked x = true /\ dispClosed (f x) = false /\
        cancelledStopped (f x) = false /\ dispActive (f x) = 0%nat) /\
     (outStopped (f x) = true -> interceptComplete (f x) = false ->
        cancelledStopped (f x) = false -> existsb (next_by i) (monitor w) = true) /\
     weight (f x) - weight x = d) ->
  (forall w, WF w -> P w -> insts w !! i = None -> d = 0) ->
  spends P d b (upd_inst i f).
Proof.
  intros Hs Hnone w Hwf HP _. cbn. specialize (Hs w). specialize (Hnone w Hwf HP).
  destruct (insts w !! i) as [x|] eqn:Hx.
  - destruct (Hs x Hwf HP eq_refl) as (C1 & C2 & C3). split.
    + destruct Hwf as [H1 H2 H3]. split; cbn.
      * intros j y Hy Hp. destruct (decide (i = j)) as [<-|Hne].
        -- rewrite list_lookup_alter_eq, Hx in Hy. cbn in Hy. inversion Hy; subst y.
           apply C1. assumption.
        -- rewrite list_lookup_alter_ne in Hy by assumption. eauto.
      * intros j y Hy. destruct (decide (i = j)) as [<-|Hne].
        -- rewrite list_lookup_alter_eq, Hx in Hy. cbn in Hy. inversion Hy; subst y.
           exact C2.
        -- rewrite list_lookup_alter_ne in Hy by assumption. eauto.
      * intros c Hin. destruct (H3 c Hin) as (y & Hy & Hp).
        destruct (decide (i = fst c)) as [Heq|Hne].
        -- exists (f x). rewrite <- Heq, list_lookup_alter_eq, Hx. split; [reflexivity|].
           rewrite <- Heq, Hx in Hy. inversion Hy; subst y.
           destruct (parked (f x)) eqn:Hpf; [|reflexivity].
           destruct (C1 eq_refl) as [Hpx _]. congruence.
        -- exists y. rewrite list_lookup_alter_ne by assumption. auto.
    + split; [apply lower_nil; reflexivity|]. intros _.
      unfold balance, owed. cbn [monitor insts set_insts].
      rewrite (owed_list_alter f i _ x Hx). lia.
  - rewrite (Hnone eq_refl). split.
    + apply (WF_same w _ []); cbn; auto.
      * symmetry. apply app_nil_r.
      * apply list_eq. intros j. destruct (decide (i = j)) as [<-|Hne].
        -- rewrite list_lookup_alter_eq, Hx. reflexivity.
        -- apply list_lookup_alter_ne. assumption.
    + split; [apply lower_nil; reflexivity|]. intros _.
      unfold balance, owed. cbn [monitor insts set_insts].
      replace (alter f i (insts w)) with (insts w); [lia|].
      apply list_eq. intros j. destruct (decide (i = j)) as [<-|Hne].
      * rewrite list_lookup_alter_eq, Hx. reflexivity.
      * symmetry. apply list_lookup_alter_ne. assumption.
Qed.

Lemma mono_modify_quiet (g : World -> World) :
  (forall w, monitor (g w) = monitor w) -> (forall w, insts (g w) = insts w) ->
  mono (modify g).
Proof.
  intros Hm Hi w. cbn. split; [exists []; rewrite app_nil_r; apply Hm|].
  intros i x Hx. exists x. rewrite Hi. auto.
Qed.

Lemma mono_upd_inst i f :
  (forall x, (interceptComplete x = true -> interceptComplete (f x) = true) /\
             (outStopped x = true -> outStopped (f x) = true)) ->
  mono (upd_inst i f).
Proof.
  intros Hf w. cbn. split; [exists []; symmetry; apply app_nil_r|]. cbn.
  intros j x Hx. destruct (decide (i = j)) as [<-|Hne].
  - exists (f x). rewrite list_lookup_alter_eq, Hx. split; [reflexivity | apply Hf].
  - exists x. rewrite list_lookup_alter_ne by assumption. auto.
Qed.

Lemma mono_push_inst x0 : mono (push_inst x0).
Proof.
  intros w. cbn. split; [exists []; symmetry; apply app_nil_r|]. cbn.
  intros j x Hx. exists x. split; [apply lookup_app_l_Some; assumption | auto].
Qed.

(* ---------- every function only lets the world grow ---------- *)

Lemma mono_console_error c : mono (console_error c).
Proof. apply mono_modify_quiet; reflexivity. Qed.
Lemma mono_consumer_push a : mono (consumer_push a).
Proof. apply mono_modify_quiet; reflexivity. Qed.
Lemma mono_process_push i a : mono (process_push i a).
Proof. apply mono_modify_quiet; reflexivity. Qed.
Lemma mono_set_limiter k l : mono (set_limiter k l).
Proof. apply mono_modify_quiet; reflexivity. Qed.

Create HintDb mono.
#[export] Hint Resolve mono_console_error mono_consumer_push mono_process_push
  mono_set_limiter mono_monitor_next mono_push_inst : mono.

Ltac mono_step :=
  lazymatch goal with
  | |- mono (ret _) => apply mono_ret
  | |- mono halt => apply mono_halt
  | |- mono (throw _) => apply mono_throw
  | |- mono (bind _ _) => apply mono_bind; [|intros ?]
  | |- mono (try_catch _ _) => apply mono_try; [|intros ?]
  | |- mono (with_inst _ _) => apply mono_with_inst; intros ?
  | |- mono (upd_inst _ _) => apply mono_upd_inst; intros ?; cbn; auto
  | |- mono (if ?c then _ else _) => destruct c
  | |- mono (match ?c with _ => _ end) => destruct c
  | |- _ => solve [auto with mono]
  end.

Ltac mono_tac := cbv zeta; repeat mono_step.

Section ClosureMono.

Variable store_dispatch : JsVal -> M unit.
Hypothesis store_mono : forall a, mono (store_dispatch a).
Variable logic : Logic.
Variable action : JsVal.
Variable self : nat.
Variable downstream : JsVal -> M unit.
Hypothesis downstream_mono : forall a, mono (downstream a).

Lemma cancelled_complete_mono : mono (cancelled_complete self).
Proof. unfold cancelled_complete. mono_tac. Qed.
Hint Resolve cancelled_complete_mono : mono.

Lemma dispatch_end_mono : mono (dispatch_end action self).
Proof. unfold dispatch_end. mono_tac. Qed.
Hint Resolve dispatch_end_mono : mono.

Lemma dispatch_terminate_mono : mono (dispatch_terminate action self).
Proof. unfold dispatch_terminate. mono_tac. Qed.
Hint Resolve dispatch_terminate_mono : mono.

Lemma storeDispatch_mono act : mono (storeDispatch store_dispatch action self act).
Proof. unfold storeDispatch. mono_tac. Qed.
Hint Resolve storeDispatch_mono : mono.

Lemma mapToActionAndDispatch_mono v :
  mono (mapToActionAndDispatch store_dispatch logic action self v).
Proof. unfold mapToActionAndDispatch. mono_tac. Qed.
Hint Resolve mapToActionAndDispatch_mono : mono.

Lemma mapErrorToActionAndDispatch_mono v :
  mono (mapErrorToActionAndDispatch store_dispatch logic action self v).
Proof. unfold mapErrorToActionAndDispatch. mono_tac. Qed.
Hint Resolve mapErrorToActionAndDispatch_mono : mono.

Lemma tap_next_mono v : mono (tap_next store_dispatch logic action self v).
Proof. unfold tap_next. mono_tac. Qed.
Hint Resolve tap_next_mono : mono.

Lemma tap_error_mono e : mono (tap_error store_dispatch logic action self e).
Proof. unfold tap_error. mono_tac. Qed.
Hint Resolve tap_error_mono : mono.

Lemma inner_items_mono items :
  mono (inner_items store_dispatch logic action self items).
Proof. induction items as [|v rest IH]; cbn [inner_items]; mono_tac. Qed.
Hint Resolve inner_items_mono : mono.

Lemma inner_complete_mono : mono (inner_complete action self).
Proof. unfold inner_complete. mono_tac. Qed.
Hint Resolve inner_complete_mono : mono.

Lemma inner_error_mono e : mono (inner_error store_dispatch logic action self e).
Proof. unfold inner_error. mono_tac. Qed.
Hint Resolve inner_error_mono : mono.

Lemma dispatch_next_mono obs :
  mono (dispatch_next store_dispatch logic action self obs).
Proof. unfold dispatch_next. mono_tac. Qed.
Hint Resolve dispatch_next_mono : mono.

Lemma dispatch_complete_mono : mono (dispatch_complete action self).
Proof. unfold dispatch_complete. mono_tac. Qed.
Hint Resolve dispatch_complete_mono : mono.

Lemma dispatch_mono act options :
  mono (dispatch store_dispatch logic action self act options).
Proof. unfold dispatch. mono_tac. Qed.
Hint Resolve dispatch_mono : mono.

Lemma done_mono : mono (done action self).
Proof. apply dispatch_complete_mono. Qed.
Hint Resolve done_mono : mono.

Lemma logicActionObs_next_mono act : mono (logicActionObs_next self downstream act).
Proof. unfold logicActionObs_next. mono_tac. Qed.
Hint Resolve logicActionObs_next_mono : mono.

Lemma logicActionObs_complete_mono : mono (logicActionObs_complete self).
Proof. unfold logicActionObs_complete. mono_tac. Qed.
Hint Resolve logicActionObs_complete_mono : mono.

Lemma postIfDefinedOrComplete_mono act :
  mono (postIfDefinedOrComplete self downstream act).
Proof. unfold postIfDefinedOrComplete. mono_tac. Qed.
Hint Resolve postIfDefinedOrComplete_mono : mono.

Lemma run_calls_mono calls : mono (run_calls store_dispatch logic action self calls).
Proof.
  induction calls as [|[act options|] rest IH]; cbn [run_calls]; unfold done; mono_tac.
Qed.
Hint Resolve run_calls_mono : mono.

Lemma processFn_mono a : mono (processFn store_dispatch logic action self a).
Proof. unfold processFn. mono_tac. Qed.
Hint Resolve processFn_mono : mono.

Lemma process_or_complete_mono shouldProcess act :
  mono (process_or_complete store_dispatch logic action self shouldProcess act).
Proof. unfold process_or_complete. mono_tac. Qed.
Hint Resolve process_or_complete_mono : mono.

Lemma handleNextOrDispatch_mono shouldProcess act options :
  mono (handleNextOrDispatch store_dispatch logic action self downstream
          shouldProcess act options).
Proof. unfold handleNextOrDispatch. mono_tac. Qed.
Hint Resolve handleNextOrDispatch_mono : mono.

Lemma allow_mono act options :
  mono (allow store_dispatch logic action self downstream act options).
Proof. apply handleNextOrDispatch_mono. Qed.

Lemma reject_mono act options :
  mono (reject store_dispatch logic action self downstream act options).
Proof. apply handleNextOrDispatch_mono. Qed.

Lemma run_intercept_mono calls :
  mono (run_intercept store_dispatch logic action self downstream calls).
Proof.
  induction calls as [|[act options|act options] rest IH];
    cbn [run_intercept]; unfold allow, reject; mono_tac.
Qed.

Lemma cancel_signal_mono : mono (cancel_signal action self).
Proof. unfold cancel_signal. mono_tac. Qed.

Lemma warn_timer_mono : mono (warn_timer self).
Proof. unfold warn_timer. mono_tac. Qed.

End ClosureMono.

#[export] Hint Resolve cancelled_complete_mono dispatch_end_mono done_mono
  allow_mono reject_mono dispatch_terminate_mono storeDispatch_mono
  mapToActionAndDispatch_mono mapErrorToActionAndDispatch_mono tap_next_mono
  tap_error_mono inner_items_mono inner_complete_mono inner_error_mono
  dispatch_next_mono dispatch_complete_mono dispatch_mono logicActionObs_next_mono
  logicActionObs_complete_mono postIfDefinedOrComplete_mono run_calls_mono
  processFn_mono process_or_complete_mono handleNextOrDispatch_mono
  run_intercept_mono cancel_signal_mono warn_timer_mono : mono.

Section PipelineMono.

Variable production : bool.
Variable store_dispatch : JsVal -> M unit.
Hypothesis store_mono : forall a, mono (store_dispatch a).
Variable nextThrows : JsVal -> option JsVal.

Lemma createLogicAction_mono stage logic downstream action :
  (forall a, mono (downstream a)) ->
  mono (createLogicAction production store_dispatch stage logic downstream action).
Proof.
  intros Hd w. unfold createLogicAction. cbv zeta.
  generalize (length (insts w)). intros n. revert w.
  apply mono_bind; [apply mono_monitor_next|]. intros _.
  apply mono_bind; [apply mono_push_inst|]. intros _.
  apply run_intercept_mono; assumption.
Qed.

Lemma call_next_mono a : mono (call_next nextThrows a).
Proof. unfold call_next. mono_tac. Qed.
Hint Resolve call_next_mono : mono.

Lemma bottom_mono a : mono (bottom nextThrows a).
Proof. unfold bottom. mono_tac. Qed.

Lemma limiting_mono stage logic k a :
  (forall a, mono (k a)) -> mono (limiting stage logic k a).
Proof.
  intros Hk. unfold limiting, debouncing, throttling.
  destruct (Nat.eqb (l_debounce logic) 0).
  - destruct (Nat.eqb (l_throttle logic) 0); [apply Hk|].
    intros w. destruct (throttled _); [apply grows_refl|].
    apply (mono_bind (set_limiter _ _) (fun _ => k a)); auto with mono.
  - intros w. apply mono_set_limiter.
Qed.

Lemma cancel_closures_mono stage ids : mono (cancel_closures stage ids).
Proof. induction ids as [|i rest IH]; cbn [cancel_closures]; mono_tac. Qed.

Lemma deliver_mono stages : forall stage a,
  mono (deliver production store_dispatch nextThrows stage stages a).
Proof.
  induction stages as [|logic rest IH]; intros stage a; cbn [deliver].
  - apply bottom_mono.
  - intros w. cbv zeta. generalize (length (insts w)). intros n. revert w.
    apply mono_bind; [|intros _; apply mono_bind; [|intros _]].
    + destruct (negb _); [apply IH | apply mono_ret].
    + destruct (matchesType _ _); [|apply mono_ret].
      apply limiting_mono. intros a'. apply createLogicAction_mono. apply IH.
    + destruct (cancels _ _); [apply cancel_closures_mono | apply mono_ret].
Qed.

End PipelineMono.

#[export] Hint Resolve call_next_mono bottom_mono cancel_closures_mono : mono.

Lemma entry_mono cfg fuel : forall a, mono (entry cfg fuel a).
Proof.
  induction fuel as [|fuel IH]; intros a; cbn [entry].
  - apply mono_halt.
  - apply mono_bind; [apply mono_monitor_next|]. intros _.
    apply deliver_mono. intros act. destruct (storeThrows cfg act); [apply mono_throw | apply IH].
Qed.

Lemma store_dispatch_of_mono cfg fuel a : mono (store_dispatch_of cfg fuel a).
Proof.
  unfold store_dispatch_of. destruct (storeThrows cfg a); [apply mono_throw | apply entry_mono].
Qed.

(* ---------- the closure keeps the balance ---------- *)

Lemma stable_and (P Q : World -> Prop) :
  stable P -> stable Q -> stable (fun w => P w /\ Q w).
Proof. intros HP HQ w w' Hg [H1 H2]. split; [eapply HP | eapply HQ]; eassumption. Qed.

Create HintDb stable.
#[export] Hint Resolve stable_always stable_unparked stable_and : stable.

Lemma parked_at_owed i w : parked_at i w -> 1 <= owed w.
Proof.
  intros (x & Hx & Hp). pose proof (owed_list_lookup _ _ _ Hx) as H.
  unfold owed, weight in *. rewrite Hp in H. destruct (dispClosed x); lia.
Qed.

Ltac unpack :=
  repeat match goal with
  | H : _ /\ _ |- _ => destruct H
  | H : unparked _ _ |- _ => destruct H as (? & ? & ?)
  | H : parked_at _ _ |- _ => destruct H as (? & ? & ?)
  | H : always _ |- _ => clear H
  end.

Ltac same_inst :=
  repeat match goal with
  | H1 : insts ?w !! ?i = Some ?a, H2 : insts ?w !! ?i = Some ?b |- _ =>
      assert (a = b) by congruence; subst; clear H2
  end.

(** A fact about the fields of a closure, by cases on the fields. *)
Ltac fields :=
  repeat match goal with x : Instance |- _ => destruct x end;
  unfold parked, weight in *; cbn in *;
  repeat match goal with b : bool |- _ => destruct b end;
  cbn in *;
  intuition (try discriminate; try lia; auto).

(** The side conditions of [spends_upd_inst]. *)
Ltac upd_side :=
  let w := fresh "w" in let x := fresh "x" in
  let Hwf := fresh "Hwf" in let HP := fresh "HP" in let Hx := fresh "Hx" in
  intros w x Hwf HP Hx;
  pose proof (wf_parked _ Hwf _ _ Hx);
  pose proof (wf_forwarding _ Hwf _ _ Hx);
  unpack; try congruence; same_inst; fields.

Ltac upd_none :=
  let w := fresh "w" in let Hwf := fresh "Hwf" in
  let HP := fresh "HP" in let Hn := fresh "Hn" in
  intros w Hwf HP Hn; first [reflexivity | unpack; congruence].

Ltac spend_update := apply spends_upd_inst; [upd_side | upd_none].

(** [(m ;; f) ;; g] is read as [m ;; (f ;; g)]. *)
Ltac spend_assoc :=
  cbv beta;
  repeat lazymatch goal with
         | |- spends _ _ _ (bind (bind _ _) _) => apply spends_assoc; cbv beta
         end.

Ltac throw_side := first [left; reflexivity | right; intros ?; reflexivity | idtac].

(** The rules for [bind] with the trivial side conditions discharged; what
    stays are the two computations. *)
Ltac spend_seq d1 b1 d2 b2 :=
  eapply (spends_seq _ d1 b1 d2 b2);
  [ auto with stable | mono_tac | | intros ? | intros ?; mono_tac | throw_side
  | lia | lia | lia ].

Ltac spend_bind Q d1 b1 d2 b2 :=
  eapply (spends_bind _ Q d1 b1 d2 b2);
  [ | intros ? | intros ?; mono_tac | | throw_side | lia | lia | lia ].

Lemma upd_inst_post i f w a w1 x :
  upd_inst i f w = Ok a w1 -> insts w !! i = Some x ->
  insts w1 !! i = Some (f x) /\ monitor w1 = monitor w.
Proof.
  intros E Hx. inversion E; subst. cbn.
  rewrite list_lookup_alter_eq, Hx. auto.
Qed.

Lemma monitor_next_post e w a w1 :
  monitor_next e w = Ok a w1 -> insts w1 = insts w /\ monitor w1 = monitor w ++ [e].
Proof. intros E. inversion E; subst. auto. Qed.

Lemma post_stable {A} (m : M A) (Q : World -> Prop) w a w1 :
  stable Q -> mono m -> Q w -> m w = Ok a w1 -> Q w1.
Proof.
  intros Hst Hm HQ E. apply (Hst w); [|assumption].
  specialize (Hm w). rewrite E in Hm. exact Hm.
Qed.

Lemma unparked_intro i w x :
  insts w !! i = Some x -> parked x = false -> unparked i w.
Proof. intros. exists x. auto. Qed.

(** The precondition of the continuation holds because nothing undoes it. *)
Ltac by_stable :=
  let E := fresh "E" in
  intros ? ? ? ? ? E ?;
  eapply post_stable; [| |  | exact E]; [auto with stable | mono_tac | intuition eauto using unparked_intro].

Section ClosureBalance.

Variable store_dispatch : JsVal -> M unit.
Hypothesis store_mono : forall a, mono (store_dispatch a).
Hypothesis store_ok : forall a, spends always 0 0 (store_dispatch a).
Variable logic : Logic.
Variable action : JsVal.
Variable self : nat.
Variable downstream : JsVal -> M unit.
Hypothesis downstream_mono : forall a, mono (downstream a).
Hypothesis downstream_ok : forall a, spends always 1 1 (downstream a).

Lemma cancelled_complete_ok : spends (unparked self) 0 0 (cancelled_complete self).
Proof. unfold cancelled_complete. spend_update. Qed.

Lemma dispatch_end_ok : spends (unparked self) 1 1 (dispatch_end action self).
Proof.
  unfold dispatch_end. spend_seq 1 1 0 0.
  - apply (spends_monitor_next _ _ 0); [intros; apply owed_list_nonneg | reflexivity | lia].
  - apply cancelled_complete_ok.
Qed.

Lemma dispatch_terminate_ok : spends (unparked self) 0 0 (dispatch_terminate action self).
Proof.
  unfold dispatch_terminate. apply spends_with_inst. intros x.
  destruct (dispClosed x) eqn:Hc; [apply spends_ret|].
  spend_bind (unparked self) (-1) (-1) 1 1.
  - spend_update.
  - apply dispatch_end_ok.
  - intros w a w1 Hwf [(y & Hy & Hp) Hx] E _.
    assert (y = x) by congruence; subst y.
    destruct (upd_inst_post _ _ _ _ _ _ E Hx) as [H1 _].
    eexists. split; [exact H1|]. fields.
Qed.

Lemma storeDispatch_ok act :
  spends (unparked self) 0 0 (storeDispatch store_dispatch action self act).
Proof.
  unfold storeDispatch. spend_seq 0 0 0 0.
  - apply (spends_monitor_next _ _ 0); [intros; apply owed_list_nonneg | reflexivity | lia].
  - eapply spends_pre; [apply store_ok | intros; exact I | lia].
Qed.

Lemma mapToActionAndDispatch_ok v :
  spends (unparked self) 0 0 (mapToActionAndDispatch store_dispatch logic action self v).
Proof.
  unfold mapToActionAndDispatch. cbv zeta.
  match goal with |- context [if truthy ?a then _ else _] => destruct (truthy a) end.
  - apply storeDispatch_ok.
  - apply spends_ret.
Qed.

Lemma mapErrorToActionAndDispatch_ok v :
  spends (unparked self) 0 0
        (mapErrorToActionAndDispatch store_dispatch logic action self v).
Proof.
  unfold mapErrorToActionAndDispatch.
  destruct (isInterceptAction v); [apply storeDispatch_ok|].
  destruct (configured (failType (l_processOptions logic))).
  - cbv zeta.
    match goal with |- context [if truthy ?a then _ else _] => destruct (truthy a) end.
    + apply storeDispatch_ok.
    + apply spends_ret.
  - destruct (instanceofError v); [apply storeDispatch_ok|].
    destruct (truthy v && typeof_object_or_function v); apply storeDispatch_ok.
Qed.

Lemma tap_next_ok v :
  spends (unparked self) 0 0 (tap_next store_dispatch logic action self v).
Proof.
  unfold tap_next.
  eapply (spends_try_seq _ 0 0 0 0); [auto with stable | mono_tac | | | | lia | lia].
  - apply mapToActionAndDispatch_ok.
  - intros _. apply dispatch_terminate_ok.
  - intros _. mono_tac.
Qed.

Lemma tap_error_ok e :
  spends (unparked self) 0 0 (tap_error store_dispatch logic action self e).
Proof.
  unfold tap_error. spend_seq 0 0 0 0.
  - eapply (spends_try_seq _ 0 0 0 0); [auto with stable | mono_tac | | | | lia | lia].
    + apply mapErrorToActionAndDispatch_ok.
    + intros _. apply spends_ret.
    + intros _. mono_tac.
  - apply dispatch_terminate_ok.
Qed.

Lemma inner_items_ok items :
  spends (unparked self) 0 0 (inner_items store_dispatch logic action self items).
Proof.
  induction items as [|v rest IH]; cbn [inner_items]; [apply spends_ret|].
  apply spends_with_inst. intros x. destruct (dispClosed x); [apply spends_ret|].
  spend_bind (unparked self) 0 0 0 0.
  - eapply spends_pre; [apply tap_next_ok | intros w _ [H _]; exact H | lia].
  - exact IH.
  - by_stable.
Qed.

Lemma inner_complete_ok : spends (unparked self) 0 0 (inner_complete action self).
Proof.
  unfold inner_complete. apply spends_with_inst. intros x.
  destruct (dispClosed x); [apply spends_ret|].
  spend_bind (unparked self) 0 0 0 0.
  - spend_update.
  - destruct (_ && _); [apply dispatch_terminate_ok | apply spends_ret].
  - by_stable.
Qed.

Lemma inner_error_ok e :
  spends (unparked self) 0 0 (inner_error store_dispatch logic action self e).
Proof.
  unfold inner_error. apply spends_with_inst. intros x.
  destruct (dispClosed x); [apply spends_ret|].
  eapply spends_pre; [apply tap_error_ok | intros w _ [H _]; exact H | lia].
Qed.

Lemma dispatch_next_ok obs :
  spends (unparked self) 0 0 (dispatch_next store_dispatch logic action self obs).
Proof.
  unfold dispatch_next. apply spends_with_inst. intros x.
  destruct (_ || _); [apply spends_ret|].
  spend_bind (unparked self) 0 0 0 0.
  - spend_update.
  - spend_seq 0 0 0 0; [apply inner_items_ok|].
    destruct (snd obs); [apply inner_complete_ok | apply inner_error_ok | apply spends_ret].
  - by_stable.
Qed.

Lemma dispatch_complete_ok : spends (unparked self) 0 0 (dispatch_complete action self).
Proof.
  unfold dispatch_complete. apply spends_with_inst. intros x.
  destruct (dispStopped x); [apply spends_ret|].
  spend_bind (unparked self) 0 0 0 0.
  - spend_update.
  - destruct (Nat.eqb _ _); [apply dispatch_terminate_ok | apply spends_ret].
  - by_stable.
Qed.

Lemma dispatch_ok act options :
  spends (unparked self) 0 0 (dispatch store_dispatch logic action self act options).
Proof.
  unfold dispatch. cbv zeta. spend_seq 0 0 0 0.
  - destruct act; try apply dispatch_next_ok. apply spends_ret.
  - destruct (negb _); [apply dispatch_complete_ok | apply spends_ret].
Qed.

Lemma logicActionObs_complete_ok :
  spends (unparked self) 0 0 (logicActionObs_complete self).
Proof. unfold logicActionObs_complete. spend_update. Qed.

Lemma intercept_finished_ok :
  spends (unparked self) 0 0
        (bind (upd_inst self (set_interceptComplete true))
              (fun _ => logicActionObs_complete self)).
Proof. spend_seq 0 0 0 0; [spend_update | apply logicActionObs_complete_ok]. Qed.

Lemma postIfDefinedOrComplete_nothing act :
  truthy act = false ->
  spends (unparked self) 0 0 (postIfDefinedOrComplete self downstream act).
Proof.
  intros Ht. unfold postIfDefinedOrComplete. rewrite Ht.
  spend_seq 0 0 0 0; [apply spends_ret | apply intercept_finished_ok].
Qed.

(** The action is forwarded: the closure gives up its claim on the counter
    and the rest of the pipeline takes it over. *)
Lemma postIfDefinedOrComplete_forward {B} act (k : unit -> M B) :
  truthy act = true -> (forall u, mono (k u)) ->
  (forall u, spends (unparked self) 0 0 (k u)) ->
  spends (fun w => parked_at self w /\ existsb (next_by self) (monitor w) = true) 0 0
        (bind (postIfDefinedOrComplete self downstream act) k).
Proof.
  intros Ht Hmk Hk. unfold postIfDefinedOrComplete. rewrite Ht.
  unfold logicActionObs_next. apply spends_assoc. apply spends_with_inst_bind.
  - intros x. destruct (outStopped x) eqn:Ho.
    { apply spends_absurd. intros w _ [[(y & Hy & Hp) _] Hx].
      assert (y = x) by congruence; subst y. unfold parked in Hp.
      rewrite Ho, andb_false_r in Hp. discriminate. }
    apply spends_assoc.
    spend_bind (unparked self) (-1) (-1) 1 1.
    + spend_update.
    + spend_seq 1 1 0 0.
      * eapply spends_pre; [apply downstream_ok | intros; exact I | lia].
      * spend_seq 0 0 0 0; [apply intercept_finished_ok | apply Hk].
    + intros w a w1 Hwf [_ Hx] E _.
      destruct (upd_inst_post _ _ _ _ _ _ E Hx) as [H1 _].
      eapply unparked_intro; [exact H1|]. unfold parked. cbn. apply andb_false_r.
  - apply spends_absurd. intros w _ [[(y & Hy & _) _] Hn]. congruence.
Qed.

Lemma run_calls_ok calls :
  spends (unparked self) 0 0 (run_calls store_dispatch logic action self calls).
Proof.
  induction calls as [|[act options|] rest IH]; cbn [run_calls].
  - apply spends_ret.
  - spend_seq 0 0 0 0; [apply dispatch_ok | exact IH].
  - spend_seq 0 0 0 0; [apply dispatch_complete_ok | exact IH].
Qed.

Lemma processFn_ok a :
  spends (unparked self) 0 0 (processFn store_dispatch logic action self a).
Proof.
  unfold processFn. spend_seq 0 0 0 0; [apply spends_process_push; auto|].
  spend_seq 0 0 0 0; [apply run_calls_ok|].
  destruct (p_outcome _); [apply spends_ret | apply spends_throw].
Qed.

Lemma process_or_complete_ok shouldProcess act :
  spends (unparked self) 0 0
        (process_or_complete store_dispatch logic action self shouldProcess act).
Proof.
  unfold process_or_complete. destruct shouldProcess; [|apply dispatch_complete_ok].
  eapply (spends_try_seq _ 0 0 0 0); [auto with stable | mono_tac | | | | lia | lia].
  - spend_seq 0 0 0 0; [apply processFn_ok|].
    destruct (dispatchReturn _); [|apply spends_ret].
    match goal with |- context [match ?v with VUndef => _ | _ => _ end] => destruct v end;
      try apply dispatch_ok; apply dispatch_complete_ok.
  - intros err. spend_seq 0 0 0 0; [apply spends_console_error | apply dispatch_ok].
  - intros err. mono_tac.
Qed.

Lemma parked_at_after_event e w a w1 :
  parked_at self w -> monitor_next e w = Ok a w1 -> parked_at self w1.
Proof.
  intros (x & Hx & Hp) E. destruct (monitor_next_post _ _ _ _ E) as [Hi _].
  exists x. rewrite Hi. auto.
Qed.

Lemma unparked_after_decision w a w1 :
  parked_at self w -> upd_inst self (set_interceptComplete true) w = Ok a w1 ->
  unparked self w1.
Proof.
  intros (x & Hx & Hp) E. destruct (upd_inst_post _ _ _ _ _ _ E Hx) as [H1 _].
  eapply unparked_intro; [exact H1 | reflexivity].
Qed.

Lemma handleNextOrDispatch_ok shouldProcess act options :
  spends (parked_at self) 0 0
        (handleNextOrDispatch store_dispatch logic action self downstream
                              shouldProcess act options).
Proof.
  unfold handleNextOrDispatch. cbv zeta. apply spends_if_bind.
  destruct (truthy (shouldDispatch _ _ _)).
  - (* nextDisp: the action is dispatched instead of forwarded *)
    spend_assoc.
    spend_bind (parked_at self) 1 0 (-1) (-1).
    + apply (spends_monitor_next _ _ 1);
        [intros; apply parked_at_owed with self; assumption | reflexivity | lia].
    + spend_assoc. spend_bind (unparked self) (-1) (-1) 0 0.
      * spend_update.
      * spend_assoc. spend_seq 0 0 0 0; [apply dispatch_ok|].
        spend_seq 0 0 0 0; [apply logicActionObs_complete_ok | apply process_or_complete_ok].
      * intros w ? w1 _ HP E _. eapply unparked_after_decision; eassumption.
    + intros w ? w1 _ HP E _. eapply parked_at_after_event; eassumption.
  - destruct (truthy act) eqn:Ht.
    + (* next: the action is forwarded *)
      spend_assoc.
      spend_bind (fun w => parked_at self w /\ existsb (next_by self) (monitor w) = true)
            0 0 0 0.
      * apply (spends_monitor_next _ _ 0);
          [intros; apply owed_list_nonneg | reflexivity | lia].
      * cbv beta. apply postIfDefinedOrComplete_forward; [assumption | |].
        -- intros _. mono_tac.
        -- intros _. apply process_or_complete_ok.
      * intros w ? w1 _ HP E _. split; [eapply parked_at_after_event; eassumption|].
        destruct (monitor_next_post _ _ _ _ E) as [_ Hm]. rewrite Hm, existsb_app.
        cbn. rewrite Nat.eqb_refl. apply orb_true_r.
    + (* filtered: nothing is forwarded *)
      spend_assoc.
      spend_bind (parked_at self) 1 0 (-1) (-1).
      * apply (spends_monitor_next _ _ 1);
          [intros; apply parked_at_owed with self; assumption | reflexivity | lia].
      * spend_assoc. spend_bind (unparked self) (-1) (-1) 0 0.
        -- spend_update.
        -- spend_assoc. spend_seq 0 0 0 0;
             [apply postIfDefinedOrComplete_nothing; assumption
             | apply process_or_complete_ok].
        -- intros w ? w1 _ HP E _. eapply unparked_after_decision; eassumption.
      * intros w ? w1 _ HP E _. eapply parked_at_after_event; eassumption.
Qed.

Lemma run_intercept_ok calls :
  (length calls <= 1)%nat ->
  spends (parked_at self) 0 0
        (run_intercept store_dispatch logic action self downstream calls).
Proof.
  intros Hlen. destruct calls as [|c [|c' rest]]; cbn [run_intercept].
  - apply spends_ret.
  - destruct c as [act options|act options];
      (spend_bind always 0 0 0 0;
       [apply handleNextOrDispatch_ok | apply spends_ret | intros; exact I]).
  - cbn in Hlen. lia.
Qed.

Lemma cancel_signal_parked x w :
  insts w !! self = Some x -> parked x = true -> cancelledStopped x = false ->
  cancel_signal action self w
  = bind (upd_inst self (fun y => set_warnArmed false
                                    (set_cancelledStopped true (set_outStopped true y))))
         (fun _ => bind (monitor_next (EvCancelled self action))
                        (fun _ => dispatch_terminate action self)) w.
Proof.
  intros Hx Hp Hcs. unfold parked in Hp. apply andb_true_iff in Hp as [Hic Ho].
  apply negb_true_iff in Hic.
  unfold cancel_signal, bind, upd_inst, modify, with_inst, monitor_next.
  cbn [insts set_insts monitor console consumer processCalls limiters].
  rewrite list_lookup_alter_eq, Hx.
  cbn [fmap option_fmap option_map cancelledStopped interceptComplete set_outStopped].
  rewrite Hcs, Hic.
  unfold modify.
  cbn [negb insts set_insts monitor console consumer processCalls limiters].
  rewrite list_alter_alter_eq. reflexivity.
Qed.

Lemma cancel_signal_ok x :
  spends (fun w => insts w !! self = Some x) 0 0 (cancel_signal action self).
Proof.
  destruct (parked x) eqn:Hp.
  - (* the action was waiting in the intercept step: [cancelled] *)
    apply (spends_fact (cancelledStopped x = false)).
    { intros w Hwf Hx. destruct (wf_parked _ Hwf _ _ Hx Hp) as (? & ? & ?). assumption. }
    intros Hcs.
    eapply spends_ext;
      [intros w _ Hx; apply (cancel_signal_parked x); assumption|].
    spend_bind (unparked self) (-1) (-1) 1 1.
    + spend_update.
    + spend_seq 1 1 0 0.
      * apply (spends_monitor_next _ _ 0);
          [intros; apply owed_list_nonneg | reflexivity | lia].
      * apply dispatch_terminate_ok.
    + intros w a w1 _ Hx E _. destruct (upd_inst_post _ _ _ _ _ _ E Hx) as [H1 _].
      eapply unparked_intro; [exact H1|]. unfold parked. cbn. apply andb_false_r.
  - (* the intercept step was over, or had been cut before *)
    unfold cancel_signal.
    spend_bind (fun w => insts w !! self = Some (set_outStopped true x)) 0 0 0 0.
    + spend_update.
    + spend_bind (unparked self) 0 0 0 0.
      * apply spends_with_inst. intros x'.
        apply (spends_fact (x' = set_outStopped true x)); [intros w _ [H1 H2]; congruence|].
        intros ->. destruct (cancelledStopped (set_outStopped true x)) eqn:Hcs;
          [apply spends_ret|].
        spend_bind (fun w => insts w !! self = Some (set_outStopped true x)) 0 0 0 0.
        -- destruct (interceptComplete (set_outStopped true x)) eqn:Hic; cbn [negb].
           ++ apply (spends_monitor_next _ _ 0);
                [intros; apply owed_list_nonneg | reflexivity | lia].
           ++ apply spends_monitor_next_cut. intros w Hwf [Hx _]. exists self.
              rewrite !existsb_app. cbn. rewrite Nat.eqb_refl, !orb_true_r.
              rewrite (wf_forwarding _ Hwf _ _ Hx eq_refl Hic Hcs). auto.
        -- spend_update.
        -- intros w ? w1 _ [Hx _] E _.
           destruct (negb _) in E;
             destruct (monitor_next_post _ _ _ _ E) as [Hi _]; rewrite Hi; exact Hx.
      * apply dispatch_terminate_ok.
      * intros w ? w1 _ Hx E _. eapply post_stable; [| | |exact E];
          [auto with stable | mono_tac |].
        eapply unparked_intro; [exact Hx|].
        unfold parked in *. cbn. apply andb_false_r.
    + intros w a w1 _ Hx E _. destruct (upd_inst_post _ _ _ _ _ _ E Hx) as [H1 _].
      exact H1.
Qed.

Lemma warn_timer_ok : spends always 0 0 (warn_timer self).
Proof.
  unfold warn_timer. apply spends_with_inst. intros x.
  destruct (warnArmed x); [|apply spends_ret].
  spend_bind always 0 0 0 0; [spend_update | apply spends_console_error | intros; exact I].
Qed.

End ClosureBalance.

(* ---------- the pipeline keeps the balance ---------- *)

Section PipelineBalance.

Variable production : bool.
Variable store_dispatch : JsVal -> M unit.
Hypothesis store_mono : forall a, mono (store_dispatch a).
Hypothesis store_ok : forall a, spends always 0 0 (store_dispatch a).
Variable nextThrows : JsVal -> option JsVal.

Lemma createLogicAction_ok stage logic downstream action :
  decides_once logic ->
  (forall a, mono (downstream a)) ->
  (forall a, spends always 1 1 (downstream a)) ->
  spends always 1 1
        (createLogicAction production store_dispatch stage logic downstream action).
Proof.
  intros Hone Hdm Hd.
  assert (H : forall n, spends (fun w => length (insts w) = n) 1 1
    (bind (monitor_next (EvBegin n action)) (fun _ =>
     bind (push_inst (mkInstance stage action false false false false 0 false
                        (negb production && negb (Nat.eqb (l_warnTimeout logic) 0))))
          (fun _ => run_intercept store_dispatch logic action n downstream
                      (l_intercept logic action))))).
  { intros n. spend_bind (fun w => length (insts w) = n) (-1) (-1) 2 2.
    - apply (spends_monitor_next _ _ 0);
        [intros; apply owed_list_nonneg | reflexivity | lia].
    - spend_bind (parked_at n) 2 2 0 0.
      + apply spends_push_inst; reflexivity.
      + apply run_intercept_ok; auto.
      + intros w ? w1 _ Hn E _. inversion E; subst. eexists. split.
        * cbn. apply list_lookup_middle. reflexivity.
        * reflexivity.
    - intros w ? w1 _ Hn E _. destruct (monitor_next_post _ _ _ _ E) as [Hi _].
      rewrite Hi. exact Hn. }
  intros w Hwf _. exact (H (length (insts w)) w Hwf eq_refl).
Qed.

Lemma call_next_ok a : spends always 0 0 (call_next nextThrows a).
Proof.
  unfold call_next. spend_seq 0 0 0 0; [apply spends_consumer_push|].
  destruct (nextThrows a); [apply spends_throw | apply spends_ret].
Qed.

Lemma bottom_ok a : spends always 1 1 (bottom nextThrows a).
Proof.
  unfold bottom. spend_seq 0 0 1 1.
  - eapply (spends_try_seq _ 0 0 0 0); [auto with stable | mono_tac | | | | lia | lia].
    + apply call_next_ok.
    + intros err. spend_seq 0 0 0 0; [apply spends_console_error|].
      apply (spends_monitor_next _ _ 0);
        [intros; apply owed_list_nonneg | reflexivity | lia].
    + intros err. mono_tac.
  - apply (spends_monitor_next _ _ 0);
      [intros; apply owed_list_nonneg | reflexivity | lia].
  - right. intros w. unfold try_catch, call_next, bind. cbn.
    destruct (nextThrows a); reflexivity.
Qed.

Lemma limiting_unlimited stage logic k a :
  unlimited logic -> limiting stage logic k a = k a.
Proof.
  intros [Hd Ht]. unfold limiting, debouncing, throttling. rewrite Hd, Ht. reflexivity.
Qed.

Lemma cancel_closures_ok stage ids : spends always 0 0 (cancel_closures stage ids).
Proof.
  induction ids as [|i rest IH]; cbn [cancel_closures]; [apply spends_ret|].
  spend_seq 0 0 0 0; [|exact IH].
  apply spends_with_inst. intros x. destruct (Nat.eqb _ _); [|apply spends_ret].
  eapply spends_pre; [apply cancel_signal_ok | intros w _ [_ H]; exact H | lia].
Qed.

Lemma deliver_ok stages :
  Forall tame stages ->
  forall stage a,
    spends always 1 1 (deliver production store_dispatch nextThrows stage stages a).
Proof.
  induction stages as [|logic rest IH]; intros Htame stage a; cbn [deliver].
  - apply bottom_ok.
  - inversion Htame as [|? ? [Hun Hone] Hrest]; subst.
    specialize (IH Hrest).
    assert (H : forall n, spends always 1 1
      (bind (if negb (matchesType (l_type logic) (get a "type"))
             then deliver production store_dispatch nextThrows (S stage) rest a
             else ret tt) (fun _ =>
       bind (if matchesType (l_type logic) (get a "type")
             then limiting stage logic
                    (createLogicAction production store_dispatch stage logic
                       (deliver production store_dispatch nextThrows (S stage) rest)) a
             else ret tt) (fun _ =>
       if cancels logic a then cancel_closures stage (seq 0 n) else ret tt)))).
    { intros n.
      assert (Hc : spends always 0 0
                (if cancels logic a then cancel_closures stage (seq 0 n) else ret tt)).
      { destruct (cancels logic a); [apply cancel_closures_ok | apply spends_ret]. }
      assert (Hcm : mono (if cancels logic a then cancel_closures stage (seq 0 n)
                          else ret tt)).
      { destruct (cancels logic a); [apply cancel_closures_mono | apply mono_ret]. }
      assert (Hdm : forall s b, mono (deliver production store_dispatch nextThrows s rest b)).
      { intros s b. apply deliver_mono. assumption. }
      destruct (matchesType (l_type logic) (get a "type")); cbn [negb].
      - eapply (spends_seq _ 0 0 1 1);
          [auto with stable | apply mono_ret | apply spends_ret | intros _ | intros _
          | right; intros ?; reflexivity | lia | lia | lia].
        + rewrite limiting_unlimited by assumption.
          eapply (spends_seq _ 1 1 0 0);
            [auto with stable | | | intros _; exact Hc | intros _; exact Hcm
            | left; reflexivity | lia | lia | lia].
          * apply createLogicAction_mono; auto.
          * apply createLogicAction_ok; auto.
        + apply mono_bind; [|intros _; exact Hcm].
          apply limiting_mono. intros b. apply createLogicAction_mono; auto.
      - eapply (spends_seq _ 1 1 0 0);
          [auto with stable | apply Hdm | apply IH | intros _ | intros _
          | left; reflexivity | lia | lia | lia].
        + eapply (spends_seq _ 0 0 0 0);
            [auto with stable | apply mono_ret | apply spends_ret | intros _; exact Hc
            | intros _; exact Hcm | left; reflexivity | lia | lia | lia].
        + apply mono_bind; [apply mono_ret | intros _; exact Hcm]. }
    intros w Hwf HP. exact (H (length (insts w)) w Hwf HP).
Qed.

End PipelineBalance.

Lemma entry_ok cfg fuel :
  Forall tame (pipeline cfg) -> forall a, spends always 0 0 (entry cfg fuel a).
Proof.
  intros Htame. induction fuel as [|fuel IH]; intros a; cbn [entry].
  - apply spends_halt.
  - eapply (spends_seq _ (-1) (-1) 1 1);
      [auto with stable | apply mono_monitor_next | | intros _ | intros _
      | right; intros ?; reflexivity | lia | lia | lia].
    + apply (spends_monitor_next _ _ 0);
        [intros; apply owed_list_nonneg | reflexivity | lia].
    + apply deliver_ok; [| |assumption].
      * intros act. destruct (storeThrows cfg act); [apply mono_throw | apply entry_mono].
      * intros act. destruct (storeThrows cfg act); [apply spends_throw | apply IH].
    + apply deliver_mono.
      intros act. destruct (storeThrows cfg act); [apply mono_throw | apply entry_mono].
Qed.

Lemma store_dispatch_of_ok cfg fuel a :
  Forall tame (pipeline cfg) -> spends always 0 0 (store_dispatch_of cfg fuel a).
Proof.
  intros Htame. unfold store_dispatch_of.
  destruct (storeThrows cfg a); [apply spends_throw | apply entry_ok; assumption].
Qed.

(* ---------- runs ---------- *)

Lemma process_called_unparked w i :
  WF w -> process_called w i = true -> unparked i w.
Proof.
  intros Hwf H. unfold process_called in H. apply existsb_exists in H as (c & Hin & Hc).
  apply Nat.eqb_eq in Hc. subst i. apply (wf_calls _ Hwf). assumption.
Qed.

Lemma active_unparked w i x :
  WF w -> insts w !! i = Some x -> Nat.eqb (dispActive x) 0 = false -> unparked i w.
Proof.
  intros Hwf Hx Ha. exists x. split; [assumption|].
  destruct (parked x) eqn:Hp; [|reflexivity].
  destruct (wf_parked _ Hwf _ _ Hx Hp) as (_ & _ & H0). rewrite H0 in Ha. discriminate.
Qed.

Section StepBalance.

Variable cfg : Config.
Variable fuel : nat.
Hypothesis pipeline_tame : Forall tame (pipeline cfg).

Lemma downstream_of_ok stage a : spends always 1 1 (downstream_of cfg fuel stage a).
Proof.
  apply deliver_ok.
  - apply store_dispatch_of_mono.
  - intros act. apply store_dispatch_of_ok. assumption.
  - apply Forall_drop. assumption.
Qed.

Lemma downstream_of_mono stage a : mono (downstream_of cfg fuel stage a).
Proof. apply deliver_mono. apply store_dispatch_of_mono. Qed.

Lemma in_closure_ok (P : World -> Prop) i f :
  (forall logic x,
      spends (fun w => P w /\ insts w !! i = Some x) 0 0 (f logic x)) ->
  spends P 0 0 (in_closure cfg i f).
Proof.
  intros Hf. unfold in_closure. apply spends_with_inst. intros x.
  destruct (pipeline cfg !! i_stage x); [apply Hf | apply spends_ret].
Qed.

Lemma step_ok ev : spends (callback_ok ev) 0 0 (step cfg fuel ev).
Proof.
  pose proof (store_dispatch_of_mono cfg fuel) as Hsm.
  pose proof (fun a => store_dispatch_of_ok cfg fuel a pipeline_tame) as Hso.
  pose proof downstream_of_mono as Hdm.
  pose proof downstream_of_ok as Hdo.
  destruct ev as [a|i act options|i act options|i act options|i|i v|i e|i|stage|stage|i];
    cbn [step callback_ok].
  - eapply spends_pre; [apply (entry_ok cfg (S fuel) pipeline_tame a) | auto | lia].
  - apply in_closure_ok. intros logic x.
    eapply spends_pre; [apply handleNextOrDispatch_ok; auto | | lia].
    intros w _ [H _]. exact H.
  - apply in_closure_ok. intros logic x.
    eapply spends_pre; [apply handleNextOrDispatch_ok; auto | | lia].
    intros w _ [H _]. exact H.
  - intros w Hwf HP. destruct (process_called w i) eqn:Hpc.
    + refine (in_closure_ok (unparked i) i _ _ w Hwf (process_called_unparked _ _ Hwf Hpc)).
      intros logic x.
      eapply spends_pre; [apply dispatch_ok; auto | intros ? _ [H _]; exact H | lia].
    + apply (spends_ret always 0 tt w Hwf I).
  - intros w Hwf HP. destruct (process_called w i) eqn:Hpc.
    + refine (in_closure_ok (unparked i) i _ _ w Hwf (process_called_unparked _ _ Hwf Hpc)).
      intros logic x.
      eapply spends_pre; [apply dispatch_complete_ok | intros ? _ [H _]; exact H | lia].
    + apply (spends_ret always 0 tt w Hwf I).
  - apply in_closure_ok. intros logic x.
    destruct (dispClosed x); cbn [negb andb]; [apply spends_ret|].
    destruct (Nat.eqb (dispActive x) 0) eqn:Ha; cbn [negb]; [apply spends_ret|].
    eapply spends_pre; [apply tap_next_ok; auto | | lia].
    intros w Hwf [_ Hx]. eapply active_unparked; eassumption.
  - apply in_closure_ok. intros logic x.
    destruct (Nat.eqb (dispActive x) 0) eqn:Ha; cbn [negb]; [apply spends_ret|].
    eapply spends_pre; [apply inner_error_ok; auto | | lia].
    intros w Hwf [_ Hx]. eapply active_unparked; eassumption.
  - apply in_closure_ok. intros logic x.
    destruct (Nat.eqb (dispActive x) 0) eqn:Ha; cbn [negb]; [apply spends_ret|].
    eapply spends_pre; [apply inner_complete_ok | | lia].
    intros w Hwf [_ Hx]. eapply active_unparked; eassumption.
  - destruct (pipeline cfg !! stage) as [logic|] eqn:Hl; [|apply spends_ret].
    destruct (Forall_lookup_1 _ _ _ _ pipeline_tame Hl) as [[Hd _] _].
    rewrite Hd. cbn [Nat.eqb]. intros w Hwf HP. apply (spends_ret always 0 tt w Hwf I).
  - intros w Hwf HP. apply (spends_set_limiter always 0 _ _ w Hwf I).
  - apply warn_timer_ok.
Qed.

Lemma run_ok evs : forall w,
  WF w -> polite cfg fuel evs w ->
  ~ cut_while_forwarding (monitor (world_of (run cfg fuel evs w))) ->
  WF (world_of (run cfg fuel evs w)) /\
  lower (balance w) w (world_of (run cfg fuel evs w)) /\
  (is_halted (run cfg fuel evs w) = false ->
   balance (world_of (run cfg fuel evs w)) = balance w).
Proof.
  induction evs as [|ev rest IH]; intros w Hwf Hpol Hn; cbn [run] in *.
  - cbn. split; [assumption|]. split; [apply lower_refl | reflexivity].
  - destruct Hpol as [Hcb Hpol]. unfold bind in *.
    pose proof (step_ok ev w Hwf Hcb) as Hstep.
    pose proof (sat_mono _ _ _ (run_sat cfg fuel rest)) as Hmono.
    destruct (step cfg fuel ev w) as [a w1|e w1|w1] eqn:E; cbn [world_of is_halted] in *.
    + destruct (Hstep (not_cut_grows _ _ (Hmono w1) Hn)) as (Hwf1 & Hl1 & Hb1).
      destruct (IH w1 Hwf1 Hpol Hn) as (Hwf2 & Hl2 & Hb2).
      rewrite (Hb1 eq_refl), Z.sub_0_r in *.
      split; [assumption|]. split; [|assumption].
      eapply lower_trans; eassumption.
    + destruct (Hstep Hn) as (Hwf1 & Hl1 & Hb1). rewrite Z.sub_0_r in *.
      split; [assumption|]. split; [assumption | intros _; apply Hb1; reflexivity].
    + destruct (Hstep Hn) as (Hwf1 & Hl1 & Hb1). rewrite Z.sub_0_r in *.
      split; [assumption|]. split; [assumption | discriminate].
Qed.

End StepBalance.

Lemma WF_init_world : WF init_world.
Proof.
  split; cbn.
  - intros i x H. rewrite lookup_nil in H. discriminate.
  - intros i x H. rewrite lookup_nil in H. discriminate.
  - intros c [].
Qed.

Lemma owed_terminal l : forallb terminal l = true -> owed_list l = 0.
Proof.
  induction l as [|x l IH]; cbn; [reflexivity|].
  intros H. apply andb_true_iff in H as [Hx Hl]. rewrite (IH Hl).
  unfold terminal in Hx. apply andb_true_iff in Hx as [Hd Hc].
  unfold weight, parked. rewrite Hc.
  destruct (interceptComplete x), (outStopped x); cbn in *; try discriminate; lia.
Qed.



(* ===================================================================== *)
(** ** Duplicates *)
(* ===================================================================== *)

Lemma indexed_from_lookup {A} (l : list A) : forall k i x,
  In (i, x) (combine (seq k (length l)) l) <-> (k <= i)%nat /\ l !! (i - k)%nat = Some x.
Proof.
  induction l as [|y l IH]; intros k i x; cbn [length seq combine].
  - split; [intros [] | intros [_ H]; rewrite lookup_nil in H; discriminate].
  - cbn [In]. rewrite IH. split.
    + intros [H|[Hle Hl]].
      * inversion H; subst. split; [lia|]. rewrite Nat.sub_diag. reflexivity.
      * split; [lia|]. replace (i - k)%nat with (S (i - S k)) by lia. exact Hl.
    + intros [Hle Hl]. destruct (decide (i = k)) as [->|Hne].
      * left. rewrite Nat.sub_diag in Hl. cbn in Hl. congruence.
      * right. split; [lia|]. replace (i - k)%nat with (S (i - S k)) in Hl by lia. exact Hl.
Qed.

Lemma indexed_lookup {A} (l : list A) i x : In (i, x) (indexed l) <-> l !! i = Some x.
Proof.
  unfold indexed. rewrite indexed_from_lookup, Nat.sub_0_r.
  split; [intros [_ H]; exact H | intros H; split; [lia | exact H]].
Qed.

Lemma indexed_fst {A} (l : list A) : map fst (indexed l) = seq 0 (length l).
Proof.
  unfold indexed. generalize 0%nat. induction l as [|y l IH]; intros k; cbn; [reflexivity|].
  rewrite IH. reflexivity.
Qed.

Lemma push_if_filter {A} (f : nat -> A -> bool) (l : list (nat * A)) : forall acc,
  fold_left (fun acc '(i, x) => if f i x then acc ++ [i] else acc) l acc
  = acc ++ map fst (List.filter (fun '(i, x) => f i x) l).
Proof.
  induction l as [|[i x] l IH]; intros acc; cbn [fold_left List.filter map].
  - rewrite app_nil_r. reflexivity.
  - rewrite IH. destruct (f i x); cbn [map fst]; [rewrite <- app_assoc|]; reflexivity.
Qed.

Lemma findDuplicates_filter arrLogic :
  findDuplicates arrLogic
  = map fst (List.filter (fun '(i, x) => has_twin arrLogic i x) (indexed arrLogic)).
Proof. unfold findDuplicates. rewrite push_if_filter. reflexivity. Qed.

Lemma has_twin_spec arrLogic idx1 x1 :
  has_twin arrLogic idx1 x1 = true <->
  exists idx2, idx1 <> idx2 /\ arrLogic !! idx2 = Some x1.
Proof.
  unfold has_twin. rewrite existsb_exists. split.
  - intros ([idx2 x2] & Hin & H). apply andb_true_iff in H as [Hne Heq].
    apply negb_true_iff, Nat.eqb_neq in Hne. apply Nat.eqb_eq in Heq. subst x2.
    exists idx2. split; [assumption|]. apply indexed_lookup. assumption.
  - intros (idx2 & Hne & Hl). exists (idx2, x1). split; [apply indexed_lookup; assumption|].
    apply andb_true_iff. split; [apply negb_true_iff, Nat.eqb_neq; assumption|].
    apply Nat.eqb_refl.
Qed.

Lemma findDuplicates_In arrLogic idx1 :
  In idx1 (findDuplicates arrLogic) <->
  exists idx2 x, idx1 <> idx2 /\ arrLogic !! idx1 = Some x /\ arrLogic !! idx2 = Some x.
Proof.
  rewrite findDuplicates_filter, in_map_iff. split.
  - intros ([i x] & <- & Hin). apply filter_In in Hin as [Hin Ht].
    apply indexed_lookup in Hin. apply has_twin_spec in Ht as (idx2 & Hne & Hl).
    exists idx2, x. auto.
  - intros (idx2 & x & Hne & H1 & H2). exists (idx1, x). split; [reflexivity|].
    apply filter_In. split; [apply indexed_lookup; assumption|].
    apply has_twin_spec. exists idx2. auto.
Qed.

Lemma findDuplicates_nil arrLogic : findDuplicates arrLogic = [] <-> NoDup arrLogic.
Proof.
  rewrite NoDup_alt. split.
  - intros Hnil i j x Hi Hj. destruct (decide (i = j)) as [|Hne]; [assumption|].
    assert (Hin : In i (findDuplicates arrLogic)).
    { apply findDuplicates_In. exists j, x. auto. }
    rewrite Hnil in Hin. destruct Hin.
  - intros Hnd. destruct (findDuplicates arrLogic) as [|i rest] eqn:E; [reflexivity|].
    assert (Hin : In i (findDuplicates arrLogic)) by (rewrite E; left; reflexivity).
    apply findDuplicates_In in Hin as (j & x & Hne & Hi & Hj).
    destruct Hne. eapply Hnd; eassumption.
Qed.

Lemma filter_sublist_seq {A} (f : nat * A -> bool) (l : list (nat * A)) :
  map fst (List.filter f l) `sublist_of` map fst l.
Proof.
  induction l as [|p l IH]; cbn [List.filter map]; [constructor|].
  destruct (f p); cbn [map]; [apply sublist_skip | apply sublist_cons]; assumption.
Qed.

(** X1. [findDuplicates] returns, in increasing order and each once, the
    indexes of the items that occur at another index as well; it returns
    nothing exactly when no item occurs twice, and never a single
    index. *)
Theorem findDuplicates_characterised arrLogic :
  (forall idx1, In idx1 (findDuplicates arrLogic) <->
     exists idx2 x, idx1 <> idx2 /\
       arrLogic !! idx1 = Some x /\ arrLogic !! idx2 = Some x) /\
  findDuplicates arrLogic `sublist_of` seq 0 (length arrLogic) /\
  (findDuplicates arrLogic = [] <-> NoDup arrLogic) /\
  length (findDuplicates arrLogic) <> 1%nat.
Proof.
  split; [apply findDuplicates_In|]. split; [|split; [apply findDuplicates_nil|]].
  - rewrite findDuplicates_filter, <- indexed_fst. apply filter_sublist_seq.
  - intros Hlen. destruct (findDuplicates arrLogic) as [|i [|]] eqn:E; try discriminate.
    assert (Hi : In i (findDuplicates arrLogic)) by (rewrite E; left; reflexivity).
    apply findDuplicates_In in Hi as (j & x & Hne & Hi & Hj).
    assert (Hj' : In j (findDuplicates arrLogic)).
    { apply findDuplicates_In. exists i, x. auto. }
    rewrite E in Hj'. destruct Hj' as [Hj'|[]]. congruence.
Qed.

(* ===================================================================== *)
(** ** Default names *)
(* ===================================================================== *)

Lemma uint_no_dash d : after_last_dash (NilEmpty.string_of_uint d) = None.
Proof. induction d; cbn; try rewrite IHd; reflexivity. Qed.

Lemma decimal_inj i j : decimal i = decimal j -> i = j.
Proof.
  unfold decimal. intros H.
  assert (Hu : Some (Nat.to_uint i) = Some (Nat.to_uint j)).
  { rewrite <- !NilEmpty.usu, H. reflexivity. }
  inversion Hu as [Hd]. rewrite <- (Unsigned.of_to i), <- (Unsigned.of_to j), Hd.
  reflexivity.
Qed.

Lemma default_name_tail t idx :
  after_last_dash ("L(" ++ t ++ ")-" ++ decimal idx) = Some (decimal idx).
Proof.
  assert (H : after_last_dash (t ++ ")-" ++ decimal idx) = Some (decimal idx)).
  { induction t as [|c t IH]; cbn.
    - unfold decimal. rewrite uint_no_dash. reflexivity.
    - cbn in IH. rewrite IH. reflexivity. }
  cbn. cbn in H. rewrite H. reflexivity.
Qed.

Lemma default_name_inj t1 t2 i j :
  ("L(" ++ t1 ++ ")-" ++ decimal i = "L(" ++ t2 ++ ")-" ++ decimal j)%string -> i = j.
Proof.
  intros H. apply decimal_inj.
  pose proof (default_name_tail t1 i) as H1.
  pose proof (default_name_tail t2 j) as H2.
  rewrite H in H1. congruence.
Qed.

Section NamingFacts.

Variable test_text : (JsVal -> bool) -> string.

Lemma naming_cases logic idx :
  (truthy (Registry.name logic) = true /\
   Registry.naming test_text logic idx = inl logic) \/
  (truthy (Registry.name logic) = false /\ l_type (Registry.unit logic) = PAbsent /\
   Registry.naming test_text logic idx = inr Registry.TypeError) \/
  (truthy (Registry.name logic) = false /\ l_type (Registry.unit logic) <> PAbsent /\
   Registry.naming test_text logic idx
   = inl {| Registry.name :=
              VStr ("L(" ++ Registry.toString test_text (l_type (Registry.unit logic))
                         ++ ")-" ++ decimal idx);
            Registry.unit := Registry.unit logic |}).
Proof.
  unfold Registry.naming. destruct (truthy (Registry.name logic)); [left; auto|].
  right. destruct (l_type (Registry.unit logic)); [left; auto | right | right | right];
    (split; [reflexivity|]; split; [discriminate | reflexivity]).
Qed.

Lemma default_names_differ logic1 logic2 idx1 idx2 named1 named2 :
  truthy (Registry.name logic1) = false ->
  truthy (Registry.name logic2) = false ->
  Registry.naming test_text logic1 idx1 = inl named1 ->
  Registry.naming test_text logic2 idx2 = inl named2 ->
  idx1 <> idx2 ->
  Registry.name named1 <> Registry.name named2.
Proof.
  intros Hn1 Hn2 H1 H2 Hne Heq.
  destruct (naming_cases logic1 idx1) as [[Hn E]|[(Hn & Ht & E)|(Hn & Ht & E)]];
    rewrite E in H1; try congruence.
  destruct (naming_cases logic2 idx2) as [[Hn' E']|[(Hn' & Ht' & E')|(Hn' & Ht' & E')]];
    rewrite E' in H2; try congruence.
  inversion H1; subst named1. inversion H2; subst named2.
  cbn [Registry.name] in Heq. apply Hne.
  apply (default_name_inj
           (Registry.toString test_text (l_type (Registry.unit logic1)))
           (Registry.toString test_text (l_type (Registry.unit logic2)))).
  congruence.
Qed.

(** X2. [naming] returns a named item as it is; to an item without a
    name it gives one built from its type and the index and changes
    nothing else; naming the result again, with whatever index, changes
    nothing; two items without a name get different names whenever the
    indexes differ, whatever their types are; and the only item it fails
    on is one with neither a name nor a type. *)
Theorem naming_gives_distinct_default_names :
  (forall logic idx,
     truthy (Registry.name logic) = true ->
     Registry.naming test_text logic idx = inl logic) /\
  (forall logic idx namedLogic,
     Registry.naming test_text logic idx = inl namedLogic ->
     Registry.unit namedLogic = Registry.unit logic /\
     truthy (Registry.name namedLogic) = true /\
     forall idx', Registry.naming test_text namedLogic idx' = inl namedLogic) /\
  (forall logic1 logic2 idx1 idx2 named1 named2,
     truthy (Registry.name logic1) = false ->
     truthy (Registry.name logic2) = false ->
     Registry.naming test_text logic1 idx1 = inl named1 ->
     Registry.naming test_text logic2 idx2 = inl named2 ->
     idx1 <> idx2 ->
     Registry.name named1 <> Registry.name named2) /\
  (forall logic idx e,
     Registry.naming test_text logic idx = inr e <->
     e = Registry.TypeError /\ truthy (Registry.name logic) = false /\
     l_type (Registry.unit logic) = PAbsent).
Proof.
  split; [|split; [|split]].
  - intros logic idx Hn. unfold Registry.naming. rewrite Hn. reflexivity.
  - intros logic idx namedLogic H.
    destruct (naming_cases logic idx) as [[Hn E]|[(Hn & Ht & E)|(Hn & Ht & E)]];
      rewrite E in H; inversion H; subst; clear H.
    + split; [reflexivity|]. split; [assumption|].
      intros idx'. unfold Registry.naming. rewrite Hn. reflexivity.
    + split; [reflexivity|]. split; [reflexivity|]. intros idx'. reflexivity.
  - apply default_names_differ.
  - intros logic idx e.
    destruct (naming_cases logic idx) as [[Hn E]|[(Hn & Ht & E)|(Hn & Ht & E)]];
      rewrite E; split.
    + discriminate.
    + intros (_ & Hf & _). congruence.
    + intros H. inversion H. auto.
    + intros (-> & _ & _). reflexivity.
    + discriminate.
    + intros (_ & _ & H). contradiction.
Qed.

End NamingFacts.

(* ===================================================================== *)
(** ** The registry of units *)
(* ===================================================================== *)

Lemma combine_app_same {A B} (a1 a2 : list A) (b1 b2 : list B) :
  length a1 = length b1 ->
  combine (a1 ++ a2) (b1 ++ b2) = combine a1 b1 ++ combine a2 b2.
Proof.
  revert b1. induction a1 as [|x a1 IH]; intros [|y b1] H; cbn in *; try discriminate.
  - reflexivity.
  - rewrite IH by lia. reflexivity.
Qed.

Section RegistryFacts.

Variable test_text : (JsVal -> bool) -> string.

Lemma name_all_named arr : forall k named,
  Registry.name_all test_text arr k = inl named ->
  named_from test_text (seq k (length arr)) (map Registry.body arr) named.
Proof.
  induction arr as [|l arr IH]; intros k named H; cbn in H.
  - inversion H; subst. repeat split. intros p i o u Hi. destruct p; discriminate.
  - destruct (Registry.naming test_text (Registry.body l) k) as [n|e] eqn:En; [|discriminate].
    destruct (Registry.name_all test_text arr (S k)) as [ns|e] eqn:Ea; [|discriminate].
    inversion H; subst. destruct (IH _ _ Ea) as (L1 & L2 & Hp).
    split; [cbn in *; lia|]. split; [cbn in *; lia|].
    intros [|p] i o u Hi Ho Hu; cbn in Hi, Ho, Hu.
    + inversion Hi; inversion Ho; inversion Hu; subst. assumption.
    + eapply Hp; eassumption.
Qed.

Lemma name_all_length arr : forall k named,
  Registry.name_all test_text arr k = inl named -> length named = length arr.
Proof.
  induction arr as [|l arr IH]; intros k named H; cbn in H.
  - inversion H. reflexivity.
  - destruct (Registry.naming test_text (Registry.body l) k); [|discriminate].
    destruct (Registry.name_all test_text arr (S k)) as [ns|e] eqn:Ea; [|discriminate].
    inversion H; subst. cbn. rewrite (IH _ _ Ea). reflexivity.
Qed.

Lemma named_from_app idxs1 idxs2 o1 o2 u1 u2 :
  named_from test_text idxs1 o1 u1 -> named_from test_text idxs2 o2 u2 ->
  named_from test_text (idxs1 ++ idxs2) (o1 ++ o2) (u1 ++ u2).
Proof.
  intros (A1 & B1 & H1) (A2 & B2 & H2).
  split; [rewrite !length_app; lia|]. split; [rewrite !length_app; lia|].
  intros p i o u Hi Ho Hu.
  destruct (Nat.lt_ge_cases p (length u1)) as [Hlt|Hge].
  - rewrite lookup_app_l in Hi by lia. rewrite lookup_app_l in Ho by lia.
    rewrite lookup_app_l in Hu by lia. eapply H1; eassumption.
  - rewrite lookup_app_r in Hi by lia. rewrite lookup_app_r in Ho by lia.
    rewrite lookup_app_r in Hu by lia. rewrite A1 in Hi. rewrite B1 in Ho.
    eapply H2; eassumption.
Qed.

Lemma applyLogic_returned arr store next sub actionIn start sub' units' cnt :
  Registry.applyLogic test_text arr store next sub actionIn start = (sub', inl (units', cnt)) ->
  exists units named,
    actionIn = Some units /\ Registry.name_all test_text arr start = inl named /\
    units' = units ++ named /\ cnt = (start + length arr)%nat /\ sub' = Some true /\
    is_Some store /\ is_Some next.
Proof.
  unfold Registry.applyLogic. intros H.
  destruct store; [|inversion H]. destruct next; [|inversion H].
  destruct (Registry.name_all test_text arr start) as [named|e]; [|inversion H].
  destruct actionIn as [units|]; [|inversion H].
  inversion H; subst. exists units, named. repeat split; eauto.
Qed.

Lemma applyLogic_threw arr store next sub actionIn start sub' e :
  Registry.applyLogic test_text arr store next sub actionIn start = (sub', inr e) ->
  (e = Registry.StoreNotDefined /\ sub' = sub /\ (store = None \/ next = None)) \/
  (e = Registry.TypeError /\ sub' = Registry.unsubscribe sub).
Proof.
  unfold Registry.applyLogic. intros H.
  destruct store; [|inversion H; auto]. destruct next; [|inversion H; auto].
  destruct (Registry.name_all test_text arr start) as [named|e'] eqn:En.
  - destruct actionIn; inversion H; auto.
  - inversion H; subst. right. split; [|reflexivity].
    clear H. revert start En. induction arr as [|l arr IH]; intros start En; cbn in En;
      [discriminate|].
    destruct (Registry.naming test_text (Registry.body l) start) as [nl|e0] eqn:E0.
    + destruct (Registry.name_all test_text arr (S start)) eqn:E1; [discriminate|].
      inversion En; subst. eapply IH. eassumption.
    + inversion En; subst.
      unfold Registry.naming in E0. destruct (truthy _); [discriminate|].
      destruct (l_type _); inversion E0; reflexivity.
Qed.

Lemma registry_ok_created arr d st :
  Registry.createLogicMiddleware arr d = inl st -> registry_ok test_text st.
Proof.
  unfold Registry.createLogicMiddleware. destruct arr as [arr|]; [|discriminate].
  destruct (findDuplicates (map Registry.ref arr)) eqn:E; [|discriminate].
  intros H. inversion H; subst. split; cbn.
  - apply findDuplicates_nil. assumption.
  - discriminate.
Qed.

Lemma registry_ok_applied st units named arr (start : nat) saved sub :
  NoDup (map Registry.ref saved) ->
  Registry.name_all test_text arr start = inl named ->
  (exists idxs originals,
      named_from test_text idxs originals units /\ idxs `sublist_of` seq 0 start) ->
  registry_ok test_text
    (Registry.applied (units ++ named) sub (start + length arr) saved st).
Proof.
  intros Hnd Hn (idxs & originals & Hnamed & Hsub). split; [exact Hnd|]. cbn.
  intros units' H. inversion H; subst units'.
  exists (idxs ++ seq start (length arr)), (originals ++ map Registry.body arr).
  split.
  - apply named_from_app; [assumption | apply name_all_named; assumption].
  - rewrite seq_app. cbn. apply sublist_app; [assumption | reflexivity].
Qed.

Lemma named_from_nil : named_from test_text [] [] [].
Proof.
  repeat split. intros p i o u Hi. rewrite lookup_nil in Hi. discriminate.
Qed.

Lemma registry_ok_call c st :
  registry_ok test_text st -> registry_ok test_text (Registry.call test_text c st).
Proof.
  intros [Hnd Hunits].
  assert (Hloop : forall l,
    registry_ok test_text (fst (Registry.addLogic test_text l st))).
  { intros l. unfold Registry.addLogic.
    destruct (Nat.eqb (length l) 0); [split; assumption|].
    destruct (findDuplicates (map Registry.ref (Registry.savedLogicArr st ++ l))) eqn:Ed;
      [|split; assumption].
    destruct (Registry.applyLogic _ _ _ _ _ _ _) as [sub [[units' cnt]|e]] eqn:Ea;
      cbn [fst].
    - apply applyLogic_returned in Ea
        as (units & named & Hin & Hn & -> & -> & -> & _ & _).
      apply registry_ok_applied; [apply findDuplicates_nil; assumption | assumption|].
      apply Hunits. assumption.
    - split; assumption. }
  destruct c as [store|next|l|l|l|d]; cbn [Registry.call].
  - unfold Registry.mw. destruct (Middleware.mw store _); split; assumption.
  - unfold Registry.mw_next.
    destruct (Registry.applyLogic _ _ _ _ _ _ _) as [sub [[units' cnt]|e]] eqn:Ea;
      cbn [fst].
    + apply applyLogic_returned in Ea
        as (units & named & Hin & Hn & -> & -> & -> & _ & _).
      inversion Hin; subst units. cbn [Registry.logicCount Registry.set_savedNext] in *.
      apply registry_ok_applied; [assumption | assumption|].
      exists [], []. split; [apply named_from_nil | apply sublist_nil_l].
    + split; assumption.
  - apply Hloop.
  - unfold Registry.mergeNewLogic.
    destruct (findDuplicates (map Registry.ref l)); [|split; assumption].
    apply Hloop.
  - unfold Registry.replaceLogic.
    destruct (findDuplicates (map Registry.ref l)) eqn:Ed; [|split; assumption].
    destruct (Registry.applyLogic _ _ _ _ _ _ _) as [sub [[units' cnt]|e]] eqn:Ea;
      cbn [fst].
    + apply applyLogic_returned in Ea
        as (units & named & Hin & Hn & -> & -> & -> & _ & _).
      inversion Hin; subst units.
      apply (registry_ok_applied st [] named l 0);
        [apply findDuplicates_nil; assumption | assumption|].
      exists [], []. split; [apply named_from_nil | apply sublist_nil_l].
    + split; assumption.
  - unfold Registry.addDeps. destruct d as [props| |]; try (split; assumption).
    destruct (Registry.addDeps_each props (Registry.deps st)). split; assumption.
Qed.

Lemma registry_ok_calls cs : forall st,
  registry_ok test_text st -> registry_ok test_text (calls test_text cs st).
Proof.
  induction cs as [|c cs IH]; intros st H; cbn; [assumption|].
  apply IH, registry_ok_call, H.
Qed.

End RegistryFacts.

Section RegistryTheorems.

Variable test_text : (JsVal -> bool) -> string.

(** X3. Whatever is called on a middleware that was created, in whatever
    order and whether the calls throw or not, no logic item is ever
    registered twice. *)
Theorem registry_holds_each_item_once arr d st cs :
  Registry.createLogicMiddleware arr d = inl st ->
  NoDup (map Registry.ref (Registry.savedLogicArr (calls test_text cs st))).
Proof.
  intros H. apply (registry_ok_calls test_text cs st).
  eapply registry_ok_created. eassumption.
Qed.

(** X4. Whatever is called on a middleware that was created, the units of
    its pipeline are the namings of items under indexes of which no two
    are the same, so two units that had no name of their own never have
    the same name. *)
Theorem default_names_in_pipeline_differ arr d st cs units :
  Registry.createLogicMiddleware arr d = inl st ->
  Registry.actionEnd (calls test_text cs st) = Some units ->
  exists idxs originals,
    named_from test_text idxs originals units /\
    NoDup idxs /\
    forall p q o1 o2 u1 u2,
      p <> q ->
      originals !! p = Some o1 -> originals !! q = Some o2 ->
      units !! p = Some u1 -> units !! q = Some u2 ->
      truthy (Registry.name o1) = false -> truthy (Registry.name o2) = false ->
      Registry.name u1 <> Registry.name u2.
Proof.
  intros Hc Hu.
  destruct (registry_ok_calls test_text cs st (registry_ok_created test_text _ _ _ Hc))
    as [_ H].
  destruct (H units Hu) as (idxs & originals & Hnamed & Hsub).
  assert (Hnd : NoDup idxs).
  { eapply sublist_NoDup; [apply NoDup_ListNoDup, seq_NoDup | exact Hsub]. }
  exists idxs, originals. split; [assumption|]. split; [assumption|].
  intros p q o1 o2 u1 u2 Hpq Ho1 Ho2 Hu1 Hu2 Hn1 Hn2.
  destruct Hnamed as (L1 & L2 & Hp).
  destruct (lookup_lt_is_Some_2 idxs p) as [i Hi];
    [rewrite L1; eapply lookup_lt_Some; eassumption|].
  destruct (lookup_lt_is_Some_2 idxs q) as [j Hj];
    [rewrite L1; eapply lookup_lt_Some; eassumption|].
  eapply (default_names_differ test_text o1 o2 i j); try eassumption.
  - eapply Hp; eassumption.
  - eapply Hp; eassumption.
  - intros ->. apply Hpq. eapply NoDup_lookup; eassumption.
Qed.

Lemma name_all_app a b : forall k x y,
  Registry.name_all test_text a k = inl x ->
  Registry.name_all test_text b (k + length a) = inl y ->
  Registry.name_all test_text (a ++ b) k = inl (x ++ y).
Proof.
  induction a as [|l a IH]; intros k x y Ha Hb; cbn in *.
  - inversion Ha; subst. rewrite Nat.add_0_r in Hb. assumption.
  - destruct (Registry.naming test_text (Registry.body l) k); [|discriminate].
    destruct (Registry.name_all test_text a (S k)) as [ns|] eqn:Ea; [|discriminate].
    inversion Ha; subst. rewrite (IH (S k) ns y Ea).
    + reflexivity.
    + rewrite <- Hb. f_equal. lia.
Qed.


Lemma follows_registration_call c st :
  match c with Registry.CallNext _ => False | _ => True end ->
  follows_registration test_text st -> follows_registration test_text (Registry.call test_text c st).
Proof.
  intros Hc (units & Hu & Hn & Hcnt).
  assert (Hsame : follows_registration test_text st) by (exists units; auto).
  assert (Hloop : forall l,
    follows_registration test_text (fst (Registry.addLogic test_text l st))).
  { intros l. unfold Registry.addLogic.
    destruct (Nat.eqb (length l) 0); [assumption|].
    destruct (findDuplicates _); [|assumption].
    destruct (Registry.applyLogic _ _ _ _ _ _ _) as [sub [[units' cnt]|e]] eqn:Ea;
      cbn [fst]; [|assumption].
    apply applyLogic_returned in Ea
      as (units0 & named & Hin & Hnm & -> & -> & -> & _ & _).
    rewrite Hu in Hin. inversion Hin; subst units0.
    exists (units ++ named). cbn. split; [reflexivity|]. split.
    - apply name_all_app; [assumption|]. cbn. rewrite <- Hcnt. assumption.
    - rewrite length_app. lia. }
  destruct c as [store|next|l|l|l|dd]; cbn [Registry.call]; try contradiction.
  - unfold Registry.mw. destruct (Middleware.mw store _); assumption.
  - apply Hloop.
  - unfold Registry.mergeNewLogic. destruct (findDuplicates _); [apply Hloop | assumption].
  - unfold Registry.replaceLogic. destruct (findDuplicates _); [|assumption].
    destruct (Registry.applyLogic _ _ _ _ _ _ _) as [sub [[units' cnt]|e]] eqn:Ea;
      cbn [fst]; [|assumption].
    apply applyLogic_returned in Ea
      as (units0 & named & Hin & Hnm & -> & -> & -> & _ & _).
    inversion Hin; subst units0. exists named. cbn. auto.
  - unfold Registry.addDeps. destruct dd as [props| |]; try assumption.
    destruct (Registry.addDeps_each props (Registry.deps st)). assumption.
Qed.

(** X5. Once the middleware has been applied to a store and a [next], and
    as long as it is not applied again, the pipeline is exactly the
    registered items in the order they were registered, each named with
    its position, and [logicCount] is their number; this holds after any
    calls of [addLogic], [mergeNewLogic], [replaceLogic] and [addDeps],
    whether they throw or not. *)
Theorem pipeline_follows_registration arr d st0 store next st1 cs :
  Registry.createLogicMiddleware arr d = inl st0 ->
  Registry.mw_next test_text (Some next) (fst (Registry.mw store st0)) = (st1, None) ->
  no_next cs ->
  exists units,
    Registry.actionEnd (calls test_text cs st1) = Some units /\
    Registry.name_all test_text (Registry.savedLogicArr (calls test_text cs st1)) 0
    = inl units /\
    Registry.logicCount (calls test_text cs st1)
    = length (Registry.savedLogicArr (calls test_text cs st1)).
Proof.
  intros Hc Hn Hcs.
  assert (H1 : follows_registration test_text st1).
  { unfold Registry.createLogicMiddleware in Hc. destruct arr as [arr|]; [|discriminate].
    destruct (findDuplicates _); [|discriminate]. inversion Hc; subst st0. clear Hc.
    unfold Registry.mw_next, Registry.mw, Middleware.mw in Hn. cbn in Hn.
    destruct (Registry.name_all test_text arr 0) as [named|e] eqn:En.
    - cbn in Hn. inversion Hn; subst st1. exists named. cbn. auto.
    - cbn in Hn. inversion Hn. }
  clear Hn Hc. revert st1 H1. induction Hcs as [|c cs Hc _ IH]; intros st1 H1; cbn.
  - exact H1.
  - apply IH, follows_registration_call; assumption.
Qed.

Lemma not_saved_false st x :
  In (Registry.ref x) (map Registry.ref (Registry.savedLogicArr st)) ->
  Registry.not_saved st x = false.
Proof.
  intros Hin. unfold Registry.not_saved. apply negb_false_iff, existsb_exists.
  apply in_map_iff in Hin as (y & Hy & Hin). exists y. split; [assumption|].
  apply Nat.eqb_eq. assumption.
Qed.

Lemma filter_none {A} (f : A -> bool) (l : list A) :
  (forall x, In x l -> f x = false) -> filter f l = [].
Proof.
  induction l as [|x l IH]; intros H; [reflexivity|].
  rewrite filter_cons. destruct (decide (f x)) as [Hf|Hf].
  - rewrite (H x) in Hf by (left; reflexivity). destruct Hf.
  - apply IH. intros y Hy. apply H. right. assumption.
Qed.

(** X6. [mergeNewLogic] is idempotent: when a call has returned, the same
    call again finds nothing new, changes nothing and returns the same
    count. *)
Theorem mergeNewLogic_idempotent arrMergeLogic st st1 cnt :
  Registry.mergeNewLogic test_text arrMergeLogic st = (st1, inl cnt) ->
  Registry.mergeNewLogic test_text arrMergeLogic st1 = (st1, inl cnt).
Proof.
  unfold Registry.mergeNewLogic.
  destruct (findDuplicates (map Registry.ref arrMergeLogic)) eqn:Ed; [|discriminate].
  intros H.
  assert (Hall : forall x, In x arrMergeLogic ->
            In (Registry.ref x) (map Registry.ref (Registry.savedLogicArr st1))
            /\ Registry.logicCount st1 = cnt).
  { unfold Registry.addLogic in H.
    destruct (Nat.eqb (length (filter (Registry.not_saved st) arrMergeLogic)) 0) eqn:El.
    - inversion H; subst. intros x Hx. split; [|reflexivity].
      apply Nat.eqb_eq, length_zero_iff_nil in El.
      destruct (Registry.not_saved st1 x) eqn:Ens.
      + assert (Hin : x ∈ filter (Registry.not_saved st1) arrMergeLogic).
        { apply list_elem_of_filter. split; [rewrite Ens; exact I|].
          apply list_elem_of_In. assumption. }
        rewrite El in Hin. inversion Hin.
      + unfold Registry.not_saved in Ens. apply negb_false_iff, existsb_exists in Ens
          as (y & Hy & Heq). apply Nat.eqb_eq in Heq. rewrite <- Heq.
        apply in_map. assumption.
    - match type of H with
      | context [findDuplicates ?a] => destruct (findDuplicates a); [|discriminate]
      end.
      destruct (Registry.applyLogic _ _ _ _ _ _ _) as [sub [[units' c]|e]] eqn:Ea;
        [|discriminate].
      inversion H; subst. cbn. intros x Hx. split; [|reflexivity].
      rewrite map_app. apply in_or_app.
      destruct (Registry.not_saved st x) eqn:Ens.
      + right. apply in_map. apply list_elem_of_In, list_elem_of_filter.
        split; [rewrite Ens; exact I | apply list_elem_of_In; assumption].
      + left. unfold Registry.not_saved in Ens.
        apply negb_false_iff, existsb_exists in Ens as (y & Hy & Heq).
        apply Nat.eqb_eq in Heq. rewrite <- Heq. apply in_map. assumption. }
  rewrite filter_none.
  - unfold Registry.addLogic. cbn. destruct arrMergeLogic as [|x rest].
    + unfold Registry.addLogic in H. cbn in H. inversion H. reflexivity.
    + destruct (Hall x (or_introl eq_refl)) as [_ ->]. reflexivity.
  - intros x Hx. apply not_saved_false. apply Hall. assumption.
Qed.

End RegistryTheorems.

Arguments findDuplicates : simpl never.

Section RegistryErrors.

Variable test_text : (JsVal -> bool) -> string.

Lemma set_logicSub_same st : Registry.set_logicSub (Registry.logicSub st) st = st.
Proof. destruct st. reflexivity. Qed.

Lemma applyLogic_threw_state arr sub' e st actionIn start :
  Registry.applyLogic test_text arr (Middleware.savedStore (Registry.mwState st))
                      (Registry.savedNext st) (Registry.logicSub st) actionIn start
  = (sub', inr e) ->
  (Registry.set_logicSub sub' st = st /\ e = Registry.StoreNotDefined /\
   (Middleware.savedStore (Registry.mwState st) = None \/ Registry.savedNext st = None)) \/
  (e = Registry.TypeError /\
   Registry.set_logicSub sub' st
   = Registry.set_logicSub (Registry.unsubscribe (Registry.logicSub st)) st).
Proof.
  intros H. apply applyLogic_threw in H as [(-> & -> & Hs)|(-> & ->)].
  - left. split; [apply set_logicSub_same | auto].
  - right. auto.
Qed.

(** X7. A call of [addLogic], [mergeNewLogic] or [replaceLogic] throws in
    three ways only.  With 'duplicate logic', which names at least one
    index, and with 'store is not defined', which it does only when the
    middleware lacks a store or a [next], the variables of the middleware
    are as they were.  With a TypeError the one change is that the
    subscription of the pipeline has been unsubscribed. *)
Theorem throwing_call_changes_nothing st l st' e :
  Registry.addLogic test_text l st = (st', inr e) \/
  Registry.mergeNewLogic test_text l st = (st', inr e) \/
  Registry.replaceLogic test_text l st = (st', inr e) ->
  (st' = st /\
   ((e = Registry.StoreNotDefined /\
     (Middleware.savedStore (Registry.mwState st) = None \/ Registry.savedNext st = None)) \/
    exists idx rest, e = Registry.DuplicateLogic (idx :: rest))) \/
  (e = Registry.TypeError /\
   st' = Registry.set_logicSub (Registry.unsubscribe (Registry.logicSub st)) st).
Proof.
  assert (Hadd : forall l0,
    Registry.addLogic test_text l0 st = (st', inr e) ->
    (st' = st /\
     ((e = Registry.StoreNotDefined /\
       (Middleware.savedStore (Registry.mwState st) = None \/
        Registry.savedNext st = None)) \/
      exists idx rest, e = Registry.DuplicateLogic (idx :: rest))) \/
    (e = Registry.TypeError /\
     st' = Registry.set_logicSub (Registry.unsubscribe (Registry.logicSub st)) st)).
  { intros l0 H. unfold Registry.addLogic in H.
    destruct (Nat.eqb (length l0) 0); [discriminate|].
    destruct (findDuplicates _) as [|idx rest].
    - destruct (Registry.applyLogic _ _ _ _ _ _ _) as [sub [[units' c]|e0]] eqn:Ea;
        [discriminate|].
      inversion H; subst.
      apply applyLogic_threw_state in Ea as [(-> & -> & Hs)|(-> & ->)]; auto.
    - inversion H; subst. left. split; [reflexivity|]. right. eauto. }
  intros [H|[H|H]].
  - apply Hadd with l. assumption.
  - unfold Registry.mergeNewLogic in H.
    destruct (findDuplicates (map Registry.ref l)) as [|idx rest].
    + eapply Hadd. eassumption.
    + inversion H; subst. left. split; [reflexivity|]. right. eauto.
  - unfold Registry.replaceLogic in H.
    destruct (findDuplicates (map Registry.ref l)) as [|idx rest].
    + destruct (Registry.applyLogic _ _ _ _ _ _ _) as [sub [[units' c]|e0]] eqn:Ea;
        [discriminate|].
      inversion H; subst.
      apply applyLogic_threw_state in Ea as [(-> & -> & Hs)|(-> & ->)]; auto.
    + inversion H; subst. left. split; [reflexivity|]. right. eauto.
Qed.

Lemma name_all_any_start arr : forall k k' named,
  Registry.name_all test_text arr k = inl named ->
  exists named', Registry.name_all test_text arr k' = inl named'.
Proof.
  induction arr as [|l arr IH]; intros k k' named H; cbn in *; [eauto|].
  destruct (naming_cases test_text (Registry.body l) k)
    as [[Hn E]|[(Hn & Ht & E)|(Hn & Ht & E)]]; rewrite E in H; try discriminate;
    destruct (Registry.name_all test_text arr (S k)) as [ns|] eqn:Ea; try discriminate;
    destruct (IH (S k) (S k') ns Ea) as (ns' & ->).
  - unfold Registry.naming. rewrite Hn. eauto.
  - unfold Registry.naming. rewrite Hn.
    destruct (l_type (Registry.unit (Registry.body l))); [contradiction | eauto..].
Qed.

Lemma name_all_units arr : forall k named,
  Registry.name_all test_text arr k = inl named ->
  map Registry.unit named = map (fun x => Registry.unit (Registry.body x)) arr.
Proof.
  induction arr as [|l arr IH]; intros k named H; cbn in H.
  - inversion H. reflexivity.
  - destruct (Registry.naming test_text (Registry.body l) k) as [n|e] eqn:En; [|discriminate].
    destruct (Registry.name_all test_text arr (S k)) as [ns|e] eqn:Ea; [|discriminate].
    inversion H; subst named. cbn [map]. rewrite (IH _ _ Ea). f_equal.
    unfold Registry.naming in En.
    destruct (truthy (Registry.name (Registry.body l))); [congruence|].
    destruct (l_type (Registry.unit (Registry.body l))); inversion En; reflexivity.
Qed.

(** X8. Applying the middleware to a [next] a second time rebuilds the
    pipeline from the items [createLogicMiddleware] was called with, and
    from these alone: the units of the new pipeline are the units of
    those items, in their order, named by [naming] with the indexes that
    follow all the indexes used so far.  The items added since are no
    longer in the pipeline, but they stay registered, so adding them
    again throws 'duplicate logic'. *)
Theorem applying_again_drops_added_units arr d st0 store next1 next2 l st1 st2 cnt :
  Registry.createLogicMiddleware (Some arr) d = inl st0 ->
  Registry.mw_next test_text (Some next1) (fst (Registry.mw store st0)) = (st1, None) ->
  l <> [] ->
  Registry.addLogic test_text l st1 = (st2, inl cnt) ->
  exists st3 units,
    Registry.mw_next test_text (Some next2) st2 = (st3, None) /\
    Registry.live_units st3 = Some units /\
    cnt = (length arr + length l)%nat /\
    Registry.name_all test_text arr cnt = inl units /\
    map Registry.unit units = map (fun x => Registry.unit (Registry.body x)) arr /\
    Registry.logicCount st3 = (cnt + length arr)%nat /\
    Registry.savedLogicArr st3 = arr ++ l /\
    exists idx rest,
      Registry.addLogic test_text l st3 = (st3, inr (Registry.DuplicateLogic (idx :: rest))).
Proof.
  intros Hc H1 Hl H2.
  unfold Registry.createLogicMiddleware in Hc.
  destruct (findDuplicates (map Registry.ref arr)); [|discriminate].
  inversion Hc; subst st0. clear Hc.
  unfold Registry.mw_next, Registry.mw, Middleware.mw in H1. cbn in H1.
  destruct (Registry.name_all test_text arr 0) as [named|e] eqn:En; cbn in H1;
    [|inversion H1].
  inversion H1; subst st1. clear H1.
  unfold Registry.addLogic in H2. cbn in H2.
  destruct (Nat.eqb (length l) 0) eqn:El.
  { apply Nat.eqb_eq, length_zero_iff_nil in El. contradiction. }
  destruct (findDuplicates (map Registry.ref (arr ++ l))); [|discriminate].
  destruct (Registry.name_all test_text l (length arr)) as [named2|e] eqn:En2;
    cbn in H2; [|inversion H2].
  inversion H2; subst st2 cnt. clear H2.
  destruct (name_all_any_start arr 0 (length arr + length l) named En)
    as (named3 & En3).
  unfold Registry.mw_next, Registry.applied. cbn. rewrite En3. cbn.
  eexists _, named3. split; [reflexivity|]. split; [reflexivity|].
  split; [reflexivity|]. split; [reflexivity|].
  split; [eapply name_all_units; eassumption|]. split; [reflexivity|].
  split; [reflexivity|].
  unfold Registry.addLogic. cbn. rewrite El.
  destruct (findDuplicates (map Registry.ref ((arr ++ l) ++ l))) as [|idx rest] eqn:Ed.
  - exfalso. apply findDuplicates_nil in Ed. rewrite !map_app in Ed.
    apply NoDup_app in Ed as (_ & Hdis & _).
    destruct l as [|x l']; [contradiction|].
    apply (Hdis (Registry.ref x)).
    + apply list_elem_of_In, in_or_app. right. left. reflexivity.
    + left.
  - eauto.
Qed.

End RegistryErrors.

(* ===================================================================== *)
(** ** Adding dependencies *)
(* ===================================================================== *)

Lemma own_assign_same k v l : Registry.own_property k (Registry.assign k v l) = Some v.
Proof.
  induction l as [|[k' v'] l IH]; cbn.
  - rewrite String.eqb_refl. reflexivity.
  - destruct (String.eqb k k') eqn:E; cbn; rewrite ?String.eqb_refl, ?E; auto.
Qed.

Lemma own_assign_other k k' v l :
  k <> k' -> Registry.own_property k' (Registry.assign k v l) = Registry.own_property k' l.
Proof.
  intros Hne. induction l as [|[k0 v0] l IH]; cbn.
  - destruct (String.eqb k' k) eqn:E; [|reflexivity].
    apply String.eqb_eq in E. congruence.
  - destruct (String.eqb k k0) eqn:E; cbn.
    + apply String.eqb_eq in E. subst k0.
      destruct (String.eqb k' k) eqn:E'; [|reflexivity].
      apply String.eqb_eq in E'. congruence.
    + rewrite IH. reflexivity.
Qed.

Lemma read_write_same k v d : Registry.read (Registry.write k v d) k = v.
Proof. unfold Registry.read, Registry.write. cbn. rewrite own_assign_same. reflexivity. Qed.

Lemma read_write_other k k' v d :
  k <> k' -> Registry.read (Registry.write k v d) k' = Registry.read d k'.
Proof.
  intros Hne. unfold Registry.read, Registry.write. cbn.
  rewrite own_assign_other by assumption. reflexivity.
Qed.

(** Two values that [===] holds of are one value. *)
Lemma same_eq a b : Registry.same a b = true -> a = b.
Proof.
  destruct a, b; cbn; try discriminate; intros H; try reflexivity.
  - apply Bool.eqb_prop in H. congruence.
  - apply Z.eqb_eq in H. congruence.
  - apply String.eqb_eq in H. congruence.
  - apply Nat.eqb_eq in H. congruence.
Qed.

Lemma addDeps_each_keeps props : forall d d' e k,
  Registry.addDeps_each props d = (d', e) ->
  ~ In k (map fst props) -> Registry.read d' k = Registry.read d k.
Proof.
  induction props as [|[k0 v0] props IH]; intros d d' e k H Hk; cbn in H.
  - inversion H. reflexivity.
  - cbn in Hk. destruct (Registry.defined _ && negb _).
    + inversion H. reflexivity.
    + rewrite (IH _ _ _ k H) by tauto. apply read_write_other. tauto.
Qed.

Lemma addDeps_each_inherited props : forall d d' e,
  Registry.addDeps_each props d = (d', e) ->
  Registry.inherited d' = Registry.inherited d.
Proof.
  induction props as [|[k0 v0] props IH]; intros d d' e H; cbn in H.
  - inversion H. reflexivity.
  - destruct (Registry.defined _ && negb _).
    + inversion H. reflexivity.
    + rewrite (IH _ _ _ H). reflexivity.
Qed.

Lemma addDeps_each_app before rest : forall d d1,
  Registry.addDeps_each before d = (d1, None) ->
  Registry.addDeps_each (before ++ rest) d = Registry.addDeps_each rest d1.
Proof.
  induction before as [|[k0 v0] before IH]; intros d d1 H; cbn in *.
  - inversion H. reflexivity.
  - destruct (Registry.defined _ && negb _); [discriminate|]. apply IH. assumption.
Qed.

(** What read as defined reads as before, however far the loop got. *)
Lemma addDeps_each_never_overrides props : forall d d' e k,
  Registry.addDeps_each props d = (d', e) ->
  Registry.defined (Registry.read d k) = true ->
  Registry.read d' k = Registry.read d k.
Proof.
  induction props as [|[k0 v0] props IH]; intros d d' e k H Hdef; cbn in H.
  - inversion H. reflexivity.
  - destruct (Registry.defined (Registry.read d k0)
              && negb (Registry.same (Registry.read d k0) v0)) eqn:Ec.
    + inversion H. reflexivity.
    + assert (Hw : Registry.read (Registry.write k0 v0 d) k = Registry.read d k).
      { destruct (String.eqb k0 k) eqn:Ek.
        - apply String.eqb_eq in Ek. subst k0. rewrite read_write_same.
          rewrite Hdef in Ec. cbn in Ec. apply negb_false_iff in Ec.
          symmetry. apply same_eq. assumption.
        - apply String.eqb_neq in Ek. apply read_write_other. assumption. }
      rewrite <- Hw. apply (IH _ _ _ _ H). rewrite Hw. assumption.
Qed.

Lemma addDeps_each_extends props d d' :
  NoDup (map fst props) ->
  Registry.addDeps_each props d = (d', None) ->
  (forall k v, In (k, v) props -> Registry.read d' k = v) /\
  (forall k, ~ In k (map fst props) -> Registry.read d' k = Registry.read d k).
Proof.
  intros Hnd H. split; [|intros k Hk; eapply addDeps_each_keeps; eassumption].
  revert d d' Hnd H.
  induction props as [|[k0 v0] props IH]; intros d d' Hnd H k v Hin; [destruct Hin|].
  cbn in Hnd. apply NoDup_cons in Hnd as [Hk0 Hnd]. cbn in H.
  destruct (Registry.defined _ && negb _); [discriminate|].
  destruct Hin as [Heq|Hin].
  - inversion Heq; subst k0 v0.
    rewrite (addDeps_each_keeps _ _ _ _ k H).
    + apply read_write_same.
    + intros Hin. apply Hk0, list_elem_of_In. assumption.
  - eapply IH; eassumption.
Qed.

(** X9. [addDeps] with an object (its own enumerable keys, each once),
    when it returns: every key of the object now reads in [deps] as the
    value the object gives it, and every other key reads as before.
    And whether [addDeps] returns or throws, a key that read as defined
    in [deps], through a property of its own or through the prototype
    chain (as [toString] does in [{}]), reads as before: it is
    untouched, or it was assigned the very value it had.  The prototype
    chain is as it was. *)
Theorem addDeps_extends_and_never_overrides props st st' e :
  NoDup (map fst props) ->
  Registry.addDeps (Registry.DObject props) st = (st', e) ->
  (e = None ->
   (forall k v, In (k, v) props -> Registry.read (Registry.deps st') k = v) /\
   (forall k, ~ In k (map fst props) ->
      Registry.read (Registry.deps st') k = Registry.read (Registry.deps st) k)) /\
  (forall k, Registry.defined (Registry.read (Registry.deps st) k) = true ->
     Registry.read (Registry.deps st') k = Registry.read (Registry.deps st) k) /\
  Registry.inherited (Registry.deps st') = Registry.inherited (Registry.deps st).
Proof.
  intros Hnd H. unfold Registry.addDeps in H.
  destruct (Registry.addDeps_each props (Registry.deps st)) as [d' e'] eqn:E.
  inversion H; subst. cbn [Registry.deps Registry.set_deps].
  split; [|split].
  - intros ->. eapply addDeps_each_extends; eassumption.
  - intros k Hdef. eapply addDeps_each_never_overrides; eassumption.
  - eapply addDeps_each_inherited; eassumption.
Qed.

(** X10. [addDeps] is not all-or-nothing: when a key of the object reads
    as defined in [deps] (through a property of its own or through the
    prototype chain) and the object gives it another value ([!==]), the
    call throws for that key; the keys before it have been added and
    stay, the keys after it have not been added. *)
Theorem addDeps_throws_half_way before k v after st st1 :
  NoDup (map fst (before ++ (k, v) :: after)) ->
  Registry.addDeps (Registry.DObject before) st = (st1, None) ->
  Registry.defined (Registry.read (Registry.deps st) k) = true ->
  Registry.same (Registry.read (Registry.deps st) k) v = false ->
  Registry.addDeps (Registry.DObject (before ++ (k, v) :: after)) st
  = (st1, Some (Registry.AddDepsOverride k)) /\
  (forall k' v', In (k', v') before -> Registry.read (Registry.deps st1) k' = v') /\
  (forall k' v', In (k', v') after ->
     Registry.read (Registry.deps st1) k' = Registry.read (Registry.deps st) k').
Proof.
  intros Hnd Hb Hdef Hne. unfold Registry.addDeps in *.
  destruct (Registry.addDeps_each before (Registry.deps st)) as [d1 e1] eqn:Eb.
  inversion Hb; subst. clear Hb. cbn [Registry.deps Registry.set_deps].
  rewrite map_app in Hnd. cbn in Hnd. apply NoDup_app in Hnd as (Hnb & Hdis & Hna).
  assert (Hk : Registry.read d1 k = Registry.read (Registry.deps st) k).
  { eapply addDeps_each_keeps; [eassumption|].
    intros Hin. apply (Hdis k); [apply list_elem_of_In; assumption | left]. }
  split; [|split].
  - rewrite (addDeps_each_app _ _ _ _ Eb). cbn. rewrite Hk, Hdef, Hne. reflexivity.
  - apply (addDeps_each_extends before (Registry.deps st) d1); assumption.
  - intros k' v' Hin. eapply addDeps_each_keeps; [eassumption|].
    intros Hin'. apply (Hdis k'); [apply list_elem_of_In; assumption|].
    right. apply list_elem_of_In, in_map_iff. exists (k', v'). auto.
Qed.

(* ===================================================================== *)
(** ** [whenComplete] *)
(* ===================================================================== *)

Lemma pending_from_lookup events : forall acc j,
  (j < length events)%nat ->
  pending_from acc events !! j = Some (fold_left scan_step (take (S j) events) acc).
Proof.
  induction events as [|e events IH]; intros acc j Hj; cbn in Hj; [lia|].
  destruct j as [|j]; cbn.
  - destruct events; reflexivity.
  - apply IH. lia.
Qed.

Lemma pending_from_length events : forall acc, length (pending_from acc events) = length events.
Proof. induction events as [|e events IH]; intros acc; cbn; [reflexivity|]. rewrite IH. reflexivity. Qed.

Lemma lookup_map_Some {A B} (f : A -> B) (l : list A) j x :
  l !! j = Some x -> map f l !! j = Some (f x).
Proof.
  revert j. induction l as [|y l IH]; intros [|j] H; cbn in *; try discriminate.
  - congruence.
  - apply IH. assumption.
Qed.

(** What [lastPending$] holds when [j] events have been emitted. *)
Lemma lastPending_lookup events j :
  (j <= length events)%nat ->
  lastPending events !! j
  = Some (match j with O => None | S _ => Some (pendingCount (take j events)) end).
Proof.
  intros Hj. unfold lastPending. destruct j as [|j]; [reflexivity|].
  change ((None :: map Some (pending_trace events)) !! S j)
    with (map Some (pending_trace events) !! j).
  apply lookup_map_Some. unfold pending_trace.
  rewrite pending_from_lookup by lia. reflexivity.
Qed.

Lemma whenComplete_from_zero k events j :
  (k <= j <= length events)%nat ->
  j = 0%nat \/ pendingCount (take j events) = 0 ->
  whenComplete k events = true.
Proof.
  intros [Hkj Hj] Hz. unfold whenComplete. rewrite existsb_exists.
  exists (match j with O => None | S _ => Some (pendingCount (take j events)) end).
  split.
  - apply list_elem_of_In, list_elem_of_lookup. exists (j - k)%nat.
    rewrite lookup_drop. replace (k + (j - k))%nat with j by lia.
    apply lastPending_lookup. assumption.
  - destruct j as [|n]; [reflexivity|]. destruct Hz as [Hz|Hz]; [discriminate|].
    cbn. rewrite Hz. reflexivity.
Qed.

(** X11. [whenComplete()] called when [k] events had been emitted has
    resolved by the end of [events] exactly when [pending] is not truthy
    at the call or after some later event: it is 0 there, or the call was
    made before any event.  A negative [pending] does not resolve it. *)
Theorem whenComplete_resolves_at_zero k events :
  whenComplete k events = true <->
  exists j, (k <= j <= length events)%nat /\
            (j = 0%nat \/ pendingCount (take j events) = 0).
Proof.
  split.
  - unfold whenComplete. rewrite existsb_exists.
    intros (p & Hin & Hp). apply list_elem_of_In, list_elem_of_lookup in Hin as [i Hi].
    rewrite lookup_drop in Hi.
    assert (Hle : (k + i <= length events)%nat).
    { apply lookup_lt_Some in Hi. unfold lastPending in Hi. cbn in Hi.
      rewrite length_map in Hi. unfold pending_trace in Hi.
      rewrite pending_from_length in Hi. lia. }
    rewrite lastPending_lookup in Hi by assumption. inversion Hi; subst p.
    exists (k + i)%nat. split; [lia|].
    destruct (k + i)%nat as [|n]; [left; reflexivity|]. right.
    cbn in Hp. apply negb_true_iff, negb_false_iff, Z.eqb_eq in Hp. assumption.
  - intros (j & Hj & Hz). eapply whenComplete_from_zero; eassumption.
Qed.


(* ===================================================================== *)
(** ** createLogic *)
(* ===================================================================== *)

Lemma TypeOption_nested_ind (P : CreateLogic.TypeOption -> Prop) :
  P CreateLogic.TyUndefined ->
  (forall s, P (CreateLogic.TyString s)) ->
  (forall test, P (CreateLogic.TyRegExp test)) ->
  (forall text, P (CreateLogic.TyFunction text)) ->
  (forall members, Forall P members -> P (CreateLogic.TyArray members)) ->
  forall t, P t.
Proof.
  intros Hu Hs Hr Hf Ha.
  fix IH 1. intros [| s | test | text | members].
  - exact Hu.
  - apply Hs.
  - apply Hr.
  - apply Hf.
  - apply Ha. induction members as [|m ms IHms]; constructor; [apply IH | exact IHms].
Qed.

Lemma typeToStrFns_pattern type :
  exists p, CreateLogic.as_pattern (CreateLogic.typeToStrFns type) = Some p /\
            forall q, CreateLogic.as_pattern type = Some q -> q = p.
Proof.
  induction type as [| s | test | text | members IH] using TypeOption_nested_ind.
  - exists PAbsent; split; [reflexivity | cbn; congruence].
  - exists (PStr s); split; [reflexivity | cbn; congruence].
  - exists (PTest test); split; [reflexivity | cbn; congruence].
  - exists (PStr text); split; [reflexivity | cbn; discriminate].
  - cbn [CreateLogic.typeToStrFns].
    induction IH as [|m ms (p & Hp & Hq) _ IHms].
    + exists (PArr []); split; [reflexivity | cbn; congruence].
    + destruct IHms as (ps & Hps & Hqs).
      cbn [CreateLogic.as_pattern map option_map] in Hps, Hqs |- *.
      rewrite Hp.
      match type of Hps with
      | option_map _ ?e = _ => destruct e as [ps'|] eqn:Eps; [|discriminate]
      end.
      cbn in Hps. inversion Hps; subst ps. clear Hps.
      exists (PArr (p :: ps')). split; [reflexivity|].
      intros q. destruct (CreateLogic.as_pattern m) as [pm|]; [|discriminate].
      match goal with
      | |- context [match ?e with Some ps => Some (pm :: ps) | None => None end] =>
          destruct e as [qs|] eqn:Eqs; [|discriminate]
      end.
      cbn. intros Hq'. inversion Hq'; subst q.
      rewrite <- (Hq pm eq_refl).
      specialize (Hqs (PArr qs) eq_refl). inversion Hqs. reflexivity.
Qed.

Lemma typeToStrFns_idempotent type :
  CreateLogic.typeToStrFns (CreateLogic.typeToStrFns type) = CreateLogic.typeToStrFns type.
Proof.
  induction type as [| s | test | text | members IH] using TypeOption_nested_ind;
    try reflexivity.
  cbn [CreateLogic.typeToStrFns]. f_equal.
  induction IH as [|m ms Hm _ IHms]; [reflexivity|].
  cbn [map]. rewrite Hm, IHms. reflexivity.
Qed.


(** The [processOptions] a call of [createLogic] works on. *)
Lemma nonempty_nil {A} (l : list A) : CreateLogic.nonempty l = false <-> l = [].
Proof. destruct l; cbn; split; congruence. Qed.

Lemma given_object_eq o env :
  CreateLogic.given_object o env =
  default CreateLogic.empty_object
    (CreateLogic.heap
       (match CreateLogic.o_processOptions o with
        | Some r => (r, env)
        | None => (length (CreateLogic.heap env),
                   CreateLogic.alloc CreateLogic.empty_object env)
        end).2
     !! (match CreateLogic.o_processOptions o with
         | Some r => (r, env)
         | None => (length (CreateLogic.heap env),
                    CreateLogic.alloc CreateLogic.empty_object env)
         end).1).
Proof.
  unfold CreateLogic.given_object. destruct (CreateLogic.o_processOptions o) as [r|]; cbn.
  - reflexivity.
  - rewrite lookup_app_r by lia. rewrite Nat.sub_diag. reflexivity.
Qed.

(** X14. [createLogic] returns a logic object exactly when every key of
    its argument is an allowed option, [type] is truthy, [validate] and
    [transform] are not both given, and the [processOptions] have no
    [warnTimeout] and only allowed keys.  A call that throws has changed
    nothing and logged nothing. *)
Theorem createLogic_accepts production o env :
  ((exists env' logic, CreateLogic.createLogic production o env = (env', inl logic)) <->
   (CreateLogic.getInvalidOptions (CreateLogic.o_keys o) CreateLogic.allowedOptions = [] /\
    CreateLogic.type_truthy (CreateLogic.o_type o) = true /\
    (CreateLogic.o_validate o = None \/ CreateLogic.o_transform o = None) /\
    CreateLogic.po_warnTimeout (CreateLogic.given_object o env) = None /\
    CreateLogic.getInvalidOptions (CreateLogic.po_keys (CreateLogic.given_object o env))
                                  CreateLogic.allowedProcessOptions = [])) /\
  (forall env' e, CreateLogic.createLogic production o env = (env', inr e) -> env' = env).
Proof.
  rewrite given_object_eq. unfold CreateLogic.createLogic.
  destruct (CreateLogic.nonempty
              (CreateLogic.getInvalidOptions (CreateLogic.o_keys o) CreateLogic.allowedOptions))
    eqn:E1.
  { split; [split|].
    - intros (? & ? & H). discriminate.
    - intros (H & _). apply nonempty_nil in H. congruence.
    - intros ? ? H. inversion H. reflexivity. }
  apply nonempty_nil in E1.
  destruct (match CreateLogic.o_processOptions o with
            | Some r => (r, env)
            | None => (length (CreateLogic.heap env),
                       CreateLogic.alloc CreateLogic.empty_object env)
            end) as [r env0] eqn:Er.
  cbn [fst snd].
  destruct (CreateLogic.type_truthy (CreateLogic.o_type o)) eqn:E2; cbn [negb].
  2:{ split; [split|].
      - intros (? & ? & H). discriminate.
      - intros (_ & H & _). discriminate.
      - intros ? ? H. inversion H. reflexivity. }
  destruct (CreateLogic.is_some (CreateLogic.o_validate o)
            && CreateLogic.is_some (CreateLogic.o_transform o)) eqn:E3.
  { split; [split|].
    - intros (? & ? & H). discriminate.
    - intros (_ & _ & [H|H] & _); rewrite H in E3; cbn in E3;
        [|rewrite andb_false_r in E3]; discriminate.
    - intros ? ? H. inversion H. reflexivity. }
  destruct (CreateLogic.is_some
              (CreateLogic.po_warnTimeout
                 (default CreateLogic.empty_object (CreateLogic.heap env0 !! r)))) eqn:E4.
  { split; [split|].
    - intros (? & ? & H). discriminate.
    - intros (_ & _ & _ & H & _). rewrite H in E4. discriminate.
    - intros ? ? H. inversion H. reflexivity. }
  destruct (CreateLogic.nonempty
              (CreateLogic.getInvalidOptions
                 (CreateLogic.po_keys
                    (default CreateLogic.empty_object (CreateLogic.heap env0 !! r)))
                 CreateLogic.allowedProcessOptions)) eqn:E5.
  { split; [split|].
    - intros (? & ? & H). discriminate.
    - intros (_ & _ & _ & _ & H). apply nonempty_nil in H. congruence.
    - intros ? ? H. inversion H. reflexivity. }
  apply nonempty_nil in E5.
  split; [split|].
  - intros _. split; [assumption|]. split; [reflexivity|]. split.
    + destruct (CreateLogic.o_validate o); [|left; reflexivity].
      destruct (CreateLogic.o_transform o); [discriminate | right; reflexivity].
    + split; [|assumption].
      destruct (CreateLogic.po_warnTimeout _); [discriminate | reflexivity].
  - intros _. eexists. eexists. reflexivity.
  - intros ? ? H. discriminate.
Qed.

Lemma defaults_applied_fields n obj :
  CreateLogic.po_dispatchReturn (defaults_applied n obj)
  = match CreateLogic.po_dispatchReturn obj with
    | Some b => Some b
    | None => if (n <=? 1)%nat then Some true else None
    end /\
  CreateLogic.po_dispatchMultiple (defaults_applied n obj)
  = match CreateLogic.po_dispatchMultiple obj with
    | Some b => Some b
    | None => if (3 <=? n)%nat then Some true else None
    end /\
  CreateLogic.po_successType (defaults_applied n obj) = CreateLogic.po_successType obj /\
  CreateLogic.po_failType (defaults_applied n obj) = CreateLogic.po_failType obj /\
  CreateLogic.po_warnTimeout (defaults_applied n obj) = CreateLogic.po_warnTimeout obj.
Proof.
  destruct n as [|[|[|n]]]; cbn;
    unfold CreateLogic.setIfUndefined_dispatchReturn, CreateLogic.setIfUndefined_dispatchMultiple;
    destruct (CreateLogic.po_dispatchReturn obj) eqn:E1,
             (CreateLogic.po_dispatchMultiple obj) eqn:E2; cbn;
    rewrite ?E1, ?E2; auto.
Qed.

(** What a call of [createLogic] that returned has done. *)
Lemma createLogic_returned production o env env' logic :
  CreateLogic.createLogic production o env = (env', inl logic) ->
  (forall r, CreateLogic.o_processOptions o = Some r ->
             (r < length (CreateLogic.heap env))%nat) ->
  CreateLogic.heap env' !! CreateLogic.r_processOptions logic
  = Some (defaults_applied
            (CreateLogic.fn_length (default CreateLogic.emptyProcess (CreateLogic.o_process o)))
            (CreateLogic.given_object o env)) /\
  CreateLogic.r_processOptions logic
  = default (length (CreateLogic.heap env)) (CreateLogic.o_processOptions o) /\
  (length (CreateLogic.heap env) <= length (CreateLogic.heap env'))%nat /\
  (forall r', r' <> CreateLogic.r_processOptions logic ->
              (r' < length (CreateLogic.heap env))%nat ->
              CreateLogic.heap env' !! r' = CreateLogic.heap env !! r') /\
  CreateLogic.default_warnTimeout env' = CreateLogic.default_warnTimeout env /\
  CreateLogic.r_type logic = CreateLogic.typeToStrFns (CreateLogic.o_type o) /\
  CreateLogic.r_cancelType logic = CreateLogic.typeToStrFns (CreateLogic.o_cancelType o) /\
  CreateLogic.r_name logic = CreateLogic.typeToStrFns (CreateLogic.o_name o) /\
  CreateLogic.r_process logic = default CreateLogic.emptyProcess (CreateLogic.o_process o) /\
  CreateLogic.r_latest logic = default false (CreateLogic.o_latest o) /\
  CreateLogic.r_debounce logic = default 0%nat (CreateLogic.o_debounce o) /\
  CreateLogic.r_throttle logic = default 0%nat (CreateLogic.o_throttle o) /\
  CreateLogic.r_warnTimeout logic
  = match CreateLogic.o_warnTimeout o with
    | Some n => Some n
    | None => CreateLogic.default_warnTimeout env
    end /\
  match CreateLogic.r_validate logic with
  | Some h => Some h
  | None => CreateLogic.r_transform logic
  end
  = Some match CreateLogic.o_validate o, CreateLogic.o_transform o with
         | Some h, _ => h
         | None, Some h => h
         | None, None => identityValidation
         end.
Proof.
  intros H Hr. rewrite given_object_eq. unfold CreateLogic.createLogic in H.
  destruct (CreateLogic.nonempty _) in H; [discriminate|].
  destruct (match CreateLogic.o_processOptions o with
            | Some r => (r, env)
            | None => (length (CreateLogic.heap env),
                       CreateLogic.alloc CreateLogic.empty_object env)
            end) as [r env0] eqn:Er.
  cbn [fst snd].
  destruct (negb _) in H; [discriminate|].
  destruct (_ && _) eqn:E3 in H; [discriminate|].
  destruct (CreateLogic.is_some _) in H; [discriminate|].
  destruct (CreateLogic.nonempty _) in H; [discriminate|].
  assert (Hlen : (r < length (CreateLogic.heap env0))%nat /\
                 (length (CreateLogic.heap env) <= length (CreateLogic.heap env0))%nat /\
                 (forall r', r' <> r -> (r' < length (CreateLogic.heap env))%nat ->
                             CreateLogic.heap env0 !! r' = CreateLogic.heap env !! r') /\
                 CreateLogic.default_warnTimeout env0 = CreateLogic.default_warnTimeout env /\
                 r = default (length (CreateLogic.heap env)) (CreateLogic.o_processOptions o)).
  { destruct (CreateLogic.o_processOptions o) as [r0|]; inversion Er; subst.
    - split; [apply Hr; reflexivity|]. auto.
    - cbn. rewrite length_app. cbn. split; [lia|]. split; [lia|].
      split; [|auto]. intros r' _ Hlt. apply lookup_app_l. assumption. }
  destruct Hlen as (Hlt & Hle & Hother & Hdef & Hrr).
  set (obj := default CreateLogic.empty_object (CreateLogic.heap env0 !! r)) in *.
  set (env1 := if _ && _ && _ then _ else env0) in H.
  assert (H1 : CreateLogic.heap env1 = CreateLogic.heap env0 /\
               CreateLogic.default_warnTimeout env1 = CreateLogic.default_warnTimeout env0).
  { subst env1. destruct (_ && _ && _); cbn; auto. }
  destruct H1 as [Hh1 Hd1].
  assert (Hobj : CreateLogic.heap env0 !! r = Some obj).
  { subst obj. destruct (CreateLogic.heap env0 !! r) eqn:E; [reflexivity|].
    apply lookup_ge_None in E. lia. }
  clearbody env1 obj.
  inversion H as [[Henv Hlogic]]. clear H Hlogic. subst env'. cbn.
  split.
  { destruct (CreateLogic.fn_length _) as [|[|[|n]]]; cbn.
    - rewrite Hh1. apply list_lookup_insert_eq. assumption.
    - rewrite Hh1. apply list_lookup_insert_eq. assumption.
    - destruct (_ && _ && _); cbn; rewrite Hh1; assumption.
    - rewrite Hh1. apply list_lookup_insert_eq. assumption. }
  split; [assumption|].
  split.
  { destruct (CreateLogic.fn_length _) as [|[|[|n]]]; cbn;
      rewrite ?length_insert, ?Hh1; try lia.
    destruct (_ && _ && _); cbn; rewrite Hh1; lia. }
  split.
  { intros r' Hne Hr'. rewrite <- (Hother r' Hne Hr').
    destruct (CreateLogic.fn_length _) as [|[|[|n]]]; cbn; rewrite ?Hh1;
      try (apply list_lookup_insert_ne; congruence).
    destruct (_ && _ && _); cbn; rewrite Hh1; reflexivity. }
  split.
  { rewrite <- Hdef, <- Hd1.
    destruct (CreateLogic.fn_length _) as [|[|[|n]]]; cbn; try reflexivity.
    destruct (_ && _ && _); reflexivity. }
  repeat (split; [reflexivity|]).
  destruct (CreateLogic.o_validate o), (CreateLogic.o_transform o); cbn in *;
    try reflexivity; discriminate.
Qed.

(** The unit of a logic object [createLogic] returned, over any heap. *)
Lemma as_unit_returned production o env env' logic env2 :
  CreateLogic.createLogic production o env = (env', inl logic) ->
  (forall r, CreateLogic.o_processOptions o = Some r ->
             (r < length (CreateLogic.heap env))%nat) ->
  exists u type cancelType,
    CreateLogic.as_unit env2 logic = Some u /\
    CreateLogic.as_pattern (CreateLogic.typeToStrFns (CreateLogic.o_type o)) = Some type /\
    CreateLogic.as_pattern (CreateLogic.typeToStrFns (CreateLogic.o_cancelType o))
    = Some cancelType /\
    u = {| l_type := type; l_cancelType := cancelType;
           l_latest := default false (CreateLogic.o_latest o);
           l_debounce := default 0%nat (CreateLogic.o_debounce o);
           l_throttle := default 0%nat (CreateLogic.o_throttle o);
           l_intercept :=
             match CreateLogic.o_validate o, CreateLogic.o_transform o with
             | Some h, _ => h
             | None, Some h => h
             | None, None => identityValidation
             end;
           l_process :=
             CreateLogic.fn_body (default CreateLogic.emptyProcess (CreateLogic.o_process o));
           l_processOptions :=
             let obj := default CreateLogic.empty_object
                          (CreateLogic.heap env2 !! CreateLogic.r_processOptions logic) in
             {| dispatchReturn := default false (CreateLogic.po_dispatchReturn obj);
                dispatchMultiple := default false (CreateLogic.po_dispatchMultiple obj);
                successType := CreateLogic.po_successType obj;
                failType := CreateLogic.po_failType obj |};
           l_warnTimeout :=
             default 0%nat
               match CreateLogic.o_warnTimeout o with
               | Some n => Some n
               | None => CreateLogic.default_warnTimeout env
               end |}.
Proof.
  intros H Hr.
  destruct (createLogic_returned _ _ _ _ _ H Hr)
    as (_ & _ & _ & _ & _ & Ht & Hc & _ & Hp & Hl & Hd & Hth & Hw & Hi).
  destruct (typeToStrFns_pattern (CreateLogic.o_type o)) as (type & Htype & _).
  destruct (typeToStrFns_pattern (CreateLogic.o_cancelType o)) as (cancelType & Hcancel & _).
  unfold CreateLogic.as_unit.
  rewrite Ht, Hc, Htype, Hcancel, Hi, Hp, Hl, Hd, Hth, Hw.
  eexists. exists type, cancelType. repeat (split; [reflexivity|]). reflexivity.
Qed.

(** X15. The engine can run every logic object [createLogic] returns,
    and the mode of its process hook is this: [dispatchReturn] and
    [dispatchMultiple] are what the [processOptions] gave them as, and
    where they gave nothing, [dispatchReturn] is set for a hook of at
    most one parameter and [dispatchMultiple] for one of three or more;
    a hook of two parameters gets neither.  The intercept hook is
    [validate], else [transform], else the identity; the process hook is
    the given one, else [emptyProcess]. *)
Theorem createLogic_dispatch_mode production o env env' logic :
  CreateLogic.createLogic production o env = (env', inl logic) ->
  (forall r, CreateLogic.o_processOptions o = Some r ->
             (r < length (CreateLogic.heap env))%nat) ->
  exists u,
    CreateLogic.as_unit env' logic = Some u /\
    dispatchReturn (l_processOptions u)
    = match CreateLogic.po_dispatchReturn (CreateLogic.given_object o env) with
      | Some b => b
      | None =>
          (CreateLogic.fn_length (default CreateLogic.emptyProcess (CreateLogic.o_process o))
           <=? 1)%nat
      end /\
    dispatchMultiple (l_processOptions u)
    = match CreateLogic.po_dispatchMultiple (CreateLogic.given_object o env) with
      | Some b => b
      | None =>
          (3 <=? CreateLogic.fn_length
                   (default CreateLogic.emptyProcess (CreateLogic.o_process o)))%nat
      end /\
    successType (l_processOptions u)
    = CreateLogic.po_successType (CreateLogic.given_object o env) /\
    failType (l_processOptions u)
    = CreateLogic.po_failType (CreateLogic.given_object o env) /\
    l_intercept u
    = match CreateLogic.o_validate o, CreateLogic.o_transform o with
      | Some h, _ => h
      | None, Some h => h
      | None, None => identityValidation
      end /\
    l_process u
    = CreateLogic.fn_body (default CreateLogic.emptyProcess (CreateLogic.o_process o)).
Proof.
  intros H Hr.
  destruct (as_unit_returned _ _ _ _ _ env' H Hr) as (u & type & cancelType & Hu & _ & _ & Eu).
  destruct (createLogic_returned _ _ _ _ _ H Hr) as (Hobj & _).
  exists u. split; [assumption|]. subst u. cbn. rewrite Hobj. cbn.
  destruct (defaults_applied_fields
              (CreateLogic.fn_length (default CreateLogic.emptyProcess (CreateLogic.o_process o)))
              (CreateLogic.given_object o env)) as (E1 & E2 & E3 & E4 & _).
  rewrite E1, E2, E3, E4. clear E1 E2 E3 E4.
  split.
  { destruct (CreateLogic.po_dispatchReturn (CreateLogic.given_object o env));
      [reflexivity|].
    destruct (CreateLogic.fn_length _) as [|[|[|?]]]; reflexivity. }
  split.
  { destruct (CreateLogic.po_dispatchMultiple (CreateLogic.given_object o env));
      [reflexivity|].
    destruct (CreateLogic.fn_length _) as [|[|[|?]]]; reflexivity. }
  auto.
Qed.

(** X16. Two logic objects made with the same [processOptions] object
    share it: after the second call both run in the same mode, in which
    a default either hook's parameters ask for is set for both. *)
Theorem shared_processOptions_accumulate production o1 o2 r obj env env1 env2 logic1 logic2 :
  CreateLogic.o_processOptions o1 = Some r ->
  CreateLogic.o_processOptions o2 = Some r ->
  CreateLogic.heap env !! r = Some obj ->
  CreateLogic.createLogic production o1 env = (env1, inl logic1) ->
  CreateLogic.createLogic production o2 env1 = (env2, inl logic2) ->
  exists u1 u2,
    CreateLogic.as_unit env2 logic1 = Some u1 /\
    CreateLogic.as_unit env2 logic2 = Some u2 /\
    l_processOptions u1 = l_processOptions u2 /\
    dispatchReturn (l_processOptions u1)
    = match CreateLogic.po_dispatchReturn obj with
      | Some b => b
      | None =>
          (CreateLogic.fn_length (default CreateLogic.emptyProcess (CreateLogic.o_process o1))
           <=? 1)%nat
          || (CreateLogic.fn_length (default CreateLogic.emptyProcess (CreateLogic.o_process o2))
              <=? 1)%nat
      end /\
    dispatchMultiple (l_processOptions u1)
    = match CreateLogic.po_dispatchMultiple obj with
      | Some b => b
      | None =>
          (3 <=? CreateLogic.fn_length
                   (default CreateLogic.emptyProcess (CreateLogic.o_process o1)))%nat
          || (3 <=? CreateLogic.fn_length
                      (default CreateLogic.emptyProcess (CreateLogic.o_process o2)))%nat
      end.
Proof.
  intros Ho1 Ho2 Hobj H1 H2.
  assert (Hr1 : forall r', CreateLogic.o_processOptions o1 = Some r' ->
                           (r' < length (CreateLogic.heap env))%nat).
  { intros r' E. rewrite Ho1 in E. inversion E; subst r'.
    apply lookup_lt_Some in Hobj. assumption. }
  destruct (createLogic_returned _ _ _ _ _ H1 Hr1) as (Hobj1 & Hrl1 & Hle1 & _).
  rewrite Ho1 in Hrl1. cbn in Hrl1.
  assert (Hr2 : forall r', CreateLogic.o_processOptions o2 = Some r' ->
                           (r' < length (CreateLogic.heap env1))%nat).
  { intros r' E. rewrite Ho2 in E. inversion E; subst r'.
    apply lookup_lt_Some in Hobj. lia. }
  destruct (createLogic_returned _ _ _ _ _ H2 Hr2) as (Hobj2 & Hrl2 & _).
  rewrite Ho2 in Hrl2. cbn in Hrl2.
  destruct (as_unit_returned _ _ _ _ _ env2 H1 Hr1) as (u1 & ? & ? & Hu1 & _ & _ & Eu1).
  destruct (as_unit_returned _ _ _ _ _ env2 H2 Hr2) as (u2 & ? & ? & Hu2 & _ & _ & Eu2).
  exists u1, u2. split; [assumption|]. split; [assumption|].
  subst u1 u2. cbn. rewrite Hrl1, <- Hrl2, Hobj2. cbn.
  split; [reflexivity|].
  unfold CreateLogic.given_object. rewrite Ho2. rewrite <- Hrl1, Hobj1. cbn.
  unfold CreateLogic.given_object. rewrite Ho1, Hobj. cbn.
  set (n1 := CreateLogic.fn_length
               (default CreateLogic.emptyProcess (CreateLogic.o_process o1))).
  set (n2 := CreateLogic.fn_length
               (default CreateLogic.emptyProcess (CreateLogic.o_process o2))).
  destruct (defaults_applied_fields n2 (defaults_applied n1 obj)) as (E1 & E2 & _).
  destruct (defaults_applied_fields n1 obj) as (F1 & F2 & _).
  rewrite E1, E2, F1, F2.
  clearbody n1 n2.
  split.
  - destruct (CreateLogic.po_dispatchReturn obj); [reflexivity|].
    destruct n1 as [|[|[|?]]], n2 as [|[|[|?]]]; reflexivity.
  - destruct (CreateLogic.po_dispatchMultiple obj); [reflexivity|].
    destruct n1 as [|[|[|?]]], n2 as [|[|[|?]]]; reflexivity.
Qed.

(** X17. [configureLogic] throws when a key of its argument is not
    [warnTimeout], and has then changed nothing.  When it returns, the
    keys are all [warnTimeout] and the default is the value the object
    has under it; a later [createLogic] gives this value to a logic
    object whose options have no [warnTimeout] of their own. *)
Theorem configureLogic_sets_the_default options env :
  match CreateLogic.configureLogic options env with
  | (env', Some e) =>
      env' = env /\
      exists k, In k (map fst options) /\ k <> "warnTimeout" /\
                e = CreateLogic.NotGloballyConfigurable
                      (List.filter (fun k => negb (String.eqb k "warnTimeout"))
                                   (map fst options))
  | (env', None) =>
      Forall (fun kv => fst kv = "warnTimeout") options /\
      CreateLogic.heap env' = CreateLogic.heap env /\
      CreateLogic.warnings env' = CreateLogic.warnings env /\
      CreateLogic.default_warnTimeout env'
      = match last options with
        | Some (_, value) => value
        | None => CreateLogic.default_warnTimeout env
        end /\
      forall production o env'' logic,
        CreateLogic.o_warnTimeout o = None ->
        CreateLogic.createLogic production o env' = (env'', inl logic) ->
        CreateLogic.r_warnTimeout logic = CreateLogic.default_warnTimeout env'
  end.
Proof.
  unfold CreateLogic.configureLogic.
  assert (Hf : CreateLogic.getInvalidOptions (map fst options)
                 CreateLogic.globallyConfigurableOptions
               = List.filter (fun k => negb (String.eqb k "warnTimeout")) (map fst options)).
  { unfold CreateLogic.getInvalidOptions. apply filter_ext. intros k. cbn.
    rewrite orb_false_r. reflexivity. }
  rewrite Hf.
  destruct (List.filter _ (map fst options)) as [|k ks] eqn:E; cbn [CreateLogic.nonempty].
  - assert (Hall : Forall (fun kv => fst kv = "warnTimeout") options).
    { apply Forall_forall. intros kv Hin. apply list_elem_of_In in Hin.
      destruct (String.eqb (fst kv) "warnTimeout") eqn:Ek;
        [apply String.eqb_eq; assumption|].
      assert (Hk : In (fst kv) (List.filter (fun k => negb (String.eqb k "warnTimeout"))
                                            (map fst options))).
      { apply filter_In. split; [apply in_map; assumption | rewrite Ek; reflexivity]. }
      rewrite E in Hk. destruct Hk. }
    split; [assumption|].
    assert (Hfold : forall (l : list (string * option nat)) e0,
      let e1 := fold_left
        (fun env0 '(_, value) =>
           {| CreateLogic.default_warnTimeout := value;
              CreateLogic.heap := CreateLogic.heap env0;
              CreateLogic.warnings := CreateLogic.warnings env0 |}) l e0 in
      CreateLogic.heap e1 = CreateLogic.heap e0 /\
      CreateLogic.warnings e1 = CreateLogic.warnings e0 /\
      CreateLogic.default_warnTimeout e1
      = match last l with
        | Some (_, value) => value
        | None => CreateLogic.default_warnTimeout e0
        end).
    { clear. induction l as [|[k v] l IH]; intros e0; cbn; [auto|].
      destruct (IH {| CreateLogic.default_warnTimeout := v;
                      CreateLogic.heap := CreateLogic.heap e0;
                      CreateLogic.warnings := CreateLogic.warnings e0 |}) as (A & B & C).
      cbn in *. split; [assumption|]. split; [assumption|].
      rewrite C. destruct l as [|[k' v'] l']; [reflexivity|].
      rewrite last_cons_cons. destruct (last ((k', v') :: l')) as [[? ?]|] eqn:El; [reflexivity|].
      apply last_None in El. discriminate. }
    destruct (Hfold options env) as (A & B & C).
    split; [exact A|]. split; [exact B|]. split; [exact C|].
    intros production o env'' logic Hw Hc.
    unfold CreateLogic.createLogic in Hc.
    destruct (CreateLogic.nonempty _) in Hc; [discriminate|].
    destruct (match CreateLogic.o_processOptions o with Some r => _ | None => _ end)
      as [r env0] in Hc.
    destruct (negb _) in Hc; [discriminate|].
    destruct (_ && _) in Hc; [discriminate|].
    destruct (CreateLogic.is_some _) in Hc; [discriminate|].
    destruct (CreateLogic.nonempty _) in Hc; [discriminate|].
    inversion Hc. cbn. rewrite Hw. reflexivity.
  - split; [reflexivity|]. exists k.
    assert (Hk : In k (List.filter (fun k => negb (String.eqb k "warnTimeout"))
                                   (map fst options))) by (rewrite E; left; reflexivity).
    apply filter_In in Hk as [Hin Hne]. split; [assumption|]. split; [|reflexivity].
    intros ->. discriminate.
Qed.

(* ===================================================================== *)
(** ** Actions that cancel, and actions no unit handles *)
(* ===================================================================== *)

Lemma concat_arg_matches p t :
  existsb (fun x => matchesType x t) (concat_arg (if pattern_truthy p then p else PArr []))
  = matchesType p t.
Proof.
  destruct p as [|s|ms|test]; cbn [pattern_truthy]; try reflexivity.
  - destruct (String.eqb s "") eqn:E; cbn [negb concat_arg existsb].
    + cbn. rewrite E. reflexivity.
    + apply orb_false_r.
  - cbn [concat_arg existsb]. apply orb_false_r.
Qed.

(** The predicate of [cancel$] in terms of the two options: the [type]
    when [latest] is set, and the [cancelType]. *)
Lemma cancels_spec logic a :
  cancels logic a
  = (l_latest logic && matchesType (l_type logic) (get a "type"))
    || matchesType (l_cancelType logic) (get a "type").
Proof.
  unfold cancels, cancelTypes. rewrite matchesType_PArr, existsb_app.
  rewrite (concat_arg_matches (l_cancelType logic)).
  set (t := get a "type").
  assert (Ht : existsb (fun x => matchesType x t)
                 (concat_arg (if pattern_truthy (l_type logic) && l_latest logic
                              then l_type logic else PArr []))
               = l_latest logic && matchesType (l_type logic) t).
  { destruct (l_latest logic).
    - rewrite andb_true_r. apply concat_arg_matches.
    - rewrite andb_false_r. reflexivity. }
  rewrite Ht.
  destruct (l_latest logic && matchesType (l_type logic) t) eqn:E1;
    destruct (matchesType (l_cancelType logic) t) eqn:E2; cbn [orb].
  - destruct (_ ++ _) eqn:El; [|reflexivity].
    apply app_eq_nil in El as [El _]. rewrite El in Ht. discriminate.
  - destruct (_ ++ _) eqn:El; [|reflexivity].
    apply app_eq_nil in El as [El _]. rewrite El in Ht. discriminate.
  - destruct (_ ++ _) eqn:El; [|reflexivity].
    apply app_eq_nil in El as [_ El].
    pose proof (concat_arg_matches (l_cancelType logic) t) as Hc.
    rewrite El, E2 in Hc. discriminate.
  - apply andb_false_r.
Qed.

(** X18. An action, neither [null] nor [undefined], that the
    [cancelType] of a unit matches, or its [type] when [latest] is set,
    closes every closure of that unit that
    exists when it arrives: once the unit's handling of the action has
    returned, the queue of such a closure is closed, and whatever
    happens later (actions, callbacks of hooks, promises that settle,
    timers) the closure dispatches nothing any more.  The handling has
    returned when it ended without an exception, as it does when the
    hooks it runs return (the hooks of [InterceptCall] do); the patterns
    are those of [Pattern], with no regular expression that has the [g]
    or the [y] flag. *)
Theorem cancel_action_closes_closures cfg fuel stage logic rest a i x w :
  nullish a = false ->
  (l_latest logic = true /\ matchesType (l_type logic) (get a "type") = true) \/
  matchesType (l_cancelType logic) (get a "type") = true ->
  insts w !! i = Some x ->
  i_stage x = stage ->
  let r := deliver (cfg_production cfg) (store_dispatch_of cfg fuel)
                   (cfg_nextThrows cfg) stage (logic :: rest) a w in
  is_halted r = false -> is_thrown r = false ->
  closed (world_of r) i /\
  forall fuel' evs,
    silent_since i (world_of r) (world_of (run cfg fuel' evs (world_of r))).
Proof.
  intros _ Hpat Hx Hst r Hh _.
  assert (Hc : cancels logic a = true).
  { rewrite cancels_spec. destruct Hpat as [[Hl Hm] | Hm]; rewrite ?Hl, ?Hm; [reflexivity | apply orb_true_r]. }
  pose proof (store_dispatch_of_sat cfg fuel) as Hs.
  pose proof (lookup_lt_Some _ _ _ Hx) as Hlt.
  set (down := deliver (cfg_production cfg) (store_dispatch_of cfg fuel)
                       (cfg_nextThrows cfg) (S stage) rest).
  set (create := createLogicAction (cfg_production cfg) (store_dispatch_of cfg fuel)
                                   stage logic down).
  assert (Hdown : forall a, sat none false (down a)).
  { intros a'. apply deliver_sat. assumption. }
  assert (Hcreate : forall a, sat none false (create a)).
  { intros a'. apply createLogicAction_sat; assumption. }
  set (before :=
         bind (if negb (matchesType (l_type logic) (get a "type")) then down a else ret tt)
              (fun _ => if matchesType (l_type logic) (get a "type")
                        then limiting stage logic create a else ret tt)).
  assert (Hbefore : sat none false before).
  { subst before. apply sat_bind.
    - destruct (negb _); [apply Hdown | apply sat_ret].
    - intros _. destruct (matchesType _ _); [|apply sat_ret].
      apply limiting_sat. assumption. }
  assert (Hr : r = bind before
                 (fun _ => cancel_closures stage (seq 0 (length (insts w)))) w).
  { subst r before create down. cbn [deliver]. rewrite Hc. unfold bind.
    destruct (if negb _ then _ else _) as [[] w1|e w1|w1]; reflexivity. }
  assert (Hcl : closed (world_of r) i).
  { rewrite Hr in Hh |- *. unfold bind in *.
    destruct (Hbefore w) as [HeL HtL].
    destruct (before w) as [[] wL|e wL|wL]; cbn [world_of] in *.
    - destruct (cancel_closures_closes stage (seq 0 (length (insts w))) wL)
        as (w' & Hrun & Hcl).
      rewrite Hrun. cbn [world_of].
      destruct (ext_insts _ _ _ HeL _ _ Hx) as (x' & Hx' & Hs' & _).
      eapply Hcl; [|eassumption|congruence].
      apply in_seq. lia.
    - specialize (HtL eq_refl). discriminate.
    - discriminate. }
  split; [assumption|].
  intros fuel' evs.
  eapply ext_silent; [apply run_sat | | intros _; assumption].
  destruct Hcl as (x' & Hx' & _). eapply lookup_lt_Some. eassumption.
Qed.

(** X19. An action that is neither [null] nor [undefined] (or any
    action, when the pipeline is empty), that no unit of the pipeline
    matches and that cancels none, goes straight through: [top] is
    emitted, [next] is called with the action itself, once, and [bottom]
    follows (after [nextError] when [next] threw); no closure is made,
    no hook runs, and the call returns.  The patterns are those of
    [Pattern], with no regular expression that has the [g] or the [y]
    flag. *)
Theorem unmatched_action_goes_straight_to_next cfg fuel a w :
  nullish a = false \/ pipeline cfg = [] ->
  Forall (fun logic => matchesType (l_type logic) (get a "type") = false /\
                       cancels logic a = false) (pipeline cfg) ->
  entry cfg (S fuel) a w
  = Ok tt (mkWorld
             (monitor w ++ EvTop a ::
                match cfg_nextThrows cfg a with
                | Some err => [EvNextError a (error_message err); EvBottom a]
                | None => [EvBottom a]
                end)
             (console w ++ match cfg_nextThrows cfg a with
                           | Some err => [CNextError err]
                           | None => []
                           end)
             (consumer w ++ [a]) (processCalls w) (insts w) (limiters w)).
Proof.
  intros _ H. cbn [entry]. unfold bind at 1. unfold monitor_next, modify.
  rewrite deliver_foreign by assumption. rewrite bottom_run. cbn.
  rewrite <- app_assoc. reflexivity.
Qed.

Lemma lookup_last {A} (l : list A) x : (l ++ [x]) !! length l = Some x.
Proof. rewrite lookup_app_r by lia. rewrite Nat.sub_diag. reflexivity. Qed.

Lemma alter_last {A} (f : A -> A) (l : list A) x :
  alter f (length l) (l ++ [x]) = l ++ [f x].
Proof. rewrite alter_app_r_alt by lia. rewrite Nat.sub_diag. reflexivity. Qed.

Lemma strict_eq_VStr s : strict_eq (VStr s) (VStr s) = true.
Proof. cbn. apply String.eqb_refl. Qed.

(** X20. A logic object made from nothing but a [type] (and a name or a
    [warnTimeout]) is transparent, whatever the type is: a string, the
    wildcard, a regular expression without the [g] and the [y] flag, a
    function, an array of these.  Alone in a pipeline, for an action whose type is a string the type
    of the unit matches, it emits [top], [begin], [next], [bottom] and
    [end] in this order; [next] gets the action itself, once; the
    default process hook runs and dispatches nothing; and the closure is
    left terminal. *)
Theorem default_logic_is_transparent
        production keys name type warnTimeout env env' logic u cfg fuel a t w :
  CreateLogic.createLogic production
    {| CreateLogic.o_keys := keys; CreateLogic.o_name := name;
       CreateLogic.o_type := type;
       CreateLogic.o_cancelType := CreateLogic.TyUndefined;
       CreateLogic.o_warnTimeout := warnTimeout;
       CreateLogic.o_latest := None; CreateLogic.o_debounce := None;
       CreateLogic.o_throttle := None;
       CreateLogic.o_validate := None; CreateLogic.o_transform := None;
       CreateLogic.o_process := None; CreateLogic.o_processOptions := None |} env
  = (env', inl logic) ->
  CreateLogic.as_unit env' logic = Some u ->
  pipeline cfg = [u] ->
  cfg_nextThrows cfg a = None ->
  get a "type" = VStr t ->
  matchesType (l_type u) (VStr t) = true ->
  entry cfg (S fuel) a w
  = Ok tt (mkWorld
             (monitor w ++ [EvTop a; EvBegin (length (insts w)) a;
                            EvNext (length (insts w)) a a true;
                            EvBottom a; EvEnd (length (insts w)) a])
             (console w) (consumer w ++ [a])
             (processCalls w ++ [(length (insts w), a)])
             (insts w ++ [mkInstance 0 a true true true true 0 true false])
             (limiters w)).
Proof.
  intros Hc Hu Hp Hn Ht Hmt.
  assert (Hr : forall r, @None nat = Some r -> (r < length (CreateLogic.heap env))%nat)
    by discriminate.
  destruct (as_unit_returned _ _ _ _ _ env' Hc Hr)
    as (u' & type' & cancelType & Hu' & Hty & Hct & Eu).
  assert (Euu : u' = u) by congruence. rewrite Euu in Eu. clear Hu' Euu u'.
  destruct (createLogic_returned _ _ _ _ _ Hc Hr) as (Hobj & _).
  cbn in Hty, Hct. inversion Hct; subst cancelType.
  rewrite Hobj in Eu. cbn in Eu.
  assert (Ha : truthy a = true).
  { destruct a; cbn in Ht; try discriminate; reflexivity. }
  assert (Hm : matchesType (l_type u) (get a "type") = true).
  { rewrite Ht. exact Hmt. }
  assert (Hcan : cancels u a = false).
  { rewrite Eu. unfold cancels, cancelTypes.
    cbn [l_type l_latest l_cancelType pattern_truthy]. rewrite andb_false_r. reflexivity. }
  cbn [entry]. rewrite Hp. cbn [deliver]. rewrite Hm, Hcan. cbn [negb].
  unfold limiting, debouncing, throttling.
  replace (l_debounce u) with 0%nat by (rewrite Eu; reflexivity).
  replace (l_throttle u) with 0%nat by (rewrite Eu; reflexivity).
  cbn [Nat.eqb].
  unfold createLogicAction.
  replace (l_intercept u a) with [CAllow a None] by (rewrite Eu; reflexivity).
  cbn [run_intercept]. unfold allow, handleNextOrDispatch.
  cbn [applyAllowRejectNextDefaults]. unfold shouldDispatch.
  rewrite Ha. cbn [negb]. rewrite Ht, (strict_eq_VStr t).
  change (strict_eq (VStr "auto") (VStr "auto")) with true. cbn [negb truthy].
  unfold postIfDefinedOrComplete, logicActionObs_next, logicActionObs_complete.
  rewrite Ha.
  unfold process_or_complete, processFn. rewrite Ha.
  replace (l_process u a) with
    {| p_calls := [PDispatch VUndef None; PDone]; p_outcome := PReturn VUndef |}
    by (rewrite Eu; reflexivity).
  cbn [p_calls p_outcome run_calls]. unfold dispatch, done.
  replace (dispatchMultiple (l_processOptions u)) with true by (rewrite Eu; reflexivity).
  replace (dispatchReturn (l_processOptions u)) with false by (rewrite Eu; reflexivity).
  cbn [orb negb].
  unfold dispatch_complete, dispatch_terminate, dispatch_end, cancelled_complete.
  unfold try_catch, with_inst. run_prims.
  rewrite lookup_last. wsimpl. rewrite alter_last. wsimpl.
  rewrite bottom_run, Hn. wsimpl.
  repeat (progress (rewrite ?alter_last, ?lookup_last; wsimpl; cbn [Nat.eqb])).
  repeat rewrite <- app_assoc. rewrite app_nil_r. reflexivity.
Qed.

(* ===================================================================== *)
(** ** Actions an intercept hook hands to [dispatch] *)
(* ===================================================================== *)

(** X21. Wrapping and unwrapping an intercept action is a round trip: a
    truthy action wrapped by [wrapActionForIntercept] is recognised by
    [isInterceptAction] and [unwrapInterceptAction] gives it back.  So
    both handlers of the queue hand such an action to the store as it
    is, whatever [successType] and [failType] are.  A falsy value is not
    wrapped. *)
Theorem intercept_action_round_trip sd logic action self act :
  truthy act = true ->
  isInterceptAction (wrapActionForIntercept act) = true /\
  unwrapInterceptAction (wrapActionForIntercept act) = act /\
  mapToActionAndDispatch sd logic action self (wrapActionForIntercept act)
  = storeDispatch sd action self act /\
  mapErrorToActionAndDispatch sd logic action self (wrapActionForIntercept act)
  = storeDispatch sd action self act.
Proof.
  intros Ha.
  assert (Hw : wrapActionForIntercept act = VObj [("__interceptAction", act)]).
  { unfold wrapActionForIntercept. rewrite Ha. reflexivity. }
  assert (Hi : isInterceptAction (VObj [("__interceptAction", act)]) = true).
  { unfold isInterceptAction. cbn. assumption. }
  rewrite Hw. split; [assumption|]. split; [reflexivity|].
  unfold mapToActionAndDispatch, mapErrorToActionAndDispatch. rewrite Hi.
  change (unwrapInterceptAction (VObj [("__interceptAction", act)])) with act.
  rewrite Ha. split; reflexivity.
Qed.

(* ===================================================================== *)
(** ** Every run is made of the effects of [Prim] *)
(* ===================================================================== *)

Lemma Steps_trans production units w1 w2 w3 :
  Steps production units w1 w2 -> Steps production units w2 w3 ->
  Steps production units w1 w3.
Proof.
  intros H12 H23. induction H23 as [|w3 w4 H23 IH Hp]; [assumption|].
  eapply steps_more; eassumption.
Qed.

Lemma Steps_one production units w1 w2 :
  Prim production units w1 w2 -> Steps production units w1 w2.
Proof. intros H. eapply steps_more; [apply steps_none | exact H]. Qed.

Lemma Prim_length production units w w' :
  Prim production units w w' -> (length (insts w) <= length (insts w'))%nat.
Proof.
  intros H. destruct H; cbn; rewrite ?length_alter, ?length_app; cbn; lia.
Qed.

Lemma Steps_length production units w w' :
  Steps production units w w' -> (length (insts w) <= length (insts w'))%nat.
Proof.
  intros H. induction H as [|w1 w2 _ IH Hp]; [lia|].
  pose proof (Prim_length _ _ _ _ Hp). lia.
Qed.

Lemma lasting_has production units (P : World -> Prop) i :
  (forall w, P w -> has i w) -> lasting production units P (has i).
Proof.
  intros HP w w' Hw Hs. pose proof (Steps_length _ _ _ _ Hs). specialize (HP w Hw).
  unfold has in *. lia.
Qed.

Lemma lasting_always production units (P : World -> Prop) :
  lasting production units P always.
Proof. intros w w' _ _. exact I. Qed.

Lemma queue_open_has i w : queue_open i w -> has i w.
Proof. intros (x & Hx & _). eapply lookup_lt_Some. eassumption. Qed.

Lemma lookup_has i w x : insts w !! i = Some x -> has i w.
Proof. apply lookup_lt_Some. Qed.

Section WalkRules.

Variable production : bool.
Variable units : list Logic.
Context {A B : Type}.

Lemma walks_ret P (a : A) : walks production units P (ret a).
Proof. intros w _. apply steps_none. Qed.

Lemma walks_throw P e : walks production units P (@throw A e).
Proof. intros w _. apply steps_none. Qed.

Lemma walks_halt P : walks production units P (@halt A).
Proof. intros w _. apply steps_none. Qed.

Lemma walks_weaken (P Q : World -> Prop) (m : M A) :
  (forall w, P w -> Q w) -> walks production units Q m -> walks production units P m.
Proof. intros HPQ Hm w Hw. apply Hm, HPQ, Hw. Qed.

Lemma walks_bind (P Q : World -> Prop) (m : M A) (f : A -> M B) :
  walks production units P m -> lasting production units P Q ->
  (forall a, walks production units Q (f a)) ->
  walks production units P (bind m f).
Proof.
  intros Hm Hl Hf w Hw. unfold bind. specialize (Hm w Hw).
  pose proof (Hl w _ Hw Hm) as HQ.
  destruct (m w) as [a w1|e w1|w1]; cbn [world_of] in *; try assumption.
  eapply Steps_trans; [exact Hm | apply Hf; assumption].
Qed.

Lemma walks_try (P Q : World -> Prop) (m : M A) (h : JsVal -> M A) :
  walks production units P m -> lasting production units P Q ->
  (forall e, walks production units Q (h e)) ->
  walks production units P (try_catch m h).
Proof.
  intros Hm Hl Hh w Hw. unfold try_catch. specialize (Hm w Hw).
  pose proof (Hl w _ Hw Hm) as HQ.
  destruct (m w) as [a w1|e w1|w1]; cbn [world_of] in *; try assumption.
  eapply Steps_trans; [exact Hm | apply Hh; assumption].
Qed.

End WalkRules.

Section WalkPrims.

Variable production : bool.
Variable units : list Logic.

Lemma walks_with_inst (P : World -> Prop) i (f : Instance -> M unit) :
  (forall x, walks production units (fun w => P w /\ insts w !! i = Some x) (f x)) ->
  walks production units P (with_inst i f).
Proof.
  intros Hf w Hw. unfold with_inst. destruct (insts w !! i) as [x|] eqn:Hx.
  - apply Hf. auto.
  - apply steps_none.
Qed.

Lemma walks_with_inst_plain (P : World -> Prop) i (f : Instance -> M unit) :
  (forall x, walks production units P (f x)) ->
  walks production units P (with_inst i f).
Proof.
  intros Hf. apply walks_with_inst. intros x.
  eapply walks_weaken; [|apply Hf]. intros w [Hw _]. exact Hw.
Qed.

Lemma walks_event (P : World -> Prop) e :
  is_begin e = false -> is_end e = false -> is_dispatch e = false ->
  (forall w i, P w -> closure_of e = Some i -> has i w) ->
  walks production units P (monitor_next e).
Proof.
  intros Hb He Hd Hc w Hw. cbn. apply Steps_one. apply prim_event; try assumption.
  intros i. apply Hc. assumption.
Qed.

Lemma walks_upd_inst (P : World -> Prop) i f :
  (forall x, dispClosed (f x) = dispClosed x /\
             (warnArmed (f x) = true -> warnArmed x = true)) ->
  walks production units P (upd_inst i f).
Proof. intros Hf w _. cbn. apply Steps_one. apply prim_upd. assumption. Qed.

Lemma walks_console_error (P : World -> Prop) m :
  is_warning m = false -> walks production units P (console_error m).
Proof. intros Hm w _. cbn. apply Steps_one. apply prim_console. assumption. Qed.

Lemma walks_consumer_push (P : World -> Prop) a :
  walks production units P (consumer_push a).
Proof. intros w _. cbn. apply Steps_one. apply prim_consumer. Qed.

Lemma walks_process_push (P : World -> Prop) i a :
  walks production units P (process_push i a).
Proof. intros w _. cbn. apply Steps_one. apply prim_process. Qed.

Lemma walks_set_limiter (P : World -> Prop) k l :
  walks production units P (set_limiter k l).
Proof. intros w _. cbn. apply Steps_one. apply prim_limiter. Qed.

End WalkPrims.

Create HintDb walks.
#[export] Hint Resolve walks_consumer_push walks_process_push walks_set_limiter : walks.

(** The side condition of [walks_event] for an event of the closure the
    precondition speaks of. *)
Ltac event_side :=
  let w := fresh "w" in let i := fresh "i" in
  let Hw := fresh "Hw" in let E := fresh "E" in
  intros w i Hw E; cbn in E;
  first [discriminate E
        | inversion E; subst;
          first [exact Hw | apply (queue_open_has _ _ Hw)
                | destruct Hw as [Hw ?]; first [exact Hw | eapply lookup_has; eassumption]]].

Ltac upd_keeps :=
  intros ?; cbn; split; [reflexivity | intros; first [assumption | discriminate]].

(** [Q] is what the rest of a sequence is entered with, [lasts] proves
    that it holds there. *)
Ltac walk_step Q lasts :=
  lazymatch goal with
  | |- walks _ _ _ (ret _) => apply walks_ret
  | |- walks _ _ _ halt => apply walks_halt
  | |- walks _ _ _ (throw _) => apply walks_throw
  | |- walks _ _ _ (bind _ _) => eapply (walks_bind _ _ _ Q); [|lasts|intros ?]
  | |- walks _ _ _ (try_catch _ _) => eapply (walks_try _ _ _ Q); [|lasts|intros ?]
  | |- walks _ _ _ (with_inst _ _) => apply walks_with_inst_plain; intros ?
  | |- walks _ _ _ (upd_inst _ _) => apply walks_upd_inst; upd_keeps
  | |- walks _ _ _ (monitor_next _) =>
      apply walks_event; [reflexivity | reflexivity | reflexivity | event_side]
  | |- walks _ _ _ (console_error _) => apply walks_console_error; reflexivity
  | |- walks _ _ _ (if ?c then _ else _) => destruct c
  | |- walks _ _ _ (match ?c with _ => _ end) => destruct c
  | |- _ => solve [auto with walks]
  end.

Ltac walk_any := cbv zeta; repeat (walk_step always ltac:(apply lasting_always)).
Ltac walk_has self :=
  cbv zeta;
  repeat (walk_step (has self) ltac:(apply lasting_has; intros ? ?; assumption)).

Section ClosureWalks.

Variable production : bool.
Variable units : list Logic.
Variable store_dispatch : JsVal -> M unit.
Hypothesis store_walks : forall a, walks production units always (store_dispatch a).
Variable logic : Logic.
Variable action : JsVal.
Variable self : nat.
Variable downstream : JsVal -> M unit.
Hypothesis downstream_walks : forall a, walks production units always (downstream a).

Lemma store_walks_any (P : World -> Prop) a : walks production units P (store_dispatch a).
Proof. eapply walks_weaken; [|apply store_walks]. intros w _. exact I. Qed.
Hint Resolve store_walks_any : walks.

Lemma downstream_walks_any (P : World -> Prop) a :
  walks production units P (downstream a).
Proof. eapply walks_weaken; [|apply downstream_walks]. intros w _. exact I. Qed.
Hint Resolve downstream_walks_any : walks.

Lemma cancelled_complete_walks (P : World -> Prop) :
  walks production units P (cancelled_complete self).
Proof. unfold cancelled_complete. walk_any. Qed.
Hint Resolve cancelled_complete_walks : walks.

(** Closing the queue is one effect: the flag, the [end] event and the
    release of [cancelled$] together. *)
Lemma dispatch_terminate_walks (P : World -> Prop) :
  walks production units P (dispatch_terminate action self).
Proof.
  intros w _. unfold dispatch_terminate, with_inst.
  destruct (insts w !! self) as [x|] eqn:Hx; [|apply steps_none].
  destruct (dispClosed x) eqn:Hc; [apply steps_none|].
  unfold dispatch_end, cancelled_complete. run_prims.
  apply Steps_one. rewrite list_alter_alter_eq.
  apply (prim_end production units w self action).
  exists x. auto.
Qed.
Hint Resolve dispatch_terminate_walks : walks.

Lemma storeDispatch_walks act :
  walks production units (queue_open self) (storeDispatch store_dispatch action self act).
Proof.
  unfold storeDispatch. eapply (walks_bind _ _ _ always).
  - intros w Hw. cbn. apply Steps_one. apply prim_dispatch. assumption.
  - apply lasting_always.
  - intros _. apply store_walks.
Qed.

Lemma mapToActionAndDispatch_walks v :
  walks production units (queue_open self)
        (mapToActionAndDispatch store_dispatch logic action self v).
Proof.
  unfold mapToActionAndDispatch. cbv zeta.
  destruct (truthy _); [apply storeDispatch_walks | apply walks_ret].
Qed.

Lemma mapErrorToActionAndDispatch_walks v :
  walks production units (queue_open self)
        (mapErrorToActionAndDispatch store_dispatch logic action self v).
Proof.
  unfold mapErrorToActionAndDispatch.
  destruct (isInterceptAction v); [apply storeDispatch_walks|].
  destruct (configured _).
  - cbv zeta. destruct (truthy _); [apply storeDispatch_walks | apply walks_ret].
  - destruct (instanceofError v); [apply storeDispatch_walks|].
    destruct (_ && _); apply storeDispatch_walks.
Qed.

Lemma tap_next_walks v :
  walks production units (queue_open self) (tap_next store_dispatch logic action self v).
Proof.
  unfold tap_next. eapply (walks_try _ _ _ always).
  - apply mapToActionAndDispatch_walks.
  - apply lasting_always.
  - intros _. apply dispatch_terminate_walks.
Qed.

Lemma tap_error_walks e :
  walks production units (queue_open self) (tap_error store_dispatch logic action self e).
Proof.
  unfold tap_error. eapply (walks_bind _ _ _ always).
  - eapply (walks_try _ _ _ always).
    + apply mapErrorToActionAndDispatch_walks.
    + apply lasting_always.
    + intros _. apply walks_ret.
  - apply lasting_always.
  - intros _. apply dispatch_terminate_walks.
Qed.

Lemma open_from_lookup (P : World -> Prop) x :
  dispClosed x = false ->
  forall w, P w /\ insts w !! self = Some x -> queue_open self w.
Proof. intros Hc w [_ Hx]. exists x. auto. Qed.

Lemma inner_items_walks (P : World -> Prop) items :
  walks production units P (inner_items store_dispatch logic action self items).
Proof.
  revert P. induction items as [|v rest IH]; intros P; cbn [inner_items];
    [apply walks_ret|].
  apply walks_with_inst. intros x. destruct (dispClosed x) eqn:Hc; [apply walks_ret|].
  eapply (walks_bind _ _ _ always).
  - eapply walks_weaken; [apply (open_from_lookup P x); assumption | apply tap_next_walks].
  - apply lasting_always.
  - intros _. apply IH.
Qed.
Hint Resolve inner_items_walks : walks.

Lemma inner_complete_walks (P : World -> Prop) :
  walks production units P (inner_complete action self).
Proof. unfold inner_complete. walk_any. Qed.
Hint Resolve inner_complete_walks : walks.

Lemma inner_error_walks (P : World -> Prop) e :
  walks production units P (inner_error store_dispatch logic action self e).
Proof.
  unfold inner_error. apply walks_with_inst. intros x.
  destruct (dispClosed x) eqn:Hc; [apply walks_ret|].
  eapply walks_weaken; [apply (open_from_lookup P x); assumption | apply tap_error_walks].
Qed.
Hint Resolve inner_error_walks : walks.

Lemma dispatch_next_walks (P : World -> Prop) obs :
  walks production units P (dispatch_next store_dispatch logic action self obs).
Proof. unfold dispatch_next. walk_any. Qed.
Hint Resolve dispatch_next_walks : walks.

Lemma dispatch_complete_walks (P : World -> Prop) :
  walks production units P (dispatch_complete action self).
Proof. unfold dispatch_complete. walk_any. Qed.
Hint Resolve dispatch_complete_walks : walks.

Lemma dispatch_walks (P : World -> Prop) act options :
  walks production units P (dispatch store_dispatch logic action self act options).
Proof. unfold dispatch. walk_any. Qed.
Hint Resolve dispatch_walks : walks.

Lemma done_walks (P : World -> Prop) : walks production units P (done action self).
Proof. apply dispatch_complete_walks. Qed.
Hint Resolve done_walks : walks.

Lemma logicActionObs_next_walks (P : World -> Prop) act :
  walks production units P (logicActionObs_next self downstream act).
Proof. unfold logicActionObs_next. walk_any. Qed.
Hint Resolve logicActionObs_next_walks : walks.

Lemma logicActionObs_complete_walks (P : World -> Prop) :
  walks production units P (logicActionObs_complete self).
Proof. unfold logicActionObs_complete. walk_any. Qed.
Hint Resolve logicActionObs_complete_walks : walks.

Lemma postIfDefinedOrComplete_walks (P : World -> Prop) act :
  walks production units P (postIfDefinedOrComplete self downstream act).
Proof. unfold postIfDefinedOrComplete. walk_any. Qed.
Hint Resolve postIfDefinedOrComplete_walks : walks.

Lemma run_calls_walks (P : World -> Prop) calls :
  walks production units P (run_calls store_dispatch logic action self calls).
Proof.
  revert P. induction calls as [|[act options|] rest IH]; intros P;
    cbn [run_calls]; unfold done; walk_any.
Qed.
Hint Resolve run_calls_walks : walks.

Lemma processFn_walks (P : World -> Prop) a :
  walks production units P (processFn store_dispatch logic action self a).
Proof. unfold processFn. walk_any. Qed.
Hint Resolve processFn_walks : walks.

Lemma process_or_complete_walks (P : World -> Prop) shouldProcess act :
  walks production units P
        (process_or_complete store_dispatch logic action self shouldProcess act).
Proof. unfold process_or_complete. walk_any. Qed.
Hint Resolve process_or_complete_walks : walks.

Lemma handleNextOrDispatch_walks shouldProcess act options :
  walks production units (has self)
        (handleNextOrDispatch store_dispatch logic action self downstream
           shouldProcess act options).
Proof. unfold handleNextOrDispatch. walk_has self. Qed.

Lemma run_intercept_walks calls :
  walks production units (has self)
        (run_intercept store_dispatch logic action self downstream calls).
Proof.
  induction calls as [|[act options|act options] rest IH];
    cbn [run_intercept]; unfold allow, reject; [apply walks_ret| |];
    (eapply (walks_bind _ _ _ (has self));
     [apply handleNextOrDispatch_walks
     |apply lasting_has; intros ? ?; assumption
     |intros _; apply IH]).
Qed.

Lemma cancel_signal_walks :
  walks production units (has self) (cancel_signal action self).
Proof. unfold cancel_signal. walk_has self. Qed.

(** The timer that fires logs its warning and is spent, in one effect. *)
Lemma warn_timer_walks (P : World -> Prop) : walks production units P (warn_timer self).
Proof.
  intros w _. unfold warn_timer, with_inst.
  destruct (insts w !! self) as [x|] eqn:Hx; [|apply steps_none].
  destruct (warnArmed x) eqn:Ha; [|apply steps_none].
  run_prims. apply Steps_one. apply (prim_warn production units w self x); assumption.
Qed.

End ClosureWalks.

#[export] Hint Resolve cancelled_complete_walks dispatch_terminate_walks inner_items_walks
  inner_complete_walks inner_error_walks dispatch_next_walks dispatch_complete_walks
  dispatch_walks done_walks logicActionObs_next_walks logicActionObs_complete_walks
  postIfDefinedOrComplete_walks run_calls_walks processFn_walks
  process_or_complete_walks warn_timer_walks : walks.

Section PipelineWalks.

Variable production : bool.
Variable units : list Logic.
Variable store_dispatch : JsVal -> M unit.
Hypothesis store_walks : forall a, walks production units always (store_dispatch a).
Variable nextThrows : JsVal -> option JsVal.

(** Making a closure is one effect: [begin] and the closure together. *)
Lemma createLogicAction_walks (P : World -> Prop) stage logic downstream action :
  In logic units ->
  (forall a, walks production units always (downstream a)) ->
  walks production units P
        (createLogicAction production store_dispatch stage logic downstream action).
Proof.
  intros Hin Hd w _. unfold createLogicAction. cbv zeta.
  unfold bind at 1. unfold monitor_next at 1. unfold modify at 1.
  unfold bind at 1. unfold push_inst at 1. unfold modify at 1. wsimpl.
  eapply Steps_trans.
  - apply Steps_one. apply (prim_begin production units w stage logic action Hin).
  - apply run_intercept_walks; [assumption | assumption |].
    unfold has. cbn. rewrite length_app. cbn. lia.
Qed.

Lemma call_next_walks (P : World -> Prop) a :
  walks production units P (call_next nextThrows a).
Proof. unfold call_next. walk_any. Qed.
Hint Resolve call_next_walks : walks.

Lemma bottom_walks (P : World -> Prop) a : walks production units P (bottom nextThrows a).
Proof. unfold bottom. walk_any. Qed.

Lemma limiting_walks (P : World -> Prop) stage logic k a :
  (forall a, walks production units always (k a)) ->
  walks production units P (limiting stage logic k a).
Proof.
  intros Hk. eapply walks_weaken; [intros w _; exact I|].
  unfold limiting, debouncing, throttling.
  destruct (Nat.eqb (l_debounce logic) 0).
  - destruct (Nat.eqb (l_throttle logic) 0); [apply Hk|].
    intros w _. destruct (throttled _); [apply steps_none|].
    apply (walks_bind production units always always (set_limiter _ _) (fun _ => k a));
      [apply walks_set_limiter | apply lasting_always | intros _; apply Hk | exact I].
  - intros w _. apply (walks_set_limiter production units always _ _ w I).
Qed.

Lemma cancel_closures_walks (P : World -> Prop) stage ids :
  walks production units P (cancel_closures stage ids).
Proof.
  revert P. induction ids as [|i rest IH]; intros P; cbn [cancel_closures];
    [apply walks_ret|].
  eapply (walks_bind _ _ _ always); [|apply lasting_always|intros _; apply IH].
  apply walks_with_inst. intros x.
  destruct (Nat.eqb (i_stage x) stage); [|apply walks_ret].
  eapply walks_weaken; [|apply cancel_signal_walks].
  intros w [_ Hx]. eapply lookup_has. eassumption.
Qed.

Lemma deliver_walks stages : forall (P : World -> Prop) stage a,
  incl stages units ->
  walks production units P (deliver production store_dispatch nextThrows stage stages a).
Proof.
  induction stages as [|logic rest IH]; intros P stage a Hin; cbn [deliver].
  - apply bottom_walks.
  - assert (Hrest : incl rest units) by (intros l Hl; apply Hin; right; assumption).
    assert (Hlogic : In logic units) by (apply Hin; left; reflexivity).
    intros w Hw. cbv zeta. generalize (length (insts w)). intros n. revert w Hw.
    change (walks production units P
      (bind (if negb (matchesType (l_type logic) (get a "type"))
             then deliver production store_dispatch nextThrows (S stage) rest a
             else ret tt)
         (fun _ => bind
            (if matchesType (l_type logic) (get a "type")
             then limiting stage logic
                    (createLogicAction production store_dispatch stage logic
                       (deliver production store_dispatch nextThrows (S stage) rest)) a
             else ret tt)
            (fun _ => if cancels logic a
                      then cancel_closures stage (seq 0 n)
                      else ret tt)))).
    eapply (walks_bind _ _ _ always); [|apply lasting_always|intros _].
    + destruct (negb _); [apply IH; assumption | apply walks_ret].
    + eapply (walks_bind _ _ _ always); [|apply lasting_always|intros _].
      * destruct (matchesType _ _); [|apply walks_ret].
        apply limiting_walks. intros a'. apply createLogicAction_walks; [assumption|].
        intros a''. apply IH. assumption.
      * destruct (cancels _ _); [apply cancel_closures_walks | apply walks_ret].
Qed.

End PipelineWalks.

Lemma entry_walks cfg fuel : forall (P : World -> Prop) a,
  walks (cfg_production cfg) (pipeline cfg) P (entry cfg fuel a).
Proof.
  induction fuel as [|fuel IH]; intros P a; cbn [entry].
  - apply walks_halt.
  - eapply (walks_bind _ _ _ always); [|apply lasting_always|intros _].
    + apply walks_event; try reflexivity. intros w i _ E. discriminate E.
    + apply deliver_walks; [|apply incl_refl].
      intros act. destruct (storeThrows cfg act); [apply walks_throw | apply IH].
Qed.

Lemma store_dispatch_of_walks cfg fuel (P : World -> Prop) a :
  walks (cfg_production cfg) (pipeline cfg) P (store_dispatch_of cfg fuel a).
Proof.
  unfold store_dispatch_of.
  destruct (storeThrows cfg a); [apply walks_throw | apply entry_walks].
Qed.

Lemma incl_drop {A} n (l : list A) : incl (drop n l) l.
Proof.
  intros x Hx. apply list_elem_of_In. apply list_elem_of_In in Hx.
  apply list_elem_of_lookup in Hx as [i Hi]. rewrite lookup_drop in Hi.
  eapply list_elem_of_lookup_2. eassumption.
Qed.

Section StepWalks.

Variable cfg : Config.
Variable fuel : nat.

Lemma downstream_of_walks (P : World -> Prop) stage a :
  walks (cfg_production cfg) (pipeline cfg) P (downstream_of cfg fuel stage a).
Proof.
  unfold downstream_of. apply deliver_walks; [|apply incl_drop].
  intros act. apply store_dispatch_of_walks.
Qed.

Lemma in_closure_walks (P : World -> Prop) i f :
  (forall logic x,
     pipeline cfg !! i_stage x = Some logic ->
     walks (cfg_production cfg) (pipeline cfg)
           (fun w => P w /\ insts w !! i = Some x) (f logic x)) ->
  walks (cfg_production cfg) (pipeline cfg) P (in_closure cfg i f).
Proof.
  intros Hf. unfold in_closure. apply walks_with_inst. intros x.
  destruct (pipeline cfg !! i_stage x) as [logic|] eqn:Hl; [|apply walks_ret].
  apply Hf. assumption.
Qed.

Lemma step_walks ev (P : World -> Prop) :
  walks (cfg_production cfg) (pipeline cfg) P (step cfg fuel ev).
Proof.
  pose proof (fun a => store_dispatch_of_walks cfg fuel always a) as Hs.
  pose proof (fun stage a => downstream_of_walks always stage a) as Hd.
  destruct ev as [a|i act options|i act options|i act options|i|i v|i e|i|stage|stage|i];
    cbn [step].
  - apply entry_walks.
  - apply in_closure_walks. intros logic x Hl.
    eapply walks_weaken; [|apply handleNextOrDispatch_walks; [apply Hs | apply Hd]].
    intros w [_ Hx]. eapply lookup_has. eassumption.
  - apply in_closure_walks. intros logic x Hl.
    eapply walks_weaken; [|apply handleNextOrDispatch_walks; [apply Hs | apply Hd]].
    intros w [_ Hx]. eapply lookup_has. eassumption.
  - intros w Hw. destruct (process_called w i); [|apply steps_none].
    revert w Hw. apply in_closure_walks. intros logic x Hl.
    apply dispatch_walks. apply Hs.
  - intros w Hw. destruct (process_called w i); [|apply steps_none].
    revert w Hw. apply in_closure_walks. intros logic x Hl. apply done_walks.
  - apply in_closure_walks. intros logic x Hl.
    destruct (dispClosed x) eqn:Hc; cbn [negb andb]; [apply walks_ret|].
    destruct (negb _); [|apply walks_ret].
    eapply walks_weaken; [|apply tap_next_walks; apply Hs].
    intros w [_ Hx]. exists x. auto.
  - apply in_closure_walks. intros logic x Hl.
    destruct (negb _); [|apply walks_ret]. apply inner_error_walks. apply Hs.
  - apply in_closure_walks. intros logic x Hl.
    destruct (negb _); [|apply walks_ret]. apply inner_complete_walks.
  - destruct (pipeline cfg !! stage) as [logic|] eqn:Hl; [|apply walks_ret].
    intros w Hw. destruct (Nat.eqb (l_debounce logic) 0); [apply steps_none|].
    destruct (debounced (limiters w stage)) as [a|]; [|apply steps_none].
    assert (Hin : In logic (pipeline cfg)).
    { apply list_elem_of_In. eapply list_elem_of_lookup_2. eassumption. }
    apply (walks_bind (cfg_production cfg) (pipeline cfg) always always
             (set_limiter stage (mkLimiter None (throttled (limiters w stage))))
             (fun _ => throttling stage logic
                         (createLogicAction (cfg_production cfg) (store_dispatch_of cfg fuel)
                            stage logic (downstream_of cfg fuel stage)) a));
      [apply walks_set_limiter | apply lasting_always | intros _ | exact I].
    unfold throttling. destruct (Nat.eqb (l_throttle logic) 0).
    + apply createLogicAction_walks; [apply Hs | assumption | apply Hd].
    + intros w1 _. destruct (throttled _); [apply steps_none|].
      apply (walks_bind (cfg_production cfg) (pipeline cfg) always always
               (set_limiter _ _)
               (fun _ => createLogicAction (cfg_production cfg) (store_dispatch_of cfg fuel)
                           stage logic (downstream_of cfg fuel stage) a));
        [apply walks_set_limiter | apply lasting_always | intros _ | exact I].
      apply createLogicAction_walks; [apply Hs | assumption | apply Hd].
  - intros w _.
    apply (walks_set_limiter (cfg_production cfg) (pipeline cfg) always _ _ w I).
  - apply warn_timer_walks.
Qed.

Lemma run_walks evs : forall (P : World -> Prop),
  walks (cfg_production cfg) (pipeline cfg) P (run cfg fuel evs).
Proof.
  induction evs as [|ev rest IH]; intros P; cbn [run]; [apply walks_ret|].
  eapply (walks_bind _ _ _ always); [apply step_walks | apply lasting_always |].
  intros _. apply IH.
Qed.

End StepWalks.

(* ===================================================================== *)
(** ** The order of the events of a closure *)
(* ===================================================================== *)

Lemma app_snoc_split {A} (l pre post : list A) e e0 :
  l ++ [e] = pre ++ e0 :: post ->
  (pre = l /\ e0 = e /\ post = []) \/
  (exists post', post = post' ++ [e] /\ l = pre ++ e0 :: post').
Proof.
  revert pre. induction l as [|x l IH]; intros pre H.
  - destruct pre as [|y pre]; cbn in H.
    + inversion H; subst. left. auto.
    + inversion H as [[Hy Hp]]. destruct pre; discriminate.
  - destruct pre as [|y pre]; cbn in H.
    + inversion H; subst. right. exists l. auto.
    + inversion H as [[Hy Hp]]. subst y. destruct (IH pre Hp) as [(-> & -> & ->)|(post' & -> & ->)].
      * left. auto.
      * right. exists post'. auto.
Qed.

Lemma end_event e i : is_end e = true -> closure_of e = Some i -> exists a, e = EvEnd i a.
Proof. destruct e; cbn; try discriminate. intros _ E. inversion E. eauto. Qed.

Lemma in_order_nil : in_order [].
Proof. intros pre e post i H. destruct pre; discriminate. Qed.

Lemma in_order_snoc l e :
  in_order l ->
  (forall i, closure_of e = Some i ->
     (if is_begin e
      then forall e', In e' l -> closure_of e' <> Some i
      else exists a, In (EvBegin i a) l) /\
     (is_end e = true \/ is_dispatch e = true -> forall a, ~ In (EvEnd i a) l)) ->
  in_order (l ++ [e]).
Proof.
  intros Hl He pre e0 post i Hsplit Hc.
  apply app_snoc_split in Hsplit as [(-> & -> & ->)|(post' & -> & ->)].
  - split; [apply (He i Hc)|]. intros _ e' [].
  - destruct (Hl pre e0 post' i eq_refl Hc) as [H1 H2]. split; [exact H1|].
    intros Hend e' Hin Hc'. apply in_app_or in Hin as [Hin|[<-|[]]].
    + apply H2; assumption.
    + destruct (end_event _ _ Hend Hc) as [a ->].
      destruct (He i Hc') as [_ Hno].
      destruct (is_end e) eqn:E1.
      { exfalso. apply (Hno (or_introl eq_refl) a). apply in_or_app. right. left. reflexivity. }
      destruct (is_dispatch e) eqn:E2.
      { exfalso. apply (Hno (or_intror eq_refl) a). apply in_or_app. right. left. reflexivity. }
      auto.
Qed.

Lemma in_order_snoc_other l e :
  in_order l -> closure_of e = None -> in_order (l ++ [e]).
Proof. intros Hl He. apply in_order_snoc; [assumption|]. intros i E. congruence. Qed.

Lemma closed_alter f i w j :
  (forall x, dispClosed x = true -> dispClosed (f x) = true) ->
  closed w j -> closed (set_insts (alter f i (insts w)) w) j.
Proof.
  intros Hf (x & Hx & Hc). unfold closed. cbn.
  destruct (decide (i = j)) as [->|Hne].
  - exists (f x). rewrite list_lookup_alter_eq, Hx. split; [reflexivity | apply Hf, Hc].
  - exists x. rewrite list_lookup_alter_ne by assumption. auto.
Qed.

Lemma not_closed_open i w : queue_open i w -> ~ closed w i.
Proof. intros (x & Hx & Hc) (x' & Hx' & Hc'). congruence. Qed.

Lemma tidy_Prim production units w w' :
  Prim production units w w' -> tidy w -> tidy w'.
Proof.
  intros Hp (Ho & Hhas & Hbeg & Hend).
  assert (Hquiet : forall w2,
    monitor w2 = monitor w -> length (insts w2) = length (insts w) ->
    (forall j, closed w j -> closed w2 j) -> tidy w2).
  { intros w2 Hm Hl Hc. unfold tidy, has. rewrite Hm, Hl.
    split; [assumption|]. split; [exact Hhas|]. split; [exact Hbeg|].
    intros i a Hin. apply Hc. eapply Hend. eassumption. }
  destruct Hp as [e Hb He Hd Hc|i a d Hopen|stage logic a Hin|i a Hopen|i f Hf
                 |i x Hx Ha|m Hm|a|i a|k l].
  - (* an event that is not begin, end or dispatch *)
    unfold tidy, has, closed. cbn.
    split; [|split; [|split]].
    + apply in_order_snoc; [assumption|]. intros i E. rewrite Hb. split.
      * apply Hbeg. apply Hc. assumption.
      * rewrite He, Hd. intros [?|?]; discriminate.
    + intros e' i Hin E. apply in_app_or in Hin as [Hin|[<-|[]]].
      * eapply Hhas; eassumption.
      * apply Hc. assumption.
    + intros i Hi. destruct (Hbeg i Hi) as [a Hin]. exists a. apply in_or_app. auto.
    + intros i a Hin. apply in_app_or in Hin as [Hin|[E|[]]]; [|subst e; discriminate].
      apply (Hend i a Hin).
  - (* dispatch *)
    pose proof (queue_open_has _ _ Hopen) as Hi.
    unfold tidy, has, closed. cbn.
    split; [|split; [|split]].
    + apply in_order_snoc; [assumption|]. intros j E. cbn in E. inversion E; subst j.
      cbn [is_begin]. split; [apply Hbeg; assumption|].
      intros _ a' Hin. apply (not_closed_open _ _ Hopen). eapply Hend. eassumption.
    + intros e' j Hin E. apply in_app_or in Hin as [Hin|[<-|[]]].
      * eapply Hhas; eassumption.
      * cbn in E. inversion E; subst. assumption.
    + intros j Hj. destruct (Hbeg j Hj) as [a' Hin]. exists a'. apply in_or_app. auto.
    + intros j a' Hin. apply in_app_or in Hin as [Hin|[E|[]]]; [|discriminate].
      apply (Hend j a' Hin).
  - (* begin *)
    unfold tidy, has, closed. cbn. rewrite length_app. cbn.
    split; [|split; [|split]].
    + apply in_order_snoc; [assumption|]. intros j E. cbn in E. inversion E; subst j.
      cbn [is_begin is_end is_dispatch]. split.
      * intros e' Hin' E'. pose proof (Hhas e' _ Hin' E') as Hlt. unfold has in Hlt. lia.
      * intros [?|?]; discriminate.
    + intros e' j Hin' E. apply in_app_or in Hin' as [Hin'|[<-|[]]].
      * pose proof (Hhas e' j Hin' E) as Hlt. unfold has in Hlt. lia.
      * cbn in E. inversion E; subst. lia.
    + intros j Hj. destruct (decide (j = length (insts w))) as [->|Hne].
      * exists a. apply in_or_app. right. left. reflexivity.
      * destruct (Hbeg j) as [a' Hin']; [unfold has; lia|].
        exists a'. apply in_or_app. auto.
    + intros j a' Hin'. apply in_app_or in Hin' as [Hin'|[E|[]]]; [|discriminate].
      destruct (Hend j a' Hin') as (x & Hx & Hcl). exists x.
      split; [apply lookup_app_l_Some; assumption | assumption].
  - (* end *)
    pose proof (queue_open_has _ _ Hopen) as Hi.
    unfold tidy, has. cbn. rewrite length_alter.
    split; [|split; [|split]].
    + apply in_order_snoc; [assumption|]. intros j E. cbn in E. inversion E; subst j.
      cbn [is_begin]. split; [apply Hbeg; assumption|].
      intros _ a' Hin. apply (not_closed_open _ _ Hopen). eapply Hend. eassumption.
    + intros e' j Hin E. apply in_app_or in Hin as [Hin|[<-|[]]].
      * eapply Hhas; eassumption.
      * cbn in E. inversion E; subst. assumption.
    + intros j Hj. destruct (Hbeg j Hj) as [a' Hin]. exists a'. apply in_or_app. auto.
    + intros j a' Hin. unfold closed. cbn.
      apply in_app_or in Hin as [Hin|[E|[]]].
      * destruct (Hend j a' Hin) as (x & Hx & Hcl).
        destruct (decide (i = j)) as [->|Hne].
        -- exists (ended x). rewrite list_lookup_alter_eq, Hx. split; reflexivity.
        -- exists x. rewrite list_lookup_alter_ne by assumption. auto.
      * inversion E; subst j a'. destruct Hopen as (x & Hx & _).
        exists (ended x). rewrite list_lookup_alter_eq, Hx. split; reflexivity.
  - (* a change of a closure *)
    apply Hquiet; [reflexivity | cbn; apply length_alter |].
    intros j Hj. apply closed_alter; [|assumption].
    intros x Hx. destruct (Hf x) as [E _]. congruence.
  - (* the warning of a timer *)
    apply Hquiet; [reflexivity | cbn; apply length_alter |].
    intros j (y & Hy & Hcl). unfold closed. cbn.
    destruct (decide (i = j)) as [->|Hne].
    + exists (set_warnArmed false y). rewrite list_lookup_alter_eq, Hy. auto.
    + exists y. rewrite list_lookup_alter_ne by assumption. auto.
  - apply Hquiet; auto.
  - apply Hquiet; auto.
  - apply Hquiet; auto.
  - apply Hquiet; auto.
Qed.

Lemma tidy_Steps production units w w' :
  Steps production units w w' -> tidy w -> tidy w'.
Proof.
  intros H Hw. induction H as [|w1 w2 _ IH Hp]; [assumption|].
  eapply tidy_Prim; [exact Hp | exact IH].
Qed.

Lemma tidy_init_world : tidy init_world.
Proof.
  split; [apply in_order_nil|]. split; [intros e i []|]. split.
  - intros i Hi. unfold has in Hi. cbn in Hi. lia.
  - intros i a [].
Qed.

(** X22. Take a run of the middleware in which the application
    dispatches no [null] and no [undefined], with hooks as [InterceptCall]
    and [ProcessCall] have them (an intercept hook returns, and a hook
    calls the callbacks of its own closure only) and patterns as [Pattern]
    has them (no regular expression with the [g] or the [y] flag).
    Whatever the units are, and whatever the store, the consumer and the
    timers do, in its monitor stream every event of a closure comes
    after the [begin] of that closure, a closure emits [begin] once and
    [end] at most once, and after its [end] it emits no [dispatch]. *)
Theorem monitor_events_in_order cfg fuel evs :
  Forall carries_action evs ->
  in_order (monitor (world_of (run cfg fuel evs init_world))).
Proof.
  intros _.
  apply (tidy_Steps (cfg_production cfg) (pipeline cfg) init_world).
  - apply (run_walks cfg fuel evs always). exact I.
  - apply tidy_init_world.
Qed.

(* ===================================================================== *)
(** ** The [warnTimeout] timer *)
(* ===================================================================== *)

Lemma warned_app l1 l2 : warned (l1 ++ l2) = warned l1 ++ warned l2.
Proof. unfold warned. apply flat_map_app. Qed.

Lemma timers_ok_Prim production units w w' :
  Prim production units w w' -> timers_ok production units w -> timers_ok production units w'.
Proof.
  intros Hp (Hnd & Hspent & Hclosed & Harmed & Hmay).
  assert (Hupd : forall i f,
    (forall x, (dispClosed (f x) = true -> dispClosed x = true \/ warnArmed (f x) = false) /\
               (warnArmed (f x) = true -> warnArmed x = true)) ->
    timers_ok production units (set_insts (alter f i (insts w)) w)).
  { intros i f Hf. unfold timers_ok. cbn.
    split; [assumption|]. split; [|split; [|split; [|assumption]]].
    - intros j Hj. destruct (Hspent j Hj) as (x & Hx & Ha).
      destruct (decide (i = j)) as [->|Hne].
      + exists (f x). rewrite list_lookup_alter_eq, Hx. split; [reflexivity|].
        destruct (warnArmed (f x)) eqn:E; [|reflexivity].
        destruct (Hf x) as [_ H]. rewrite (H E) in Ha. discriminate.
      + exists x. rewrite list_lookup_alter_ne by assumption. auto.
    - intros j y Hy Hc. destruct (decide (i = j)) as [->|Hne].
      + rewrite list_lookup_alter_eq in Hy.
        destruct (insts w !! j) as [x|] eqn:Hx; [|discriminate].
        cbn in Hy. inversion Hy; subst y.
        destruct (Hf x) as [H1 H2]. destruct (H1 Hc) as [Hc'|Hoff]; [|assumption].
        destruct (warnArmed (f x)) eqn:E; [|reflexivity].
        rewrite (Hclosed j x Hx Hc') in H2. specialize (H2 eq_refl). discriminate.
      + rewrite list_lookup_alter_ne in Hy by assumption. eapply Hclosed; eassumption.
    - intros j y Hy Ha. destruct (decide (i = j)) as [->|Hne].
      + rewrite list_lookup_alter_eq in Hy.
        destruct (insts w !! j) as [x|] eqn:Hx; [|discriminate].
        cbn in Hy. inversion Hy; subst y.
        destruct (Hf x) as [_ H2]. eapply Harmed; [exact Hx | apply H2, Ha].
      + rewrite list_lookup_alter_ne in Hy by assumption. eapply Harmed; eassumption. }
  assert (Hsame : forall w2,
    console w2 = console w -> insts w2 = insts w -> timers_ok production units w2).
  { intros w2 Hc Hi. unfold timers_ok. rewrite Hc, Hi. auto 6. }
  destruct Hp as [e Hb He Hd Hc|i a d Hopen|stage logic a Hin|i a Hopen|i f Hf
                 |i x Hx Ha|m Hm|a|i a|k l].
  - apply Hsame; reflexivity.
  - apply Hsame; reflexivity.
  - (* a new closure *)
    unfold timers_ok. cbn.
    split; [assumption|]. split; [|split; [|split; [|assumption]]].
    + intros j Hj. destruct (Hspent j Hj) as (x & Hx & Ha).
      exists x. split; [apply lookup_app_l_Some; assumption | assumption].
    + intros j y Hy Hc. apply lookup_app_Some in Hy as [Hy|[_ Hy]].
      * eapply Hclosed; eassumption.
      * destruct (j - length (insts w))%nat; [|discriminate].
        cbn in Hy. inversion Hy; subst y. discriminate.
    + intros j y Hy Ha. apply lookup_app_Some in Hy as [Hy|[_ Hy]].
      * eapply Harmed; eassumption.
      * destruct (j - length (insts w))%nat; [|discriminate].
        cbn in Hy. inversion Hy; subst y. cbn in Ha.
        apply andb_true_iff in Ha as [Hprod Hwt].
        split; [apply negb_true_iff; assumption|].
        exists logic. split; [assumption|].
        apply negb_true_iff, Nat.eqb_neq in Hwt. assumption.
  - (* end *)
    assert (H := Hupd i ended).
    unfold timers_ok in H |- *. cbn in H |- *. apply H.
    intros x. cbn. split; [right; reflexivity | discriminate].
  - apply Hupd. intros x. destruct (Hf x) as [E H]. split; [|assumption].
    intros Hc. left. congruence.
  - (* a warning *)
    unfold timers_ok. cbn. rewrite warned_app. cbn.
    assert (Hnew : ~ In i (warned (console w))).
    { intros Hj. destruct (Hspent i Hj) as (y & Hy & Hoff). congruence. }
    split; [|split; [|split; [|split]]].
    + apply NoDup_ListNoDup. apply NoDup_ListNoDup in Hnd.
      apply List.NoDup_app; [assumption | repeat constructor; intros [] |].
      intros j Hj [<-|[]]. contradiction.
    + intros j Hj. apply in_app_or in Hj as [Hj|[<-|[]]].
      * destruct (Hspent j Hj) as (y & Hy & Hoff).
        destruct (decide (i = j)) as [->|Hne].
        -- exists (set_warnArmed false y). rewrite list_lookup_alter_eq, Hy. auto.
        -- exists y. rewrite list_lookup_alter_ne by assumption. auto.
      * exists (set_warnArmed false x). rewrite list_lookup_alter_eq, Hx. auto.
    + intros j y Hy Hc. destruct (decide (i = j)) as [->|Hne].
      * rewrite list_lookup_alter_eq, Hx in Hy. cbn in Hy. inversion Hy. reflexivity.
      * rewrite list_lookup_alter_ne in Hy by assumption. eapply Hclosed; eassumption.
    + intros j y Hy Ha'. destruct (decide (i = j)) as [->|Hne].
      * rewrite list_lookup_alter_eq, Hx in Hy. cbn in Hy. inversion Hy; subst y. discriminate.
      * rewrite list_lookup_alter_ne in Hy by assumption. eapply Harmed; eassumption.
    + intros _. eapply Harmed; eassumption.
  - (* another message *)
    unfold timers_ok. cbn. rewrite warned_app.
    replace (warned [m]) with (@nil nat) by (destruct m; cbn in *; congruence).
    rewrite app_nil_r. auto 6.
  - apply Hsame; reflexivity.
  - apply Hsame; reflexivity.
  - apply Hsame; reflexivity.
Qed.

Lemma timers_ok_Steps production units w w' :
  Steps production units w w' -> timers_ok production units w -> timers_ok production units w'.
Proof.
  intros H Hw. induction H as [|w1 w2 _ IH Hp]; [assumption|].
  eapply timers_ok_Prim; [exact Hp | exact IH].
Qed.

Lemma timers_ok_init_world production units : timers_ok production units init_world.
Proof.
  unfold timers_ok. cbn. split; [constructor|]. split; [intros i []|].
  split; [intros i x H; rewrite lookup_nil in H; discriminate|].
  split; [intros i x H; rewrite lookup_nil in H; discriminate|].
  intros H. contradiction.
Qed.

(** X23. The timer of [warnTimeout], in any run of the middleware: no
    closure logs the warning twice; in production, or when every unit
    has [warnTimeout] 0, none is logged at all; and once the queue of a
    closure is closed, by completion, by an error or by a cancel, its
    timer is off, so that the timer firing then does nothing. *)
Theorem warn_timer_fires_once_and_not_after_end cfg fuel evs :
  NoDup (warned (console (world_of (run cfg fuel evs init_world)))) /\
  (cfg_production cfg = true \/ Forall (fun logic => l_warnTimeout logic = 0%nat) (pipeline cfg) ->
   warned (console (world_of (run cfg fuel evs init_world))) = []) /\
  (forall i, closed (world_of (run cfg fuel evs init_world)) i ->
     step cfg fuel (EWarnTimer i) (world_of (run cfg fuel evs init_world))
     = Ok tt (world_of (run cfg fuel evs init_world))).
Proof.
  assert (H : timers_ok (cfg_production cfg) (pipeline cfg)
                        (world_of (run cfg fuel evs init_world))).
  { apply (timers_ok_Steps _ _ init_world).
    - apply (run_walks cfg fuel evs always). exact I.
    - apply timers_ok_init_world. }
  destruct H as (Hnd & _ & Hclosed & _ & Hmay).
  split; [assumption|]. split.
  - intros Hoff.
    destruct (warned (console (world_of (run cfg fuel evs init_world)))) as [|i l] eqn:E;
      [reflexivity|].
    destruct Hmay as (Hprod & logic & Hin & Hwt); [discriminate|].
    destruct Hoff as [Hp|Hall]; [congruence|].
    rewrite Forall_forall in Hall. apply list_elem_of_In in Hin.
    specialize (Hall _ Hin). contradiction.
  - intros i (x & Hx & Hc). cbn [step]. unfold warn_timer, with_inst. rewrite Hx.
    rewrite (Hclosed i x Hx Hc). reflexivity.
Qed.

(* ===================================================================== *)
(** ** The theorems at sample inputs *)
(* ===================================================================== *)

Lemma registry_holds_each_item_once_witness :
  NoDup (map Registry.ref
           (Registry.savedLogicArr
              (calls sample_text
                 [Registry.CallMw 0%nat; Registry.CallNext (Some 0%nat);
                  Registry.CallAddLogic [item_b]; Registry.CallAddLogic [item_b];
                  Registry.CallReplaceLogic [item_c; item_a; item_c];
                  Registry.CallMergeNewLogic [item_a; item_c]]
                 sample_registry))).
Proof.
  apply (registry_holds_each_item_once sample_text (Some [item_a]) Registry.empty_deps sample_registry).
  reflexivity.
Defined.

Lemma default_names_in_pipeline_differ_witness :
  let st := calls sample_text
              [Registry.CallMw 0%nat; Registry.CallNext (Some 0%nat);
               Registry.CallAddLogic [item_b; item_c]] sample_registry in
  let units := default [] (Registry.actionEnd st) in
  map Registry.name units = [VStr "L(A)-0"; VStr "L(B)-1"; VStr "L(C)-2"] /\
  exists idxs originals,
    named_from sample_text idxs originals units /\
    NoDup idxs /\
    forall p q o1 o2 u1 u2,
      p <> q ->
      originals !! p = Some o1 -> originals !! q = Some o2 ->
      units !! p = Some u1 -> units !! q = Some u2 ->
      truthy (Registry.name o1) = false -> truthy (Registry.name o2) = false ->
      Registry.name u1 <> Registry.name u2.
Proof.
  intros st units. split; [vm_compute; reflexivity|].
  apply (default_names_in_pipeline_differ sample_text (Some [item_a]) Registry.empty_deps sample_registry
           [Registry.CallMw 0%nat; Registry.CallNext (Some 0%nat);
            Registry.CallAddLogic [item_b; item_c]] units).
  - reflexivity.
  - reflexivity.
Defined.

Lemma pipeline_follows_registration_witness :
  let st := calls sample_text
              [Registry.CallAddLogic [item_b]; Registry.CallAddLogic [item_b];
               Registry.CallReplaceLogic [item_c; item_a];
               Registry.CallMergeNewLogic [item_a; item_b]] applied_registry in
  map Registry.ref (Registry.savedLogicArr st) = [3; 1; 2]%nat /\
  exists units,
    Registry.actionEnd st = Some units /\
    Registry.name_all sample_text (Registry.savedLogicArr st) 0 = inl units /\
    Registry.logicCount st = length (Registry.savedLogicArr st).
Proof.
  intros st. split; [vm_compute; reflexivity|].
  apply (pipeline_follows_registration sample_text (Some [item_a]) Registry.empty_deps sample_registry
           0%nat 0%nat applied_registry).
  - reflexivity.
  - reflexivity.
  - repeat constructor.
Defined.

Lemma mergeNewLogic_idempotent_witness :
  let r := Registry.mergeNewLogic sample_text [item_a; item_b] applied_registry in
  snd r = inl 2%nat /\
  Registry.mergeNewLogic sample_text [item_a; item_b] (fst r) = (fst r, inl 2%nat).
Proof.
  intros r. split; [reflexivity|].
  apply (mergeNewLogic_idempotent sample_text [item_a; item_b] applied_registry (fst r) 2%nat).
  reflexivity.
Defined.

Lemma throwing_call_changes_nothing_witness :
  Registry.addLogic sample_text [item_b] sample_registry
  = (sample_registry, inr Registry.StoreNotDefined) /\
  ((sample_registry = sample_registry /\
    ((Registry.StoreNotDefined = Registry.StoreNotDefined /\
      (Middleware.savedStore (Registry.mwState sample_registry) = None \/
       Registry.savedNext sample_registry = None)) \/
     exists idx rest, Registry.StoreNotDefined = Registry.DuplicateLogic (idx :: rest))) \/
   (Registry.StoreNotDefined = Registry.TypeError /\
    sample_registry
    = Registry.set_logicSub (Registry.unsubscribe (Registry.logicSub sample_registry))
                            sample_registry)).
Proof.
  split; [reflexivity|].
  apply (throwing_call_changes_nothing sample_text sample_registry [item_b]).
  left. reflexivity.
Defined.

Lemma applying_again_drops_added_units_witness :
  let st2 := fst (Registry.addLogic sample_text [item_b] applied_registry) in
  exists st3 units,
    Registry.mw_next sample_text (Some 1%nat) st2 = (st3, None) /\
    Registry.live_units st3 = Some units /\
    2%nat = (length [item_a] + length [item_b])%nat /\
    Registry.name_all sample_text [item_a] 2 = inl units /\
    map Registry.unit units
    = map (fun x => Registry.unit (Registry.body x)) [item_a] /\
    Registry.logicCount st3 = (2 + length [item_a])%nat /\
    Registry.savedLogicArr st3 = [item_a] ++ [item_b] /\
    exists idx rest,
      Registry.addLogic sample_text [item_b] st3
      = (st3, inr (Registry.DuplicateLogic (idx :: rest))).
Proof.
  intros st2.
  apply (applying_again_drops_added_units sample_text [item_a] Registry.empty_deps
           sample_registry 0%nat 0%nat 1%nat [item_b] applied_registry st2 2%nat).
  - reflexivity.
  - reflexivity.
  - discriminate.
  - reflexivity.
Defined.

Lemma NoDup_two_keys (a b : string) : a <> b -> NoDup [a; b].
Proof.
  intros H. apply NoDup_cons. split; [|apply NoDup_singleton].
  intros Hin. apply list_elem_of_In in Hin. destruct Hin as [E|[]]. congruence.
Qed.

Lemma NoDup_three_keys (a b c : string) : a <> b -> a <> c -> b <> c -> NoDup [a; b; c].
Proof.
  intros Hab Hac Hbc. apply NoDup_cons. split; [|apply NoDup_two_keys; assumption].
  intros Hin. apply list_elem_of_In in Hin. destruct Hin as [E|[E|[]]]; congruence.
Qed.

Lemma addDeps_extends_and_never_overrides_witness :
  let d := {| Registry.own := [("b", Registry.DepNum 3)];
              Registry.inherited := Registry.object_prototype |} in
  let st := Registry.set_deps d sample_registry in
  let props := [("httpClient", Registry.DepRef 100); ("b", Registry.DepNum 3)] in
  let st' := fst (Registry.addDeps (Registry.DObject props) st) in
  Registry.own (Registry.deps st')
  = [("b", Registry.DepNum 3); ("httpClient", Registry.DepRef 100)] /\
  (@None Registry.Error = None ->
   (forall k v, In (k, v) props -> Registry.read (Registry.deps st') k = v) /\
   (forall k, ~ In k (map fst props) ->
      Registry.read (Registry.deps st') k = Registry.read (Registry.deps st) k)) /\
  (forall k, Registry.defined (Registry.read (Registry.deps st) k) = true ->
     Registry.read (Registry.deps st') k = Registry.read (Registry.deps st) k) /\
  Registry.inherited (Registry.deps st') = Registry.inherited (Registry.deps st).
Proof.
  intros d st props st'. split; [reflexivity|].
  apply (addDeps_extends_and_never_overrides props st st' None).
  - apply NoDup_two_keys. discriminate.
  - reflexivity.
Defined.

(** [addDeps({ a: 1, toString: f, z: 2 })] on the default [deps]: [a] is
    added, [toString] reads as defined through the prototype chain and
    [f] is another function, so the call throws there, and [z] is not
    added. *)
Lemma addDeps_throws_half_way_witness :
  let st := sample_registry in
  let d1 := {| Registry.own := [("a", Registry.DepNum 1)];
               Registry.inherited := Registry.object_prototype |} in
  let st1 := Registry.set_deps d1 sample_registry in
  Registry.read (Registry.deps st) "toString" = Registry.DepRef 8 /\
  Registry.addDeps
    (Registry.DObject ([("a", Registry.DepNum 1)]
                       ++ [("toString", Registry.DepRef 100); ("z", Registry.DepNum 2)])) st
  = (st1, Some (Registry.AddDepsOverride "toString")) /\
  (forall k' v', In (k', v') [("a", Registry.DepNum 1)] ->
     Registry.read (Registry.deps st1) k' = v') /\
  (forall k' v', In (k', v') [("z", Registry.DepNum 2)] ->
     Registry.read (Registry.deps st1) k' = Registry.read (Registry.deps st) k').
Proof.
  intros st d1 st1. split; [reflexivity|].
  apply (addDeps_throws_half_way [("a", Registry.DepNum 1)] "toString" (Registry.DepRef 100)
           [("z", Registry.DepNum 2)] st st1).
  - apply NoDup_three_keys; discriminate.
  - reflexivity.
  - reflexivity.
  - reflexivity.
Defined.


Lemma createLogic_dispatch_mode_witness :
  let r := CreateLogic.createLogic false (sample_options "A" (Some returning_process) None)
                                   (CreateLogic.loaded []) in
  exists logic u,
    snd r = inl logic /\
    CreateLogic.as_unit (fst r) logic = Some u /\
    dispatchReturn (l_processOptions u) = true /\
    dispatchMultiple (l_processOptions u) = false /\
    successType (l_processOptions u) = None /\
    failType (l_processOptions u) = None /\
    l_intercept u = identityValidation /\
    l_process u = CreateLogic.fn_body returning_process.
Proof.
  intros r.
  destruct (createLogic_dispatch_mode false (sample_options "A" (Some returning_process) None)
              (CreateLogic.loaded []) (fst r)
              (match snd r with
               | inl logic => logic
               | inr _ =>
                   {| CreateLogic.r_name := CreateLogic.TyUndefined;
                      CreateLogic.r_type := CreateLogic.TyUndefined;
                      CreateLogic.r_cancelType := CreateLogic.TyUndefined;
                      CreateLogic.r_latest := false; CreateLogic.r_debounce := 0;
                      CreateLogic.r_throttle := 0; CreateLogic.r_validate := None;
                      CreateLogic.r_transform := None;
                      CreateLogic.r_process := CreateLogic.emptyProcess;
                      CreateLogic.r_processOptions := 0; CreateLogic.r_warnTimeout := None |}
               end))
    as (u & Hu & H).
  - reflexivity.
  - discriminate.
  - eexists. exists u. split; [reflexivity|]. split; [exact Hu | exact H].
Defined.

Lemma shared_processOptions_accumulate_witness :
  let env := CreateLogic.loaded [CreateLogic.empty_object] in
  let r1 := CreateLogic.createLogic false (sample_options "A" (Some returning_process)
                                                          (Some 0%nat)) env in
  let r2 := CreateLogic.createLogic false (sample_options "B" (Some done_process)
                                                          (Some 0%nat)) (fst r1) in
  exists logic1 logic2 u1 u2,
    snd r1 = inl logic1 /\ snd r2 = inl logic2 /\
    CreateLogic.as_unit (fst r1) logic1 = Some (plain_unit "A" identityValidation
                                                  (CreateLogic.fn_body returning_process)
                                                  return_mode) /\
    CreateLogic.as_unit (fst r2) logic1 = Some u1 /\
    CreateLogic.as_unit (fst r2) logic2 = Some u2 /\
    l_processOptions u1 = l_processOptions u2 /\
    dispatchReturn (l_processOptions u1) = true /\
    dispatchMultiple (l_processOptions u1) = true.
Proof.
  intros env r1 r2.
  destruct (shared_processOptions_accumulate false
              (sample_options "A" (Some returning_process) (Some 0%nat))
              (sample_options "B" (Some done_process) (Some 0%nat))
              0%nat CreateLogic.empty_object env (fst r1) (fst r2)
              (match snd r1 with
               | inl logic => logic
               | inr _ =>
                   {| CreateLogic.r_name := CreateLogic.TyUndefined;
                      CreateLogic.r_type := CreateLogic.TyUndefined;
                      CreateLogic.r_cancelType := CreateLogic.TyUndefined;
                      CreateLogic.r_latest := false; CreateLogic.r_debounce := 0;
                      CreateLogic.r_throttle := 0; CreateLogic.r_validate := None;
                      CreateLogic.r_transform := None;
                      CreateLogic.r_process := CreateLogic.emptyProcess;
                      CreateLogic.r_processOptions := 0; CreateLogic.r_warnTimeout := None |}
               end)
              (match snd r2 with
               | inl logic => logic
               | inr _ =>
                   {| CreateLogic.r_name := CreateLogic.TyUndefined;
                      CreateLogic.r_type := CreateLogic.TyUndefined;
                      CreateLogic.r_cancelType := CreateLogic.TyUndefined;
                      CreateLogic.r_latest := false; CreateLogic.r_debounce := 0;
                      CreateLogic.r_throttle := 0; CreateLogic.r_validate := None;
                      CreateLogic.r_transform := None;
                      CreateLogic.r_process := CreateLogic.emptyProcess;
                      CreateLogic.r_processOptions := 0; CreateLogic.r_warnTimeout := None |}
               end))
    as (u1 & u2 & Hu1 & Hu2 & Hsame & Hr & Hm); try reflexivity.
  eexists. eexists. exists u1, u2.
  split; [reflexivity|]. split; [reflexivity|]. split; [reflexivity|].
  split; [exact Hu1|]. split; [exact Hu2|]. split; [exact Hsame|].
  split; [exact Hr | exact Hm].
Defined.

Lemma monitor_events_in_order_witness :
  let evs := [EAction (action_of "SEARCH"); EAction (action_of "SEARCH");
              EInnerNext 0 (action_of "RESULT"); EInnerNext 1 (action_of "RESULT")] in
  Forall carries_action evs /\
  in_order (monitor (world_of (run (quiet_config [latest_unit]) 3 evs init_world))).
Proof.
  intros evs.
  assert (H : Forall carries_action evs) by (repeat constructor).
  split; [exact H|].
  apply (monitor_events_in_order (quiet_config [latest_unit]) 3 evs H).
Defined.

Lemma cancel_action_closes_closures_witness :
  let cfg := quiet_config [slow_ping_unit] in
  let w := world_of (run cfg 3 [EAction (action_of "PING")] init_world) in
  let r := deliver false (store_dispatch_of cfg 3) (fun _ => None) 0
                   [slow_ping_unit] (action_of "STOP") w in
  closed (world_of r) 0 /\
  silent_since 0 (world_of r)
    (world_of (run cfg 3 [EAllow 0 (action_of "PING") None] (world_of r))).
Proof.
  intros cfg w r.
  destruct (cancel_action_closes_closures cfg 3 0 slow_ping_unit [] (action_of "STOP") 0
              (mkInstance 0 (action_of "PING") false false false false 0 false false) w
              eq_refl (or_intror eq_refl) eq_refl eq_refl eq_refl eq_refl) as (Hc & Hs).
  split; [exact Hc | apply Hs].
Defined.

Lemma unmatched_action_goes_straight_to_next_witness :
  entry (quiet_config [cancellable_unit; slow_validate_unit]) 1 (action_of "C") init_world
  = Ok tt (mkWorld [EvTop (action_of "C"); EvBottom (action_of "C")] []
                   [action_of "C"] [] [] (limiters init_world)).
Proof.
  apply (unmatched_action_goes_straight_to_next
           (quiet_config [cancellable_unit; slow_validate_unit]) 0 (action_of "C") init_world).
  - left. reflexivity.
  - repeat constructor.
Defined.

Lemma default_logic_is_transparent_witness :
  let u := {| l_type := PArr [PStr "A"; PStr "*"]; l_cancelType := PAbsent;
              l_latest := false; l_debounce := 0; l_throttle := 0;
              l_intercept := identityValidation;
              l_process := CreateLogic.fn_body CreateLogic.emptyProcess;
              l_processOptions := multi_mode; l_warnTimeout := 0 |} in
  entry (quiet_config [u]) 1 (action_of "B") init_world
  = Ok tt (mkWorld [EvTop (action_of "B"); EvBegin 0 (action_of "B");
                    EvNext 0 (action_of "B") (action_of "B") true;
                    EvBottom (action_of "B"); EvEnd 0 (action_of "B")]
                   [] [action_of "B"] [(0%nat, action_of "B")]
                   [mkInstance 0 (action_of "B") true true true true 0 true false]
                   (limiters init_world)).
Proof.
  intros u.
  eapply (default_logic_is_transparent false ["type"; "warnTimeout"] CreateLogic.TyUndefined
            (CreateLogic.TyArray [CreateLogic.TyString "A"; CreateLogic.TyString "*"])
            (Some 0%nat) (CreateLogic.loaded []) _ _ u (quiet_config [u]) 0
            (action_of "B") "B" init_world).
  - reflexivity.
  - reflexivity.
  - reflexivity.
  - reflexivity.
  - reflexivity.
  - reflexivity.
Defined.

Lemma intercept_action_round_trip_witness :
  isInterceptAction (wrapActionForIntercept (action_of "B")) = true /\
  unwrapInterceptAction (wrapActionForIntercept (action_of "B")) = action_of "B" /\
  mapToActionAndDispatch null_store cancellable_unit (action_of "A") 0
                         (wrapActionForIntercept (action_of "B"))
  = storeDispatch null_store (action_of "A") 0 (action_of "B") /\
  mapErrorToActionAndDispatch null_store cancellable_unit (action_of "A") 0
                              (wrapActionForIntercept (action_of "B"))
  = storeDispatch null_store (action_of "A") 0 (action_of "B").
Proof.
  apply (intercept_action_round_trip null_store cancellable_unit (action_of "A") 0
           (action_of "B")).
  reflexivity.
Defined.
